(** * Layout algebra and loop partitioning of the tile language (tl)

    A shallow embedding of [layout.cc] (Layout, Fragment, the GEMM fragment
    factories, the shared-memory layout factories and the XOR swizzle
    helpers), of [loop_partition.cc] (LoopPartitioner), of the loop
    variables and indices of [Copy] in [op/elem.cc] and of [__pack_half2] in
    [tl_templates/common.h], together with the properties they are expected
    to satisfy.

    Symbolic index expressions are an inductive type with an integer
    semantics.  The arithmetic analyzer the code calls into (simplifier,
    bound inference, affine iteration-map detection) is an interface: the
    development is parametric in an [Engine] and states, as [EngineLaws]
    and [IterMapLaws], the contract it relies on. *)

From Stdlib Require Import ZArith List String Bool Lia Arith.
From Stdlib Require Import DecimalString FinFun.
Import ListNotations.
Open Scope Z_scope.

Set Implicit Arguments.
Set Warnings "-register-all".
Set Warnings "-automation".
Set Warnings "-default".

(* ================================================================== *)
(** * Variables and expressions *)

(** A [tir::Var] is a heap object: two variables are the same variable when
    they are the same object, whatever their name hints.  [var_id] is the
    identity of the object. *)
Record Var : Type := mkVar { name_hint : string; var_id : nat }.

Definition Var_eqb (x y : Var) : bool :=
  (String.eqb (name_hint x) (name_hint y) && Nat.eqb (var_id x) (var_id y))%bool.

(** The fragment of [PrimExpr] the layout code builds. *)
Inductive PrimExpr : Type :=
| IntImm (value : Z)
| EVar (v : Var)
| Add (a b : PrimExpr)
| Sub (a b : PrimExpr)
| Mul (a b : PrimExpr)
| FloorDiv (a b : PrimExpr)
| FloorMod (a b : PrimExpr).

Definition Env : Type := Var -> Z.

(** Integer meaning of an expression.  [Z.div] and [Z.modulo] round towards
    minus infinity, as [floordiv] and [floormod] do. *)
Fixpoint eval (env : Env) (e : PrimExpr) : Z :=
  match e with
  | IntImm c => c
  | EVar x => env x
  | Add a b => eval env a + eval env b
  | Sub a b => eval env a - eval env b
  | Mul a b => eval env a * eval env b
  | FloorDiv a b => eval env a / eval env b
  | FloorMod a b => eval env a mod eval env b
  end.

Definition as_const_int (e : PrimExpr) : option Z :=
  match e with IntImm c => Some c | _ => None end.

Definition is_const_int (e : PrimExpr) (c : Z) : bool :=
  match e with IntImm v => Z.eqb v c | _ => false end.

Definition is_one (e : PrimExpr) : bool := is_const_int e 1.
Definition is_zero (e : PrimExpr) : bool := is_const_int e 0.

(** Modelled from the spec: the overloaded C++ operators [+], [-] and [*] on
    [PrimExpr] are declared outside these sources; they belong to the
    expression engine, whose constant folding the specification lists.  An
    operator builds a node unless folding applies: two constants are
    combined, and a neutral or absorbing constant operand is eliminated. *)
Definition op_add (a b : PrimExpr) : PrimExpr :=
  match a, b with
  | IntImm x, IntImm y => IntImm (x + y)
  | IntImm x, _ => if Z.eqb x 0 then b else Add a b
  | _, IntImm y => if Z.eqb y 0 then a else Add a b
  | _, _ => Add a b
  end.

Definition op_sub (a b : PrimExpr) : PrimExpr :=
  match a, b with
  | IntImm x, IntImm y => IntImm (x - y)
  | _, IntImm y => if Z.eqb y 0 then a else Sub a b
  | _, _ => Sub a b
  end.

Definition op_mul (a b : PrimExpr) : PrimExpr :=
  match a, b with
  | IntImm x, IntImm y => IntImm (x * y)
  | IntImm x, _ => if Z.eqb x 1 then b else if Z.eqb x 0 then a else Mul a b
  | _, IntImm y => if Z.eqb y 1 then a else if Z.eqb y 0 then b else Mul a b
  | _, _ => Mul a b
  end.

(** ** Substitution *)

(** [Map<Var, PrimExpr>]: [vmap_set] is [Map::Set], the latest binding of a
    key wins. *)
Definition VMap : Type := list (Var * PrimExpr).

Definition vmap_set (m : VMap) (x : Var) (e : PrimExpr) : VMap := (x, e) :: m.

Fixpoint vmap_find (m : VMap) (x : Var) : option PrimExpr :=
  match m with
  | [] => None
  | (y, e) :: m' => if Var_eqb x y then Some e else vmap_find m' x
  end.

Fixpoint Substitute (e : PrimExpr) (m : VMap) : PrimExpr :=
  match e with
  | IntImm c => IntImm c
  | EVar x => match vmap_find m x with Some t => t | None => EVar x end
  | Add a b => Add (Substitute a m) (Substitute b m)
  | Sub a b => Sub (Substitute a m) (Substitute b m)
  | Mul a b => Mul (Substitute a m) (Substitute b m)
  | FloorDiv a b => FloorDiv (Substitute a m) (Substitute b m)
  | FloorMod a b => FloorMod (Substitute a m) (Substitute b m)
  end.

(** The environment in which the substituted expression is read. *)
Definition subst_env (env : Env) (m : VMap) : Env :=
  fun x => match vmap_find m x with Some t => eval env t | None => env x end.

(** The environment that maps [x] to [v] and agrees with [env] elsewhere. *)
Definition update (env : Env) (x : Var) (v : Z) : Env :=
  fun y => if Var_eqb y x then v else env y.

(** ** Free variables *)

Fixpoint free_vars (e : PrimExpr) : list Var :=
  match e with
  | IntImm _ => []
  | EVar x => [x]
  | Add a b | Sub a b | Mul a b | FloorDiv a b | FloorMod a b =>
      free_vars a ++ free_vars b
  end.

(** Every variable of [e] is one of [K]. *)
Definition vars_in (K : list Var) (e : PrimExpr) : Prop := incl (free_vars e) K.

(* ================================================================== *)
(** * XOR swizzle helpers *)

Definition xor2x2 (i j : PrimExpr) : PrimExpr :=
  FloorMod (op_add i j) (IntImm 2).

Definition xor4x4 (i j : PrimExpr) : PrimExpr :=
  let i0 := FloorMod i (IntImm 2) in
  let j0 := FloorMod j (IntImm 2) in
  let i1 := FloorDiv i (IntImm 2) in
  let j1 := FloorDiv j (IntImm 2) in
  op_add (op_mul (IntImm 2) (xor2x2 i1 j1)) (xor2x2 i0 j0).

Definition xor8x8 (i j : PrimExpr) : PrimExpr :=
  let i0 := FloorMod i (IntImm 2) in
  let j0 := FloorMod j (IntImm 2) in
  let i1 := FloorDiv i (IntImm 2) in
  let j1 := FloorDiv j (IntImm 2) in
  op_add (op_mul (IntImm 2) (xor4x4 i1 j1)) (xor2x2 i0 j0).

(* ================================================================== *)
(** * Failure and allocation *)

(** A failed [ICHECK]/[CHECK] aborts the operation. *)
Inductive result (A : Type) : Type :=
| Ok (a : A)
| CheckFail (msg : string).
Arguments Ok {A} a.
Arguments CheckFail {A} msg.

Definition rbind {A B} (c : result A) (k : A -> result B) : result B :=
  match c with Ok a => k a | CheckFail msg => CheckFail msg end.

(** Operations that create variables thread the allocator: the state is the
    identity the next [Var] object receives. *)
Definition M (A : Type) : Type := nat -> result (A * nat).

Definition ret {A} (a : A) : M A := fun s => Ok (a, s).
Definition fail {A} (msg : string) : M A := fun _ => CheckFail msg.
Definition bind {A B} (c : M A) (k : A -> M B) : M B :=
  fun s => match c s with Ok (a, s') => k a s' | CheckFail msg => CheckFail msg end.
Definition lift {A} (c : result A) : M A :=
  fun s => match c with Ok a => Ok (a, s) | CheckFail msg => CheckFail msg end.

Declare Scope layout_scope.
Delimit Scope layout_scope with layout.
Notation "x <- c ;; k" := (bind c (fun x => k))
  (at level 61, c at next level, right associativity) : layout_scope.
Notation "x <-? c ;; k" := (rbind c (fun x => k))
  (at level 61, c at next level, right associativity) : layout_scope.
Open Scope layout_scope.

(** [Var(name)] allocates a variable. *)
Definition new_Var (name : string) : M Var :=
  fun s => Ok (mkVar name s, S s).

(** C++ [int] is 32 bits wide; a conversion from a wider integer wraps. *)
Definition to_int32 (z : Z) : Z := (z + 2147483648) mod 4294967296 - 2147483648.

(** [a % b] and [a / b] on [int]: truncating, and undefined (here: abort)
    when the divisor is zero. *)
Definition int_rem (a b : Z) : result Z :=
  if Z.eqb b 0 then CheckFail "integer division by zero" else Ok (Z.rem a b).
Definition int_div (a b : Z) : result Z :=
  if Z.eqb b 0 then CheckFail "integer division by zero"
  else Ok (to_int32 (Z.quot a b)).

(* ================================================================== *)
(** * Iteration variables and the analyzer interface *)

Record Range : Type := mkRange { min : PrimExpr; extent : PrimExpr }.

(** The two-argument constructor [Range(begin, end)], declared outside these
    sources, takes the bounds of a half-open interval: it stores the extent
    [end - begin], and [end] itself when [begin] is the constant zero (so
    [make_itervar] builds the domain [[0, dom)]). *)
Definition Range_ctor (begin_ end_ : PrimExpr) : Range :=
  mkRange begin_ (if is_zero begin_ then end_ else op_sub end_ begin_).

Definition Range_FromMinExtent (min_ extent_ : PrimExpr) : Range :=
  mkRange min_ extent_.

Inductive IterVarType : Type := kDataPar | kThreadIndex | kCommReduce | kOpaque.

Record IterVar : Type := mkIterVar { dom : Range; var : Var; iter_type : IterVarType }.

Definition make_itervar (name : string) (dom_ : PrimExpr) : M IterVar :=
  v <- new_Var name ;;
  ret (mkIterVar (Range_ctor (IntImm 0) dom_) v kDataPar).

(** The state of an [arith::Analyzer]: the variable domains bound so far,
    in binding order. *)
Definition Analyzer : Type := list (Var * Range).

Definition Analyzer_Bind (A : Analyzer) (x : Var) (r : Range) : Analyzer :=
  A ++ [(x, r)].

Record IntSet : Type := mkIntSet { set_min : PrimExpr; set_max : PrimExpr }.

Record IterMapResult (S : Type) : Type :=
  mkIterMapResult { indices : list S; errors : list string }.

(** The arithmetic engine the layout code calls into, a parameter of the
    development.  [IterSumExpr] is the engine's own normal form of a
    detected iteration map. *)
Record Engine : Type := mkEngine {
  IterSumExpr : Type;
  Simplify : Analyzer -> PrimExpr -> PrimExpr;
  int_set : Analyzer -> PrimExpr -> IntSet;
  DetectIterMap : list PrimExpr -> list (Var * Range) -> IterMapResult IterSumExpr;
  InverseAffineIterMap : list IterSumExpr -> list PrimExpr -> VMap;
  infer_fragment_index : list IterVar -> IterVar -> PrimExpr -> Analyzer -> PrimExpr
}.

(* ================================================================== *)
(** * Layout *)

Record LayoutNode : Type := mkLayout {
  forward_var_ : list IterVar;
  forward_index_ : list PrimExpr
}.

Definition InputDim (L : LayoutNode) : nat := List.length (forward_var_ L).
Definition OutputDim (L : LayoutNode) : nat := List.length (forward_index_ L).

Definition bind_itervars (A : Analyzer) (ivs : list IterVar) : Analyzer :=
  fold_left (fun a iv => Analyzer_Bind a (var iv) (dom iv)) ivs A.

Definition LayoutNode_UpdateAnalyzer (L : LayoutNode) (A : Analyzer) : Analyzer :=
  bind_itervars A (forward_var_ L).

Definition InputShape (L : LayoutNode) : list PrimExpr :=
  map (fun iv => extent (dom iv)) (forward_var_ L).

Section WithEngine.
Variable E : Engine.

Definition Layout_ctor (forward_var : list IterVar) (forward_index : list PrimExpr)
  : LayoutNode :=
  let n := mkLayout forward_var [] in
  let analyzer := LayoutNode_UpdateAnalyzer n [] in
  mkLayout forward_var (map (Simplify E analyzer) forward_index).

(** The loop of [OutputShape]; [analyzer] is what the (virtual)
    [UpdateAnalyzer] of the node has bound. *)
Fixpoint OutputShape_loop (analyzer : Analyzer) (index : list PrimExpr)
  : result (list PrimExpr) :=
  match index with
  | [] => Ok []
  | e :: rest =>
      let ist := int_set E analyzer (op_add e (IntImm 1)) in
      if is_one (set_min ist)
      then ret_ <-? OutputShape_loop analyzer rest ;; Ok (set_max ist :: ret_)
      else CheckFail "CHECK(is_one(ist.min()))"
  end.

Definition LayoutNode_OutputShape (L : LayoutNode) : result (list PrimExpr) :=
  OutputShape_loop (LayoutNode_UpdateAnalyzer L []) (forward_index_ L).

Definition forward_vmap (ivs : list IterVar) (vars : list PrimExpr) : VMap :=
  fold_left (fun m p => vmap_set m (var (fst p)) (snd p)) (combine ivs vars) [].

Definition Forward (L : LayoutNode) (vars : list PrimExpr) : result (list PrimExpr) :=
  match vars with
  | [] => Ok (forward_index_ L)
  | _ =>
      if Nat.eqb (List.length vars) (InputDim L)
      then let vmap := forward_vmap (forward_var_ L) vars in
           Ok (map (fun e => Substitute e vmap) (forward_index_ L))
      else CheckFail "ICHECK_EQ(vars.size(), InputDim())"
  end.

(** ["v" + std::to_string(i)] *)
Definition to_string (i : nat) : string := NilEmpty.string_of_uint (Nat.to_uint i).

Fixpoint make_inverse_iter_vars (i : nat) (outputs_shape : list PrimExpr)
  : M (list IterVar) :=
  match outputs_shape with
  | [] => ret []
  | s :: rest =>
      iv <- make_itervar ("v" ++ to_string i) s ;;
      ivs <- make_inverse_iter_vars (S i) rest ;;
      ret (iv :: ivs)
  end.

Definition LayoutNode_Inverse (L : LayoutNode) : M LayoutNode :=
  let input_iters := map (fun iv => (var iv, dom iv)) (forward_var_ L) in
  let res := DetectIterMap E (forward_index_ L) input_iters in
  match errors res with
  | _ :: _ => fail "ICHECK(res->errors.empty())"
  | [] =>
      outputs_shape <- lift (LayoutNode_OutputShape L) ;;
      inverse_iter_var <- make_inverse_iter_vars 0 outputs_shape ;;
      let outputs := map (fun iv => EVar (var iv)) inverse_iter_var in
      let inv := InverseAffineIterMap E (indices res) outputs in
      let backward_index :=
        map (fun iv => match vmap_find inv (var iv) with
                       | Some e => e
                       | None => IntImm 0
                       end) (forward_var_ L) in
      ret (Layout_ctor inverse_iter_var backward_index)
  end.

End WithEngine.

(* ================================================================== *)
(** * Fragment *)

(** A [FragmentNode] is a [LayoutNode] with a thread expression and a
    replication variable. *)
Record FragmentNode : Type := mkFragment {
  Fragment_base :> LayoutNode;
  forward_thread_ : PrimExpr;
  thread_replicate_ : IterVar
}.

Definition FragmentNode_UpdateAnalyzer (F : FragmentNode) (A : Analyzer) : Analyzer :=
  let A' := LayoutNode_UpdateAnalyzer F A in
  Analyzer_Bind A' (var (thread_replicate_ F)) (dom (thread_replicate_ F)).

Definition ReplicateExtent (F : FragmentNode) : PrimExpr :=
  extent (dom (thread_replicate_ F)).

(** The mixed-radix repeat index: each step adds
    [repeat_stride * floordiv(var, shape)] and multiplies the stride by the
    repeat count. *)
Definition repeat_step (acc : PrimExpr * PrimExpr) (t : IterVar * PrimExpr)
  : PrimExpr * PrimExpr :=
  let '(repeats_index, repeat_stride) := acc in
  let '(v, r) := t in
  (op_add repeats_index
          (op_mul repeat_stride (FloorDiv (EVar (var v)) (extent (dom v)))),
   op_mul repeat_stride r).

Definition repeats_index_of (fv : list IterVar) (repeats : list PrimExpr)
           (lower_dim_first : bool) : PrimExpr :=
  let dims := combine fv repeats in
  let order := if lower_dim_first then rev dims else dims in
  fst (fold_left repeat_step order (IntImm 0, IntImm 1)).

Definition repeat_forward_var (fv : list IterVar) (repeats : list PrimExpr)
  : list IterVar :=
  map (fun p => let '(v, r) := p in
                mkIterVar (Range_ctor (min (dom v)) (op_mul (extent (dom v)) r))
                          (var v) (iter_type v))
      (combine fv repeats).

Definition repeat_vmap (fv : list IterVar) : VMap :=
  fold_left (fun m v => vmap_set m (var v) (FloorMod (EVar (var v)) (extent (dom v))))
            fv [].

Section FragmentWithEngine.
Variable E : Engine.

Definition Fragment_ctor (forward_var : list IterVar) (forward_index : list PrimExpr)
           (forward_thread : PrimExpr) (thread_replicate : option IterVar)
  : M FragmentNode :=
  rep <- match thread_replicate with
         | Some r => ret r
         | None => make_itervar "unused" (IntImm 1)
         end ;;
  if is_zero (min (dom rep)) then
    let n := mkFragment (mkLayout forward_var []) (IntImm 0) rep in
    let analyzer := FragmentNode_UpdateAnalyzer n [] in
    let forward_thread' := Simplify E analyzer forward_thread in
    let forward_index' :=
      match forward_index with
      | [] => [infer_fragment_index E forward_var rep forward_thread' analyzer]
      | _ => forward_index
      end in
    ret (mkFragment (mkLayout forward_var (map (Simplify E analyzer) forward_index'))
                    forward_thread' rep)
  else fail "ICHECK(is_zero(thread_replicate->dom->min))".

Definition FragmentNode_OutputShape (F : FragmentNode) : result (list PrimExpr) :=
  OutputShape_loop E (FragmentNode_UpdateAnalyzer F []) (forward_index_ F).

Definition ThreadExtent (F : FragmentNode) : result PrimExpr :=
  let analyzer := FragmentNode_UpdateAnalyzer F [] in
  let ist := int_set E analyzer (op_add (forward_thread_ F) (IntImm 1)) in
  if is_one (set_min ist) then Ok (set_max ist)
  else CheckFail "CHECK(is_one(ist.min()))".

Definition ForwardThread (F : FragmentNode) (vars : list PrimExpr)
           (rep_var : option PrimExpr) : result PrimExpr :=
  vmap <-? match vars with
           | [] => Ok []
           | _ => if Nat.eqb (List.length vars) (InputDim F)
                  then Ok (forward_vmap (forward_var_ F) vars)
                  else CheckFail "ICHECK_EQ(vars.size(), InputDim())"
           end ;;
  let vmap' := match rep_var with
               | Some r => vmap_set vmap (var (thread_replicate_ F)) r
               | None => vmap
               end in
  Ok (Substitute (forward_thread_ F) vmap').

Definition FragmentNode_Repeat (F : FragmentNode) (repeats : list PrimExpr)
           (repeat_on_thread lower_dim_first : bool) : M FragmentNode :=
  if Nat.eqb (List.length repeats) (InputDim F) then
    let new_forward_var := repeat_forward_var (forward_var_ F) repeats in
    let vmap := repeat_vmap (forward_var_ F) in
    let repeats_index := repeats_index_of (forward_var_ F) repeats lower_dim_first in
    if repeat_on_thread then
      thread_size <- lift (ThreadExtent F) ;;
      let new_forward_index :=
        map (fun e => Substitute e vmap) (forward_index_ F) in
      let new_forward_thread :=
        op_add (Substitute (forward_thread_ F) vmap) (op_mul thread_size repeats_index) in
      Fragment_ctor new_forward_var new_forward_index new_forward_thread
                    (Some (thread_replicate_ F))
    else
      match forward_index_ F with
      | [index0] =>
          shape <- lift (FragmentNode_OutputShape F) ;;
          let frag_len := nth 0 shape (IntImm 0) in
          let new_forward_index :=
            [op_add (Substitute index0 vmap) (op_mul frag_len repeats_index)] in
          let new_forward_thread := Substitute (forward_thread_ F) vmap in
          Fragment_ctor new_forward_var new_forward_index new_forward_thread
                        (Some (thread_replicate_ F))
      | _ => fail "ICHECK(OutputDim() == 1)"
      end
  else fail "ICHECK_EQ(repeats.size(), InputDim())".

Definition FragmentNode_Replicate (F : FragmentNode) (repeats : Z) : M FragmentNode :=
  if Z.leb 1 repeats then
    new_rep <- make_itervar "rep" (op_mul (ReplicateExtent F) (IntImm repeats)) ;;
    let vmap := vmap_set [] (var (thread_replicate_ F))
                         (FloorMod (EVar (var new_rep)) (ReplicateExtent F)) in
    thread_size <- lift (ThreadExtent F) ;;
    let new_forward_thread :=
      op_add (Substitute (forward_thread_ F) vmap)
             (op_mul thread_size (FloorDiv (EVar (var new_rep)) (ReplicateExtent F))) in
    Fragment_ctor (forward_var_ F) (forward_index_ F) new_forward_thread (Some new_rep)
  else fail "ICHECK(repeats >= 1)".

(** [arith::ZeroAwareGCD]: the gcd of the absolute values, [gcd(a, 0) = |a|]. *)
Definition ZeroAwareGCD (a b : Z) : Z := Z.gcd a b.

Definition FragmentNode_DeReplicate (F : FragmentNode) : M FragmentNode :=
  match forward_index_ F with
  | [index0] =>
      let rep_size := as_const_int (ReplicateExtent F) in
      shape <- lift (FragmentNode_OutputShape F) ;;
      let idx_size := as_const_int (nth 0 shape (IntImm 0)) in
      let factor :=
        match rep_size, idx_size with
        | Some r, Some i => to_int32 (ZeroAwareGCD r i)
        | _, _ => 1
        end in
      if Z.eqb factor 1 then ret F
      else
        match rep_size with
        | None => fail "unreachable: factor differs from 1 only for constants"
        | Some r =>
            q <- lift (int_div (to_int32 r) factor) ;;
            rep <- make_itervar "rep" (IntImm q) ;;
            let vmap := vmap_set [] (var (thread_replicate_ F))
                                 (op_add (op_mul (EVar (var rep)) (IntImm factor))
                                         (FloorMod index0 (IntImm factor))) in
            let new_forward_thread := Substitute (forward_thread_ F) vmap in
            let new_forward_index := [FloorDiv index0 (IntImm factor)] in
            Fragment_ctor (forward_var_ F) new_forward_index new_forward_thread (Some rep)
        end
  | _ => fail "ICHECK(OutputDim() == 1)"
  end.

Definition FragmentNode_Inverse (F : FragmentNode) : M LayoutNode :=
  let new_fwd_vars := forward_var_ F ++ [thread_replicate_ F] in
  let new_fwd_index := forward_index_ F ++ [forward_thread_ F] in
  let fwd := Layout_ctor E new_fwd_vars new_fwd_index in
  LayoutNode_Inverse E fwd.

(** ** GEMM fragment factories *)

Definition ICHECK (b : bool) (msg : string) : M unit :=
  if b then ret tt else fail msg.

Definition divides_check (a b : Z) (msg : string) : M unit :=
  r <- lift (int_rem a b) ;; ICHECK (Z.eqb r 0) msg.

Definition makeGemmFragment8x8 : M FragmentNode :=
  i <- make_itervar "i" (IntImm 8) ;;
  j <- make_itervar "j" (IntImm 8) ;;
  rep <- make_itervar "rep" (IntImm 1) ;;
  let forward_thread :=
    op_add (FloorDiv (EVar (var j)) (IntImm 2)) (op_mul (IntImm 4) (EVar (var i))) in
  let index := FloorMod (EVar (var j)) (IntImm 2) in
  Fragment_ctor [i; j] [index] forward_thread (Some rep).

Definition makeGemmFragment8x8Transposed : M FragmentNode :=
  i <- make_itervar "i" (IntImm 8) ;;
  j <- make_itervar "j" (IntImm 8) ;;
  rep <- make_itervar "rep" (IntImm 1) ;;
  let forward_thread :=
    op_add (FloorDiv (EVar (var i)) (IntImm 2)) (op_mul (IntImm 4) (EVar (var j))) in
  let index := FloorMod (EVar (var i)) (IntImm 2) in
  Fragment_ctor [i; j] [index] forward_thread (Some rep).

(** The default value of [Repeat]'s last parameter [lower_dim_first] is given
    by the declaration of the method, which the factories below rely on. *)
Variable lower_dim_first_default : bool.

Definition makeGemmFragmentC_F64 (block_m block_n warp_m warp_n : Z) : M FragmentNode :=
  _ <- divides_check block_m warp_m "ICHECK(block_m % warp_m == 0)" ;;
  _ <- divides_check block_n warp_n "ICHECK(block_n % warp_n == 0)" ;;
  _ <- divides_check warp_m 16 "ICHECK(warp_m % 16 == 0)" ;;
  _ <- divides_check warp_n 16 "ICHECK(warp_n % 16 == 0)" ;;
  base_layout <- makeGemmFragment8x8 ;;
  rm <- lift (int_div block_m warp_m) ;;
  rn <- lift (int_div block_n warp_n) ;;
  warp_layout <- FragmentNode_Repeat base_layout [IntImm rm; IntImm rn] true false ;;
  wm <- lift (int_div warp_m 8) ;;
  wn <- lift (int_div warp_n 8) ;;
  FragmentNode_Repeat warp_layout [IntImm wm; IntImm wn] false false.

Definition makeGemmFragmentC (block_m block_n warp_m warp_n element_size : Z)
  : M FragmentNode :=
  if Z.eqb element_size 64 then makeGemmFragmentC_F64 block_m block_n warp_m warp_n
  else
    _ <- divides_check block_m warp_m "ICHECK(block_m % warp_m == 0)" ;;
    _ <- divides_check block_n warp_n "ICHECK(block_n % warp_n == 0)" ;;
    _ <- divides_check warp_m 16 "ICHECK(warp_m % 16 == 0)" ;;
    _ <- divides_check warp_n 16 "ICHECK(warp_n % 16 == 0)" ;;
    atom <- makeGemmFragment8x8 ;;
    base_layout <- FragmentNode_Repeat atom [IntImm 2; IntImm 1] false
                                       lower_dim_first_default ;;
    rm <- lift (int_div block_m warp_m) ;;
    rn <- lift (int_div block_n warp_n) ;;
    warp_layout <- FragmentNode_Repeat base_layout [IntImm rm; IntImm rn] true false ;;
    wm <- lift (int_div warp_m 16) ;;
    wn <- lift (int_div warp_n 8) ;;
    FragmentNode_Repeat warp_layout [IntImm wm; IntImm wn] false false.

End FragmentWithEngine.

(* ================================================================== *)
(** * Loop partitioning *)

Inductive ForKind : Type :=
| kSerial | kParallel | kVectorized | kUnrolled | kThreadBinding.

Definition ForKind_eqb (a b : ForKind) : bool :=
  match a, b with
  | kSerial, kSerial | kParallel, kParallel | kVectorized, kVectorized
  | kUnrolled, kUnrolled | kThreadBinding, kThreadBinding => true
  | _, _ => false
  end.

(** The statements of a loop nest.  Expressions contain no statements, so a
    statement visitor reaches loops only through the statement children. *)
Inductive Stmt : Type :=
| For (loop_var : Var) (min_ extent_ : PrimExpr) (kind : ForKind) (body : Stmt)
| SeqStmt (seq : list Stmt)
| IfThenElse (condition : PrimExpr) (then_case : Stmt) (else_case : option Stmt)
| LetStmt (let_var : Var) (value : PrimExpr) (body : Stmt)
| AttrStmt (attr_key : string) (value : PrimExpr) (body : Stmt)
| While (condition : PrimExpr) (body : Stmt)
| BufferStore (buffer : string) (value : PrimExpr) (store_indices : list PrimExpr)
| Evaluate (value : PrimExpr).

Record ForNode : Type := mkFor {
  loop_var : Var;
  for_min : PrimExpr;
  for_extent : PrimExpr;
  kind : ForKind;
  body : Stmt
}.

Definition ForNode_stmt (n : ForNode) : Stmt :=
  For (loop_var n) (for_min n) (for_extent n) (kind n) (body n).

(** The members of [LoopPartitioner]. *)
Record LoopPartitioner : Type := mkPartitioner {
  body_ : option Stmt;
  loop_vars_ : list IterVar
}.

Definition LoopPartitioner_init : LoopPartitioner := mkPartitioner None [].

(** [LoopPartitioner::VisitStmt_] on a [ForNode] records a parallel loop and
    then hands the node to [StmtExprVisitor::VisitStmt_], which visits the
    children of every statement. *)
Fixpoint VisitStmt (s : Stmt) (p : LoopPartitioner) : LoopPartitioner :=
  match s with
  | For v mn ext k b =>
      let p' :=
        if ForKind_eqb k kParallel
        then mkPartitioner (Some b)
               (loop_vars_ p ++ [mkIterVar (Range_FromMinExtent mn ext) v kDataPar])
        else p in
      VisitStmt b p'
  | SeqStmt ss =>
      (fix visit_all (l : list Stmt) (q : LoopPartitioner) : LoopPartitioner :=
         match l with
         | [] => q
         | s' :: l' => visit_all l' (VisitStmt s' q)
         end) ss p
  | IfThenElse _ t e =>
      let p' := VisitStmt t p in
      match e with Some e' => VisitStmt e' p' | None => p' end
  | LetStmt _ _ b => VisitStmt b p
  | AttrStmt _ _ b => VisitStmt b p
  | While _ b => VisitStmt b p
  | BufferStore _ _ _ => p
  | Evaluate _ => p
  end.

Definition VisitStmt_ (node : ForNode) (p : LoopPartitioner) : LoopPartitioner :=
  VisitStmt (ForNode_stmt node) p.

(** A string literal used as a condition is a non-null pointer. *)
Definition string_literal_as_bool (s : string) : bool := true.

(** The accumulation loop of [Partition]: the [int] product of the extents
    and the flattened index expression. *)
Fixpoint Partition_loop (loop_vars : list IterVar) (loop_size_full : Z)
         (flattened : PrimExpr) : result (Z * PrimExpr) :=
  match loop_vars with
  | [] => Ok (loop_size_full, flattened)
  | iv :: rest =>
      match as_const_int (extent (dom iv)) with
      | None => CheckFail "ICHECK(ext_ptr)"
      | Some ext =>
          let extent_ := to_int32 ext in
          Partition_loop rest (to_int32 (loop_size_full * extent_))
            (op_add (op_mul flattened (IntImm extent_)) (EVar (var iv)))
      end
  end.

Section PartitionWithEngine.
Variable E : Engine.

Definition Partition (op : ForNode) (num_thread : Z) : M FragmentNode :=
  let p := VisitStmt_ op LoopPartitioner_init in
  acc <- lift (Partition_loop (loop_vars_ p) 1 (IntImm 0)) ;;
  let '(loop_size_full, flattened) := acc in
  r <- lift (int_rem loop_size_full num_thread) ;;
  _ <- (if negb (Z.eqb r 0)
        then ICHECK (string_literal_as_bool "Not Implemented case.")
                    "Not Implemented case."
        else ret tt) ;;
  Fragment_ctor E (loop_vars_ p)
    [FloorDiv flattened (IntImm num_thread)]
    (FloorMod flattened (IntImm num_thread))
    None.

End PartitionWithEngine.

(** The loop of [PartitionLoop] that removes the partitioned loops: it takes
    [old_loop_depth] directly nested [For] statements off the body and maps
    their variables to the inverted indices. *)
Fixpoint PartitionLoop_strip (old_loop_depth i : nat) (indices_ : list PrimExpr)
         (body0 : Stmt) (vmap : VMap) : result (VMap * Stmt) :=
  match old_loop_depth with
  | O => Ok (vmap, body0)
  | S d =>
      match body0, nth_error indices_ i with
      | For v _ _ _ b, Some e =>
          PartitionLoop_strip d (S i) indices_ b (vmap_set vmap v e)
      | For _ _ _ _ _, None => CheckFail "indices[i]"
      | _, _ => CheckFail "body.as<For>().value()"
      end
  end.

(* ================================================================== *)
(** * Shared-memory layouts of the GEMM operands *)

Section LayoutFactories.
Variable E : Engine.

(** Swizzle of 2 bits: a row of [4 * vector_size] elements, the vector
    index permuted by the row. *)
Definition makeGemmABLayoutHalfBank (stride continuous element_size : Z) : M LayoutNode :=
  i <- make_itervar "i" (IntImm stride) ;;
  j <- make_itervar "j" (IntImm continuous) ;;
  vector_size <- lift (int_div 128 element_size) ;;
  _ <- divides_check stride 8 "ICHECK(stride % 8 == 0)" ;;
  _ <- divides_check continuous (to_int32 (vector_size * 4))
                     "ICHECK(continuous % (vector_size * 4) == 0)" ;;
  let ts := FloorDiv (EVar (var i)) (IntImm 8) in
  let s := FloorMod (EVar (var i)) (IntImm 8) in
  let tc := FloorDiv (FloorDiv (EVar (var j)) (IntImm vector_size)) (IntImm 4) in
  let c := FloorMod (FloorDiv (EVar (var j)) (IntImm vector_size)) (IntImm 4) in
  let vec := FloorMod (EVar (var j)) (IntImm vector_size) in
  let c_swizzle := xor4x4 c (FloorDiv s (IntImm 2)) in
  let index :=
    op_add vec (op_mul (op_add c_swizzle (op_mul s (IntImm 4))) (IntImm vector_size)) in
  ret (Layout_ctor E [i; j] [tc; ts; index]).

(** Swizzle of 3 bits. *)
Definition makeGemmABLayoutFullBank (stride continuous element_size : Z) : M LayoutNode :=
  i <- make_itervar "i" (IntImm stride) ;;
  j <- make_itervar "j" (IntImm continuous) ;;
  vector_size <- lift (int_div 128 element_size) ;;
  _ <- divides_check stride 8 "ICHECK(stride % 8 == 0)" ;;
  _ <- divides_check continuous (to_int32 (vector_size * 8))
                     "ICHECK(continuous % (vector_size * 8) == 0)" ;;
  let ts := FloorDiv (EVar (var i)) (IntImm 8) in
  let s := FloorMod (EVar (var i)) (IntImm 8) in
  let tc := FloorDiv (FloorDiv (EVar (var j)) (IntImm vector_size)) (IntImm 8) in
  let c := FloorMod (FloorDiv (EVar (var j)) (IntImm vector_size)) (IntImm 8) in
  let vec := FloorMod (EVar (var j)) (IntImm vector_size) in
  let c_swizzle := xor8x8 c s in
  let index :=
    op_add vec (op_mul (op_add c_swizzle (op_mul s (IntImm 8))) (IntImm vector_size)) in
  ret (Layout_ctor E [i; j] [tc; ts; index]).

(** [Swizzle<2, 0, 4>] *)
Definition makeGemmABLayoutF64_Kinner (stride continuous : Z) : M LayoutNode :=
  i <- make_itervar "i" (IntImm stride) ;;
  j <- make_itervar "j" (IntImm continuous) ;;
  let tc := FloorDiv (EVar (var j)) (IntImm 16) in
  let ts := FloorDiv (EVar (var i)) (IntImm 4) in
  let c := FloorMod (EVar (var j)) (IntImm 16) in
  let s := FloorMod (EVar (var i)) (IntImm 4) in
  let swizzled_c :=
    op_add (op_mul (FloorDiv c (IntImm 4)) (IntImm 4))
           (xor4x4 (FloorMod c (IntImm 4)) s) in
  let index := op_add swizzled_c (op_mul s (IntImm 16)) in
  ret (Layout_ctor E [i; j] [tc; ts; index]).

(** [Swizzle<2, 2, 2>] *)
Definition makeGemmABLayoutF64_Kouter (stride continuous : Z) : M LayoutNode :=
  i <- make_itervar "i" (IntImm stride) ;;
  j <- make_itervar "j" (IntImm continuous) ;;
  let tc := FloorDiv (EVar (var j)) (IntImm 16) in
  let ts := FloorDiv (EVar (var i)) (IntImm 4) in
  let c := FloorMod (EVar (var j)) (IntImm 16) in
  let s := FloorMod (EVar (var i)) (IntImm 4) in
  let swizzled_c :=
    op_add (FloorMod c (IntImm 4))
           (op_mul (xor4x4 (FloorDiv c (IntImm 4)) s) (IntImm 4)) in
  let index := op_add swizzled_c (op_mul s (IntImm 16)) in
  ret (Layout_ctor E [i; j] [tc; ts; index]).

(** Row-major, with 128 bits of padding per row when the row is a multiple
    of 256 bits. *)
Definition makeGemmABLayoutPadded (stride continuous element_size : Z) : M LayoutNode :=
  i <- make_itervar "i" (IntImm stride) ;;
  j <- make_itervar "j" (IntImm continuous) ;;
  r <- lift (int_rem (to_int32 (element_size * continuous)) 256) ;;
  padded <- (if Z.eqb r 0
             then q <- lift (int_div 128 element_size) ;;
                  ret (to_int32 (continuous + q))
             else ret continuous) ;;
  ret (Layout_ctor E [i; j]
         [op_add (op_mul (EVar (var i)) (IntImm padded)) (EVar (var j))]).

Definition makeGemmABLayout (stride continuous element_size kfactor : Z) : M LayoutNode :=
  if Z.eqb element_size 64 then
    if (Z.eqb kfactor 1 && Z.eqb (Z.rem continuous 16) 0)%bool
    then makeGemmABLayoutF64_Kouter stride continuous
    else if (Z.eqb kfactor 2 && Z.eqb (Z.rem continuous 16) 0)%bool
    then makeGemmABLayoutF64_Kinner stride continuous
    else makeGemmABLayoutPadded stride continuous element_size
  else
    vector_size <- lift (int_div 128 element_size) ;;
    if (Z.eqb kfactor 1 && Z.eqb element_size 8)%bool
    then makeGemmABLayoutPadded stride continuous element_size
    else
      r8 <- lift (int_rem continuous (to_int32 (vector_size * 8))) ;;
      if Z.eqb r8 0
      then makeGemmABLayoutFullBank stride continuous element_size
      else
        r4 <- lift (int_rem continuous (to_int32 (vector_size * 4))) ;;
        if Z.eqb r4 0
        then makeGemmABLayoutHalfBank stride continuous element_size
        else makeGemmABLayoutPadded stride continuous element_size.

(** ** Volta *)

Definition MakeGemmVoltaABLayoutCrosswise (stride continuous : Z) : M LayoutNode :=
  _ <- ICHECK (Z.eqb (Z.rem stride 32) 0 && Z.eqb (Z.rem continuous 32) 0)
              "ICHECK(stride % 32 == 0 && continuous % 32 == 0)" ;;
  i <- make_itervar "i" (IntImm stride) ;;
  j <- make_itervar "j" (IntImm continuous) ;;
  let vi := EVar (var i) in
  let vj := EVar (var j) in
  let vec_contiguous_idx := FloorDiv vj (IntImm 4) in
  let vec_strided_within_tile := FloorMod vec_contiguous_idx (IntImm 8) in
  let bit2 :=
    FloorMod (op_add (op_add (FloorDiv (FloorMod vi (IntImm 32)) (IntImm 16))
                             (FloorDiv (FloorMod vi (IntImm 16)) (IntImm 8)))
                     (FloorDiv vec_strided_within_tile (IntImm 4)))
             (IntImm 2) in
  let bit1 :=
    xor2x2 (FloorDiv (FloorMod vi (IntImm 8)) (IntImm 4))
           (FloorDiv (FloorMod vec_strided_within_tile (IntImm 4)) (IntImm 2)) in
  let permuted_vec_contiguous :=
    op_add (op_add (op_add (op_mul (FloorDiv vi (IntImm 16)) (IntImm 16))
                           (op_mul (FloorMod vi (IntImm 4)) (IntImm 4)))
                   (op_mul bit2 (IntImm 2)))
           bit1 in
  let offset :=
    op_add (op_add (FloorMod vj (IntImm 4)) (op_mul permuted_vec_contiguous (IntImm 4)))
           (op_mul (op_mul vec_contiguous_idx (IntImm stride)) (IntImm 4)) in
  ret (Layout_ctor E [i; j] [offset]).

Definition MakeGemmVoltaALayoutCongruous (stride continuous : Z) : M LayoutNode :=
  _ <- ICHECK (Z.eqb (Z.rem stride 4) 0 && Z.eqb (Z.rem continuous 64) 0)
              "ICHECK(stride % 4 == 0 && continuous % 64 == 0)" ;;
  i <- make_itervar "i" (IntImm stride) ;;
  j <- make_itervar "j" (IntImm continuous) ;;
  let vj := EVar (var j) in
  let vec_contiguous_idx := FloorDiv vj (IntImm 8) in
  let vec_strided_idx := EVar (var i) in
  let tile_contiguous_idx := FloorDiv vec_contiguous_idx (IntImm 8) in
  let tile_strided_idx := FloorDiv vec_strided_idx (IntImm 4) in
  let tile_contiguous_residual := FloorMod vec_contiguous_idx (IntImm 8) in
  let tile_strided_residual := FloorMod vec_strided_idx (IntImm 4) in
  let permuted_strided_within_tile := FloorDiv tile_contiguous_residual (IntImm 2) in
  let permuted_contiguous_within_tile :=
    op_add (op_mul (FloorMod tile_contiguous_residual (IntImm 2)) (IntImm 4))
           (xor4x4 tile_strided_residual permuted_strided_within_tile) in
  let element_strided :=
    op_add permuted_strided_within_tile (op_mul tile_strided_idx (IntImm 4)) in
  let element_contiguous :=
    op_add (FloorMod vj (IntImm 8))
           (op_mul (op_add permuted_contiguous_within_tile
                           (op_mul tile_contiguous_idx (IntImm 8)))
                   (IntImm 8)) in
  let offset := op_add (op_mul element_strided (IntImm continuous)) element_contiguous in
  ret (Layout_ctor E [i; j] [offset]).

Definition MakeGemmVoltaBLayoutCongruous (stride continuous : Z) : M LayoutNode :=
  _ <- ICHECK (Z.eqb (Z.rem stride 4) 0 && Z.eqb (Z.rem continuous 64) 0)
              "ICHECK(stride % 4 == 0 && continuous % 64 == 0)" ;;
  i <- make_itervar "i" (IntImm stride) ;;
  j <- make_itervar "j" (IntImm continuous) ;;
  let vj := EVar (var j) in
  let vec_contiguous_idx := FloorDiv vj (IntImm 8) in
  let vec_strided_idx := EVar (var i) in
  let tile_contiguous_idx := FloorDiv vec_contiguous_idx (IntImm 8) in
  let tile_strided_idx := FloorDiv vec_strided_idx (IntImm 4) in
  let tile_contiguous_residual := FloorMod vec_contiguous_idx (IntImm 8) in
  let tile_strided_residual := FloorMod vec_strided_idx (IntImm 4) in
  let permuted_strided_within_tile := FloorMod tile_contiguous_residual (IntImm 4) in
  let permuted_contiguous_within_tile :=
    op_add (op_mul (FloorDiv tile_contiguous_residual (IntImm 4)) (IntImm 4))
           (xor4x4 tile_strided_residual permuted_strided_within_tile) in
  let element_strided :=
    op_add permuted_strided_within_tile (op_mul tile_strided_idx (IntImm 4)) in
  let element_contiguous :=
    op_add (FloorMod vj (IntImm 8))
           (op_mul (op_add permuted_contiguous_within_tile
                           (op_mul tile_contiguous_idx (IntImm 8)))
                   (IntImm 8)) in
  let offset := op_add (op_mul element_strided (IntImm continuous)) element_contiguous in
  ret (Layout_ctor E [i; j] [offset]).

Definition makeGemmVoltaABLayout (stride continuous : Z) (is_a : bool) (kfactor : Z)
  : M LayoutNode :=
  if Z.eqb kfactor 2 then MakeGemmVoltaABLayoutCrosswise stride continuous
  else if (is_a && Z.eqb (Z.rem continuous 64) 0)%bool
  then MakeGemmVoltaALayoutCongruous stride continuous
  else if (negb is_a && Z.eqb (Z.rem continuous 64) 0)%bool
  then MakeGemmVoltaBLayoutCongruous stride continuous
  else makeGemmABLayoutPadded stride continuous 16.

End LayoutFactories.

(* ================================================================== *)
(** * Queries on a layout *)

(** The loop of [GetFlattenedIndice]: it runs from the last output to the
    first, so it is given the outputs and the shape in reverse. *)
Fixpoint flatten_loop (index shape : list PrimExpr) (result_ stride : PrimExpr)
  : PrimExpr :=
  match index, shape with
  | e :: index', s :: shape' =>
      flatten_loop index' shape' (op_add result_ (op_mul e stride)) (op_mul stride s)
  | _, _ => result_
  end.

(** An [arith::IterSplitExpr]; [split_source] is [source->source]. *)
Record IterSplitExpr : Type := mkIterSplit {
  split_source : PrimExpr;
  lower_factor : PrimExpr;
  split_extent : PrimExpr;
  scale : PrimExpr
}.

(** [e.as<IntImm>().value()->value] assigned to an [int]. *)
Definition as_int (e : PrimExpr) : result Z :=
  match e with
  | IntImm v => Ok (to_int32 v)
  | _ => CheckFail "as<IntImm>().value()"
  end.

Definition same_as (e : PrimExpr) (x : Var) : bool :=
  match e with EVar y => Var_eqb y x | _ => false end.

(** The inner loop of [VectorSize]; it stops at the first split that forbids
    a vector of [vector_size] elements. *)
Fixpoint can_vector_load (last_var : Var) (vector_size : Z) (args : list IterSplitExpr)
  : result bool :=
  match args with
  | [] => Ok true
  | split :: rest =>
      scale_ <-? as_int (scale split) ;;
      lower_factor_ <-? as_int (lower_factor split) ;;
      if same_as (split_source split) last_var && Z.ltb lower_factor_ vector_size
      then if negb (Z.eqb lower_factor_ scale_) then Ok false
           else can_vector_load last_var vector_size rest
      else
        scale' <-? as_int (scale split) ;;
        r <-? int_rem scale' vector_size ;;
        if negb (Z.eqb r 0) then Ok false
        else can_vector_load last_var vector_size rest
  end.

(** The outer loop of [VectorSize].  [vector_size] is an [int] that doubles
    on every turn, so that it is zero after 32 of them and the remainder by
    it fails: 32 turns are all the loop can take. *)
Fixpoint VectorSize_loop (turns : nat) (last_dim : Z) (last_var : Var)
         (args : list IterSplitExpr) (vector_size : Z) : result Z :=
  match turns with
  | O => CheckFail "VectorSize: more than 32 turns"
  | S turns' =>
      r <-? int_rem last_dim vector_size ;;
      if Z.eqb r 0 then
        ok <-? can_vector_load last_var vector_size args ;;
        if negb ok then Ok vector_size
        else VectorSize_loop turns' last_dim last_var args (to_int32 (vector_size * 2))
      else Ok vector_size
  end.

(** [Array::back]. *)
Definition back {A} (l : list A) : result A :=
  match rev l with
  | x :: _ => Ok x
  | [] => CheckFail "cannot index a empty array"
  end.

Section LayoutQueries.
Variable E : Engine.

Definition GetFlattenedIndice (L : LayoutNode) : result PrimExpr :=
  let analyzer := LayoutNode_UpdateAnalyzer L [] in
  shape <-? LayoutNode_OutputShape E L ;;
  let result_ := flatten_loop (rev (forward_index_ L)) (rev shape) (IntImm 0) (IntImm 1) in
  Ok (Simplify E analyzer result_).

(** [arith::NormalizeToIterSum] applied to the map [ToVMap] makes of the
    iteration variables; the result is the list [args] of the sum. *)
Variable NormalizeToIterSum : PrimExpr -> list IterVar -> list IterSplitExpr.

Definition VectorSize (L : LayoutNode) : result Z :=
  shape <-? LayoutNode_OutputShape E L ;;
  last_dim <-? back shape ;;
  match last_dim with
  | IntImm last_dim_value =>
      last_index <-? back (forward_index_ L) ;;
      last_iv <-? back (forward_var_ L) ;;
      let last_var := var last_iv in
      let iter_sum := NormalizeToIterSum last_index (forward_var_ L) in
      vector_size <-? VectorSize_loop 32 last_dim_value last_var iter_sum 2 ;;
      int_div vector_size 2
  | _ => Ok 1
  end.

End LayoutQueries.

(* ================================================================== *)
(** * The other GEMM fragment factories *)

Section FragmentFactories.
Variable E : Engine.

(** The default value of [Repeat]'s last parameter [lower_dim_first], given
    by the declaration of the method. *)
Variable lower_dim_first_default : bool.

Definition makeGemmFragmentA (block_m block_n block_k warp_m warp_n : Z)
  : M FragmentNode :=
  _ <- divides_check block_m warp_m "ICHECK(block_m % warp_m == 0)" ;;
  _ <- divides_check block_n warp_n "ICHECK(block_n % warp_n == 0)" ;;
  _ <- divides_check warp_m 16 "ICHECK(warp_m % 16 == 0)" ;;
  _ <- divides_check block_k 16 "ICHECK(block_k % 16 == 0)" ;;
  atom <- makeGemmFragment8x8 E ;;
  base_layout <- FragmentNode_Repeat E atom [IntImm 2; IntImm 2] false false ;;
  rm <- lift (int_div block_m warp_m) ;;
  repeated <- FragmentNode_Repeat E base_layout [IntImm rm; IntImm 1] true
                                  lower_dim_first_default ;;
  rn <- lift (int_div block_n warp_n) ;;
  warp_layout <- FragmentNode_Replicate E repeated rn ;;
  wm <- lift (int_div warp_m 16) ;;
  wk <- lift (int_div block_k 16) ;;
  FragmentNode_Repeat E warp_layout [IntImm wm; IntImm wk] false false.

Definition makeGemmFragmentB (block_m block_n block_k warp_m warp_n : Z)
  : M FragmentNode :=
  _ <- divides_check warp_n 8 "ICHECK(warp_n % 8 == 0)" ;;
  _ <- divides_check block_k 16 "ICHECK(block_k % 16 == 0)" ;;
  atom <- makeGemmFragment8x8Transposed E ;;
  base_layout <- FragmentNode_Repeat E atom [IntImm 2; IntImm 1] false false ;;
  rm <- lift (int_div block_m warp_m) ;;
  replicated <- FragmentNode_Replicate E base_layout rm ;;
  rn <- lift (int_div block_n warp_n) ;;
  warp_layout <- FragmentNode_Repeat E replicated [IntImm 1; IntImm rn] true
                                     lower_dim_first_default ;;
  wk <- lift (int_div block_k 16) ;;
  wn <- lift (int_div warp_n 8) ;;
  FragmentNode_Repeat E warp_layout [IntImm wk; IntImm wn] false true.

Definition makeGemmFragment32x32 (element_size : Z) : M FragmentNode :=
  i <- make_itervar "i" (IntImm 32) ;;
  j <- make_itervar "j" (IntImm 32) ;;
  rep <- make_itervar "rep" (IntImm 1) ;;
  _ <- ICHECK (Z.eqb element_size 16 || Z.eqb element_size 32)
              "ICHECK(element_size == 16 || element_size == 32)" ;;
  let i_ := EVar (var i) in
  let j_ := EVar (var j) in
  if Z.eqb element_size 16 then
    let thd :=
      op_add (op_add (op_add (FloorMod i_ (IntImm 4))
                             (op_mul (FloorDiv (FloorMod i_ (IntImm 16)) (IntImm 8))
                                     (IntImm 4)))
                     (op_mul (FloorDiv (FloorMod j_ (IntImm 16)) (IntImm 8)) (IntImm 8)))
             (op_mul (FloorDiv i_ (IntImm 16)) (IntImm 16)) in
    let idx :=
      op_add (op_add (op_add (FloorMod j_ (IntImm 4))
                             (op_mul (FloorDiv j_ (IntImm 16)) (IntImm 4)))
                     (op_mul (FloorDiv (FloorMod i_ (IntImm 8)) (IntImm 4)) (IntImm 8)))
             (op_mul (FloorDiv (FloorMod j_ (IntImm 8)) (IntImm 4)) (IntImm 16)) in
    Fragment_ctor E [i; j] [idx] thd (Some rep)
  else
    let thd :=
      op_add (op_add (op_add (op_add (FloorMod i_ (IntImm 2))
                                     (op_mul (IntImm 2)
                                             (FloorDiv (FloorMod j_ (IntImm 4)) (IntImm 2))))
                             (op_mul (FloorDiv (FloorMod i_ (IntImm 16)) (IntImm 8))
                                     (IntImm 4)))
                     (op_mul (FloorDiv (FloorMod j_ (IntImm 16)) (IntImm 8)) (IntImm 8)))
             (op_mul (FloorDiv i_ (IntImm 16)) (IntImm 16)) in
    let idx :=
      op_add (op_add (op_add (op_add (FloorMod j_ (IntImm 2))
                                     (op_mul (IntImm 2)
                                             (FloorDiv (FloorMod i_ (IntImm 4)) (IntImm 2))))
                             (op_mul (FloorDiv j_ (IntImm 16)) (IntImm 4)))
                     (op_mul (FloorDiv (FloorMod i_ (IntImm 8)) (IntImm 4)) (IntImm 8)))
             (op_mul (FloorDiv (FloorMod j_ (IntImm 8)) (IntImm 4)) (IntImm 16)) in
    Fragment_ctor E [i; j] [idx] thd (Some rep).

Definition makeGemmVoltaFragmentC (block_m block_n warp_m warp_n element_size : Z)
  : M FragmentNode :=
  _ <- divides_check block_m warp_m "ICHECK(block_m % warp_m == 0)" ;;
  _ <- divides_check block_n warp_n "ICHECK(block_n % warp_n == 0)" ;;
  _ <- divides_check warp_m 32 "ICHECK(warp_m % 32 == 0)" ;;
  _ <- divides_check warp_n 32 "ICHECK(warp_n % 32 == 0)" ;;
  base_layout <- makeGemmFragment32x32 element_size ;;
  wm <- lift (int_div warp_m 32) ;;
  wn <- lift (int_div warp_n 32) ;;
  warp_layout <- FragmentNode_Repeat E base_layout [IntImm wm; IntImm wn] false false ;;
  rm <- lift (int_div block_m warp_m) ;;
  rn <- lift (int_div block_n warp_n) ;;
  FragmentNode_Repeat E warp_layout [IntImm rm; IntImm rn] true lower_dim_first_default.

Definition makeGemmVoltaFragmentA (block_m block_n block_k warp_m warp_n : Z)
  : M FragmentNode :=
  _ <- divides_check block_m warp_m "ICHECK(block_m % warp_m == 0)" ;;
  _ <- divides_check block_n warp_n "ICHECK(block_n % warp_n == 0)" ;;
  _ <- divides_check warp_m 32 "ICHECK(warp_m % 32 == 0)" ;;
  _ <- divides_check block_k 4 "ICHECK(block_k % 4 == 0)" ;;
  i <- make_itervar "i" (IntImm 32) ;;
  j <- make_itervar "j" (IntImm 4) ;;
  rep <- make_itervar "rep" (IntImm 2) ;;
  let i_ := EVar (var i) in
  let j_ := EVar (var j) in
  let thd :=
    op_add (op_add (op_add (op_mul (FloorDiv (FloorMod i_ (IntImm 16)) (IntImm 8))
                                   (IntImm 4))
                           (op_mul (IntImm 16) (FloorDiv i_ (IntImm 16))))
                   (FloorMod i_ (IntImm 4)))
           (op_mul (IntImm 8) (EVar (var rep))) in
  let idx :=
    op_add j_ (op_mul (FloorDiv (FloorMod i_ (IntImm 8)) (IntImm 4)) (IntImm 4)) in
  base_layout <- Fragment_ctor E [i; j] [idx] thd (Some rep) ;;
  wm <- lift (int_div warp_m 32) ;;
  wk <- lift (int_div block_k 4) ;;
  warp_layout <- FragmentNode_Repeat E base_layout [IntImm wm; IntImm wk] false false ;;
  rn <- lift (int_div block_n warp_n) ;;
  replicated <- FragmentNode_Replicate E warp_layout rn ;;
  rm <- lift (int_div block_m warp_m) ;;
  FragmentNode_Repeat E replicated [IntImm rm; IntImm 1] true lower_dim_first_default.

End FragmentFactories.

(* ================================================================== *)
(** * The element-wise operator [Copy] *)

(** The regions of a [Copy].  The loop variables and the indices depend on
    the ranges only, not on the buffers. *)
Record Copy : Type := mkCopy {
  src_range : list Range;
  dst_range : list Range
}.

(** [std::string{char('i' + idx)}] *)
Definition loop_var_name (idx : nat) : string :=
  String (Ascii.ascii_of_nat (105 + idx)) EmptyString.

(** The loop of [MakeIterVars]: one variable for every range whose extent is
    not the constant one. *)
Fixpoint MakeIterVars_loop (ranges : list Range) (idx : nat) : M (list IterVar) :=
  match ranges with
  | [] => ret []
  | r :: rest =>
      if is_one (extent r) then MakeIterVars_loop rest idx
      else
        v <- new_Var (loop_var_name idx) ;;
        loop_vars <- MakeIterVars_loop rest (S idx) ;;
        ret (mkIterVar (Range_ctor (IntImm 0) (extent r)) v kDataPar :: loop_vars)
  end.

Definition MakeIterVars (c : Copy) : M (list IterVar) :=
  MakeIterVars_loop (src_range c) 0.

(** The loop of [MakeIndices]; it returns the indices and the number of
    variables used.  [ivs[idx]] fails beyond the end of the array. *)
Fixpoint MakeIndices_loop (ivs : list IterVar) (ranges : list Range) (idx : nat)
  : result (list PrimExpr * nat) :=
  match ranges with
  | [] => Ok ([], idx)
  | r :: rest =>
      if is_one (extent r) then
        p <-? MakeIndices_loop ivs rest idx ;;
        Ok (min r :: fst p, snd p)
      else
        match nth_error ivs idx with
        | None => CheckFail "Array index out of bounds"
        | Some iv =>
            p <-? MakeIndices_loop ivs rest (S idx) ;;
            Ok (op_add (min r) (EVar (var iv)) :: fst p, snd p)
        end
  end.

Definition MakeIndices (c : Copy) (ivs : list IterVar) (src_dst : Z)
  : result (list PrimExpr) :=
  let ranges := if Z.eqb src_dst 0 then src_range c else dst_range c in
  p <-? MakeIndices_loop ivs ranges 0 ;;
  if Nat.eqb (snd p) (List.length ivs) then Ok (fst p)
  else CheckFail "ICHECK(idx == ivs.size())".

(** * Packing two halves *)

(** [__pack_half2]: [x] and [y] are the 16-bit patterns of the two halves,
    the result is an [unsigned] of 32 bits. *)
Definition __pack_half2 (x y : Z) : Z :=
  let v0 := x mod 65536 in
  let v1 := y mod 65536 in
  Z.lor (Z.shiftl v1 16 mod 4294967296) v0.

(* ================================================================== *)
(** * Comparing the thread maps of two fragments *)

(** [StructuralEqual] on two expressions: the same operators on equal
    operands, equal constants, and, for free variables, the same variable. *)
Fixpoint StructuralEqual (a b : PrimExpr) : bool :=
  match a, b with
  | IntImm x, IntImm y => Z.eqb x y
  | EVar x, EVar y => Var_eqb x y
  | Add a1 a2, Add b1 b2 => StructuralEqual a1 b1 && StructuralEqual a2 b2
  | Sub a1 a2, Sub b1 b2 => StructuralEqual a1 b1 && StructuralEqual a2 b2
  | Mul a1 a2, Mul b1 b2 => StructuralEqual a1 b1 && StructuralEqual a2 b2
  | FloorDiv a1 a2, FloorDiv b1 b2 => StructuralEqual a1 b1 && StructuralEqual a2 b2
  | FloorMod a1 a2, FloorMod b1 b2 => StructuralEqual a1 b1 && StructuralEqual a2 b2
  | _, _ => false
  end.

(** [n] times [vars.push_back(Var())]; the default name of a variable is
    ["v"]. *)
Fixpoint push_back_vars (n : nat) : M (list PrimExpr) :=
  match n with
  | O => ret []
  | S n' =>
      v <- new_Var "v" ;;
      vars <- push_back_vars n' ;;
      ret (EVar v :: vars)
  end.

Definition FragmentThreadEqual (a b : FragmentNode) : M bool :=
  if negb (Nat.eqb (InputDim a) (InputDim b)) then ret false
  else if negb (StructuralEqual (ReplicateExtent a) (ReplicateExtent b)) then ret false
  else
    rep <- new_Var "v" ;;
    vars <- push_back_vars (InputDim a) ;;
    thread_a <- lift (ForwardThread a vars (Some (EVar rep))) ;;
    thread_b <- lift (ForwardThread b vars (Some (EVar rep))) ;;
    if negb (StructuralEqual thread_a thread_b) then ret false else ret true.

(* ================================================================== *)
(** * The contract of the arithmetic engine *)

Definition in_range (env : Env) (x : Var) (r : Range) : Prop :=
  eval env (min r) <= env x < eval env (min r) + eval env (extent r).

(** [env] respects every domain bound in the analyzer. *)
Definition models (env : Env) (A : Analyzer) : Prop :=
  Forall (fun b => in_range env (fst b) (snd b)) A.

(** A compile-time constant, non-empty domain. *)
Definition const_range (r : Range) : Prop :=
  exists lo n, r = mkRange (IntImm lo) (IntImm n) /\ 0 < n.

Definition const_analyzer (A : Analyzer) : Prop :=
  Forall const_range (map snd A) /\ NoDup (map fst A).

Definition agree_on (A : Analyzer) (env1 env2 : Env) : Prop :=
  forall x, In x (map fst A) -> env1 x = env2 x.

(** The value of [e] depends on the bound variables only. *)
Definition closed_in (A : Analyzer) (e : PrimExpr) : Prop :=
  forall env1 env2, models env1 A -> models env2 A -> agree_on A env1 env2 ->
                    eval env1 e = eval env2 e.

(** Modelled from the spec: the contract of the symbolic expression engine
    (simplifier and bound analyzer), whose code is outside these sources.
    Simplification preserves the value of an expression on the bound
    domain, leaves a constant alone and introduces no variable; bound
    inference over constant domains is tight, i.e. returns the least and the
    greatest value the expression takes. *)
Class EngineLaws (E : Engine) : Prop := {
  Simplify_sound :
    forall A env e, models env A -> eval env (Simplify E A e) = eval env e;
  Simplify_const :
    forall A c, Simplify E A (IntImm c) = IntImm c;
  Simplify_vars :
    forall A e, incl (free_vars (Simplify E A e)) (free_vars e);
  int_set_tight :
    forall A e, const_analyzer A -> vars_in (map fst A) e ->
      exists lo hi,
        int_set E A e = mkIntSet (IntImm lo) (IntImm hi) /\
        (forall env, models env A -> lo <= eval env e <= hi) /\
        (exists env, models env A /\ eval env e = lo) /\
        (exists env, models env A /\ eval env e = hi)
}.

(** Modelled from the spec: the contract of the detector and the inverter of
    affine iteration maps, whose code is outside these sources.  A map
    detected as bijective reaches every point within the bounds of its
    outputs.  The inverse computed for it gives every iterator it determines
    back from the values of the outputs, mentions nothing but the output
    expressions it is given, and leaves out only an iterator that takes a
    single value. *)
Class IterMapLaws (E : Engine) : Prop := {
  DetectIterMap_onto :
    forall index iters q,
      const_analyzer iters -> Forall (vars_in (map fst iters)) index ->
      errors (DetectIterMap E index iters) = [] ->
      Forall2 (fun e v => exists lo hi,
                 int_set E iters e = mkIntSet (IntImm lo) (IntImm hi) /\
                 lo <= v <= hi) index q ->
      exists env, models env iters /\ map (eval env) index = q;
  InverseAffineIterMap_sound :
    forall index iters outputs x e env env',
      errors (DetectIterMap E index iters) = [] ->
      vmap_find (InverseAffineIterMap E (indices (DetectIterMap E index iters)) outputs) x
      = Some e ->
      models env iters ->
      map (eval env') outputs = map (eval env) index ->
      eval env' e = env x;
  InverseAffineIterMap_lost :
    forall index iters outputs x r env,
      errors (DetectIterMap E index iters) = [] ->
      List.length outputs = List.length index ->
      In (x, r) iters ->
      vmap_find (InverseAffineIterMap E (indices (DetectIterMap E index iters)) outputs) x
      = None ->
      models env iters ->
      env x = eval env (min r);
  InverseAffineIterMap_vars :
    forall index iters outputs x e,
      vmap_find (InverseAffineIterMap E (indices (DetectIterMap E index iters)) outputs) x
      = Some e ->
      incl (free_vars e) (flat_map free_vars outputs)
}.

(* ================================================================== *)
(** * A reference engine

    A small executable engine that meets the contract: a constant folder,
    exhaustive bound inference over constant boxes, and detection of
    iteration maps that permute and shift their iterators. *)

Module RefEngine.

Fixpoint fold_constants (e : PrimExpr) : PrimExpr :=
  match e with
  | IntImm c => IntImm c
  | EVar x => EVar x
  | Add a b => op_add (fold_constants a) (fold_constants b)
  | Sub a b => op_sub (fold_constants a) (fold_constants b)
  | Mul a b => op_mul (fold_constants a) (fold_constants b)
  | FloorDiv a b => FloorDiv (fold_constants a) (fold_constants b)
  | FloorMod a b => FloorMod (fold_constants a) (fold_constants b)
  end.

Definition Simplify (A : Analyzer) (e : PrimExpr) : PrimExpr := fold_constants e.

(** The constant box bound in an analyzer, when every domain is constant and
    non-empty. *)
Fixpoint const_box (A : Analyzer) : option (list (Var * (Z * Z))) :=
  match A with
  | [] => Some []
  | (x, r) :: A' =>
      match min r, extent r, const_box A' with
      | IntImm lo, IntImm n, Some box =>
          if Z.ltb 0 n then Some ((x, (lo, n)) :: box) else None
      | _, _, _ => None
      end
  end.

Definition points (lo n : Z) : list Z :=
  map (fun k => lo + Z.of_nat k) (seq 0 (Z.to_nat n)).

(** Every assignment of the box, read as an environment. *)
Fixpoint enum (box : list (Var * (Z * Z))) : list Env :=
  match box with
  | [] => [fun _ => 0]
  | (x, (lo, n)) :: rest =>
      flat_map (fun v => map (fun env => update env x v) (enum rest)) (points lo n)
  end.

Definition minimum (d : Z) (l : list Z) : Z :=
  match l with [] => d | x :: l' => fold_left Z.min l' x end.
Definition maximum (d : Z) (l : list Z) : Z :=
  match l with [] => d | x :: l' => fold_left Z.max l' x end.

Definition int_set (A : Analyzer) (e : PrimExpr) : IntSet :=
  match const_box A with
  | Some box =>
      let values := map (fun env => eval env e) (enum box) in
      mkIntSet (IntImm (minimum 0 values)) (IntImm (maximum 0 values))
  | None => mkIntSet e e
  end.

(** The iteration maps detected: every output is one input iterator with
    unit stride, shifted by a constant, and no iterator is used twice.  An
    [Iter] reads [source + offset]. *)
Record Iter : Type := mkIter { source : Var; offset : Z }.

Fixpoint range_of (x : Var) (input_iters : list (Var * Range)) : option Range :=
  match input_iters with
  | [] => None
  | (y, r) :: rest => if Var_eqb x y then Some r else range_of x rest
  end.

(** [x mod n] is [x] when the domain of [x] is [[0, n)]. *)
Definition wraps (x : Var) (n : Z) (input_iters : list (Var * Range)) : bool :=
  match range_of x input_iters with
  | Some (mkRange (IntImm 0) (IntImm m)) => Z.eqb m n
  | _ => false
  end.

Definition as_iter (input_iters : list (Var * Range)) (e : PrimExpr) : option Iter :=
  match e with
  | EVar x => Some (mkIter x 0)
  | Add (EVar x) (IntImm c) => Some (mkIter x c)
  | Sub (EVar x) (IntImm c) => Some (mkIter x (- c))
  | FloorMod (EVar x) (IntImm n) =>
      if wraps x n input_iters then Some (mkIter x 0) else None
  | _ => None
  end.

Fixpoint as_iters (input_iters : list (Var * Range)) (index : list PrimExpr)
  : option (list Iter) :=
  match index with
  | [] => Some []
  | e :: rest =>
      match as_iter input_iters e, as_iters input_iters rest with
      | Some it, Some its => Some (it :: its)
      | _, _ => None
      end
  end.

Fixpoint mem_var (x : Var) (l : list Var) : bool :=
  match l with [] => false | y :: l' => (Var_eqb x y || mem_var x l')%bool end.

Fixpoint distinct (l : list Var) : bool :=
  match l with [] => true | x :: l' => (negb (mem_var x l') && distinct l')%bool end.

(** A bijection uses every iterator of more than one value. *)
Definition DetectIterMap (index : list PrimExpr) (input_iters : list (Var * Range))
  : IterMapResult Iter :=
  match as_iters input_iters index with
  | Some its =>
      let xs := map source its in
      if (distinct xs
          && forallb (fun x => mem_var x (map fst input_iters)) xs
          && forallb (fun b => mem_var (fst b) xs || is_one (extent (snd b)))
                     input_iters)%bool
      then mkIterMapResult its []
      else mkIterMapResult [] ["the map is not a bijection of its iterators"%string]
  | None => mkIterMapResult [] ["an index is not a shifted iterator"%string]
  end.

Definition inverse_of (p : Iter * PrimExpr) : Var * PrimExpr :=
  (source (fst p), op_sub (snd p) (IntImm (offset (fst p)))).

Definition InverseAffineIterMap (indices_ : list Iter) (outputs : list PrimExpr) : VMap :=
  map inverse_of (combine indices_ outputs).

Definition infer_fragment_index (forward_var : list IterVar) (thread_replicate : IterVar)
           (forward_thread : PrimExpr) (A : Analyzer) : PrimExpr :=
  Substitute forward_thread [(var thread_replicate, IntImm 0)].

Definition engine : Engine :=
  mkEngine Simplify int_set DetectIterMap InverseAffineIterMap infer_fragment_index.

End RefEngine.

(* ================================================================== *)
(** * Basic facts about expressions *)

Lemma Var_eqb_spec (x y : Var) : reflect (x = y) (Var_eqb x y).
Proof.
  destruct x as [n i], y as [m j]; unfold Var_eqb; simpl.
  destruct (String.eqb_spec n m) as [->|Hn]; simpl.
  - destruct (Nat.eqb_spec i j) as [->|Hi]; constructor; congruence.
  - constructor; congruence.
Qed.

Lemma Var_eqb_refl (x : Var) : Var_eqb x x = true.
Proof. destruct (Var_eqb_spec x x); congruence. Qed.

Lemma Var_eqb_neq (x y : Var) : x <> y -> Var_eqb x y = false.
Proof. destruct (Var_eqb_spec x y); congruence. Qed.

Lemma Var_eq_dec (x y : Var) : {x = y} + {x <> y}.
Proof. destruct (Var_eqb_spec x y); [left | right]; assumption. Defined.

Ltac fold_cases :=
  repeat match goal with
         | |- context [Z.eqb ?x ?c] => destruct (Z.eqb_spec x c); subst
         end.

Lemma eval_op_add env a b : eval env (op_add a b) = eval env a + eval env b.
Proof. destruct a, b; unfold op_add; fold_cases; cbn [eval]; ring. Qed.

Lemma eval_op_sub env a b : eval env (op_sub a b) = eval env a - eval env b.
Proof. destruct a, b; unfold op_sub; fold_cases; cbn [eval]; ring. Qed.

Lemma eval_op_mul env a b : eval env (op_mul a b) = eval env a * eval env b.
Proof. destruct a, b; unfold op_mul; fold_cases; cbn [eval]; ring. Qed.

Lemma eval_Substitute env m e :
  eval env (Substitute e m) = eval (subst_env env m) e.
Proof.
  induction e; simpl; try congruence.
  unfold subst_env. destruct (vmap_find m v); reflexivity.
Qed.

Lemma vmap_find_Some (m : VMap) x e : vmap_find m x = Some e -> In (x, e) m.
Proof.
  induction m as [|[y t] m IH]; simpl; [discriminate|].
  destruct (Var_eqb_spec x y) as [->|Hne]; intros H.
  - inversion H; subst. now left.
  - right. now apply IH.
Qed.

Lemma map_fst_combine {A B} (l : list A) (l' : list B) :
  List.length l' = List.length l -> map fst (combine l l') = l.
Proof.
  revert l'. induction l as [|a l IH]; intros [|b l'] H; try discriminate; simpl.
  - reflexivity.
  - f_equal. apply IH. now injection H.
Qed.

Lemma map_snd_combine {A B} (l : list A) (l' : list B) :
  List.length l' = List.length l -> map snd (combine l l') = l'.
Proof.
  revert l'. induction l as [|a l IH]; intros [|b l'] H; try discriminate; simpl.
  - reflexivity.
  - f_equal. apply IH. now injection H.
Qed.

Lemma update_same env x v : update env x v x = v.
Proof. unfold update. now rewrite Var_eqb_refl. Qed.

Lemma update_other env x v y : y <> x -> update env x v y = env y.
Proof. intros H. unfold update. now rewrite Var_eqb_neq. Qed.

Lemma eval_agree env1 env2 e :
  (forall x, In x (free_vars e) -> env1 x = env2 x) -> eval env1 e = eval env2 e.
Proof.
  induction e; simpl; intros H; try reflexivity;
    try (rewrite IHe1, IHe2; [reflexivity | |]; intros x Hx; apply H;
         apply in_or_app; auto).
  apply H. now left.
Qed.

Lemma free_vars_op_add a b : incl (free_vars (op_add a b)) (free_vars a ++ free_vars b).
Proof.
  destruct a, b; unfold op_add; fold_cases; simpl; intros x Hx;
    rewrite ?app_nil_r in *; auto; try contradiction.
Qed.

Lemma free_vars_op_sub a b : incl (free_vars (op_sub a b)) (free_vars a ++ free_vars b).
Proof.
  destruct a, b; unfold op_sub; fold_cases; simpl; intros x Hx;
    rewrite ?app_nil_r in *; auto; try contradiction.
Qed.

Lemma free_vars_op_mul a b : incl (free_vars (op_mul a b)) (free_vars a ++ free_vars b).
Proof.
  destruct a, b; unfold op_mul; fold_cases; simpl; intros x Hx;
    rewrite ?app_nil_r in *; auto; try contradiction.
Qed.

Lemma vars_in_op_add K a b : vars_in K a -> vars_in K b -> vars_in K (op_add a b).
Proof.
  intros Ha Hb x Hx. apply free_vars_op_add in Hx.
  apply in_app_or in Hx. destruct Hx; [now apply Ha | now apply Hb].
Qed.

Lemma vars_in_op_mul K a b : vars_in K a -> vars_in K b -> vars_in K (op_mul a b).
Proof.
  intros Ha Hb x Hx. apply free_vars_op_mul in Hx.
  apply in_app_or in Hx. destruct Hx; [now apply Ha | now apply Hb].
Qed.

Lemma vars_in_const K c : vars_in K (IntImm c).
Proof. intros x []. Qed.

Lemma vars_in_incl K K' e : incl K K' -> vars_in K e -> vars_in K' e.
Proof. intros HK He x Hx. apply HK. now apply He. Qed.

(** A variable of a substituted expression is a variable the substitution
    left alone, or a variable of the image of one it replaced. *)
Lemma free_vars_Substitute e m x :
  In x (free_vars (Substitute e m)) ->
  (In x (free_vars e) /\ vmap_find m x = None) \/
  (exists y t, In y (free_vars e) /\ vmap_find m y = Some t /\ In x (free_vars t)).
Proof.
  induction e; simpl; intros Hx; try contradiction;
    try (apply in_app_or in Hx; destruct Hx as [Hx|Hx];
         [destruct (IHe1 Hx) as [[H1 H2]|(y & t & H1 & H2 & H3)]
         |destruct (IHe2 Hx) as [[H1 H2]|(y & t & H1 & H2 & H3)]];
         [left; split; [apply in_or_app; auto | assumption]
         |right; exists y, t; repeat split; [apply in_or_app; auto | assumption..]
         |left; split; [apply in_or_app; auto | assumption]
         |right; exists y, t; repeat split; [apply in_or_app; auto | assumption..]]).
  destruct (vmap_find m v) as [t|] eqn:Hf.
  - right. exists v, t. repeat split; [now left | assumption..].
  - simpl in Hx. destruct Hx as [<-|[]]. left. split; [now left | assumption].
Qed.

Lemma to_int32_small z : -2147483648 <= z < 2147483648 -> to_int32 z = z.
Proof. intros H. unfold to_int32. rewrite Z.mod_small; lia. Qed.

(* ================================================================== *)
(** * The XOR helpers are the bitwise exclusive or *)

Lemma eval_xor2x2 env i j :
  eval env (xor2x2 i j) = (eval env i + eval env j) mod 2.
Proof. unfold xor2x2; simpl; now rewrite eval_op_add. Qed.

Lemma eval_xor4x4 env i j :
  eval env (xor4x4 i j) =
  2 * ((eval env i / 2 + eval env j / 2) mod 2)
  + (eval env i mod 2 + eval env j mod 2) mod 2.
Proof.
  unfold xor4x4. rewrite eval_op_add, eval_op_mul, !eval_xor2x2. reflexivity.
Qed.

Lemma eval_xor8x8 env i j :
  eval env (xor8x8 i j) =
  2 * (2 * ((eval env i / 2 / 2 + eval env j / 2 / 2) mod 2)
       + (eval env i / 2 mod 2 + eval env j / 2 mod 2) mod 2)
  + (eval env i mod 2 + eval env j mod 2) mod 2.
Proof.
  unfold xor8x8. rewrite eval_op_add, eval_op_mul, eval_xor4x4, eval_xor2x2.
  reflexivity.
Qed.

(** Every integer in [[0, n)] is one of the first [n] naturals: case analysis
    on a small range. *)
Lemma small_range (n : nat) (x : Z) :
  0 <= x < Z.of_nat n -> In x (map Z.of_nat (seq 0 n)).
Proof.
  intros H. apply in_map_iff. exists (Z.to_nat x). split; [lia|].
  apply in_seq. lia.
Qed.

Ltac enum_range H :=
  apply (small_range _) in H; simpl in H;
  repeat (destruct H as [H|H]; [subst|]); try contradiction.

(** C10: on 3-bit operands [xor8x8] is the bitwise exclusive or, and so are
    [xor4x4] on 2-bit operands and [xor2x2] on single bits. *)
Theorem xor_helpers_are_bitwise_xor :
  forall (env : Env) (i j : PrimExpr),
    (0 <= eval env i < 8 -> 0 <= eval env j < 8 ->
     eval env (xor8x8 i j) = Z.lxor (eval env i) (eval env j)) /\
    (0 <= eval env i < 4 -> 0 <= eval env j < 4 ->
     eval env (xor4x4 i j) = Z.lxor (eval env i) (eval env j)) /\
    (0 <= eval env i < 2 -> 0 <= eval env j < 2 ->
     eval env (xor2x2 i j) = Z.lxor (eval env i) (eval env j)).
Proof.
  intros env i j.
  rewrite eval_xor8x8, eval_xor4x4, eval_xor2x2.
  generalize (eval env i) (eval env j); intros a b.
  repeat split; intros Ha Hb.
  - change 8 with (Z.of_nat 8) in Ha, Hb. enum_range Ha; enum_range Hb; reflexivity.
  - change 4 with (Z.of_nat 4) in Ha, Hb. enum_range Ha; enum_range Hb; reflexivity.
  - change 2 with (Z.of_nat 2) in Ha, Hb. enum_range Ha; enum_range Hb; reflexivity.
Qed.

(** The claim's hypotheses are met by concrete operands: 5 xor 3 = 6. *)
Lemma xor_helpers_are_bitwise_xor_witness :
  eval (fun _ => 0) (xor8x8 (IntImm 5) (IntImm 3)) = Z.lxor 5 3.
Proof.
  apply (proj1 (xor_helpers_are_bitwise_xor (fun _ => 0) (IntImm 5) (IntImm 3)));
    simpl; lia.
Defined.

(** ** The reference engine meets the contract *)

Module RefEngineFacts.
Import RefEngine.

Lemma eval_fold_constants env e : eval env (fold_constants e) = eval env e.
Proof.
  induction e; simpl; rewrite ?eval_op_add, ?eval_op_sub, ?eval_op_mul; congruence.
Qed.

Definition models_box (env : Env) (box : list (Var * (Z * Z))) : Prop :=
  Forall (fun b => fst (snd b) <= env (fst b) < fst (snd b) + snd (snd b)) box.

Lemma const_box_of_const A :
  Forall const_range (map snd A) -> exists box, const_box A = Some box.
Proof.
  induction A as [|[x r] A IH]; simpl; intros H.
  - now exists [].
  - inversion H as [|? ? (lo & n & -> & Hn) HA]; subst.
    destruct (IH HA) as [box ->]. simpl.
    destruct (Z.ltb_spec 0 n); [eauto | lia].
Qed.

Lemma const_box_spec A box :
  const_box A = Some box ->
  map fst box = map fst A /\
  Forall (fun b => 0 < snd (snd b)) box /\
  forall env, models env A <-> models_box env box.
Proof.
  revert box. induction A as [|[x r] A IH]; simpl; intros box H.
  - inversion H; subst. repeat split; constructor.
  - destruct r as [mn ex]; simpl in H.
    destruct mn as [lo| | | | | |]; try discriminate.
    destruct ex as [n| | | | | |]; try discriminate.
    destruct (const_box A) as [box'|] eqn:HA; try discriminate.
    destruct (Z.ltb_spec 0 n) as [Hn|]; try discriminate.
    inversion H; subst; clear H.
    destruct (IH box' eq_refl) as (Hv & Hp & Hm).
    split; [simpl; congruence|]. split; [constructor; assumption|].
    intros env; split; intros Hx; inversion Hx; subst; constructor;
      try (apply Hm; assumption); assumption.
Qed.

Lemma In_points lo n v : In v (points lo n) <-> lo <= v < lo + n.
Proof.
  unfold points. rewrite in_map_iff. split.
  - intros (k & <- & Hk). apply in_seq in Hk. lia.
  - intros H. exists (Z.to_nat (v - lo)). split; [lia|]. apply in_seq. lia.
Qed.

Lemma enum_models box env :
  NoDup (map fst box) -> In env (enum box) -> models_box env box.
Proof.
  revert env. induction box as [|[x [lo n]] box IH]; simpl; intros env Hnd Hin.
  - constructor.
  - inversion Hnd as [|? ? Hx Hnd']; subst.
    apply in_flat_map in Hin. destruct Hin as (v & Hv & Hin).
    apply in_map_iff in Hin. destruct Hin as (env' & <- & Hin').
    apply In_points in Hv. constructor; simpl.
    + rewrite update_same. assumption.
    + specialize (IH env' Hnd' Hin'). unfold models_box in *.
      rewrite Forall_forall in *. intros b Hb.
      rewrite update_other; [now apply IH|].
      intros Heq. apply Hx. rewrite <- Heq. now apply in_map.
Qed.

Lemma enum_complete box env :
  models_box env box ->
  exists env', In env' (enum box) /\ forall x, In x (map fst box) -> env' x = env x.
Proof.
  induction box as [|[x [lo n]] box IH]; simpl; intros H.
  - exists (fun _ => 0). split; [now left | contradiction].
  - inversion H as [|? ? Hx Hrest]; subst; simpl in Hx.
    destruct (IH Hrest) as (env' & Hin & Hagree).
    exists (update env' x (env x)). split.
    + apply in_flat_map. exists (env x). split; [now apply In_points|].
      apply (in_map (fun e0 => update e0 x (env x))). assumption.
    + intros y [<-|Hy]; [apply update_same|].
      destruct (Var_eq_dec y x) as [->|Hne]; [apply update_same|].
      rewrite update_other by assumption. now apply Hagree.
Qed.

Lemma fold_min_spec l x :
  (fold_left Z.min l x = x \/ In (fold_left Z.min l x) l) /\
  fold_left Z.min l x <= x /\ forall y, In y l -> fold_left Z.min l x <= y.
Proof.
  revert x. induction l as [|a l IH]; simpl; intros x.
  - repeat split; [now left | lia | contradiction].
  - destruct (IH (Z.min x a)) as ([H|H] & Hle & Hall).
    + repeat split; [ | lia | intros y [<-|Hy]; [lia | now apply Hall]].
      rewrite H. destruct (Z.min_spec x a) as [[_ ->]|[_ ->]]; auto.
    + repeat split; [right; now right | lia | intros y [<-|Hy]; [lia | now apply Hall]].
Qed.

Lemma fold_max_spec l x :
  (fold_left Z.max l x = x \/ In (fold_left Z.max l x) l) /\
  x <= fold_left Z.max l x /\ forall y, In y l -> y <= fold_left Z.max l x.
Proof.
  revert x. induction l as [|a l IH]; simpl; intros x.
  - repeat split; [now left | lia | contradiction].
  - destruct (IH (Z.max x a)) as ([H|H] & Hle & Hall).
    + repeat split; [ | lia | intros y [<-|Hy]; [lia | now apply Hall]].
      rewrite H. destruct (Z.max_spec x a) as [[_ ->]|[_ ->]]; auto.
    + repeat split; [right; now right | lia | intros y [<-|Hy]; [lia | now apply Hall]].
Qed.

Lemma minimum_spec d l :
  l <> [] -> In (minimum d l) l /\ forall y, In y l -> minimum d l <= y.
Proof.
  destruct l as [|x l]; [congruence|]. intros _. simpl.
  destruct (fold_min_spec l x) as ([H|H] & Hle & Hall).
  - split; [left; congruence | intros y [<-|Hy]; [lia | now apply Hall]].
  - split; [now right | intros y [<-|Hy]; [lia | now apply Hall]].
Qed.

Lemma maximum_spec d l :
  l <> [] -> In (maximum d l) l /\ forall y, In y l -> y <= maximum d l.
Proof.
  destruct l as [|x l]; [congruence|]. intros _. simpl.
  destruct (fold_max_spec l x) as ([H|H] & Hle & Hall).
  - split; [left; congruence | intros y [<-|Hy]; [lia | now apply Hall]].
  - split; [now right | intros y [<-|Hy]; [lia | now apply Hall]].
Qed.

Lemma enum_nonempty box :
  Forall (fun b => 0 < snd (snd b)) box -> enum box <> [].
Proof.
  induction box as [|[x [lo n]] box IH]; simpl; intros H; [discriminate|].
  inversion H as [|? ? Hn Hrest]; subst; simpl in Hn.
  specialize (IH Hrest). destruct (enum box) as [|env envs]; [congruence|].
  unfold points. destruct (Z.to_nat n) eqn:Hk; [lia|]. simpl. discriminate.
Qed.

Lemma free_vars_fold_constants e : incl (free_vars (fold_constants e)) (free_vars e).
Proof.
  induction e; simpl; try apply incl_refl;
    try (intros x Hx; apply in_app_or in Hx; apply in_or_app; destruct Hx; auto).
  - intros x Hx. apply free_vars_op_add, in_app_or in Hx.
    apply in_or_app. destruct Hx; auto.
  - intros x Hx. apply free_vars_op_sub, in_app_or in Hx.
    apply in_or_app. destruct Hx; auto.
  - intros x Hx. apply free_vars_op_mul, in_app_or in Hx.
    apply in_or_app. destruct Hx; auto.
Qed.

Lemma vars_in_closed A e : vars_in (map fst A) e -> closed_in A e.
Proof.
  intros Hv env1 env2 _ _ Hag. apply eval_agree. intros x Hx. apply Hag. now apply Hv.
Qed.

Lemma int_set_tight A e :
  const_analyzer A -> vars_in (map fst A) e ->
  exists lo hi,
    int_set A e = mkIntSet (IntImm lo) (IntImm hi) /\
    (forall env, models env A -> lo <= eval env e <= hi) /\
    (exists env, models env A /\ eval env e = lo) /\
    (exists env, models env A /\ eval env e = hi).
Proof.
  intros [Hc Hnd] Hcl%vars_in_closed.
  destruct (const_box_of_const A Hc) as [box Hbox].
  destruct (const_box_spec A Hbox) as (Hv & Hp & Hm).
  unfold int_set. rewrite Hbox.
  set (values := map (fun env => eval env e) (enum box)).
  assert (Hne : values <> []).
  { unfold values. intros H. apply map_eq_nil in H. now apply enum_nonempty in H. }
  destruct (minimum_spec 0 Hne) as (Hmin_in & Hmin).
  destruct (maximum_spec 0 Hne) as (Hmax_in & Hmax).
  assert (Hmod : forall env, In env (enum box) -> models env A).
  { intros env Hin. apply Hm. apply enum_models; [now rewrite Hv | assumption]. }
  exists (minimum 0 values), (maximum 0 values). split; [reflexivity|].
  split; [|split].
  - intros env Henv.
    destruct (enum_complete (proj1 (Hm env) Henv)) as (env' & Hin & Hag).
    assert (Heq : eval env e = eval env' e).
    { apply Hcl; [assumption | now apply Hmod |].
      intros x Hx. symmetry. apply Hag. now rewrite Hv. }
    assert (Hval : In (eval env e) values).
    { rewrite Heq. unfold values. now apply in_map with (f := fun env => eval env e). }
    split; [now apply Hmin | now apply Hmax].
  - unfold values in Hmin_in at 2. apply in_map_iff in Hmin_in.
    destruct Hmin_in as (env & Heq & Hin). exists env. split; [now apply Hmod | assumption].
  - unfold values in Hmax_in at 2. apply in_map_iff in Hmax_in.
    destruct Hmax_in as (env & Heq & Hin). exists env. split; [now apply Hmod | assumption].
Qed.

#[export] Instance engine_laws : EngineLaws engine.
Proof.
  constructor.
  - intros A env e _. apply eval_fold_constants.
  - reflexivity.
  - intros A e. apply free_vars_fold_constants.
  - apply int_set_tight.
Qed.

(** ** The laws of the iteration maps *)

Lemma mem_var_In x l : mem_var x l = true <-> In x l.
Proof.
  induction l as [|y l IH]; simpl; [split; [discriminate | contradiction]|].
  rewrite Bool.orb_true_iff, IH. split.
  - intros [H|H]; [left | now right].
    destruct (Var_eqb_spec x y); [congruence | discriminate].
  - intros [->|H]; [left; apply Var_eqb_refl | now right].
Qed.

Lemma distinct_NoDup l : distinct l = true -> NoDup l.
Proof.
  induction l as [|x l IH]; simpl; intros H; [constructor|].
  apply Bool.andb_true_iff in H. destruct H as [Hx Hl].
  constructor; [|now apply IH].
  intros Hin. apply mem_var_In in Hin. rewrite Hin in Hx. discriminate.
Qed.

Lemma range_of_In x iters r : range_of x iters = Some r -> In (x, r) iters.
Proof.
  induction iters as [|[y r'] iters IH]; simpl; [discriminate|].
  destruct (Var_eqb_spec x y) as [->|Hne]; intros H.
  - inversion H; subst. now left.
  - right. now apply IH.
Qed.

Lemma models_In env iters x r : models env iters -> In (x, r) iters -> in_range env x r.
Proof.
  intros Hm Hin. unfold models in Hm. rewrite Forall_forall in Hm.
  apply (Hm (x, r) Hin).
Qed.

(** A detected output reads its iterator, shifted. *)
Lemma as_iter_eval iters e it env :
  as_iter iters e = Some it -> models env iters ->
  eval env e = env (source it) + offset it.
Proof.
  intros H Hm.
  destruct e as [c|x|a b|a b|a b|a b|a b]; simpl in H; try discriminate.
  - inversion H; subst; simpl. lia.
  - destruct a; try discriminate. destruct b; try discriminate.
    inversion H; subst; simpl. reflexivity.
  - destruct a; try discriminate. destruct b; try discriminate.
    inversion H; subst; simpl. lia.
  - destruct a as [|x| | | | |]; try discriminate.
    destruct b as [n| | | | | |]; try discriminate.
    destruct (wraps x n iters) eqn:Hw; try discriminate.
    inversion H; subst; simpl. unfold wraps in Hw.
    destruct (range_of x iters) as [[mn ex]|] eqn:Hr; try discriminate.
    destruct mn as [z| | | | | |]; try discriminate.
    destruct z; try discriminate.
    destruct ex as [m| | | | | |]; try discriminate.
    apply Z.eqb_eq in Hw. subst m. apply range_of_In in Hr.
    pose proof (@models_In _ _ _ _ Hm Hr) as Hx. unfold in_range in Hx. simpl in Hx.
    rewrite Z.mod_small; lia.
Qed.

Lemma as_iters_spec iters index : forall its,
  as_iters iters index = Some its ->
  Forall2 (fun e it => as_iter iters e = Some it) index its.
Proof.
  induction index as [|e index IH]; simpl; intros its H.
  - inversion H. constructor.
  - destruct (as_iter iters e) as [it|] eqn:He; try discriminate.
    destruct (as_iters iters index) as [its'|]; try discriminate.
    inversion H; subst. constructor; [assumption | now apply IH].
Qed.

(** What a successful detection has checked. *)
Lemma DetectIterMap_spec index iters :
  errors (DetectIterMap index iters) = [] ->
  exists its,
    indices (DetectIterMap index iters) = its /\
    Forall2 (fun e it => as_iter iters e = Some it) index its /\
    NoDup (map source its) /\
    (forall x r, In (x, r) iters ->
                 In x (map source its) \/ extent r = IntImm 1).
Proof.
  unfold DetectIterMap.
  destruct (as_iters iters index) as [its|] eqn:Hits; [|discriminate].
  destruct (distinct (map source its)) eqn:Hd; simpl; [|discriminate].
  destruct (forallb (fun x => mem_var x (map fst iters)) (map source its));
    simpl; [|discriminate].
  destruct (forallb (fun b => mem_var (fst b) (map source its)
                              || is_one (extent (snd b)))%bool iters) eqn:Hc;
    simpl; [|discriminate].
  intros _. exists its. split; [reflexivity|].
  split; [now apply as_iters_spec|]. split; [now apply distinct_NoDup|].
  intros x r Hin. rewrite forallb_forall in Hc. specialize (Hc (x, r) Hin).
  simpl in Hc. apply Bool.orb_true_iff in Hc. destruct Hc as [Hc|Hc].
  - left. now apply mem_var_In.
  - right. unfold is_one, is_const_int in Hc.
    destruct (extent r); try discriminate. apply Z.eqb_eq in Hc. now subst.
Qed.

Lemma inverse_sound iters env env' x e index : forall its outputs,
  Forall2 (fun a it => as_iter iters a = Some it) index its ->
  vmap_find (InverseAffineIterMap its outputs) x = Some e ->
  models env iters ->
  map (eval env') outputs = map (eval env) index ->
  eval env' e = env x.
Proof.
  unfold InverseAffineIterMap.
  induction index as [|a index IH]; intros its outputs Hits Hfind Hm Hout;
    inversion Hits as [|? it ? its' Ha Hrest]; subst; simpl in Hfind;
    [discriminate|].
  destruct outputs as [|o outputs]; [discriminate|].
  simpl in Hout. injection Hout as Ho Hout. simpl in Hfind.
  destruct (Var_eqb_spec x (source it)) as [->|Hne].
  - inversion Hfind; subst. rewrite eval_op_sub, Ho. simpl.
    rewrite (@as_iter_eval _ _ _ _ Ha Hm). lia.
  - now apply (IH its' outputs).
Qed.

Lemma inverse_keys x : forall its outputs,
  List.length outputs = List.length its ->
  vmap_find (InverseAffineIterMap its outputs) x = None ->
  ~ In x (map source its).
Proof.
  unfold InverseAffineIterMap.
  induction its as [|it its IH]; intros [|o outputs] Hlen Hfind; simpl in *;
    try discriminate; [tauto|].
  destruct (Var_eqb_spec x (source it)) as [->|Hne]; [discriminate|].
  intros [Heq|Hin]; [congruence|]. injection Hlen as Hlen.
  now apply (IH outputs).
Qed.

Lemma inverse_vars_in x e its outputs :
  vmap_find (InverseAffineIterMap its outputs) x = Some e ->
  incl (free_vars e) (flat_map free_vars outputs).
Proof.
  intros H. apply vmap_find_Some in H. unfold InverseAffineIterMap in H.
  apply in_map_iff in H. destruct H as ([it o] & Heq & Hin).
  unfold inverse_of in Heq. simpl in Heq. inversion Heq; subst.
  apply in_combine_r in Hin. intros y Hy.
  apply free_vars_op_sub in Hy. simpl in Hy. rewrite app_nil_r in Hy.
  apply in_flat_map. now exists o.
Qed.

(** The values the iterators must take for the outputs to be [q]. *)
Definition assignment (its : list Iter) (q : list Z) : list (Var * Z) :=
  map (fun p => (source (fst p), snd p - offset (fst p))) (combine its q).

Lemma assign_models box (asg : list (Var * Z)) env :
  NoDup (map fst asg) -> models_box env box ->
  (forall x w, In (x, w) asg ->
     forall lo n, In (x, (lo, n)) box -> lo <= w < lo + n) ->
  exists env', models_box env' box /\ forall x w, In (x, w) asg -> env' x = w.
Proof.
  induction asg as [|[x w] asg IH]; simpl; intros Hnd Hm Hfit.
  - exists env. split; [assumption | contradiction].
  - inversion Hnd as [|? ? Hx Hnd']; subst.
    destruct (IH Hnd' Hm) as (env1 & Hm1 & Hval).
    { intros y v Hin. apply Hfit. now right. }
    exists (update env1 x w). split.
    + unfold models_box in *. rewrite Forall_forall in *.
      intros [y [lo n]] Hb. simpl.
      destruct (Var_eq_dec y x) as [->|Hne].
      * rewrite update_same. apply (Hfit x w); [now left | assumption].
      * rewrite update_other by assumption. apply (Hm1 (y, (lo, n)) Hb).
    + intros y v [Heq|Hin].
      * inversion Heq; subst. apply update_same.
      * rewrite update_other; [now apply Hval|].
        intros ->. apply Hx. apply in_map_iff. now exists (x, v).
Qed.

Lemma assignment_fits iters box index : forall its q,
  const_analyzer iters -> const_box iters = Some box ->
  Forall (vars_in (map fst iters)) index ->
  Forall2 (fun a it => as_iter iters a = Some it) index its ->
  Forall2 (fun a v => exists lo hi,
             int_set iters a = mkIntSet (IntImm lo) (IntImm hi) /\ lo <= v <= hi)
          index q ->
  forall x w, In (x, w) (assignment its q) ->
    forall lo n, In (x, (lo, n)) box -> lo <= w < lo + n.
Proof.
  intros its q Hconst Hbox. destruct (const_box_spec iters Hbox) as (_ & _ & Hm).
  revert its q. unfold assignment.
  induction index as [|a index IH]; intros its q Hcl Hits Hq x w Hin lo n Hb;
    inversion Hits as [|? it ? its' Ha Hrest]; subst; simpl in Hin; [contradiction|].
  inversion Hq as [|? v ? q' (l & h & Hset & Hv) Hq']; subst. simpl in Hin.
  inversion Hcl as [|? ? Hca Hcl']; subst.
  destruct Hin as [Heq|Hin]; [|now apply (IH its' q' Hcl' Hrest Hq' x w Hin)].
  simpl in Heq. inversion Heq; subst.
  destruct (int_set_tight Hconst Hca)
    as (l' & h' & Hset' & _ & (env0 & Hm0 & Hv0) & (env1 & Hm1 & Hv1)).
  rewrite Hset in Hset'. injection Hset' as Hl Hh.
  rewrite (@as_iter_eval _ _ _ _ Ha Hm0) in Hv0.
  rewrite (@as_iter_eval _ _ _ _ Ha Hm1) in Hv1.
  apply Hm in Hm0, Hm1. unfold models_box in Hm0, Hm1.
  rewrite Forall_forall in Hm0, Hm1.
  specialize (Hm0 _ Hb). specialize (Hm1 _ Hb). simpl in Hm0, Hm1. lia.
Qed.

Lemma eval_assigned iters env index : forall its q,
  Forall2 (fun a it => as_iter iters a = Some it) index its ->
  List.length q = List.length index ->
  models env iters ->
  (forall x w, In (x, w) (assignment its q) -> env x = w) ->
  map (eval env) index = q.
Proof.
  unfold assignment.
  induction index as [|a index IH]; intros its [|v q] Hits Hlen Hm Hval;
    try discriminate; [reflexivity|].
  inversion Hits as [|? it ? its' Ha Hrest]; subst. simpl in *.
  injection Hlen as Hlen. f_equal.
  - rewrite (@as_iter_eval _ _ _ _ Ha Hm), (Hval (source it) (v - offset it)); [lia | now left].
  - apply (IH its' q Hrest Hlen Hm). intros x w Hin. apply Hval. now right.
Qed.

Lemma detect_onto index iters q :
  const_analyzer iters -> Forall (vars_in (map fst iters)) index ->
  errors (DetectIterMap index iters) = [] ->
  Forall2 (fun e v => exists lo hi,
             int_set iters e = mkIntSet (IntImm lo) (IntImm hi) /\ lo <= v <= hi)
          index q ->
  exists env, models env iters /\ map (eval env) index = q.
Proof.
  intros Hconst Hcl Hdet Hq.
  destruct (DetectIterMap_spec _ _ Hdet) as (its & _ & Hits & Hnd & _).
  destruct Hconst as [Hc Hkeys].
  destruct (const_box_of_const iters Hc) as [box Hbox].
  destruct (const_box_spec iters Hbox) as (Hv & Hp & Hm).
  pose proof (enum_nonempty Hp) as Hne.
  destruct (enum box) as [|env0 envs] eqn:Henum; [congruence|].
  assert (Hm0 : models_box env0 box).
  { apply enum_models; [now rewrite Hv | rewrite Henum; now left]. }
  assert (Hlen : List.length its = List.length q).
  { rewrite <- (Forall2_length Hits). apply (Forall2_length Hq). }
  destruct (@assign_models box (assignment its q) env0) as (env & Hme & Hval).
  - unfold assignment. rewrite map_map. simpl.
    replace (map (fun p : Iter * Z => source (fst p)) (combine its q))
      with (map source (map fst (combine its q))) by (rewrite map_map; reflexivity).
    rewrite map_fst_combine by (symmetry; assumption). assumption.
  - assumption.
  - apply (assignment_fits (conj Hc Hkeys) Hbox Hcl Hits Hq).
  - exists env. split; [now apply Hm|].
    eapply eval_assigned; [exact Hits | symmetry; apply (Forall2_length Hq)
                          | now apply Hm | assumption].
Qed.

#[export] Instance iter_map_laws : IterMapLaws engine.
Proof.
  constructor.
  - apply detect_onto.
  - intros index iters outputs x e env env' Hdet Hfind Hm Hout.
    destruct (DetectIterMap_spec _ _ Hdet) as (its & Hidx & Hits & _ & _).
    simpl in Hfind. rewrite Hidx in Hfind.
    eapply inverse_sound; eassumption.
  - intros index iters outputs x r env Hdet Hlen Hin Hfind Hm.
    destruct (DetectIterMap_spec _ _ Hdet) as (its & Hidx & Hits & _ & Hcov).
    simpl in Hfind. rewrite Hidx in Hfind.
    apply inverse_keys in Hfind;
      [|rewrite Hlen; apply (Forall2_length Hits)].
    destruct (Hcov x r Hin) as [Hx|Hone]; [contradiction|].
    pose proof (@models_In _ _ _ _ Hm Hin) as Hr. unfold in_range in Hr.
    rewrite Hone in Hr. simpl in Hr. lia.
  - intros index iters outputs x e Hfind. simpl in Hfind.
    eapply inverse_vars_in; eassumption.
Qed.

End RefEngineFacts.

(* ================================================================== *)
(** * Properties of [OutputShape] *)

Section OutputShapeFacts.
Variable E : Engine.

Lemma OutputShape_loop_spec (A : Analyzer) (index : list PrimExpr) :
  match OutputShape_loop E A index with
  | Ok shape =>
      Forall2 (fun e s =>
                 is_one (set_min (int_set E A (op_add e (IntImm 1)))) = true /\
                 s = set_max (int_set E A (op_add e (IntImm 1))))
              index shape
  | CheckFail _ =>
      Exists (fun e => is_one (set_min (int_set E A (op_add e (IntImm 1)))) = false)
             index
  end.
Proof.
  induction index as [|e rest IH]; simpl.
  - constructor.
  - destruct (is_one (set_min (int_set E A (op_add e (IntImm 1))))) eqn:Hone.
    + destruct (OutputShape_loop E A rest) as [shape|msg]; simpl.
      * constructor; [split; [assumption | reflexivity] | assumption].
      * now apply Exists_cons_tl.
    + now apply Exists_cons_hd.
Qed.

Lemma OutputShape_loop_length (A : Analyzer) (index shape : list PrimExpr) :
  OutputShape_loop E A index = Ok shape -> List.length shape = List.length index.
Proof.
  intros H. pose proof (OutputShape_loop_spec A index) as Hs. rewrite H in Hs.
  symmetry. eapply Forall2_length; eassumption.
Qed.

End OutputShapeFacts.

(** C9: [OutputShape] either returns, for each output expression, the
    inferred maximum of [expr + 1], the inferred minimum of [expr + 1] being
    the constant 1 for every one of them, or it fails on a check, and then
    some output expression has an inferred minimum of [expr + 1] other than
    1.  No shape is returned for an expression whose inferred minimum is
    nonzero. *)
Theorem OutputShape_minimum_checked :
  forall (E : Engine) (L : LayoutNode),
    match LayoutNode_OutputShape E L with
    | Ok shape =>
        Forall2 (fun e s =>
                   is_one (set_min (int_set E (LayoutNode_UpdateAnalyzer L [])
                                            (op_add e (IntImm 1)))) = true /\
                   s = set_max (int_set E (LayoutNode_UpdateAnalyzer L [])
                                        (op_add e (IntImm 1))))
                (forward_index_ L) shape
    | CheckFail _ =>
        Exists (fun e =>
                  is_one (set_min (int_set E (LayoutNode_UpdateAnalyzer L [])
                                           (op_add e (IntImm 1)))) = false)
               (forward_index_ L)
    end.
Proof.
  intros E L. unfold LayoutNode_OutputShape. apply OutputShape_loop_spec.
Qed.

(* ================================================================== *)
(** * Properties of [Inverse] *)

Ltac monad_simpl :=
  unfold bind, ret, lift, fail, ICHECK, new_Var in *; simpl in *.

Section InverseFacts.
Variable E : Engine.

(** The variables [Inverse] allocates: named ["v0"], ["v1"], ..., with the
    next free identities. *)
Definition inverse_vars (i s : nat) (n : nat) : list Var :=
  map (fun k => mkVar ("v" ++ to_string (i + k)) (s + k)) (seq 0 n).

Lemma inverse_vars_S i s n :
  inverse_vars i s (S n) =
  mkVar ("v" ++ to_string i) s :: inverse_vars (S i) (S s) n.
Proof.
  unfold inverse_vars. simpl. rewrite !Nat.add_0_r. f_equal.
  rewrite <- seq_shift, map_map. apply map_ext. intros k.
  now rewrite !Nat.add_succ_r.
Qed.

Lemma make_inverse_iter_vars_spec shape : forall i s,
  exists ivs,
    make_inverse_iter_vars i shape s = Ok (ivs, (s + List.length shape)%nat) /\
    map dom ivs = map (fun e => mkRange (IntImm 0) e) shape /\
    map var ivs = inverse_vars i s (List.length shape).
Proof.
  induction shape as [|e shape IH]; intros i s; simpl.
  - exists []. rewrite Nat.add_0_r. repeat split.
  - unfold make_itervar. monad_simpl.
    destruct (IH (S i) (S s)) as (ivs & Hrun & Hdom & Hvar).
    rewrite Hrun. eexists. split; [|split].
    + rewrite Nat.add_succ_r. reflexivity.
    + simpl. now rewrite Hdom.
    + simpl. now rewrite Hvar, inverse_vars_S.
Qed.

End InverseFacts.

(** C8 (amended): when the forward map is detected bijective (no obstruction
    is reported) and the output shape is defined, [Inverse] returns a layout
    whose input variables are newly allocated variables ["v0"], ["v1"], ...
    with domains [[0, OutputShape()[k])], and whose output expression is the
    constant 0 at every position whose original input variable the computed
    inverse does not determine. *)
Theorem Inverse_fresh_vars_zero_fill :
  forall (E : Engine) (HE : EngineLaws E) (L : LayoutNode) (s : nat)
         (shape : list PrimExpr),
    errors (DetectIterMap E (forward_index_ L)
                          (map (fun iv => (var iv, dom iv)) (forward_var_ L))) = [] ->
    LayoutNode_OutputShape E L = Ok shape ->
    exists L',
      LayoutNode_Inverse E L s = Ok (L', (s + OutputDim L)%nat) /\
      map dom (forward_var_ L') = map (fun e => mkRange (IntImm 0) e) shape /\
      map var (forward_var_ L') = inverse_vars 0 s (OutputDim L) /\
      Forall (fun x => (s <= var_id x)%nat) (map var (forward_var_ L')) /\
      NoDup (map var (forward_var_ L')) /\
      List.length (forward_index_ L') = InputDim L /\
      forall i iv,
        nth_error (forward_var_ L) i = Some iv ->
        vmap_find (InverseAffineIterMap E
                     (indices (DetectIterMap E (forward_index_ L)
                                 (map (fun iv => (var iv, dom iv)) (forward_var_ L))))
                     (map (fun v => EVar (var v)) (forward_var_ L')))
                  (var iv) = None ->
        nth_error (forward_index_ L') i = Some (IntImm 0).
Proof.
  intros E HE L s shape Herr Hshape.
  pose proof (OutputShape_loop_length _ _ _ Hshape) as Hlen.
  destruct (make_inverse_iter_vars_spec shape 0 s) as (ivs & Hrun & Hdom & Hvar).
  unfold LayoutNode_Inverse. rewrite Herr. monad_simpl. rewrite Hshape, Hrun.
  eexists. split; [|split; [|split; [|split; [|split; [|split]]]]].
  - unfold OutputDim. rewrite <- Hlen. reflexivity.
  - simpl. exact Hdom.
  - simpl. unfold OutputDim. rewrite <- Hlen. exact Hvar.
  - simpl. rewrite Hvar. unfold inverse_vars. apply Forall_forall.
    intros x Hx. apply in_map_iff in Hx. destruct Hx as (k & <- & _). simpl. lia.
  - simpl. rewrite Hvar. unfold inverse_vars.
    apply Injective_map_NoDup; [|apply seq_NoDup].
    intros a b Hab. inversion Hab. lia.
  - simpl. unfold InputDim. now rewrite !length_map.
  - intros i iv Hnth Hfind. simpl in Hfind |- *.
    rewrite !nth_error_map, Hnth. simpl. rewrite Hfind.
    now rewrite Simplify_const.
Qed.

(** A layout with a degenerate first dimension: [(i, j) -> j] over
    [[0,1) x [0,8)]. *)
Definition degenerate_layout : LayoutNode :=
  mkLayout [mkIterVar (mkRange (IntImm 0) (IntImm 1)) (mkVar "i" 0) kDataPar;
            mkIterVar (mkRange (IntImm 0) (IntImm 8)) (mkVar "j" 1) kDataPar]
           [EVar (mkVar "j" 1)].

(** On [degenerate_layout] the reference engine detects a bijection; the
    inverse maps the new variable [v0] to [(0, v0)]. *)
Lemma Inverse_fresh_vars_zero_fill_witness :
  exists L',
    LayoutNode_Inverse RefEngine.engine degenerate_layout 2%nat = Ok (L', 3%nat) /\
    map dom (forward_var_ L') = [mkRange (IntImm 0) (IntImm 8)] /\
    nth_error (forward_index_ L') 0 = Some (IntImm 0).
Proof.
  destruct (@Inverse_fresh_vars_zero_fill RefEngine.engine RefEngineFacts.engine_laws
              degenerate_layout 2%nat [IntImm 8] eq_refl eq_refl)
    as (L' & Hrun & Hdom & Hvar & _ & _ & _ & Hzero).
  exists L'. split; [exact Hrun|]. split; [exact Hdom|].
  apply (Hzero 0%nat (mkIterVar (mkRange (IntImm 0) (IntImm 1)) (mkVar "i" 0) kDataPar)
               eq_refl).
  replace (map (fun v => EVar (var v)) (forward_var_ L'))
    with (map EVar (map var (forward_var_ L'))) by apply map_map.
  rewrite Hvar. reflexivity.
Defined.

(** Without an output shape there is no inverse. *)
Lemma Inverse_needs_OutputShape (E : Engine) (L : LayoutNode) (s : nat) msg :
  LayoutNode_OutputShape E L = CheckFail msg ->
  exists msg', LayoutNode_Inverse E L s = CheckFail msg'.
Proof.
  intros H. unfold LayoutNode_Inverse.
  destruct (errors _); monad_simpl; [rewrite H|]; eauto.
Qed.

(** A layout over [[0, 4)] whose output ranges over [[2, 6)]. *)
Definition shifted_layout : LayoutNode :=
  Layout_ctor RefEngine.engine
    [mkIterVar (mkRange (IntImm 0) (IntImm 4)) (mkVar "i" 0) kDataPar]
    [Add (EVar (mkVar "i" 0)) (IntImm 2)].

(** C8 (as stated, refuted): the reference engine detects the map of
    [shifted_layout]; its output has minimum 2, so [OutputShape] fails its
    check, and [Inverse] fails with it instead of returning a layout. *)
Lemma Inverse_undefined_shape_counterexample :
  errors (DetectIterMap RefEngine.engine (forward_index_ shifted_layout)
            (map (fun iv => (var iv, dom iv)) (forward_var_ shifted_layout))) = [] /\
  LayoutNode_OutputShape RefEngine.engine shifted_layout
  = CheckFail "CHECK(is_one(ist.min()))" /\
  LayoutNode_Inverse RefEngine.engine shifted_layout 1%nat
  = CheckFail "CHECK(is_one(ist.min()))".
Proof. repeat split; vm_compute; reflexivity. Qed.

Lemma make_inverse_iter_vars_length shape : forall i s ivs s',
  make_inverse_iter_vars i shape s = Ok (ivs, s') ->
  List.length ivs = List.length shape.
Proof.
  intros i s ivs s' H.
  destruct (make_inverse_iter_vars_spec shape i s) as (ivs' & Hrun & Hdom & _).
  rewrite H in Hrun. inversion Hrun; subst.
  rewrite <- (length_map dom), Hdom. apply length_map.
Qed.

(** [Inverse] exchanges the numbers of inputs and outputs. *)
Lemma Inverse_swaps_arity (E : Engine) (L L' : LayoutNode) (s s' : nat) :
  LayoutNode_Inverse E L s = Ok (L', s') ->
  InputDim L' = OutputDim L /\ OutputDim L' = InputDim L.
Proof.
  unfold LayoutNode_Inverse. destruct (errors _); [|discriminate].
  unfold bind at 1. unfold lift.
  destruct (LayoutNode_OutputShape E L) as [shape|] eqn:Hshape; [|discriminate].
  unfold bind.
  destruct (make_inverse_iter_vars 0 shape s) as [[ivs s1]|] eqn:Hivs; [|discriminate].
  unfold ret. intros H. inversion H; subst. unfold InputDim, OutputDim. simpl.
  rewrite !length_map. split; [|reflexivity].
  rewrite (make_inverse_iter_vars_length _ _ _ Hivs).
  apply (OutputShape_loop_length _ _ _ Hshape).
Qed.

(** When both inversions return, the layout obtained has the arities of the
    original. *)
Theorem Inverse_Inverse_arity :
  forall (E : Engine) (L L1 L2 : LayoutNode) (s s1 s2 : nat),
    LayoutNode_Inverse E L s = Ok (L1, s1) ->
    LayoutNode_Inverse E L1 s1 = Ok (L2, s2) ->
    InputDim L2 = InputDim L /\ OutputDim L2 = OutputDim L.
Proof.
  intros E L L1 L2 s s1 s2 H1 H2.
  apply Inverse_swaps_arity in H1. apply Inverse_swaps_arity in H2.
  destruct H1, H2. split; congruence.
Qed.

(** The transposition [(i, j) -> (j, i)] over [[0,4) x [0,8)]. *)
Definition transpose_layout : LayoutNode :=
  mkLayout [mkIterVar (mkRange (IntImm 0) (IntImm 4)) (mkVar "i" 0) kDataPar;
            mkIterVar (mkRange (IntImm 0) (IntImm 8)) (mkVar "j" 1) kDataPar]
           [EVar (mkVar "j" 1); EVar (mkVar "i" 0)].

(* ================================================================== *)
(** * Properties of the loop partitioner *)

Definition collected (op : ForNode) : list IterVar :=
  loop_vars_ (VisitStmt_ op LoopPartitioner_init).

Fixpoint product (l : list Z) : Z :=
  match l with [] => 1 | x :: l' => x * product l' end.

(** The row-major offset of a point in a box: the last dimension has unit
    stride, every other dimension the product of the extents after it. *)
Fixpoint row_major (point extents : list Z) : Z :=
  match point, extents with
  | x :: point', _ :: extents' => x * product extents' + row_major point' extents'
  | _, _ => 0
  end.

Section PartitionFacts.
Variable E : Engine.
Context {HE : EngineLaws E}.

Lemma Partition_loop_spec (env : Env) (ivs : list IterVar) :
  forall (exts : list Z) (size : Z) (flattened : PrimExpr),
    map (fun iv => extent (dom iv)) ivs = map IntImm exts ->
    Forall (fun e => 0 <= e < 2147483648) exts ->
    exists size' flattened',
      Partition_loop ivs size flattened = Ok (size', flattened') /\
      eval env flattened' =
      eval env flattened * product exts
      + row_major (map (fun iv => env (var iv)) ivs) exts.
Proof.
  induction ivs as [|iv ivs IH]; intros exts size flattened Hext Hrange.
  - destruct exts; [|discriminate]. simpl. do 2 eexists. split; [reflexivity|].
    simpl. lia.
  - destruct exts as [|e exts]; [discriminate|]. simpl in Hext.
    inversion Hext as [[He Hrest]]. inversion Hrange as [|? ? Hr Hrange']; subst.
    cbv beta in Hr. simpl. rewrite He. simpl. rewrite (@to_int32_small e) by lia.
    destruct (IH exts (to_int32 (size * e))
                 (op_add (op_mul flattened (IntImm e)) (EVar (var iv))) Hrest Hrange')
      as (size' & fl' & Hrun & Hval).
    exists size', fl'. split; [exact Hrun|].
    rewrite Hval, eval_op_add, eval_op_mul. simpl. lia.
Qed.

(** Whatever the remainder, [Partition] returns the fragment: the branch
    taken when the size is not a multiple of the thread count checks a
    string literal. *)
Lemma Partition_returns (op : ForNode) (num_thread : Z) (s : nat) (exts : list Z) :
  map (fun iv => extent (dom iv)) (collected op) = map IntImm exts ->
  Forall (fun e => 0 <= e < 2147483648) exts ->
  num_thread <> 0 ->
  exists flattened unused,
    (forall env, eval env flattened =
                 row_major (map (fun iv => env (var iv)) (collected op)) exts) /\
    unused = mkIterVar (mkRange (IntImm 0) (IntImm 1)) (mkVar "unused" s) kDataPar /\
    Partition E op num_thread s =
    Ok (let A := FragmentNode_UpdateAnalyzer
                   (mkFragment (mkLayout (collected op) []) (IntImm 0) unused) [] in
        mkFragment
          (mkLayout (collected op)
                    [Simplify E A (FloorDiv flattened (IntImm num_thread))])
          (Simplify E A (FloorMod flattened (IntImm num_thread)))
          unused,
        S s).
Proof.
  intros Hext Hrange Hn.
  destruct (Partition_loop_spec (fun _ => 0) (collected op) 1 (IntImm 0) Hext Hrange)
    as (size' & fl & Hrun & _).
  exists fl, (mkIterVar (mkRange (IntImm 0) (IntImm 1)) (mkVar "unused" s) kDataPar).
  split; [|split; [reflexivity|]].
  - intros env.
    destruct (Partition_loop_spec env (collected op) 1 (IntImm 0) Hext Hrange)
      as (size2 & fl2 & Hrun2 & Hval).
    rewrite Hrun in Hrun2. inversion Hrun2; subst. rewrite Hval. simpl. lia.
  - unfold Partition. fold (collected op). unfold bind at 1. unfold lift at 1.
    rewrite Hrun. unfold int_rem. destruct (Z.eqb_spec num_thread 0); [contradiction|].
    unfold Fragment_ctor, make_itervar. monad_simpl.
    destruct (negb (Z.rem size' num_thread =? 0)); reflexivity.
Qed.

End PartitionFacts.

(** C6: for a loop nest whose collected extents are constants and whose
    flattened size is a multiple of the (nonzero) thread count, [Partition]
    returns a fragment over the collected loop variables whose single data
    index evaluates to [flattened / thread_count] and whose thread id
    evaluates to [flattened mod thread_count] at every point of the
    iteration domain, [flattened] being the row-major index of the point;
    its replication extent is 1. *)
Theorem Partition_default_fragment :
  forall (E : Engine) (HE : EngineLaws E) (op : ForNode) (num_thread : Z) (s : nat)
         (exts : list Z),
    map (fun iv => extent (dom iv)) (collected op) = map IntImm exts ->
    Forall (fun e => 0 <= e < 2147483648) exts ->
    num_thread <> 0 ->
    product exts mod num_thread = 0 ->
    exists F index,
      Partition E op num_thread s = Ok (F, S s) /\
      forward_var_ F = collected op /\
      forward_index_ F = [index] /\
      ReplicateExtent F = IntImm 1 /\
      forall env,
        models env (FragmentNode_UpdateAnalyzer F []) ->
        let flattened := row_major (map (fun iv => env (var iv)) (collected op)) exts in
        eval env index = flattened / num_thread /\
        eval env (forward_thread_ F) = flattened mod num_thread.
Proof.
  intros E HE op n s exts Hext Hrange Hn _.
  destruct (Partition_returns E op s Hext Hrange Hn) as (fl & unused & Hfl & -> & Hrun).
  eexists. eexists. split; [exact Hrun|]. simpl.
  repeat split.
  - rewrite Simplify_sound by assumption. simpl. now rewrite Hfl.
  - rewrite Simplify_sound by assumption. simpl. now rewrite Hfl.
Qed.

(** ** Concrete loop nests *)

Definition var_i : Var := mkVar "i" 0.
Definition var_j : Var := mkVar "j" 1.
Definition var_k : Var := mkVar "k" 2.

(** [for i in parallel(0, 256): B[i] = i] *)
Definition loop256 : ForNode :=
  mkFor var_i (IntImm 0) (IntImm 256) kParallel
        (BufferStore "B" (EVar var_i) [EVar var_i]).

(** A parallel loop below a serial loop below a parallel loop:
    [for i in parallel(0, 4): for k in serial(0, 2): for j in parallel(0, 8): ...] *)
Definition interrupted_nest : ForNode :=
  mkFor var_i (IntImm 0) (IntImm 4) kParallel
        (For var_k (IntImm 0) (IntImm 2) kSerial
             (For var_j (IntImm 0) (IntImm 8) kParallel
                  (BufferStore "B" (IntImm 0) [EVar var_i; EVar var_k; EVar var_j]))).

(** A parallel loop in the second statement of a sequence inside a parallel
    loop. *)
Definition sequenced_nest : ForNode :=
  mkFor var_i (IntImm 0) (IntImm 4) kParallel
        (SeqStmt [Evaluate (IntImm 0);
                  For var_j (IntImm 0) (IntImm 8) kParallel
                      (BufferStore "B" (IntImm 0) [EVar var_i; EVar var_j])]).

(** A chain of parallel loops around a single store. *)
Fixpoint parallel_nest (ivs : list IterVar) (leaf : Stmt) : Stmt :=
  match ivs with
  | [] => leaf
  | iv :: rest =>
      For (var iv) (min (dom iv)) (extent (dom iv)) kParallel (parallel_nest rest leaf)
  end.

Lemma VisitStmt_parallel_nest (ivs : list IterVar) buffer value idx :
  Forall (fun iv => iter_type iv = kDataPar) ivs ->
  forall p,
    loop_vars_ (VisitStmt (parallel_nest ivs (BufferStore buffer value idx)) p) =
    loop_vars_ p ++ ivs.
Proof.
  induction 1 as [|iv ivs Hty _ IH]; intros p; simpl.
  - now rewrite app_nil_r.
  - rewrite IH. simpl. rewrite <- app_assoc. simpl.
    destruct iv as [[mn ex] v ty]; simpl in *. now subst.
Qed.

(** The fragment computed for [loop256] and 64 threads maps iteration 130 to
    data index 2 on thread 2. *)
Lemma Partition_default_fragment_witness :
  exists F index,
    Partition RefEngine.engine loop256 64 0%nat = Ok (F, 1%nat) /\
    forward_var_ F = collected loop256 /\
    forward_index_ F = [index] /\
    ReplicateExtent F = IntImm 1 /\
    forall env,
      models env (FragmentNode_UpdateAnalyzer F []) ->
      let flattened :=
        row_major (map (fun iv => env (var iv)) (collected loop256)) [256] in
      eval env index = flattened / 64 /\
      eval env (forward_thread_ F) = flattened mod 64.
Proof.
  apply (@Partition_default_fragment RefEngine.engine RefEngineFacts.engine_laws
           loop256 64 0%nat [256]).
  - reflexivity.
  - repeat constructor; lia.
  - lia.
  - reflexivity.
Defined.

(** C2 (the code at the failing input): for the parallel loop of extent 256
    and 100 threads, 256 is not a multiple of 100, and [Partition] returns a
    fragment all the same, for every engine and allocator state. *)
Theorem Partition_256_by_100_returns :
  forall (E : Engine) (s : nat),
    Z.rem 256 100 = 56 /\
    exists F, Partition E loop256 100 s = Ok (F, S s) /\
              forward_var_ F = collected loop256.
Proof.
  intros E s. split; [reflexivity|].
  eexists. split; [vm_compute; reflexivity | reflexivity].
Qed.

(** C4 (the code at the failing input): the visitor descends through the
    serial loop and through the sequence, and collects the parallel loop
    below them as well; [PartitionLoop] then removes the two outermost loops
    of the nest, which are the loops of [i] and of the serial [k]. *)
Theorem Partition_collects_below_non_parallel :
  map var (collected interrupted_nest) = [var_i; var_j] /\
  map var (collected sequenced_nest) = [var_i; var_j] /\
  exists vmap inner,
    PartitionLoop_strip (List.length (collected interrupted_nest)) 0
      [EVar (mkVar "a" 3); EVar (mkVar "b" 4)]
      (ForNode_stmt interrupted_nest) [] = Ok (vmap, inner) /\
    map fst vmap = [var_k; var_i].
Proof.
  split; [reflexivity|]. split; [reflexivity|].
  do 2 eexists. split; reflexivity.
Qed.

(* ================================================================== *)
(** * Constant iteration boxes *)

(** The fragments the factories build range over zero-based boxes with
    constant extents.  A [Box] lists the variables with their extents. *)
Definition Box : Type := list (Var * Z).

Definition box_range (b : Var * Z) : Var * Range :=
  (fst b, mkRange (IntImm 0) (IntImm (snd b))).

Definition box_analyzer (B : Box) : Analyzer := map box_range B.

Definition in_box (env : Env) (B : Box) : Prop :=
  Forall (fun b => 0 <= env (fst b) < snd b) B.

Definition good_box (B : Box) : Prop :=
  Forall (fun b => 0 < snd b) B /\ NoDup (map fst B).

Definition binding (iv : IterVar) : Var * Range := (var iv, dom iv).

Lemma models_box_analyzer env B : models env (box_analyzer B) <-> in_box env B.
Proof.
  unfold models, in_box, box_analyzer. rewrite Forall_map.
  split; intros H; eapply Forall_impl; try exact H;
    intros [x n]; unfold in_range; simpl; lia.
Qed.

Lemma box_analyzer_vars B : map fst (box_analyzer B) = map fst B.
Proof. unfold box_analyzer. rewrite map_map. reflexivity. Qed.

Lemma good_box_const B : good_box B -> const_analyzer (box_analyzer B).
Proof.
  intros [Hpos Hnd]. split.
  - unfold box_analyzer. rewrite map_map. apply Forall_map.
    eapply Forall_impl; [|exact Hpos]. intros [x n] Hn. simpl in *.
    exists 0, n. split; [reflexivity | assumption].
  - now rewrite box_analyzer_vars.
Qed.

Lemma in_box_app env B1 B2 : in_box env (B1 ++ B2) <-> in_box env B1 /\ in_box env B2.
Proof. apply Forall_app. Qed.

Lemma good_box_app_l B1 B2 : good_box (B1 ++ B2) -> good_box B1.
Proof.
  intros [Hpos Hnd]. apply Forall_app in Hpos. rewrite map_app in Hnd.
  split; [tauto | eapply NoDup_app_remove_r; eassumption].
Qed.

Lemma bind_itervars_eq A ivs : bind_itervars A ivs = A ++ map binding ivs.
Proof.
  unfold bind_itervars. revert A.
  induction ivs as [|iv ivs IH]; intros A; simpl.
  - now rewrite app_nil_r.
  - rewrite IH. unfold Analyzer_Bind. now rewrite <- app_assoc.
Qed.

Lemma FragmentNode_UpdateAnalyzer_eq F :
  FragmentNode_UpdateAnalyzer F [] =
  map binding (forward_var_ F) ++ [binding (thread_replicate_ F)].
Proof.
  unfold FragmentNode_UpdateAnalyzer, LayoutNode_UpdateAnalyzer, Analyzer_Bind.
  now rewrite bind_itervars_eq.
Qed.

Lemma eval_ext env1 env2 e :
  (forall x, env1 x = env2 x) -> eval env1 e = eval env2 e.
Proof. intros H. induction e; simpl; congruence. Qed.

(** [e] takes its values in [[0, T)] on the box and reaches both ends. *)
Definition extent_is (B : Box) (e : PrimExpr) (T : Z) : Prop :=
  (forall env, in_box env B -> 0 <= eval env e < T) /\
  (exists env, in_box env B /\ eval env e = 0) /\
  (exists env, in_box env B /\ eval env e = T - 1).

Lemma extent_is_unique B e T1 T2 : extent_is B e T1 -> extent_is B e T2 -> T1 = T2.
Proof.
  intros (Hb1 & _ & (e1 & He1 & Hv1)) (Hb2 & _ & (e2 & He2 & Hv2)).
  pose proof (Hb1 _ He2). pose proof (Hb2 _ He1). lia.
Qed.

Lemma extent_is_pos B e T : extent_is B e T -> 0 < T.
Proof. intros (Hb & (env & He & _) & _). specialize (Hb _ He). lia. Qed.

Lemma extent_is_eval B e1 e2 T :
  (forall env, in_box env B -> eval env e2 = eval env e1) ->
  extent_is B e1 T -> extent_is B e2 T.
Proof.
  intros Heq (Hb & (env0 & H0 & Hv0) & (env1 & H1 & Hv1)). split; [|split].
  - intros env He. rewrite Heq by assumption. now apply Hb.
  - exists env0. split; [assumption|]. now rewrite Heq.
  - exists env1. split; [assumption|]. now rewrite Heq.
Qed.

(** [e] mentions variables of the box only. *)
Definition closed_box (B : Box) (e : PrimExpr) : Prop := vars_in (map fst B) e.

Lemma closed_box_app B1 B2 e : closed_box B1 e -> closed_box (B1 ++ B2) e.
Proof.
  apply vars_in_incl. rewrite map_app. apply incl_appl, incl_refl.
Qed.

(** ** What the engine's laws give on a box *)

Section BoxEngine.
Variable E : Engine.
Context {HE : EngineLaws E}.

Lemma Simplify_box B env e :
  in_box env B -> eval env (Simplify E (box_analyzer B) e) = eval env e.
Proof. intros H. apply Simplify_sound. now apply models_box_analyzer. Qed.

Lemma closed_box_Simplify B A e :
  closed_box B e -> closed_box B (Simplify E A e).
Proof. intros H x Hx. apply H. now apply Simplify_vars in Hx. Qed.

Lemma extent_is_Simplify B e T :
  extent_is B e T -> extent_is B (Simplify E (box_analyzer B) e) T.
Proof. apply extent_is_eval. intros env H. now apply Simplify_box. Qed.

(** The check shared by [ThreadExtent] and [OutputShape]: the inferred
    bounds of [e + 1] are constants; the minimum is 1 exactly when [e] has an
    extent, and the maximum is then that extent. *)
Lemma int_set_extent B e :
  good_box B -> closed_box B e ->
  exists lo hi,
    int_set E (box_analyzer B) (op_add e (IntImm 1)) = mkIntSet (IntImm lo) (IntImm hi) /\
    (lo = 1 -> extent_is B e hi) /\
    (forall T, extent_is B e T -> lo = 1 /\ hi = T).
Proof.
  intros Hgood Hclosed.
  assert (Hc1 : vars_in (map fst (box_analyzer B)) (op_add e (IntImm 1))).
  { rewrite box_analyzer_vars. apply vars_in_op_add; [assumption | apply vars_in_const]. }
  destruct (int_set_tight (good_box_const Hgood) Hc1)
    as (lo & hi & Hset & Hbound & (env0 & Hm0 & Hv0) & (env1 & Hm1 & Hv1)).
  apply models_box_analyzer in Hm0, Hm1.
  rewrite eval_op_add in Hv0, Hv1. simpl in Hv0, Hv1.
  assert (Hb : forall env, in_box env B -> lo <= eval env e + 1 <= hi).
  { intros env He. apply models_box_analyzer in He. specialize (Hbound env He).
    rewrite eval_op_add in Hbound. exact Hbound. }
  exists lo, hi. split; [exact Hset|]. split.
  - intros ->. split; [|split].
    + intros env He. specialize (Hb env He). lia.
    + exists env0. split; [assumption | lia].
    + exists env1. split; [assumption | lia].
  - intros T (HbT & (e0 & He0 & Hz) & (e1 & He1 & Ht)).
    pose proof (Hb _ He0). pose proof (Hb _ He1).
    pose proof (HbT _ Hm0). pose proof (HbT _ Hm1). lia.
Qed.

End BoxEngine.

(* ================================================================== *)
(** * Fragments over constant boxes *)

(** The thread expression of [F] ranges over the zero-based box [B] of the
    input variables and the replication variable [r] of extent [R], and
    mentions these variables only. *)
Record thread_over (F : FragmentNode) (B : Box) (r : Var) (R : Z) : Prop := {
  to_vars : map binding (forward_var_ F) = box_analyzer B;
  to_rep : binding (thread_replicate_ F) = box_range (r, R);
  to_good : good_box (B ++ [(r, R)]);
  to_thread : closed_box (B ++ [(r, R)]) (forward_thread_ F)
}.

(** Moreover the index expressions mention input variables only. *)
Record frag_over (F : FragmentNode) (B : Box) (r : Var) (R : Z) : Prop := {
  fo_thread : thread_over F B r R;
  fo_index : Forall (closed_box B) (forward_index_ F)
}.

Lemma thread_over_analyzer F B r R :
  thread_over F B r R ->
  FragmentNode_UpdateAnalyzer F [] = box_analyzer (B ++ [(r, R)]).
Proof.
  intros H. rewrite FragmentNode_UpdateAnalyzer_eq, (to_vars H), (to_rep H).
  unfold box_analyzer. now rewrite map_app.
Qed.

Lemma thread_over_ReplicateExtent F B r R :
  thread_over F B r R -> ReplicateExtent F = IntImm R.
Proof.
  intros H. pose proof (to_rep H) as Hr. unfold binding, box_range in Hr.
  simpl in Hr. inversion Hr as [[Hv Hd]]. unfold ReplicateExtent. now rewrite Hd.
Qed.

Lemma thread_over_rep_var F B r R :
  thread_over F B r R -> var (thread_replicate_ F) = r.
Proof. intros H. pose proof (to_rep H) as Hr. now inversion Hr. Qed.

Lemma thread_over_rep_dom F B r R :
  thread_over F B r R -> dom (thread_replicate_ F) = mkRange (IntImm 0) (IntImm R).
Proof. intros H. pose proof (to_rep H) as Hr. now inversion Hr. Qed.

Lemma thread_over_InputDim F B r R :
  thread_over F B r R -> InputDim F = List.length B.
Proof.
  intros H. unfold InputDim.
  rewrite <- (length_map binding), (to_vars H). unfold box_analyzer. apply length_map.
Qed.

Lemma thread_over_InputShape F B r R :
  thread_over F B r R -> InputShape F = map (fun b => IntImm (snd b)) B.
Proof.
  intros H. unfold InputShape.
  replace (map (fun iv => extent (dom iv)) (forward_var_ F))
    with (map (fun b => extent (snd b)) (map binding (forward_var_ F)))
    by (rewrite map_map; reflexivity).
  rewrite (to_vars H). unfold box_analyzer. rewrite map_map. reflexivity.
Qed.

Lemma is_one_IntImm c : is_one (IntImm c) = true <-> c = 1.
Proof. unfold is_one, is_const_int. apply Z.eqb_eq. Qed.

Section FragmentExtents.
Variable E : Engine.
Context {HE : EngineLaws E}.

Lemma OutputShape_loop_extents B index Ls :
  good_box B -> Forall (closed_box B) index ->
  Forall2 (extent_is B) index Ls ->
  OutputShape_loop E (box_analyzer B) index = Ok (map IntImm Ls).
Proof.
  intros Hgood Hclosed Hext. induction Hext as [|e L index Ls He _ IH]; simpl.
  - reflexivity.
  - inversion Hclosed as [|? ? Hce Hcrest]; subst.
    destruct (int_set_extent (E := E) Hgood Hce) as (lo & hi & Hset & _ & Hfrom).
    destruct (Hfrom L He) as [-> ->]. rewrite Hset. simpl.
    now rewrite (IH Hcrest).
Qed.

Lemma OutputShape_loop_inv B index shape :
  good_box B -> Forall (closed_box B) index ->
  OutputShape_loop E (box_analyzer B) index = Ok shape ->
  exists Ls, shape = map IntImm Ls /\ Forall2 (extent_is B) index Ls.
Proof.
  intros Hgood Hclosed. revert shape.
  induction index as [|e index IH]; simpl; intros shape Hrun.
  - inversion Hrun; subst. exists []. split; [reflexivity | constructor].
  - inversion Hclosed as [|? ? Hce Hcrest]; subst.
    destruct (int_set_extent (E := E) Hgood Hce) as (lo & hi & Hset & Hto & _).
    rewrite Hset in Hrun. cbn [set_min set_max] in Hrun.
    destruct (is_one (IntImm lo)) eqn:Hone; [|discriminate].
    apply is_one_IntImm in Hone.
    destruct (OutputShape_loop E (box_analyzer B) index) as [rest|] eqn:Hrest;
      [|discriminate].
    simpl in Hrun. inversion Hrun; subst.
    destruct (IH Hcrest rest eq_refl) as (Ls & -> & HLs).
    exists (hi :: Ls). split; [reflexivity|]. constructor; [now apply Hto | assumption].
Qed.

Lemma frag_index_closed F B r R :
  frag_over F B r R -> Forall (closed_box (B ++ [(r, R)])) (forward_index_ F).
Proof.
  intros H. eapply Forall_impl; [|apply (fo_index H)]. intros e. apply closed_box_app.
Qed.

Lemma FragmentNode_OutputShape_extents F B r R Ls :
  frag_over F B r R ->
  Forall2 (extent_is (B ++ [(r, R)])) (forward_index_ F) Ls ->
  FragmentNode_OutputShape E F = Ok (map IntImm Ls).
Proof.
  intros H Hext. unfold FragmentNode_OutputShape.
  rewrite (thread_over_analyzer (fo_thread H)).
  apply OutputShape_loop_extents;
    [apply (to_good (fo_thread H)) | now apply frag_index_closed | assumption].
Qed.

Lemma FragmentNode_OutputShape_inv F B r R shape :
  frag_over F B r R ->
  FragmentNode_OutputShape E F = Ok shape ->
  exists Ls, shape = map IntImm Ls /\
             Forall2 (extent_is (B ++ [(r, R)])) (forward_index_ F) Ls.
Proof.
  intros H. unfold FragmentNode_OutputShape.
  rewrite (thread_over_analyzer (fo_thread H)).
  apply OutputShape_loop_inv;
    [apply (to_good (fo_thread H)) | now apply frag_index_closed].
Qed.

Lemma ThreadExtent_extent F B r R T :
  thread_over F B r R ->
  extent_is (B ++ [(r, R)]) (forward_thread_ F) T ->
  ThreadExtent E F = Ok (IntImm T).
Proof.
  intros H Hext. unfold ThreadExtent. rewrite (thread_over_analyzer H).
  destruct (int_set_extent (E := E) (to_good H) (to_thread H))
    as (lo & hi & Hset & _ & Hfrom).
  destruct (Hfrom T Hext) as [-> ->]. rewrite Hset. reflexivity.
Qed.

Lemma ThreadExtent_inv F B r R t :
  thread_over F B r R ->
  ThreadExtent E F = Ok t ->
  exists T, t = IntImm T /\ extent_is (B ++ [(r, R)]) (forward_thread_ F) T.
Proof.
  intros H. unfold ThreadExtent. rewrite (thread_over_analyzer H).
  destruct (int_set_extent (E := E) (to_good H) (to_thread H))
    as (lo & hi & Hset & Hto & _).
  rewrite Hset. cbn [set_min set_max].
  destruct (is_one (IntImm lo)) eqn:Hone; [|discriminate].
  apply is_one_IntImm in Hone. intros Hrun. inversion Hrun; subst.
  exists hi. split; [reflexivity | now apply Hto].
Qed.

(** The constructor, for a replication variable that is given. *)
Lemma Fragment_ctor_over fv index thread rep B r R s :
  map binding fv = box_analyzer B ->
  binding rep = box_range (r, R) ->
  let A := box_analyzer (B ++ [(r, R)]) in
  Fragment_ctor E fv index thread (Some rep) s =
  Ok (mkFragment
        (mkLayout fv
           (map (Simplify E A)
                match index with
                | [] => [infer_fragment_index E fv rep (Simplify E A thread) A]
                | _ => index
                end))
        (Simplify E A thread) rep, s).
Proof.
  intros Hfv Hrep. destruct rep as [d v ty].
  unfold binding, box_range in Hrep. simpl in Hrep. inversion Hrep; subst.
  unfold Fragment_ctor. monad_simpl.
  rewrite FragmentNode_UpdateAnalyzer_eq. simpl. rewrite Hfv.
  replace (box_analyzer B ++ [binding (mkIterVar (mkRange (IntImm 0) (IntImm R)) r ty)])
    with (box_analyzer (B ++ [(r, R)]))
    by (unfold box_analyzer; now rewrite map_app).
  reflexivity.
Qed.

End FragmentExtents.

(* ================================================================== *)
(** * [Repeat] on a constant box *)

Lemma vmap_find_In (m : VMap) x e :
  NoDup (map fst m) -> In (x, e) m -> vmap_find m x = Some e.
Proof.
  induction m as [|[y t] m IH]; simpl; intros Hnd Hin; [contradiction|].
  inversion Hnd as [|? ? Hy Hnd']; subst.
  destruct Hin as [Heq|Hin].
  - inversion Heq; subst. now rewrite Var_eqb_refl.
  - destruct (Var_eqb_spec x y) as [->|Hne].
    + exfalso. apply Hy. apply in_map_iff. now exists (y, e).
    + now apply IH.
Qed.

Lemma vmap_find_notin (m : VMap) x :
  ~ In x (map fst m) -> vmap_find m x = None.
Proof.
  induction m as [|[y t] m IH]; simpl; intros Hn; [reflexivity|].
  destruct (Var_eqb_spec x y) as [->|Hne]; [exfalso; apply Hn; now left|].
  apply IH. intros H. apply Hn. now right.
Qed.

(** The substitution of [Repeat], read on the box: every input variable is
    replaced by its remainder modulo the old extent. *)
Definition box_mod (b : Var * Z) : Var * PrimExpr :=
  (fst b, FloorMod (EVar (fst b)) (IntImm (snd b))).

Definition box_vmap (B : Box) : VMap := rev (map box_mod B).

Definition mod_env (B : Box) (env : Env) : Env := subst_env env (box_vmap B).

Definition rep_box (B : Box) (cs : list Z) : Box :=
  map (fun p => (fst (fst p), snd (fst p) * snd p)) (combine B cs).

Lemma fold_left_vmap_set {A} (f : A -> Var * PrimExpr) (l : list A) (m : VMap) :
  fold_left (fun m a => vmap_set m (fst (f a)) (snd (f a))) l m = rev (map f l) ++ m.
Proof.
  revert m. induction l as [|a l IH]; intros m; simpl; [reflexivity|].
  rewrite IH. unfold vmap_set. rewrite <- app_assoc. simpl.
  now destruct (f a).
Qed.

Lemma repeat_vmap_box fv B :
  map binding fv = box_analyzer B -> repeat_vmap fv = box_vmap B.
Proof.
  intros H. unfold repeat_vmap, box_vmap.
  rewrite (fold_left_vmap_set
             (fun v => (var v, FloorMod (EVar (var v)) (extent (dom v))))).
  rewrite app_nil_r. f_equal.
  revert B H. induction fv as [|iv fv IH]; intros [|[x n] B] H; try discriminate.
  - reflexivity.
  - simpl in H. inversion H as [[Hv Hd Hrest]]. simpl.
    rewrite (IH B Hrest). unfold box_mod. simpl. now rewrite Hd.
Qed.

Lemma repeat_forward_var_box fv B cs :
  map binding fv = box_analyzer B -> List.length cs = List.length B ->
  map binding (repeat_forward_var fv (map IntImm cs)) = box_analyzer (rep_box B cs) /\
  map var (repeat_forward_var fv (map IntImm cs)) = map fst B.
Proof.
  unfold repeat_forward_var, rep_box.
  revert B cs. induction fv as [|iv fv IH]; intros [|[x n] B] [|c cs] H Hlen;
    try discriminate; simpl in *.
  - split; reflexivity.
  - inversion H as [[Hv Hd Hrest]]. injection Hlen as Hlen.
    destruct (IH B cs Hrest Hlen) as [IH1 IH2]. rewrite IH1, IH2.
    split; [|reflexivity]. f_equal. unfold binding, box_range. simpl.
    rewrite Hd. reflexivity.
Qed.

Lemma box_vmap_keys B : map fst (box_vmap B) = rev (map fst B).
Proof.
  unfold box_vmap. rewrite map_rev, map_map. reflexivity.
Qed.

Lemma mod_env_in B env x n :
  NoDup (map fst B) -> In (x, n) B -> mod_env B env x = env x mod n.
Proof.
  intros Hnd Hin. unfold mod_env, subst_env.
  rewrite (@vmap_find_In (box_vmap B) x (FloorMod (EVar x) (IntImm n))).
  - reflexivity.
  - rewrite box_vmap_keys. now apply NoDup_rev.
  - unfold box_vmap. apply in_rev. rewrite rev_involutive.
    apply in_map_iff. exists (x, n). split; [reflexivity | assumption].
Qed.

Lemma mod_env_out B env x :
  ~ In x (map fst B) -> mod_env B env x = env x.
Proof.
  intros Hn. unfold mod_env, subst_env. rewrite vmap_find_notin; [reflexivity|].
  rewrite box_vmap_keys. intros H. apply Hn. now apply in_rev.
Qed.

(** ** The repeat index *)

Definition qstep (a : Z * Z) (qc : Z * Z) : Z * Z :=
  (fst a + snd a * fst qc, snd a * snd qc).

Definition quotients (env : Env) (B : Box) (cs : list Z) : list (Z * Z) :=
  map (fun p => (env (fst (fst p)) / snd (fst p), snd p)) (combine B cs).

Lemma eval_repeat_fold env (l : list (IterVar * PrimExpr)) : forall acc,
  let r := fold_left repeat_step l acc in
  (eval env (fst r), eval env (snd r)) =
  fold_left qstep
    (map (fun t => (env (var (fst t)) / eval env (extent (dom (fst t))),
                    eval env (snd t))) l)
    (eval env (fst acc), eval env (snd acc)).
Proof.
  induction l as [|[v c] l IH]; intros [ri rs]; simpl; [reflexivity|].
  rewrite IH. simpl. rewrite eval_op_add, !eval_op_mul. reflexivity.
Qed.

Lemma repeat_dims_box env fv B cs :
  map binding fv = box_analyzer B -> List.length cs = List.length B ->
  map (fun t => (env (var (fst t)) / eval env (extent (dom (fst t))),
                 eval env (snd t)))
      (combine fv (map IntImm cs)) = quotients env B cs.
Proof.
  unfold quotients.
  revert B cs. induction fv as [|iv fv IH]; intros [|[x n] B] [|c cs] H Hlen;
    try discriminate; simpl in *; [reflexivity|].
  inversion H as [[Hv Hd Hrest]]. injection Hlen as Hlen.
  rewrite (IH B cs Hrest Hlen), Hd. reflexivity.
Qed.

Lemma eval_repeats_index env fv B cs lower :
  map binding fv = box_analyzer B -> List.length cs = List.length B ->
  eval env (repeats_index_of fv (map IntImm cs) lower) =
  fst (fold_left qstep
         (if lower then rev (quotients env B cs) else quotients env B cs) (0, 1)).
Proof.
  intros H Hlen. unfold repeats_index_of.
  pose proof (eval_repeat_fold env
                (if lower then rev (combine fv (map IntImm cs))
                 else combine fv (map IntImm cs)) (IntImm 0, IntImm 1)) as Hf.
  cbv zeta in Hf. simpl in Hf.
  apply (f_equal fst) in Hf. simpl in Hf. rewrite Hf.
  destruct lower.
  - now rewrite map_rev, (repeat_dims_box env fv B cs H Hlen).
  - now rewrite (repeat_dims_box env fv B cs H Hlen).
Qed.

(** Mixed-radix digits [0 <= q < c] give a number below the product of the
    radices; all digits zero give zero, all digits maximal give the product
    minus one. *)
Lemma qfold_bounds (qs : list (Z * Z)) : forall i s,
  0 <= s ->
  Forall (fun qc => 0 <= fst qc <= snd qc - 1) qs ->
  let r := fold_left qstep qs (i, s) in
  snd r = s * product (map snd qs) /\
  i <= fst r <= i + s * (product (map snd qs) - 1).
Proof.
  induction qs as [|[q c] qs IH]; intros i s Hs Hall; simpl.
  - lia.
  - inversion Hall as [|? ? Hq Hrest]; subst. simpl in Hq.
    destruct (IH (i + s * q) (s * c) ltac:(nia) Hrest) as [Hsnd Hfst].
    cbv zeta in Hsnd, Hfst. unfold qstep at 2 4 6. simpl.
    split; [rewrite Hsnd; ring|].
    assert (0 < product (map snd qs) \/ product (map snd qs) <= 0) as [Hp|Hp] by lia.
    + nia.
    + nia.
Qed.

Lemma product_pos l : Forall (fun c => 0 < c) l -> 0 < product l.
Proof. induction 1; simpl; nia. Qed.

Lemma product_rev l : product (rev l) = product l.
Proof.
  induction l as [|x l IH]; cbn [rev product]; [reflexivity|].
  assert (H : forall a b, product (a ++ b) = product a * product b).
  { induction a as [|y a IHa]; intros b; cbn [app product]; [ring | rewrite IHa; ring]. }
  rewrite H, IH. cbn [product]. ring.
Qed.

(** ** Points of the repeated box *)

Lemma NoDup_app_disjoint {A} (l l' : list A) a :
  NoDup (l ++ l') -> In a l -> ~ In a l'.
Proof.
  induction l as [|b l IH]; simpl; intros Hnd Hin; [contradiction|].
  inversion Hnd as [|? ? Hb Hnd']; subst. destruct Hin as [->|Hin].
  - intros H. apply Hb. apply in_or_app. now right.
  - now apply IH.
Qed.

(** The offset that moves a point of the box into the last repetition. *)
Fixpoint shift (dims : list (Var * Z * Z)) (x : Var) : Z :=
  match dims with
  | [] => 0
  | (y, n, c) :: rest => if Var_eqb x y then n * (c - 1) else shift rest x
  end.

Definition top_env (B : Box) (cs : list Z) (env : Env) : Env :=
  fun x => env x + shift (combine B cs) x.

Lemma shift_in dims x n c :
  NoDup (map (fun d => fst (fst d)) dims) -> In (x, n, c) dims ->
  shift dims x = n * (c - 1).
Proof.
  induction dims as [|[[y m] k] dims IH]; simpl; intros Hnd Hin; [contradiction|].
  inversion Hnd as [|? ? Hy Hnd']; subst.
  destruct Hin as [Heq|Hin].
  - inversion Heq; subst. now rewrite Var_eqb_refl.
  - destruct (Var_eqb_spec x y) as [->|Hne]; [|now apply IH].
    exfalso. apply Hy. apply in_map_iff. now exists (y, n, c).
Qed.

Lemma shift_out dims x :
  ~ In x (map (fun d => fst (fst d)) dims) -> shift dims x = 0.
Proof.
  induction dims as [|[[y m] k] dims IH]; simpl; intros Hn; [reflexivity|].
  destruct (Var_eqb_spec x y) as [->|Hne]; [exfalso; apply Hn; now left|].
  apply IH. intros H. apply Hn. now right.
Qed.

Section RepeatPoints.
Variables (B X : Box) (cs : list Z).
Hypothesis Hgood : good_box (B ++ X).
Hypothesis Hlen : List.length cs = List.length B.
Hypothesis Hcs : Forall (fun c => 0 < c) cs.

Let dims := combine B cs.

Lemma dims_keys : map (fun d => fst (fst d)) dims = map fst B.
Proof.
  unfold dims. rewrite <- (map_map fst fst). now rewrite map_fst_combine.
Qed.

Lemma NoDup_B : NoDup (map fst B).
Proof. destruct (good_box_app_l _ _ Hgood) as [_ H]. exact H. Qed.

Lemma dims_pos : Forall (fun d => 0 < snd (fst d) /\ 0 < snd d) dims.
Proof.
  apply Forall_forall. intros [[x n] c] Hin. simpl.
  destruct (good_box_app_l _ _ Hgood) as [Hpos _].
  rewrite Forall_forall in Hpos, Hcs. split.
  - apply (Hpos (x, n)). eapply in_combine_l. exact Hin.
  - apply Hcs. eapply in_combine_r. exact Hin.
Qed.

Lemma X_not_in_B x m : In (x, m) X -> ~ In x (map fst B).
Proof.
  intros Hx HB. destruct Hgood as [_ Hnd]. rewrite map_app in Hnd.
  apply (@NoDup_app_disjoint _ _ _ x Hnd HB). apply in_map_iff. now exists (x, m).
Qed.

Lemma in_box_dims env :
  in_box env B <-> Forall (fun d => 0 <= env (fst (fst d)) < snd (fst d)) dims.
Proof.
  unfold in_box. rewrite <- (map_fst_combine B cs Hlen) at 1. fold dims.
  rewrite Forall_map. reflexivity.
Qed.

Lemma in_rep_box_dims env :
  in_box env (rep_box B cs) <->
  Forall (fun d => 0 <= env (fst (fst d)) < snd (fst d) * snd d) dims.
Proof. unfold in_box, rep_box. fold dims. rewrite Forall_map. reflexivity. Qed.

Lemma rep_box_good : good_box (rep_box B cs ++ X).
Proof.
  destruct Hgood as [Hpos Hnd]. split.
  - apply Forall_app in Hpos. destruct Hpos as [_ HX]. apply Forall_app. split; [|exact HX].
    unfold rep_box. fold dims. apply Forall_map.
    eapply Forall_impl; [|apply dims_pos]. intros [[x n] c] [Hn Hc]. simpl in *. nia.
  - rewrite map_app in *. unfold rep_box. fold dims. rewrite map_map. simpl.
    rewrite dims_keys. exact Hnd.
Qed.

Lemma rep_box_keys : map fst (rep_box B cs ++ X) = map fst (B ++ X).
Proof.
  rewrite !map_app. unfold rep_box. fold dims. rewrite map_map. simpl.
  now rewrite dims_keys.
Qed.

(** Reducing a point of the repeated box modulo the old extents gives a point
    of the old box. *)
Lemma mod_env_in_box env :
  in_box env (rep_box B cs ++ X) -> in_box (mod_env B env) (B ++ X).
Proof.
  intros H. apply in_box_app in H. destruct H as [HB HX]. apply in_box_app. split.
  - apply Forall_forall. intros [x n] Hin. simpl.
    rewrite (@mod_env_in B env _ _ NoDup_B Hin).
    destruct (good_box_app_l _ _ Hgood) as [Hpos _]. rewrite Forall_forall in Hpos.
    apply Z.mod_pos_bound. apply (Hpos (x, n) Hin).
  - unfold in_box in *. rewrite Forall_forall in *. intros [x m] Hin. simpl.
    rewrite mod_env_out by (eapply X_not_in_B; eassumption).
    apply (HX (x, m) Hin).
Qed.

(** A point of the old box is a point of the repeated box, in repetition 0. *)
Lemma low_in_box env :
  in_box env (B ++ X) -> in_box env (rep_box B cs ++ X).
Proof.
  intros H. apply in_box_app in H. destruct H as [HB HX]. apply in_box_app.
  split; [|exact HX]. apply in_rep_box_dims. apply in_box_dims in HB.
  pose proof dims_pos as Hp. rewrite Forall_forall in *. intros d Hd.
  specialize (HB d Hd). specialize (Hp d Hd). nia.
Qed.

Lemma low_mod_env env x :
  in_box env (B ++ X) -> mod_env B env x = env x.
Proof.
  intros H. apply in_box_app in H. destruct H as [HB _].
  destruct (in_dec Var_eq_dec x (map fst B)) as [Hin|Hout].
  - apply in_map_iff in Hin. destruct Hin as ([y n] & <- & Hin). simpl.
    rewrite (@mod_env_in B env _ _ NoDup_B Hin).
    unfold in_box in HB. rewrite Forall_forall in HB. specialize (HB _ Hin). simpl in HB.
    now apply Z.mod_small.
  - now apply mod_env_out.
Qed.

Lemma low_quotients env :
  in_box env (B ++ X) -> quotients env B cs = map (fun d => (0, snd d)) dims.
Proof.
  intros H. apply in_box_app in H. destruct H as [HB _]. apply in_box_dims in HB.
  unfold quotients. fold dims. apply map_ext_in. intros d Hd.
  rewrite Forall_forall in HB. specialize (HB d Hd).
  now rewrite Z.div_small.
Qed.

(** The same point in the last repetition of every dimension. *)
Lemma top_env_at env x n c :
  In (x, n, c) dims -> top_env B cs env x = env x + n * (c - 1).
Proof.
  intros Hin. unfold top_env. fold dims. rewrite (@shift_in dims x n c); auto.
  rewrite dims_keys. apply NoDup_B.
Qed.

Lemma top_env_out env x :
  ~ In x (map fst B) -> top_env B cs env x = env x.
Proof.
  intros Hn. unfold top_env. fold dims. rewrite shift_out; [lia|].
  now rewrite dims_keys.
Qed.

Lemma top_in_box env :
  in_box env (B ++ X) -> in_box (top_env B cs env) (rep_box B cs ++ X).
Proof.
  intros H. apply in_box_app in H. destruct H as [HB HX]. apply in_box_app. split.
  - apply in_rep_box_dims. apply in_box_dims in HB.
    pose proof dims_pos as Hp. rewrite Forall_forall in *. intros [[x n] c] Hd.
    specialize (HB _ Hd). specialize (Hp _ Hd). simpl in *.
    rewrite (@top_env_at env _ _ _ Hd). nia.
  - unfold in_box in *. rewrite Forall_forall in *. intros [x m] Hin. simpl.
    rewrite top_env_out by (eapply X_not_in_B; eassumption).
    apply (HX (x, m) Hin).
Qed.

Lemma top_mod_env env x :
  in_box env (B ++ X) -> mod_env B (top_env B cs env) x = env x.
Proof.
  intros H. apply in_box_app in H. destruct H as [HB _].
  destruct (in_dec Var_eq_dec x (map fst B)) as [Hin|Hout].
  - apply in_map_iff in Hin. destruct Hin as ([y n] & <- & Hin). simpl.
    rewrite (@mod_env_in B _ _ _ NoDup_B Hin).
    assert (Hd : exists c, In (y, n, c) dims).
    { unfold dims. clear - Hin Hlen. revert cs Hlen.
      induction B as [|b B' IH]; intros [|c cs'] Hl; try discriminate;
        simpl in *; [contradiction|].
      injection Hl as Hl. destruct Hin as [->|Hin].
      - exists c. now left.
      - destruct (IH Hin cs' Hl) as [c' Hc']. exists c'. now right. }
    destruct Hd as [c Hd]. rewrite (@top_env_at env _ _ _ Hd).
    unfold in_box in HB. rewrite Forall_forall in HB. specialize (HB _ Hin). simpl in HB.
    rewrite Z.mul_comm, Z_mod_plus_full. now apply Z.mod_small.
  - rewrite mod_env_out by assumption. now apply top_env_out.
Qed.

Lemma top_quotients env :
  in_box env (B ++ X) ->
  quotients (top_env B cs env) B cs = map (fun d => (snd d - 1, snd d)) dims.
Proof.
  intros H. apply in_box_app in H. destruct H as [HB _]. apply in_box_dims in HB.
  unfold quotients. fold dims. apply map_ext_in. intros [[x n] c] Hd.
  pose proof dims_pos as Hp. rewrite Forall_forall in HB, Hp.
  specialize (HB _ Hd). specialize (Hp _ Hd). simpl in *. f_equal.
  rewrite (@top_env_at env _ _ _ Hd).
  rewrite Z.mul_comm, Z.div_add by lia. rewrite Z.div_small by lia. lia.
Qed.

Lemma rep_quotients_bounds env :
  in_box env (rep_box B cs ++ X) ->
  Forall (fun qc => 0 <= fst qc <= snd qc - 1) (quotients env B cs).
Proof.
  intros H. apply in_box_app in H. destruct H as [HB _]. apply in_rep_box_dims in HB.
  unfold quotients. fold dims. apply Forall_map.
  pose proof dims_pos as Hp. rewrite Forall_forall in *. intros [[x n] c] Hd.
  specialize (HB _ Hd). specialize (Hp _ Hd). simpl in *.
  split; [apply Z.div_pos; lia|].
  assert (env x / n < c) by (apply Z.div_lt_upper_bound; lia). lia.
Qed.

Lemma quotients_radices env : map snd (quotients env B cs) = cs.
Proof.
  unfold quotients. rewrite map_map. simpl. now apply map_snd_combine.
Qed.

End RepeatPoints.

(** ** Extents under [Repeat] *)

Lemma qfold_zero (qs : list (Z * Z)) : forall i s,
  Forall (fun qc => fst qc = 0) qs -> fst (fold_left qstep qs (i, s)) = i.
Proof.
  induction qs as [|[q c] qs IH]; intros i s H; simpl; [reflexivity|].
  inversion H as [|? ? Hq Hrest]; subst. simpl in Hq. subst q.
  unfold qstep at 2. simpl. rewrite IH by assumption. lia.
Qed.

Lemma qfold_top (qs : list (Z * Z)) : forall i s,
  Forall (fun qc => fst qc = snd qc - 1) qs ->
  fst (fold_left qstep qs (i, s)) = i + s * (product (map snd qs) - 1).
Proof.
  induction qs as [|[q c] qs IH]; intros i s H; cbn [fold_left map product].
  - simpl. lia.
  - inversion H as [|? ? Hq Hrest]; subst. simpl in Hq. subst q.
    unfold qstep at 2. cbn [fst snd]. rewrite IH by assumption. cbn [snd]. ring.
Qed.

Section RepeatExtents.
Variables (B X : Box) (cs : list Z) (fv : list IterVar).
Hypothesis Hgood : good_box (B ++ X).
Hypothesis Hlen : List.length cs = List.length B.
Hypothesis Hcs : Forall (fun c => 0 < c) cs.
Hypothesis Hfv : map binding fv = box_analyzer B.

Lemma eval_Substitute_repeat env e :
  eval env (Substitute e (repeat_vmap fv)) = eval (mod_env B env) e.
Proof. rewrite eval_Substitute, (@repeat_vmap_box fv B Hfv). reflexivity. Qed.

Lemma ridx_bounds env lower :
  in_box env (rep_box B cs ++ X) ->
  0 <= eval env (repeats_index_of fv (map IntImm cs) lower) <= product cs - 1.
Proof.
  intros H. rewrite (@eval_repeats_index env fv B cs lower Hfv Hlen).
  assert (Hq : Forall (fun qc => 0 <= fst qc <= snd qc - 1) (quotients env B cs))
    by (eapply rep_quotients_bounds; eassumption).
  assert (Hr : map snd (quotients env B cs) = cs) by (now apply quotients_radices).
  destruct lower.
  - apply Forall_rev in Hq.
    pose proof (@qfold_bounds (rev (quotients env B cs)) 0 1 ltac:(lia) Hq) as [_ Hb].
    cbv zeta in Hb. rewrite map_rev, product_rev, Hr in Hb. lia.
  - pose proof (@qfold_bounds (quotients env B cs) 0 1 ltac:(lia) Hq) as [_ Hb].
    cbv zeta in Hb. rewrite Hr in Hb. lia.
Qed.

Lemma ridx_low env lower :
  in_box env (B ++ X) ->
  eval env (repeats_index_of fv (map IntImm cs) lower) = 0.
Proof.
  intros H. rewrite (@eval_repeats_index env fv B cs lower Hfv Hlen).
  erewrite low_quotients by eassumption.
  destruct lower; apply qfold_zero; [apply Forall_rev|];
    apply Forall_map, Forall_forall; reflexivity.
Qed.

Lemma ridx_top env lower :
  in_box env (B ++ X) ->
  eval (top_env B cs env) (repeats_index_of fv (map IntImm cs) lower) = product cs - 1.
Proof.
  intros H. rewrite (@eval_repeats_index (top_env B cs env) fv B cs lower Hfv Hlen).
  assert (Hr : map snd (quotients (top_env B cs env) B cs) = cs)
    by (now apply quotients_radices).
  assert (Hq : quotients (top_env B cs env) B cs =
               map (fun d => (snd d - 1, snd d)) (combine B cs))
    by (eapply top_quotients; eassumption).
  rewrite Hq in *.
  destruct lower.
  - rewrite qfold_top by (apply Forall_rev, Forall_map, Forall_forall; reflexivity).
    rewrite map_rev, product_rev, Hr. lia.
  - rewrite qfold_top by (apply Forall_map, Forall_forall; reflexivity).
    rewrite Hr. lia.
Qed.

(** An expression keeps its extent when every variable is read modulo its
    old extent. *)
Lemma extent_repeat_same e T :
  extent_is (B ++ X) e T ->
  extent_is (rep_box B cs ++ X) (Substitute e (repeat_vmap fv)) T.
Proof.
  intros (Hb & (env0 & H0 & Hv0) & (env1 & H1 & Hv1)). split; [|split].
  - intros env He. rewrite eval_Substitute_repeat.
    apply Hb. eapply mod_env_in_box; eassumption.
  - exists env0. split; [eapply low_in_box; eassumption|].
    rewrite eval_Substitute_repeat, <- Hv0. apply eval_ext.
    intros x. eapply low_mod_env; eassumption.
  - exists env1. split; [eapply low_in_box; eassumption|].
    rewrite eval_Substitute_repeat, <- Hv1. apply eval_ext.
    intros x. eapply low_mod_env; eassumption.
Qed.

(** Adding the repeat index scaled by the old extent multiplies the extent
    by the product of the counts. *)
Lemma extent_repeat_scaled e T lower :
  extent_is (B ++ X) e T ->
  extent_is (rep_box B cs ++ X)
            (op_add (Substitute e (repeat_vmap fv))
                    (op_mul (IntImm T) (repeats_index_of fv (map IntImm cs) lower)))
            (T * product cs).
Proof.
  intros Hext. pose proof (extent_is_pos Hext) as HT.
  destruct Hext as (Hb & (env0 & H0 & Hv0) & (env1 & H1 & Hv1)).
  pose proof (product_pos Hcs) as HP.
  split; [|split].
  - intros env He. rewrite eval_op_add, eval_op_mul, eval_Substitute_repeat.
    cbn [eval]. pose proof (ridx_bounds lower He) as Hr.
    assert (Hm : 0 <= eval (mod_env B env) e < T)
      by (apply Hb; eapply mod_env_in_box; eassumption).
    nia.
  - exists env0. split; [eapply low_in_box; eassumption|].
    rewrite eval_op_add, eval_op_mul, eval_Substitute_repeat. cbn [eval].
    rewrite (ridx_low lower H0).
    rewrite (@eval_ext (mod_env B env0) env0 e)
      by (intros x; eapply low_mod_env; eassumption).
    lia.
  - exists (top_env B cs env1). split; [eapply top_in_box; eassumption|].
    rewrite eval_op_add, eval_op_mul, eval_Substitute_repeat. cbn [eval].
    rewrite (ridx_top lower H1).
    rewrite (@eval_ext (mod_env B (top_env B cs env1)) env1 e)
      by (intros x; eapply top_mod_env; eassumption).
    lia.
Qed.

Lemma repeat_vmap_find x t :
  vmap_find (repeat_vmap fv) x = Some t -> incl (free_vars t) [x].
Proof.
  rewrite (@repeat_vmap_box fv B Hfv). unfold box_vmap.
  generalize (rev (map box_mod B)) (fun p => proj2 (in_rev (map box_mod B) p)).
  intros m Hm. induction m as [|[y u] m IH]; simpl; [discriminate|].
  destruct (Var_eqb_spec x y) as [->|Hne].
  - intros Heq. inversion Heq; subst.
    assert (Hin : In (y, t) (map box_mod B)) by (apply Hm; now left).
    apply in_map_iff in Hin. destruct Hin as ([z n] & Hz & _).
    unfold box_mod in Hz. simpl in Hz. inversion Hz; subst. simpl.
    intros w [<-|[]]. now left.
  - apply IH. intros p Hp. apply Hm. now right.
Qed.

Lemma closed_repeat K e :
  vars_in K e -> vars_in K (Substitute e (repeat_vmap fv)).
Proof.
  intros He x Hx. apply free_vars_Substitute in Hx.
  destruct Hx as [[Hx _]|(y & t & Hy & Hf & Hx)]; [now apply He|].
  apply repeat_vmap_find in Hf. apply Hf in Hx. destruct Hx as [<-|[]].
  now apply He.
Qed.

Lemma free_vars_repeat_fold (l : list (IterVar * PrimExpr)) : forall acc K,
  vars_in K (fst acc) -> vars_in K (snd acc) ->
  Forall (fun t => In (var (fst t)) K /\ vars_in K (extent (dom (fst t)))
                   /\ vars_in K (snd t)) l ->
  vars_in K (fst (fold_left repeat_step l acc)).
Proof.
  induction l as [|[v c] l IH]; intros [ri rs] K Hri Hrs Hl; simpl; [assumption|].
  inversion Hl as [|? ? (Hv & He & Hc) Hrest]; subst. simpl in *.
  apply IH; simpl; try assumption.
  - apply vars_in_op_add; [assumption|]. apply vars_in_op_mul; [assumption|].
    intros x Hx. simpl in Hx. destruct Hx as [<-|Hx]; [assumption | now apply He].
  - now apply vars_in_op_mul.
Qed.

Lemma closed_ridx lower :
  vars_in (map fst B) (repeats_index_of fv (map IntImm cs) lower).
Proof.
  unfold repeats_index_of.
  assert (Hall : Forall (fun t => In (var (fst t)) (map fst B)
                                  /\ vars_in (map fst B) (extent (dom (fst t)))
                                  /\ vars_in (map fst B) (snd t))
                        (combine fv (map IntImm cs))).
  { apply Forall_forall. intros [v c] Hin.
    pose proof (in_combine_l _ _ _ _ Hin) as Hv.
    pose proof (in_combine_r _ _ _ _ Hin) as Hc.
    apply (in_map binding) in Hv. rewrite Hfv in Hv.
    apply in_map_iff in Hv. destruct Hv as ([x n] & Hb & HB).
    unfold binding, box_range in Hb. simpl in Hb. inversion Hb as [[Hx Hd]].
    apply in_map_iff in Hc. destruct Hc as (k & <- & _). simpl.
    split; [|split].
    - rewrite <- Hx. apply in_map_iff. now exists (x, n).
    - rewrite <- Hd. apply vars_in_const.
    - apply vars_in_const. }
  apply free_vars_repeat_fold; try apply vars_in_const.
  destruct lower; [now apply Forall_rev | assumption].
Qed.

End RepeatExtents.

(** ** [Repeat] on fragments over a box *)

Section RepeatFragments.
Variable E : Engine.
Context {HE : EngineLaws E}.
Variables (F : FragmentNode) (B : Box) (r : Var) (R : Z) (cs : list Z).
Hypothesis Hlen : List.length cs = List.length B.
Hypothesis Hcs : Forall (fun c => 0 < c) cs.

Let B' := rep_box B cs.
Let A' := box_analyzer (B' ++ [(r, R)]).
Let vmap := repeat_vmap (forward_var_ F).

Lemma Repeat_length_check :
  thread_over F B r R ->
  Nat.eqb (List.length (map IntImm cs)) (InputDim F) = true.
Proof.
  intros H. rewrite length_map, (thread_over_InputDim H), Hlen. apply Nat.eqb_refl.
Qed.

Lemma repeat_keys : map fst (B' ++ [(r, R)]) = map fst (B ++ [(r, R)]).
Proof. unfold B'. now apply rep_box_keys. Qed.

Lemma repeat_thread_over thread' index' :
  thread_over F B r R ->
  closed_box (B' ++ [(r, R)]) thread' ->
  thread_over (mkFragment
                 (mkLayout (repeat_forward_var (forward_var_ F) (map IntImm cs)) index')
                 thread' (thread_replicate_ F))
              B' r R.
Proof.
  intros H Hc.
  destruct (repeat_forward_var_box (forward_var_ F) B cs (to_vars H) Hlen) as [Hb _].
  constructor; simpl.
  - exact Hb.
  - exact (to_rep H).
  - unfold B'. eapply rep_box_good; try eassumption. exact (to_good H).
  - exact Hc.
Qed.

Lemma closed_repeat_thread :
  thread_over F B r R ->
  closed_box (B' ++ [(r, R)]) (Substitute (forward_thread_ F) vmap).
Proof.
  intros H. unfold closed_box. rewrite repeat_keys.
  eapply closed_repeat; [exact (to_vars H) | exact (to_thread H)].
Qed.

Lemma closed_repeat_ridx lower :
  thread_over F B r R ->
  closed_box (B' ++ [(r, R)])
             (repeats_index_of (forward_var_ F) (map IntImm cs) lower).
Proof.
  intros H. unfold closed_box. rewrite repeat_keys.
  eapply vars_in_incl; [|eapply closed_ridx; exact (to_vars H)].
  rewrite map_app. apply incl_appl, incl_refl.
Qed.

Lemma closed_repeat_index :
  frag_over F B r R ->
  Forall (closed_box B') (map (fun e => Substitute e vmap) (forward_index_ F)).
Proof.
  intros H. apply Forall_map. eapply Forall_impl; [|exact (fo_index H)].
  intros e He. unfold closed_box, B'.
  replace (map fst (rep_box B cs)) with (map fst B).
  - eapply closed_repeat; [exact (to_vars (fo_thread H)) | exact He].
  - pose proof (@rep_box_keys B [] cs Hlen) as Hk. now rewrite !app_nil_r in Hk.
Qed.

(** Repeating on the thread: the thread extent is multiplied by the product
    of the counts, the index expressions keep their extents. *)
Lemma Repeat_on_thread_spec lower s T :
  thread_over F B r R ->
  ThreadExtent E F = Ok (IntImm T) ->
  exists F',
    FragmentNode_Repeat E F (map IntImm cs) true lower s = Ok (F', s) /\
    thread_over F' B' r R /\
    ThreadExtent E F' = Ok (IntImm (T * product cs)) /\
    (forward_index_ F <> [] ->
     forward_index_ F' =
     map (fun e => Simplify E A' (Substitute e vmap)) (forward_index_ F)).
Proof.
  intros H HT.
  destruct (ThreadExtent_inv (E := E) H HT) as (T' & HT' & Hext).
  inversion HT'; subst T'.
  destruct (repeat_forward_var_box (forward_var_ F) B cs (to_vars H) Hlen) as [Hb _].
  unfold FragmentNode_Repeat. rewrite (Repeat_length_check H).
  unfold bind at 1. unfold lift at 1. rewrite HT.
  rewrite (@Fragment_ctor_over E _ _ _ _ _ _ _ s Hb (to_rep H)). cbv zeta.
  fold B' A' vmap.
  eexists. split; [reflexivity|].
  assert (Hto : thread_over
                  (mkFragment
                     (mkLayout (repeat_forward_var (forward_var_ F) (map IntImm cs))
                        (map (Simplify E A')
                           match map (fun e => Substitute e vmap) (forward_index_ F) with
                           | [] => [infer_fragment_index E
                                      (repeat_forward_var (forward_var_ F) (map IntImm cs))
                                      (thread_replicate_ F)
                                      (Simplify E A'
                                         (op_add (Substitute (forward_thread_ F) vmap)
                                            (op_mul (IntImm T)
                                               (repeats_index_of (forward_var_ F)
                                                  (map IntImm cs) lower)))) A']
                           | _ :: _ => map (fun e => Substitute e vmap) (forward_index_ F)
                           end))
                     (Simplify E A'
                        (op_add (Substitute (forward_thread_ F) vmap)
                           (op_mul (IntImm T)
                              (repeats_index_of (forward_var_ F) (map IntImm cs) lower))))
                     (thread_replicate_ F)) B' r R).
  { apply repeat_thread_over; [exact H|]. apply (@closed_box_Simplify E HE).
    apply vars_in_op_add; [now apply closed_repeat_thread|].
    apply vars_in_op_mul; [apply vars_in_const | now apply closed_repeat_ridx]. }
  split; [exact Hto|]. split.
  - apply (ThreadExtent_extent (E := E) Hto). simpl. unfold A'.
    apply (@extent_is_Simplify E HE). unfold B', vmap.
    eapply extent_repeat_scaled; try eassumption; [exact (to_good H) | exact (to_vars H)].
  - intros Hne. simpl. destruct (forward_index_ F); [congruence|].
    simpl. now rewrite map_map.
Qed.

Lemma Repeat_on_thread_index lower s T F' :
  frag_over F B r R -> forward_index_ F <> [] ->
  ThreadExtent E F = Ok (IntImm T) ->
  FragmentNode_Repeat E F (map IntImm cs) true lower s = Ok (F', s) ->
  frag_over F' B' r R /\
  forall Ls, Forall2 (extent_is (B ++ [(r, R)])) (forward_index_ F) Ls ->
             Forall2 (extent_is (B' ++ [(r, R)])) (forward_index_ F') Ls.
Proof.
  intros H Hne HT Hrun.
  destruct (Repeat_on_thread_spec lower s (fo_thread H) HT)
    as (F2 & Hrun2 & Hto & _ & Hidx).
  rewrite Hrun in Hrun2. inversion Hrun2; subst F2. specialize (Hidx Hne).
  split.
  - constructor; [exact Hto|]. rewrite Hidx.
    pose proof (closed_repeat_index H) as Hc. rewrite Forall_map in Hc.
    apply Forall_map. eapply Forall_impl; [|exact Hc].
    intros e. apply (@closed_box_Simplify E HE).
  - intros Ls HLs. rewrite Hidx.
    clear Hidx Hne. induction HLs as [|e L idx Ls He _ IH]; simpl; constructor.
    + unfold A'. apply (@extent_is_Simplify E HE). unfold B', vmap.
      eapply extent_repeat_same; try eassumption;
        [exact (to_good (fo_thread H)) | exact (to_vars (fo_thread H))].
    + exact IH.
Qed.

(** Repeating on the data: the single index is scaled by the old output
    extent, the thread expression keeps its extent. *)
Lemma Repeat_on_data_spec lower s index0 L :
  frag_over F B r R ->
  forward_index_ F = [index0] ->
  extent_is (B ++ [(r, R)]) index0 L ->
  exists F' index',
    FragmentNode_Repeat E F (map IntImm cs) false lower s = Ok (F', s) /\
    frag_over F' B' r R /\
    forward_index_ F' = [index'] /\
    extent_is (B' ++ [(r, R)]) index' (L * product cs) /\
    forall T, extent_is (B ++ [(r, R)]) (forward_thread_ F) T ->
              extent_is (B' ++ [(r, R)]) (forward_thread_ F') T.
Proof.
  intros H Hidx Hext. pose proof (fo_thread H) as Ht.
  destruct (repeat_forward_var_box (forward_var_ F) B cs (to_vars Ht) Hlen) as [Hb _].
  assert (Hshape : FragmentNode_OutputShape E F = Ok [IntImm L]).
  { apply (FragmentNode_OutputShape_extents (E := E) (Ls := [L]) H).
    rewrite Hidx. constructor; [assumption | constructor]. }
  unfold FragmentNode_Repeat. rewrite (Repeat_length_check Ht), Hidx.
  unfold bind at 1. unfold lift at 1. rewrite Hshape. cbn [nth].
  rewrite (@Fragment_ctor_over E _ _ _ _ _ _ _ s Hb (to_rep Ht)). cbv zeta.
  fold B' A' vmap. cbn [map].
  do 2 eexists. split; [reflexivity|].
  pose proof (closed_repeat_index H) as Hci. rewrite Hidx in Hci. simpl in Hci.
  inversion Hci as [|? ? Hc0 _]; subst.
  assert (Hto : closed_box (B' ++ [(r, R)])
                  (Simplify E A' (Substitute (forward_thread_ F) vmap))).
  { apply (@closed_box_Simplify E HE). now apply closed_repeat_thread. }
  split; [|split; [reflexivity | split]].
  - constructor; [now apply repeat_thread_over|].
    cbn [forward_index_ Fragment_base map]. constructor; [|constructor].
    apply (@closed_box_Simplify E HE). apply vars_in_op_add; [exact Hc0|].
    apply vars_in_op_mul; [apply vars_in_const|].
    unfold B'. replace (map fst (rep_box B cs)) with (map fst B).
    + eapply closed_ridx; exact (to_vars Ht).
    + pose proof (@rep_box_keys B [] cs Hlen) as Hk. now rewrite !app_nil_r in Hk.
  - unfold A'. apply (@extent_is_Simplify E HE). unfold B', vmap.
    eapply extent_repeat_scaled; try eassumption; [exact (to_good Ht) | exact (to_vars Ht)].
  - intros T HT. cbn [forward_thread_]. unfold A'.
    apply (@extent_is_Simplify E HE). unfold B', vmap.
    eapply extent_repeat_same; try eassumption; [exact (to_good Ht) | exact (to_vars Ht)].
Qed.

End RepeatFragments.

(* ================================================================== *)
(** * The 8x8 atom and [makeGemmFragmentC] *)

Definition atom_i (s : nat) : Var := mkVar "i" s.
Definition atom_j (s : nat) : Var := mkVar "j" (S s).
Definition atom_rep (s : nat) : Var := mkVar "rep" (S (S s)).

Definition atom_box (s : nat) (m n : Z) : Box := [(atom_i s, m); (atom_j s, n)].

Lemma in_box_atom env s m n R :
  in_box env (atom_box s m n ++ [(atom_rep s, R)]) <->
  0 <= env (atom_i s) < m /\ 0 <= env (atom_j s) < n /\ 0 <= env (atom_rep s) < R.
Proof.
  unfold in_box, atom_box. simpl. rewrite !Forall_cons_iff. simpl.
  split; [intros (H1 & H2 & H3 & _); auto | intros (H1 & H2 & H3); auto].
Qed.

Lemma good_atom_box s m n R :
  0 < m -> 0 < n -> 0 < R -> good_box (atom_box s m n ++ [(atom_rep s, R)]).
Proof.
  intros Hm Hn HR. split.
  - repeat constructor; assumption.
  - simpl. repeat constructor; simpl; intuition discriminate.
Qed.

(** A point of the atom box with given coordinates. *)
Definition atom_point (s : nat) (i j : Z) : Env :=
  fun x => if Var_eqb x (atom_i s) then i
           else if Var_eqb x (atom_j s) then j else 0.

Lemma atom_point_i s i j : atom_point s i j (atom_i s) = i.
Proof. unfold atom_point. now rewrite Var_eqb_refl. Qed.

Lemma atom_point_j s i j : atom_point s i j (atom_j s) = j.
Proof.
  unfold atom_point. rewrite Var_eqb_refl.
  rewrite Var_eqb_neq; [reflexivity | discriminate].
Qed.

Lemma atom_point_rep s i j : atom_point s i j (atom_rep s) = 0.
Proof. unfold atom_point. rewrite !Var_eqb_neq; [reflexivity | discriminate..]. Qed.

Section Atom.
Variable E : Engine.
Context {HE : EngineLaws E}.

(** [makeGemmFragment8x8]: an 8x8 tile on 32 threads, two elements each. *)
Lemma makeGemmFragment8x8_spec (s : nat) :
  exists F index,
    makeGemmFragment8x8 E s = Ok (F, S (S (S s))) /\
    frag_over F (atom_box s 8 8) (atom_rep s) 1 /\
    forward_index_ F = [index] /\
    extent_is (atom_box s 8 8 ++ [(atom_rep s, 1)]) index 2 /\
    extent_is (atom_box s 8 8 ++ [(atom_rep s, 1)]) (forward_thread_ F) 32.
Proof.
  set (i := mkIterVar (mkRange (IntImm 0) (IntImm 8)) (atom_i s) kDataPar).
  set (j := mkIterVar (mkRange (IntImm 0) (IntImm 8)) (atom_j s) kDataPar).
  set (rep := mkIterVar (mkRange (IntImm 0) (IntImm 1)) (atom_rep s) kDataPar).
  set (thread := op_add (FloorDiv (EVar (atom_j s)) (IntImm 2))
                        (op_mul (IntImm 4) (EVar (atom_i s)))).
  set (index := FloorMod (EVar (atom_j s)) (IntImm 2)).
  set (A := box_analyzer (atom_box s 8 8 ++ [(atom_rep s, 1)])).
  assert (Hrun : makeGemmFragment8x8 E s =
                 Fragment_ctor E [i; j] [index] thread (Some rep) (S (S (S s))))
    by reflexivity.
  rewrite Hrun.
  rewrite (@Fragment_ctor_over E [i; j] [index] thread rep (atom_box s 8 8)
             (atom_rep s) 1 (S (S (S s))) eq_refl eq_refl).
  cbv zeta. fold A. cbn [map].
  do 2 eexists. split; [reflexivity|].
  assert (Hgood : good_box (atom_box s 8 8 ++ [(atom_rep s, 1)]))
    by (apply good_atom_box; lia).
  split; [|split; [reflexivity | split]].
  - constructor; [constructor|]; cbn [forward_var_ forward_index_ forward_thread_
                                      thread_replicate_ Fragment_base].
    + reflexivity.
    + reflexivity.
    + exact Hgood.
    + apply (@closed_box_Simplify E HE). intros x Hx. simpl in Hx.
      destruct Hx as [<-|[<-|[]]]; simpl; auto.
    + constructor; [|constructor]. apply (@closed_box_Simplify E HE).
      intros x Hx. simpl in Hx. destruct Hx as [<-|[]]. simpl. auto.
  - unfold A. apply (@extent_is_Simplify E HE). split; [|split].
    + intros env He. apply in_box_atom in He. simpl.
      apply Z.mod_pos_bound. lia.
    + exists (atom_point s 0 0). split.
      * apply in_box_atom. rewrite atom_point_i, atom_point_j, atom_point_rep. lia.
      * simpl. now rewrite atom_point_j.
    + exists (atom_point s 7 7). split.
      * apply in_box_atom. rewrite atom_point_i, atom_point_j, atom_point_rep. lia.
      * simpl. now rewrite atom_point_j.
  - cbn [forward_thread_]. unfold A. apply (@extent_is_Simplify E HE). split; [|split].
    + intros env He. apply in_box_atom in He. unfold thread.
      rewrite eval_op_add, eval_op_mul. cbn [eval].
      assert (0 <= env (atom_j s) / 2 <= 3).
      { split; [apply Z.div_pos; lia|].
        assert (env (atom_j s) / 2 < 4) by (apply Z.div_lt_upper_bound; lia). lia. }
      lia.
    + exists (atom_point s 0 0). split.
      * apply in_box_atom. rewrite atom_point_i, atom_point_j, atom_point_rep. lia.
      * unfold thread. rewrite eval_op_add, eval_op_mul. cbn [eval].
        now rewrite atom_point_i, atom_point_j.
    + exists (atom_point s 7 7). split.
      * apply in_box_atom. rewrite atom_point_i, atom_point_j, atom_point_rep. lia.
      * unfold thread. rewrite eval_op_add, eval_op_mul. cbn [eval].
        now rewrite atom_point_i, atom_point_j.
Qed.

End Atom.

Section GemmFragmentC.
Variable E : Engine.
Context {HE : EngineLaws E}.

(** [Repeat] on the thread for a fragment with a single index. *)
Lemma Repeat_on_thread_single F B r R cs lower s index0 L T :
  List.length cs = List.length B -> Forall (fun c => 0 < c) cs ->
  frag_over F B r R ->
  forward_index_ F = [index0] ->
  extent_is (B ++ [(r, R)]) index0 L ->
  extent_is (B ++ [(r, R)]) (forward_thread_ F) T ->
  exists F' index',
    FragmentNode_Repeat E F (map IntImm cs) true lower s = Ok (F', s) /\
    frag_over F' (rep_box B cs) r R /\
    forward_index_ F' = [index'] /\
    extent_is (rep_box B cs ++ [(r, R)]) index' L /\
    extent_is (rep_box B cs ++ [(r, R)]) (forward_thread_ F') (T * product cs).
Proof.
  intros Hlen Hcs H Hidx HL HT.
  pose proof (ThreadExtent_extent (E := E) (fo_thread H) HT) as Hte.
  destruct (@Repeat_on_thread_spec E HE F B r R cs Hlen Hcs lower s T (fo_thread H) Hte)
    as (F' & Hrun & Hto & Hte' & Hindex).
  assert (Hne : forward_index_ F <> []) by (rewrite Hidx; discriminate).
  destruct (@Repeat_on_thread_index E HE F B r R cs Hlen Hcs lower s T F' H Hne Hte Hrun)
    as (Hfo & Hext).
  specialize (Hext [L]). rewrite Hidx in Hext.
  specialize (Hext ltac:(constructor; [assumption | constructor])).
  inversion Hext as [|index' ? rest ? Hi Hrest Heq]; subst. inversion Hrest; subst.
  exists F', index'. split; [exact Hrun|]. split; [exact Hfo|].
  split; [symmetry; assumption|]. split; [exact Hi|].
  destruct (ThreadExtent_inv (E := E) Hto Hte') as (T' & HT' & Hext').
  inversion HT'; subst. exact Hext'.
Qed.

(** What [makeGemmFragmentC(64, 64, 32, 32, 16)] builds: the 64x64 tile on
    128 threads (four warps), 32 elements per thread. *)
Lemma makeGemmFragmentC_64_spec (lower_dim_first_default : bool) (s : nat) :
  exists F index,
    makeGemmFragmentC E lower_dim_first_default 64 64 32 32 16 s
    = Ok (F, S (S (S s))) /\
    frag_over F (atom_box s 64 64) (atom_rep s) 1 /\
    forward_index_ F = [index] /\
    extent_is (atom_box s 64 64 ++ [(atom_rep s, 1)]) index 32 /\
    extent_is (atom_box s 64 64 ++ [(atom_rep s, 1)]) (forward_thread_ F) 128.
Proof.
  change (makeGemmFragmentC E lower_dim_first_default 64 64 32 32 16 s) with
    (bind (makeGemmFragment8x8 E)
       (fun atom =>
          bind (FragmentNode_Repeat E atom (map IntImm [2; 1]) false
                                    lower_dim_first_default)
            (fun base_layout =>
               bind (FragmentNode_Repeat E base_layout (map IntImm [2; 2]) true false)
                 (fun warp_layout =>
                    FragmentNode_Repeat E warp_layout (map IntImm [2; 4]) false false)))
       s).
  destruct (makeGemmFragment8x8_spec (E := E) s) as (F0 & i0 & Hrun0 & Hfo0 & Hi0 & HL0 & HT0).
  unfold bind at 1. rewrite Hrun0.
  destruct (@Repeat_on_data_spec E HE F0 (atom_box s 8 8) (atom_rep s) 1 [2; 1]
              eq_refl ltac:(repeat constructor; lia) lower_dim_first_default
              (S (S (S s))) i0 2 Hfo0 Hi0 HL0)
    as (F1 & i1 & Hrun1 & Hfo1 & Hi1 & HL1 & HT1).
  unfold bind at 1. rewrite Hrun1.
  specialize (HT1 32 HT0).
  change (rep_box (atom_box s 8 8) [2; 1]) with (atom_box s 16 8) in *.
  change (2 * product [2; 1]) with 4 in HL1.
  destruct (@Repeat_on_thread_single F1 (atom_box s 16 8) (atom_rep s) 1 [2; 2] false
              (S (S (S s))) i1 4 32 eq_refl ltac:(repeat constructor; lia)
              Hfo1 Hi1 HL1 HT1)
    as (F2 & i2 & Hrun2 & Hfo2 & Hi2 & HL2 & HT2).
  unfold bind at 1. rewrite Hrun2.
  change (rep_box (atom_box s 16 8) [2; 2]) with (atom_box s 32 16) in *.
  change (32 * product [2; 2]) with 128 in HT2.
  destruct (@Repeat_on_data_spec E HE F2 (atom_box s 32 16) (atom_rep s) 1 [2; 4]
              eq_refl ltac:(repeat constructor; lia) false
              (S (S (S s))) i2 4 Hfo2 Hi2 HL2)
    as (F3 & i3 & Hrun3 & Hfo3 & Hi3 & HL3 & HT3).
  rewrite Hrun3.
  specialize (HT3 128 HT2).
  change (rep_box (atom_box s 32 16) [2; 4]) with (atom_box s 64 64) in *.
  change (4 * product [2; 4]) with 32 in HL3.
  exists F3, i3. split; [reflexivity|]. split; [exact Hfo3|].
  split; [exact Hi3|]. split; [exact HL3 | exact HT3].
Qed.

End GemmFragmentC.

(** C3 (amended): for every engine that meets the contract,
    [makeGemmFragmentC(64, 64, 32, 32, 16)] returns a fragment over the
    64x64 tile whose [ThreadExtent] is 128 (the four 32x32 warp tiles take
    32 threads each) and whose [OutputShape] is [[32]] (64*64 elements over
    128 threads), whichever value the default of [lower_dim_first] has. *)
Theorem makeGemmFragmentC_64_extents :
  forall (E : Engine) (HE : EngineLaws E) (lower_dim_first_default : bool) (s : nat),
  exists F,
    makeGemmFragmentC E lower_dim_first_default 64 64 32 32 16 s
    = Ok (F, S (S (S s))) /\
    InputShape F = [IntImm 64; IntImm 64] /\
    ThreadExtent E F = Ok (IntImm 128) /\
    FragmentNode_OutputShape E F = Ok [IntImm 32].
Proof.
  intros E HE ldf s.
  destruct (makeGemmFragmentC_64_spec (E := E) ldf s)
    as (F & index & Hrun & Hfo & Hidx & HL & HT).
  exists F. split; [exact Hrun|]. split; [|split].
  - now rewrite (thread_over_InputShape (fo_thread Hfo)).
  - exact (ThreadExtent_extent (E := E) (fo_thread Hfo) HT).
  - apply (FragmentNode_OutputShape_extents (E := E) (Ls := [32]) Hfo).
    rewrite Hidx. constructor; [assumption | constructor].
Qed.

(** The reference engine meets the contract and computes these extents. *)
Lemma makeGemmFragmentC_64_extents_witness :
  exists F,
    makeGemmFragmentC RefEngine.engine true 64 64 32 32 16 0%nat = Ok (F, 3%nat) /\
    InputShape F = [IntImm 64; IntImm 64] /\
    ThreadExtent RefEngine.engine F = Ok (IntImm 128) /\
    FragmentNode_OutputShape RefEngine.engine F = Ok [IntImm 32].
Proof.
  exact (@makeGemmFragmentC_64_extents RefEngine.engine RefEngineFacts.engine_laws
           true 0%nat).
Defined.

(** C3 (as stated, refuted): evaluated with the reference engine, the thread
    extent of [makeGemmFragmentC(64, 64, 32, 32, 16)] is 128, which is not
    32. *)
Lemma makeGemmFragmentC_64_not_32_threads :
  exists F,
    makeGemmFragmentC RefEngine.engine true 64 64 32 32 16 0%nat = Ok (F, 3%nat) /\
    ThreadExtent RefEngine.engine F = Ok (IntImm 128) /\
    Z.eqb 128 32 = false.
Proof.
  eexists. split; [vm_compute; reflexivity|]. split; vm_compute; reflexivity.
Qed.

(* ================================================================== *)
(** * Extents under [Repeat] (C5) *)

(** C5 (amended): let [F] be a fragment over a zero-based box with positive
    constant extents whose expressions mention its own variables only, and
    let the counts be positive constants, one per input dimension.  Then
    - whenever [F.ThreadExtent()] is defined, [F.Repeat(counts, true, _)]
      returns a fragment whose [ThreadExtent] is [F.ThreadExtent()] times
      the product of the counts;
    - [F.Repeat(counts, false, _)] fails the check [OutputDim() == 1] when
      [F] has another number of outputs;
    - when [OutputDim() == 1] and [F.OutputShape()] is defined,
      [F.Repeat(counts, false, _)] returns a fragment whose output extent is
      the old output extent times the product of the counts and whose
      [ThreadExtent] is that of [F]. *)
Theorem Repeat_extents :
  forall (E : Engine) (HE : EngineLaws E) (F : FragmentNode) (B : Box) (r : Var)
         (R : Z) (cs : list Z) (lower_dim_first : bool) (s : nat),
    frag_over F B r R ->
    List.length cs = InputDim F ->
    Forall (fun c => 0 < c) cs ->
    (forall t, ThreadExtent E F = Ok t ->
       exists T F',
         t = IntImm T /\
         FragmentNode_Repeat E F (map IntImm cs) true lower_dim_first s = Ok (F', s) /\
         ThreadExtent E F' = Ok (IntImm (T * product cs))) /\
    (OutputDim F <> 1%nat ->
       FragmentNode_Repeat E F (map IntImm cs) false lower_dim_first s
       = CheckFail "ICHECK(OutputDim() == 1)") /\
    (forall shape,
       OutputDim F = 1%nat ->
       FragmentNode_OutputShape E F = Ok shape ->
       exists L F',
         shape = [IntImm L] /\
         FragmentNode_Repeat E F (map IntImm cs) false lower_dim_first s = Ok (F', s) /\
         FragmentNode_OutputShape E F' = Ok [IntImm (L * product cs)] /\
         forall t, ThreadExtent E F = Ok t -> ThreadExtent E F' = Ok t).
Proof.
  intros E HE F B r R cs lower s Hfo Hlen Hcs.
  pose proof (fo_thread Hfo) as Hto.
  rewrite (thread_over_InputDim Hto) in Hlen.
  split; [|split].
  - intros t Ht.
    destruct (ThreadExtent_inv (E := E) Hto Ht) as (T & -> & _).
    destruct (@Repeat_on_thread_spec E HE F B r R cs Hlen Hcs lower s T Hto Ht)
      as (F' & Hrun & _ & Hte & _).
    exists T, F'. auto.
  - intros Hdim. unfold FragmentNode_Repeat.
    rewrite (@Repeat_length_check F B r R cs Hlen Hto).
    unfold OutputDim in Hdim.
    destruct (forward_index_ F) as [|a [|b l]]; simpl in Hdim;
      [reflexivity | congruence | reflexivity].
  - intros shape Hdim Hshape.
    destruct (FragmentNode_OutputShape_inv (E := E) Hfo Hshape) as (Ls & -> & HLs).
    unfold OutputDim in Hdim.
    destruct (forward_index_ F) as [|index0 [|b l]] eqn:Hidx; try discriminate.
    inversion HLs as [|? L ? Ls' HL Hrest]; subst. inversion Hrest; subst.
    destruct (@Repeat_on_data_spec E HE F B r R cs Hlen Hcs lower s index0 L
                Hfo Hidx HL)
      as (F' & index' & Hrun & Hfo' & Hidx' & HL' & HT').
    exists L, F'. split; [reflexivity|]. split; [exact Hrun|]. split.
    + apply (FragmentNode_OutputShape_extents (E := E) (Ls := [L * product cs]) Hfo').
      rewrite Hidx'. constructor; [assumption | constructor].
    + intros t Ht.
      destruct (ThreadExtent_inv (E := E) Hto Ht) as (T & -> & Hext).
      apply (ThreadExtent_extent (E := E) (fo_thread Hfo')). now apply HT'.
Qed.

(** The 8x8 atom repeated twice in each dimension on the thread has
    32 * 4 = 128 threads. *)
Lemma Repeat_extents_witness :
  exists F F',
    makeGemmFragment8x8 RefEngine.engine 0%nat = Ok (F, 3%nat) /\
    FragmentNode_Repeat RefEngine.engine F [IntImm 2; IntImm 2] true false 3%nat
    = Ok (F', 3%nat) /\
    ThreadExtent RefEngine.engine F' = Ok (IntImm 128).
Proof.
  destruct (@makeGemmFragment8x8_spec RefEngine.engine RefEngineFacts.engine_laws 0%nat)
    as (F & index & Hrun & Hfo & Hidx & HL & HT).
  destruct (@Repeat_extents RefEngine.engine RefEngineFacts.engine_laws F
              (atom_box 0 8 8) (atom_rep 0) 1 [2; 2] false 3%nat Hfo)
    as (Hthread & _ & _).
  - now rewrite (thread_over_InputDim (fo_thread Hfo)).
  - repeat constructor; lia.
  - destruct (Hthread (IntImm 32)
                (@ThreadExtent_extent RefEngine.engine RefEngineFacts.engine_laws
                   _ _ _ _ _ (fo_thread Hfo) HT))
      as (T & F' & HT' & Hrep & Hte).
    exists F, F'. split; [exact Hrun|]. split; [exact Hrep|].
    inversion HT'; subst T. exact Hte.
Defined.

(** A fragment whose input domain is [[2, 4)], with the same expression as
    thread and as index. *)
Definition offset_fragment (thread : PrimExpr) : M FragmentNode :=
  Fragment_ctor RefEngine.engine
    [mkIterVar (mkRange (IntImm 2) (IntImm 2)) (mkVar "i" 0) kDataPar]
    [thread] thread None.

(** C5 (as stated, refuted): over the domain [[2, 4)] the fragment with
    thread [i - 2] has thread extent 2; repeated on the thread with count 2
    its domain is again [[2, 4)] ([Range(2, 2 * 2)]) and its thread extent
    is still 2, not 2 * 2.  The fragment with thread [i mod 2] has thread
    extent 2 as well; after the same [Repeat] its thread expression has
    minimum 2 and [ThreadExtent] fails its check. *)
Lemma Repeat_offset_domain_counterexample :
  (exists F F',
      offset_fragment (op_sub (EVar (mkVar "i" 0)) (IntImm 2)) 1%nat = Ok (F, 2%nat) /\
      ThreadExtent RefEngine.engine F = Ok (IntImm 2) /\
      FragmentNode_Repeat RefEngine.engine F [IntImm 2] true true 2%nat
      = Ok (F', 2%nat) /\
      map dom (forward_var_ F') = [mkRange (IntImm 2) (IntImm 2)] /\
      ThreadExtent RefEngine.engine F' = Ok (IntImm 2) /\
      2 * product [2] = 4) /\
  (exists F F',
      offset_fragment (FloorMod (EVar (mkVar "i" 0)) (IntImm 2)) 1%nat = Ok (F, 2%nat) /\
      ThreadExtent RefEngine.engine F = Ok (IntImm 2) /\
      FragmentNode_Repeat RefEngine.engine F [IntImm 2] true true 2%nat
      = Ok (F', 2%nat) /\
      ThreadExtent RefEngine.engine F' = CheckFail "CHECK(is_one(ist.min()))").
Proof.
  split.
  - do 2 eexists. split; [vm_compute; reflexivity|].
    split; [vm_compute; reflexivity|].
    split; [vm_compute; reflexivity|].
    split; [reflexivity|]. split; [vm_compute; reflexivity | reflexivity].
  - do 2 eexists. split; [vm_compute; reflexivity|].
    split; [vm_compute; reflexivity|].
    split; vm_compute; reflexivity.
Qed.

(* ================================================================== *)
(** * [Replicate] and [DeReplicate] *)

Lemma subst_env_single env r t x :
  subst_env env (vmap_set [] r t) x = if Var_eqb x r then eval env t else env x.
Proof. unfold subst_env, vmap_set. simpl. now destruct (Var_eqb x r). Qed.

Lemma in_box_agree env env' B :
  (forall x, In x (map fst B) -> env' x = env x) -> in_box env B -> in_box env' B.
Proof.
  intros Hag H. unfold in_box in *. rewrite Forall_forall in *. intros [x n] Hin.
  simpl. rewrite Hag; [apply (H (x, n) Hin)|]. apply in_map_iff. now exists (x, n).
Qed.

Lemma in_box_single env x n : in_box env [(x, n)] <-> 0 <= env x < n.
Proof.
  unfold in_box. rewrite Forall_cons_iff. simpl.
  split; [tauto | intros H; split; [exact H | constructor]].
Qed.

Lemma good_box_snoc_inv B x n :
  good_box (B ++ [(x, n)]) -> good_box B /\ 0 < n /\ ~ In x (map fst B).
Proof.
  intros H. split; [eapply good_box_app_l; exact H|].
  destruct H as [Hpos Hnd]. apply Forall_app in Hpos. destruct Hpos as [_ Hn].
  inversion Hn; subst. split; [assumption|].
  rewrite map_app in Hnd. intros Hin.
  apply (@NoDup_app_disjoint _ _ _ x Hnd Hin). now left.
Qed.

Lemma good_box_snoc B x n :
  good_box B -> 0 < n -> ~ In x (map fst B) -> good_box (B ++ [(x, n)]).
Proof.
  intros [Hpos Hnd] Hn Hx. split.
  - apply Forall_app. split; [assumption | repeat constructor; assumption].
  - rewrite map_app. apply NoDup_app; [assumption | repeat constructor; auto |].
    intros a Ha [<-|[]]. contradiction.
Qed.

Lemma fresh_not_in (s : nat) (name : string) (K : list Var) :
  Forall (fun x => (var_id x < s)%nat) K -> ~ In (mkVar name s) K.
Proof.
  intros H Hin. rewrite Forall_forall in H. specialize (H _ Hin). simpl in H. lia.
Qed.

(** The extent of an expression over the input variables does not depend on
    which replication variable completes the box. *)
Lemma extent_is_rebox B x n y m e L :
  good_box (B ++ [(x, n)]) -> good_box (B ++ [(y, m)]) -> closed_box B e ->
  extent_is (B ++ [(x, n)]) e L -> extent_is (B ++ [(y, m)]) e L.
Proof.
  intros Hx Hy Hc (Hb & (env0 & H0 & Hv0) & (env1 & H1 & Hv1)).
  destruct (@good_box_snoc_inv _ _ _ Hx) as (_ & Hn & Hxn).
  destruct (@good_box_snoc_inv _ _ _ Hy) as (_ & Hm & Hym).
  assert (Hmove : forall env z k w, ~ In w (map fst B) -> 0 < k ->
                    in_box env (B ++ [(z, n)]) \/ in_box env (B ++ [(z, m)]) ->
                    in_box (update env w 0) (B ++ [(w, k)]) /\
                    eval (update env w 0) e = eval env e).
  { intros env z k w Hw Hk Hin.
    assert (HB : in_box env B) by (destruct Hin as [H|H]; apply in_box_app in H; tauto).
    split.
    - apply in_box_app. split.
      + eapply in_box_agree; [|exact HB]. intros v Hv. apply update_other.
        intros ->. contradiction.
      + apply in_box_single. rewrite update_same. lia.
    - apply eval_agree. intros v Hv. apply update_other. intros ->.
      apply Hw. now apply Hc. }
  split; [|split].
  - intros env He. destruct (Hmove env y n x Hxn Hn (or_intror He)) as [Hin Heq].
    rewrite <- Heq. now apply Hb.
  - destruct (Hmove env0 x m y Hym Hm (or_introl H0)) as [Hin Heq].
    exists (update env0 y 0). split; [assumption | congruence].
  - destruct (Hmove env1 x m y Hym Hm (or_introl H1)) as [Hin Heq].
    exists (update env1 y 0). split; [assumption | congruence].
Qed.

(** Substituting an expression over the new box for the old replication
    variable. *)
Lemma vars_in_subst_single K r t e K' :
  vars_in (K ++ [r]) e -> vars_in K' t -> incl K K' ->
  vars_in K' (Substitute e (vmap_set [] r t)).
Proof.
  intros He Ht HK x Hx. apply free_vars_Substitute in Hx.
  destruct Hx as [[Hx Hnone]|(y & u & Hy & Hf & Hx)].
  - apply He in Hx. apply in_app_or in Hx. destruct Hx as [Hx|[<-|[]]].
    + now apply HK.
    + unfold vmap_set in Hnone. simpl in Hnone. now rewrite Var_eqb_refl in Hnone.
  - unfold vmap_set in Hf. simpl in Hf.
    destruct (Var_eqb y r); [|discriminate]. inversion Hf; subst. now apply Ht.
Qed.

(** Reading the substituted thread expression at a point of the new box is
    reading the old one at the point where the old replication variable has
    the value of its image. *)
Lemma subst_single_in_box env B r R t :
  ~ In r (map fst B) -> in_box env B -> 0 <= eval env t < R ->
  in_box (subst_env env (vmap_set [] r t)) (B ++ [(r, R)]).
Proof.
  intros Hr HB Ht. apply in_box_app. split.
  - eapply in_box_agree; [|exact HB]. intros x Hx. rewrite subst_env_single.
    rewrite Var_eqb_neq; [reflexivity|]. intros ->. contradiction.
  - apply in_box_single. rewrite subst_env_single, Var_eqb_refl. exact Ht.
Qed.

Section ReplicateFragments.
Variable E : Engine.
Context {HE : EngineLaws E}.
Variables (F : FragmentNode) (B : Box) (r : Var) (R : Z) (s : nat).
Hypothesis Hfo : frag_over F B r R.
Hypothesis Hfresh : Forall (fun x => (var_id x < s)%nat) (map fst B).

Let r' := mkVar "rep" s.

Lemma new_rep_fresh : ~ In r' (map fst B).
Proof. now apply fresh_not_in. Qed.

Lemma old_rep_fresh : ~ In r (map fst B).
Proof. destruct (@good_box_snoc_inv _ _ _ (to_good (fo_thread Hfo))) as (_ & _ & H). exact H. Qed.

Lemma old_R_pos : 0 < R.
Proof. destruct (@good_box_snoc_inv _ _ _ (to_good (fo_thread Hfo))) as (_ & H & _). exact H. Qed.

Lemma new_box_good q : 0 < q -> good_box (B ++ [(r', q)]).
Proof.
  intros Hq. apply good_box_snoc; [|assumption | apply new_rep_fresh].
  eapply good_box_app_l. exact (to_good (fo_thread Hfo)).
Qed.

Lemma keys_snoc x q : map fst (B ++ [(x, q)]) = map fst B ++ [x].
Proof. now rewrite map_app. Qed.

(** The fragment the constructor returns for the input variables of [F], a
    new replication variable of extent [q] and given expressions. *)
Lemma new_rep_frag_over q thread index :
  0 < q ->
  closed_box (B ++ [(r', q)]) thread ->
  closed_box B index ->
  let A := box_analyzer (B ++ [(r', q)]) in
  let new_rep := mkIterVar (mkRange (IntImm 0) (IntImm q)) r' kDataPar in
  Fragment_ctor E (forward_var_ F) [index] thread (Some new_rep) (S s) =
  Ok (mkFragment (mkLayout (forward_var_ F) [Simplify E A index])
                 (Simplify E A thread) new_rep, S s) /\
  frag_over (mkFragment (mkLayout (forward_var_ F) [Simplify E A index])
                        (Simplify E A thread) new_rep)
            B r' q.
Proof.
  intros Hq Hct Hci A new_rep. split.
  - rewrite (@Fragment_ctor_over E (forward_var_ F) [index] thread new_rep B r' q (S s)
               (to_vars (fo_thread Hfo)) eq_refl).
    reflexivity.
  - constructor; [constructor|]; cbn [forward_var_ forward_index_ forward_thread_
                                      thread_replicate_ Fragment_base].
    + exact (to_vars (fo_thread Hfo)).
    + reflexivity.
    + now apply new_box_good.
    + now apply (@closed_box_Simplify E HE).
    + constructor; [|constructor]. now apply (@closed_box_Simplify E HE).
Qed.

(** [Replicate(n)]: the thread extent is multiplied by [n], the index keeps
    its extent. *)
Lemma Replicate_spec n index0 L T :
  forward_index_ F = [index0] ->
  extent_is (B ++ [(r, R)]) index0 L ->
  extent_is (B ++ [(r, R)]) (forward_thread_ F) T ->
  1 <= n ->
  exists G index',
    FragmentNode_Replicate E F n s = Ok (G, S s) /\
    frag_over G B r' (R * n) /\
    forward_index_ G = [index'] /\
    extent_is (B ++ [(r', R * n)]) index' L /\
    extent_is (B ++ [(r', R * n)]) (forward_thread_ G) (T * n).
Proof.
  intros Hidx HL HT Hn.
  pose proof (fo_thread Hfo) as Hto. pose proof old_R_pos as HR.
  pose proof old_rep_fresh as Hr. pose proof new_rep_fresh as Hr'.
  pose proof (extent_is_pos HT) as HTpos.
  assert (Hq : 0 < R * n) by nia.
  pose proof (fo_index Hfo) as Hfi. rewrite Hidx in Hfi.
  inversion Hfi as [|? ? Hci _]; subst. clear Hfi.
  set (t := FloorMod (EVar r') (IntImm R)).
  set (thread := op_add (Substitute (forward_thread_ F) (vmap_set [] r t))
                        (op_mul (IntImm T) (FloorDiv (EVar r') (IntImm R)))).
  assert (Hrun : FragmentNode_Replicate E F n s =
                 Fragment_ctor E (forward_var_ F) [index0] thread
                   (Some (mkIterVar (mkRange (IntImm 0) (IntImm (R * n))) r' kDataPar))
                   (S s)).
  { unfold FragmentNode_Replicate.
    rewrite (thread_over_ReplicateExtent Hto), (thread_over_rep_var Hto), Hidx.
    destruct (Z.leb_spec 1 n); [|lia].
    unfold bind, make_itervar, new_Var, ret, lift.
    rewrite (ThreadExtent_extent (E := E) Hto HT). reflexivity. }
  assert (Hct : closed_box (B ++ [(r', R * n)]) thread).
  { unfold closed_box, thread. rewrite keys_snoc.
    apply vars_in_op_add.
    - eapply vars_in_subst_single.
      + rewrite <- (keys_snoc r R). exact (to_thread Hto).
      + intros x [<-|[]]. apply in_or_app. right. now left.
      + apply incl_appl, incl_refl.
    - apply vars_in_op_mul; [apply vars_in_const|].
      intros x [<-|[]]. apply in_or_app. right. now left. }
  destruct (new_rep_frag_over Hq Hct Hci) as [Hctor Hfo'].
  cbv zeta in Hctor, Hfo'. rewrite Hctor in Hrun.
  do 2 eexists. split; [exact Hrun|]. split; [exact Hfo'|]. split; [reflexivity|].
  assert (Hread : forall env,
            in_box env (B ++ [(r', R * n)]) ->
            in_box (subst_env env (vmap_set [] r t)) (B ++ [(r, R)]) /\
            0 <= env r' / R <= n - 1).
  { intros env He. apply in_box_app in He. destruct He as [HB Hrep].
    apply in_box_single in Hrep. split.
    - apply subst_single_in_box; try assumption. unfold t. cbn [eval].
      apply Z.mod_pos_bound. lia.
    - split; [apply Z.div_pos; lia|].
      assert (env r' / R < n) by (apply Z.div_lt_upper_bound; lia). lia. }
  assert (Hlift : forall env k,
            in_box env (B ++ [(r, R)]) -> 0 <= k <= n - 1 ->
            let env' := update env r' (env r + R * k) in
            in_box env' (B ++ [(r', R * n)]) /\
            eval (subst_env env' (vmap_set [] r t)) (forward_thread_ F)
            = eval env (forward_thread_ F) /\
            env' r' / R = k).
  { intros env k He Hk env'. apply in_box_app in He. destruct He as [HB Hrep].
    apply in_box_single in Hrep. unfold env'. split; [|split].
    - apply in_box_app. split.
      + eapply in_box_agree; [|exact HB]. intros x Hx. apply update_other.
        intros ->. contradiction.
      + apply in_box_single. rewrite update_same. nia.
    - apply eval_agree. intros x Hx. apply (to_thread Hto) in Hx.
      rewrite keys_snoc in Hx. rewrite subst_env_single.
      apply in_app_or in Hx. destruct Hx as [Hx|[<-|[]]].
      + rewrite Var_eqb_neq by (intros ->; contradiction).
        apply update_other. intros ->. contradiction.
      + rewrite Var_eqb_refl. unfold t. cbn [eval]. rewrite update_same.
        rewrite Z.mul_comm, Z_mod_plus_full. now apply Z.mod_small.
    - rewrite update_same. rewrite Z.mul_comm, Z.div_add by lia.
      rewrite Z.div_small by lia. lia. }
  split.
  - cbn [forward_index_ Fragment_base]. apply (@extent_is_Simplify E HE).
    eapply extent_is_rebox; [exact (to_good Hto) | now apply new_box_good | exact Hci
                            | exact HL].
  - cbn [forward_thread_]. apply (@extent_is_Simplify E HE).
    destruct HT as (Hb & (env0 & H0 & Hv0) & (env1 & H1 & Hv1)).
    assert (Heval : forall env,
              eval env thread =
              eval (subst_env env (vmap_set [] r t)) (forward_thread_ F)
              + T * (env r' / R)).
    { intros env. unfold thread. rewrite eval_op_add, eval_op_mul, eval_Substitute.
      reflexivity. }
    split; [|split].
    + intros env He. rewrite Heval. destruct (Hread env He) as [Hin Hk].
      specialize (Hb _ Hin). nia.
    + destruct (Hlift env0 0 H0 ltac:(lia)) as (Hin & Hth & Hk). cbv zeta in *.
      eexists. split; [exact Hin|]. rewrite Heval, Hth, Hk. lia.
    + destruct (Hlift env1 (n - 1) H1 ltac:(lia)) as (Hin & Hth & Hk). cbv zeta in *.
      eexists. split; [exact Hin|]. rewrite Heval, Hth, Hk. lia.
Qed.

End ReplicateFragments.

(** Dividing an expression by a divisor of its extent divides the extent. *)
Lemma extent_is_div B e L f :
  0 < f -> (f | L) -> extent_is B e L ->
  extent_is B (FloorDiv e (IntImm f)) (L / f).
Proof.
  intros Hf [k ->] (Hb & (env0 & H0 & Hv0) & (env1 & H1 & Hv1)).
  rewrite Z.div_mul by lia.
  split; [|split].
  - intros env He. specialize (Hb env He). cbn [eval]. split.
    + apply Z.div_pos; lia.
    + apply Z.div_lt_upper_bound; lia.
  - exists env0. split; [assumption|]. cbn [eval]. rewrite Hv0. apply Z.div_0_l. lia.
  - exists env1. split; [assumption|]. cbn [eval]. rewrite Hv1.
    symmetry. apply (Z.div_unique _ _ _ (f - 1)); [lia | ring].
Qed.

Lemma gcd_bounds R L : 0 < R -> 0 < L -> 1 <= Z.gcd R L <= L /\ Z.gcd R L <= R.
Proof.
  intros HR HL. pose proof (Z.gcd_nonneg R L) as Hn.
  assert (Z.gcd R L <> 0) by (intros H; apply Z.gcd_eq_0_l in H; lia).
  pose proof (Z.gcd_divide_r R L) as Hd. pose proof (Z.gcd_divide_l R L) as Hd'.
  apply Z.divide_pos_le in Hd; [|lia]. apply Z.divide_pos_le in Hd'; [|lia]. lia.
Qed.

(** [DeReplicate] returns the fragment itself when the replication extent and
    the output extent are coprime constants. *)
Lemma DeReplicate_coprime (E : Engine) (G : FragmentNode) (s : nat) index0 R L :
  forward_index_ G = [index0] ->
  ReplicateExtent G = IntImm R ->
  FragmentNode_OutputShape E G = Ok [IntImm L] ->
  Z.gcd R L = 1 ->
  FragmentNode_DeReplicate E G s = Ok (G, s).
Proof.
  intros Hidx HR Hshape Hgcd. unfold FragmentNode_DeReplicate.
  rewrite Hidx, HR. unfold bind at 1. unfold lift at 1. rewrite Hshape.
  cbn [nth as_const_int]. unfold ZeroAwareGCD. rewrite Hgcd. reflexivity.
Qed.

Section DeReplicateFragments.
Variable E : Engine.
Context {HE : EngineLaws E}.
Variables (G : FragmentNode) (B : Box) (r : Var) (R : Z) (s : nat).
Hypothesis Hfo : frag_over G B r R.
Hypothesis Hfresh : Forall (fun x => (var_id x < s)%nat) (map fst B).

Let r' := mkVar "rep" s.

(** [DeReplicate] never enlarges the output extent nor, when it is defined
    afterwards, the thread extent. *)
Lemma DeReplicate_spec index0 L :
  forward_index_ G = [index0] ->
  extent_is (B ++ [(r, R)]) index0 L ->
  R < 2147483648 -> L < 2147483648 ->
  exists G' s' L',
    FragmentNode_DeReplicate E G s = Ok (G', s') /\
    FragmentNode_OutputShape E G' = Ok [IntImm L'] /\
    L' <= L /\
    forall T t',
      ThreadExtent E G = Ok (IntImm T) -> ThreadExtent E G' = Ok t' ->
      exists T', t' = IntImm T' /\ T' <= T.
Proof.
  intros Hidx HL HRmax HLmax.
  pose proof (fo_thread Hfo) as Hto.
  pose proof (@old_R_pos G B r R Hfo) as HR.
  pose proof (@old_rep_fresh G B r R Hfo) as Hr.
  pose proof (@new_rep_fresh B s Hfresh) as Hr'. fold r' in Hr'.
  pose proof (extent_is_pos HL) as HLpos.
  assert (Hshape : FragmentNode_OutputShape E G = Ok [IntImm L]).
  { apply (FragmentNode_OutputShape_extents (E := E) (Ls := [L]) Hfo).
    rewrite Hidx. constructor; [assumption | constructor]. }
  destruct (gcd_bounds HR HLpos) as [Hf HfR].
  destruct (Z.eq_dec (Z.gcd R L) 1) as [Hone|Hne].
  - exists G, s, L. split.
    + apply (@DeReplicate_coprime E G s index0 R L Hidx
               (thread_over_ReplicateExtent Hto) Hshape Hone).
    + split; [exact Hshape|]. split; [lia|].
      intros T t' HT Ht'. rewrite HT in Ht'. inversion Ht'; subst.
      exists T. split; [reflexivity | lia].
  - set (f := Z.gcd R L) in *.
    pose proof (Z.gcd_divide_l R L) as HdR. pose proof (Z.gcd_divide_r R L) as HdL.
    fold f in HdR, HdL. destruct HdR as [q Hq].
    assert (Hqpos : 0 < q) by nia.
    assert (HqR : R / f = q) by (rewrite Hq; apply Z.div_mul; lia).
    pose proof (fo_index Hfo) as Hfi. rewrite Hidx in Hfi.
    pose proof (Forall_inv Hfi) as Hci. clear Hfi.
    set (t := op_add (op_mul (EVar r') (IntImm f)) (FloorMod index0 (IntImm f))).
    set (thread := Substitute (forward_thread_ G) (vmap_set [] r t)).
    assert (Hrun : FragmentNode_DeReplicate E G s =
                   Fragment_ctor E (forward_var_ G) [FloorDiv index0 (IntImm f)] thread
                     (Some (mkIterVar (mkRange (IntImm 0) (IntImm q)) r' kDataPar))
                     (S s)).
    { unfold FragmentNode_DeReplicate.
      rewrite Hidx, (thread_over_ReplicateExtent Hto), (thread_over_rep_var Hto).
      unfold bind at 1. unfold lift at 1. rewrite Hshape.
      cbn [nth as_const_int]. unfold ZeroAwareGCD. fold f.
      rewrite (@to_int32_small f) by lia.
      destruct (Z.eqb_spec f 1) as [|_]; [contradiction|].
      unfold int_div. rewrite (@to_int32_small R) by lia.
      destruct (Z.eqb_spec f 0) as [|_]; [lia|].
      rewrite Z.quot_div_nonneg by lia. rewrite HqR.
      rewrite (@to_int32_small q) by nia.
      reflexivity. }
    assert (Hct : closed_box (B ++ [(r', q)]) thread).
    { unfold closed_box, thread. rewrite (@keys_snoc B r' q).
      eapply vars_in_subst_single.
      - rewrite <- (@keys_snoc B r R). exact (to_thread Hto).
      - unfold t. apply vars_in_op_add.
        + apply vars_in_op_mul; [|apply vars_in_const].
          intros x [<-|[]]. apply in_or_app. right. now left.
        + intros x Hx. simpl in Hx. rewrite app_nil_r in Hx.
          apply in_or_app. left. now apply Hci.
      - apply incl_appl, incl_refl. }
    assert (Hcd : closed_box B (FloorDiv index0 (IntImm f))).
    { intros x Hx. simpl in Hx. rewrite app_nil_r in Hx. now apply Hci. }
    destruct (@new_rep_frag_over E HE G B r R s Hfo Hfresh q thread
                (FloorDiv index0 (IntImm f)) Hqpos Hct Hcd) as [Hctor Hfo'].
    cbv zeta in Hctor, Hfo'. fold r' in Hctor, Hfo'. rewrite Hctor in Hrun.
    assert (Hgoodq : good_box (B ++ [(r', q)])).
    { apply (@new_box_good G B r R s Hfo Hfresh q Hqpos). }
    assert (HLq : extent_is (B ++ [(r', q)])
                    (Simplify E (box_analyzer (B ++ [(r', q)]))
                       (FloorDiv index0 (IntImm f))) (L / f)).
    { apply (@extent_is_Simplify E HE). apply extent_is_div; [lia | exact HdL|].
      eapply extent_is_rebox; [exact (to_good Hto) | exact Hgoodq | exact Hci | exact HL]. }
    do 3 eexists. split; [exact Hrun|]. split; [|split].
    + apply (FragmentNode_OutputShape_extents (E := E) (Ls := [L / f]) Hfo').
      cbn [forward_index_ Fragment_base]. constructor; [exact HLq | constructor].
    + apply Z.div_le_upper_bound; nia.
    + intros T t' HT Ht'.
      destruct (ThreadExtent_inv (E := E) Hto HT) as (T0 & HT0 & (Hb & _)).
      inversion HT0; subst T0.
      destruct (ThreadExtent_inv (E := E) (fo_thread Hfo') Ht')
        as (T' & -> & (_ & _ & (env & He & Hv))).
      exists T'. split; [reflexivity|].
      cbn [forward_thread_] in Hv.
      rewrite (@Simplify_box E HE _ _ _ He) in Hv.
      unfold thread in Hv. rewrite eval_Substitute in Hv.
      assert (Hin : in_box (subst_env env (vmap_set [] r t)) (B ++ [(r, R)])).
      { apply in_box_app in He. destruct He as [HB Hrep].
        apply in_box_single in Hrep.
        apply subst_single_in_box; try assumption.
        unfold t. rewrite eval_op_add, eval_op_mul. cbn [eval].
        pose proof (Z.mod_pos_bound (eval env index0) f ltac:(lia)). nia. }
      specialize (Hb _ Hin). lia.
Qed.

End DeReplicateFragments.

(** C7 (amended): let [F] be a fragment with one output over a zero-based
    box with positive constant extents, with defined output extent [L] and
    thread extent [T], replication extent [R], and let [n >= 1].
    - If [gcd(R * n, L) = 1], where [R * n] is the replication extent after
      [Replicate(n)], then [F.Replicate(n).DeReplicate()] is
      [F.Replicate(n)] itself: thread extent [T * n] and output shape [[L]]
      are unchanged.
    - For every such fragment [G] (extents within the range of [int]),
      [G.DeReplicate()] returns a fragment whose output extent is at most
      that of [G] and whose thread extent, when it is defined, is at most
      that of [G]. *)
Theorem Replicate_DeReplicate_extents :
  forall (E : Engine) (HE : EngineLaws E),
    (forall (F : FragmentNode) (B : Box) (r : Var) (R n L T : Z) (s : nat),
        frag_over F B r R ->
        Forall (fun x => (var_id x < s)%nat) (map fst B) ->
        OutputDim F = 1%nat ->
        FragmentNode_OutputShape E F = Ok [IntImm L] ->
        ThreadExtent E F = Ok (IntImm T) ->
        1 <= n ->
        Z.gcd (R * n) L = 1 ->
        exists G,
          FragmentNode_Replicate E F n s = Ok (G, S s) /\
          ReplicateExtent G = IntImm (R * n) /\
          ThreadExtent E G = Ok (IntImm (T * n)) /\
          FragmentNode_OutputShape E G = Ok [IntImm L] /\
          FragmentNode_DeReplicate E G (S s) = Ok (G, S s)) /\
    (forall (G : FragmentNode) (B : Box) (r : Var) (R L : Z) (s : nat),
        frag_over G B r R ->
        Forall (fun x => (var_id x < s)%nat) (map fst B) ->
        OutputDim G = 1%nat ->
        FragmentNode_OutputShape E G = Ok [IntImm L] ->
        R < 2147483648 -> L < 2147483648 ->
        exists G' s' L',
          FragmentNode_DeReplicate E G s = Ok (G', s') /\
          FragmentNode_OutputShape E G' = Ok [IntImm L'] /\
          L' <= L /\
          forall T t',
            ThreadExtent E G = Ok (IntImm T) -> ThreadExtent E G' = Ok t' ->
            exists T', t' = IntImm T' /\ T' <= T).
Proof.
  intros E HE.
  assert (Hsingle : forall (F : FragmentNode) B r R L,
            frag_over F B r R -> OutputDim F = 1%nat ->
            FragmentNode_OutputShape E F = Ok [IntImm L] ->
            exists index0, forward_index_ F = [index0] /\
                           extent_is (B ++ [(r, R)]) index0 L).
  { intros F B r R L Hfo Hdim Hshape. unfold OutputDim in Hdim.
    destruct (FragmentNode_OutputShape_inv (E := E) Hfo Hshape) as (Ls & HLs & Hext).
    destruct (forward_index_ F) as [|index0 [|b l]]; try discriminate.
    inversion Hext as [|? L0 ? Ls' HL Hrest]; subst. inversion Hrest; subst.
    inversion HLs; subst. now exists index0. }
  split.
  - intros F B r R n L T s Hfo Hfresh Hdim Hshape Hte Hn Hgcd.
    destruct (Hsingle F B r R L Hfo Hdim Hshape) as (index0 & Hidx & HL).
    destruct (ThreadExtent_inv (E := E) (fo_thread Hfo) Hte) as (T0 & HT0 & HT).
    inversion HT0; subst T0.
    destruct (@Replicate_spec E HE F B r R s Hfo Hfresh n index0 L T Hidx HL HT Hn)
      as (G & index' & Hrun & Hfo' & Hidx' & HL' & HT').
    assert (HshapeG : FragmentNode_OutputShape E G = Ok [IntImm L]).
    { apply (FragmentNode_OutputShape_extents (E := E) (Ls := [L]) Hfo').
      rewrite Hidx'. constructor; [assumption | constructor]. }
    exists G. split; [exact Hrun|].
    split; [exact (thread_over_ReplicateExtent (fo_thread Hfo'))|].
    split; [exact (ThreadExtent_extent (E := E) (fo_thread Hfo') HT')|].
    split; [exact HshapeG|].
    exact (@DeReplicate_coprime E G (S s) index' (R * n) L Hidx'
             (thread_over_ReplicateExtent (fo_thread Hfo')) HshapeG Hgcd).
  - intros G B r R L s Hfo Hfresh Hdim Hshape HR HL.
    destruct (Hsingle G B r R L Hfo Hdim Hshape) as (index0 & Hidx & Hext).
    exact (@DeReplicate_spec E HE G B r R s Hfo Hfresh index0 L Hidx Hext HR HL).
Qed.

(** The 8x8 atom (replication extent 1, output extent 2) replicated three
    times: [gcd(3, 2) = 1], and [DeReplicate] returns the replicated fragment
    itself, on 96 threads. *)
Lemma Replicate_DeReplicate_extents_witness :
  exists F G,
    makeGemmFragment8x8 RefEngine.engine 0%nat = Ok (F, 3%nat) /\
    FragmentNode_Replicate RefEngine.engine F 3 3%nat = Ok (G, 4%nat) /\
    ThreadExtent RefEngine.engine G = Ok (IntImm 96) /\
    FragmentNode_DeReplicate RefEngine.engine G 4%nat = Ok (G, 4%nat).
Proof.
  destruct (@makeGemmFragment8x8_spec RefEngine.engine RefEngineFacts.engine_laws 0%nat)
    as (F & index & Hrun & Hfo & Hidx & HL & HT).
  destruct (proj1 (@Replicate_DeReplicate_extents RefEngine.engine
                     RefEngineFacts.engine_laws)
                  F (atom_box 0 8 8) (atom_rep 0) 1 3 2 32 3%nat Hfo)
    as (G & HG & _ & Hte & _ & Hde).
  - repeat constructor.
  - unfold OutputDim. now rewrite Hidx.
  - apply (@FragmentNode_OutputShape_extents RefEngine.engine
             RefEngineFacts.engine_laws F _ _ _ [2] Hfo).
    rewrite Hidx. constructor; [exact HL | constructor].
  - exact (@ThreadExtent_extent RefEngine.engine RefEngineFacts.engine_laws
             _ _ _ _ _ (fo_thread Hfo) HT).
  - lia.
  - reflexivity.
  - exists F, G. split; [exact Hrun|]. split; [exact HG|]. split; [exact Hte | exact Hde].
Defined.

(** C7 (as stated, refuted): the 8x8 atom has replication extent 1, so
    [gcd(1, 2) = 1] for [n = 2]; yet [Replicate(2).DeReplicate()] has output
    shape [[1]] where [Replicate(2)] has [[2]]: the factor folded is
    [gcd(2, 2) = 2], computed from the replication extent after
    [Replicate]. *)
Lemma Replicate_DeReplicate_counterexample :
  exists F G G',
    makeGemmFragment8x8 RefEngine.engine 0%nat = Ok (F, 3%nat) /\
    ReplicateExtent F = IntImm 1 /\
    Z.gcd 1 2 = 1 /\
    FragmentNode_Replicate RefEngine.engine F 2 3%nat = Ok (G, 4%nat) /\
    FragmentNode_OutputShape RefEngine.engine G = Ok [IntImm 2] /\
    FragmentNode_DeReplicate RefEngine.engine G 4%nat = Ok (G', 5%nat) /\
    FragmentNode_OutputShape RefEngine.engine G' = Ok [IntImm 1].
Proof.
  do 3 eexists. split; [vm_compute; reflexivity|].
  split; [reflexivity|]. split; [reflexivity|].
  split; [vm_compute; reflexivity|]. split; [vm_compute; reflexivity|].
  split; vm_compute; reflexivity.
Qed.

(* ================================================================== *)
(** * [Inverse] applied twice *)

(** ** Lists *)

Lemma Forall2_map_eq {A B C} (f : A -> C) (g : B -> C) (l : list A) : forall (l' : list B),
  map f l = map g l' -> Forall2 (fun a b => f a = g b) l l'.
Proof.
  induction l as [|a l IH]; intros [|b l'] H; try discriminate; constructor.
  - now injection H.
  - apply IH. now injection H.
Qed.

Lemma Forall2_eq_map {A B C} (f : A -> C) (g : B -> C) (l : list A) (l' : list B) :
  Forall2 (fun a b => f a = g b) l l' -> map f l = map g l'.
Proof. induction 1; simpl; congruence. Qed.

Lemma Forall2_In_impl {A B} (P Q : A -> B -> Prop) (l : list A) (l' : list B) :
  (forall a b, In a l -> In b l' -> P a b -> Q a b) ->
  Forall2 P l l' -> Forall2 Q l l'.
Proof.
  intros H HP. induction HP as [|a b l l' Hab _ IH]; constructor.
  - apply H; [now left | now left | assumption].
  - apply IH. intros a' b' Ha Hb. apply H; now right.
Qed.

Lemma Forall2_map_left {A B C} (P : C -> B -> Prop) (f : A -> C) (l : list A) (l' : list B) :
  Forall2 (fun a b => P (f a) b) l l' -> Forall2 P (map f l) l'.
Proof. induction 1; simpl; constructor; assumption. Qed.

Lemma Forall2_map_right {A B C} (P : A -> C -> Prop) (f : B -> C) (l : list A) (l' : list B) :
  Forall2 (fun a b => P a (f b)) l l' -> Forall2 P l (map f l').
Proof. induction 1; simpl; constructor; assumption. Qed.

Lemma map_combine_ext {A B C} (f : A -> C) (g : B -> C) (l : list A) : forall (l' : list B),
  List.length l' = List.length l ->
  (forall a b, In (a, b) (combine l l') -> f a = g b) -> map f l = map g l'.
Proof.
  induction l as [|a l IH]; intros [|b l'] Hlen H; try discriminate; [reflexivity|].
  simpl. f_equal.
  - apply H. now left.
  - apply IH; [now injection Hlen|]. intros a' b' Hin. apply H. now right.
Qed.

Lemma map_IntImm_inj (l l' : list Z) : map IntImm l = map IntImm l' -> l = l'.
Proof.
  revert l'. induction l as [|a l IH]; intros [|b l'] H; try discriminate; [reflexivity|].
  injection H as Hab H. f_equal; [assumption | now apply IH].
Qed.

(** ** Points of a box *)

Lemma subst_env_combine env (xs : list Var) : forall (es : list PrimExpr),
  NoDup xs -> List.length es = List.length xs ->
  map (subst_env env (combine xs es)) xs = map (eval env) es.
Proof.
  induction xs as [|x xs IH]; intros [|e es] Hnd Hlen; try discriminate; [reflexivity|].
  inversion Hnd as [|? ? Hx Hnd']; subst. injection Hlen as Hlen. simpl. f_equal.
  - unfold subst_env. simpl. now rewrite Var_eqb_refl.
  - rewrite <- (IH es Hnd' Hlen). apply map_ext_in. intros y Hy.
    unfold subst_env. simpl. rewrite Var_eqb_neq; [reflexivity|].
    intros ->. contradiction.
Qed.

(** Distinct variables take any given values. *)
Lemma point_exists (xs : list Var) (p : list Z) :
  NoDup xs -> List.length p = List.length xs -> exists env, map env xs = p.
Proof.
  intros Hnd Hlen. exists (subst_env (fun _ => 0) (combine xs (map IntImm p))).
  rewrite subst_env_combine; [|assumption | now rewrite length_map].
  rewrite map_map. simpl. apply map_id.
Qed.

Lemma in_box_values env B :
  in_box env B <-> Forall2 (fun v n => 0 <= v < n) (map env (map fst B)) (map snd B).
Proof.
  unfold in_box. induction B as [|[x n] B IH]; simpl; split; intros H;
    try constructor; inversion H; subst; try assumption; now apply IH.
Qed.

Lemma box_extent_unique (B : Box) x n m :
  NoDup (map fst B) -> In (x, n) B -> In (x, m) B -> n = m.
Proof.
  induction B as [|[y k] B IH]; simpl; intros Hnd Hn Hm; [contradiction|].
  inversion Hnd as [|? ? Hy Hnd']; subst.
  destruct Hn as [Hn|Hn], Hm as [Hm|Hm].
  - congruence.
  - inversion Hn; subst. exfalso. apply Hy. apply in_map_iff. now exists (x, m).
  - inversion Hm; subst. exfalso. apply Hy. apply in_map_iff. now exists (x, n).
  - now apply IH.
Qed.

(** Every value of a variable of the box is taken at some point of it. *)
Lemma box_point_at B x n v :
  good_box B -> In (x, n) B -> 0 <= v < n -> exists env, in_box env B /\ env x = v.
Proof.
  intros [Hpos Hnd] Hin Hv. exists (update (fun _ => 0) x v).
  split; [|apply update_same].
  unfold in_box. rewrite Forall_forall in *. intros [y m] Hy. simpl.
  destruct (Var_eq_dec y x) as [->|Hne].
  - rewrite update_same. now rewrite (@box_extent_unique B x m n Hnd Hy Hin).
  - rewrite update_other by assumption. specialize (Hpos _ Hy). simpl in Hpos. lia.
Qed.

Lemma in_box_In env B x n : in_box env B -> In (x, n) B -> 0 <= env x < n.
Proof.
  intros H Hin. unfold in_box in H. rewrite Forall_forall in H. apply (H (x, n) Hin).
Qed.

(** ** Layouts over constant boxes *)

(** The layout [L] ranges over the zero-based box [B], and its output
    expressions mention the variables of the box only. *)
Record layout_over (L : LayoutNode) (B : Box) : Prop := {
  lo_vars : map binding (forward_var_ L) = box_analyzer B;
  lo_good : good_box B;
  lo_index : Forall (closed_box B) (forward_index_ L)
}.

Lemma layout_over_analyzer L B :
  layout_over L B -> LayoutNode_UpdateAnalyzer L [] = box_analyzer B.
Proof.
  intros H. unfold LayoutNode_UpdateAnalyzer. rewrite bind_itervars_eq.
  simpl. apply (lo_vars H).
Qed.

Lemma layout_over_keys L B : layout_over L B -> map var (forward_var_ L) = map fst B.
Proof.
  intros H. rewrite <- box_analyzer_vars, <- (lo_vars H), map_map. reflexivity.
Qed.

Lemma layout_over_InputDim L B : layout_over L B -> InputDim L = List.length B.
Proof.
  intros H. unfold InputDim.
  rewrite <- (length_map binding), (lo_vars H). unfold box_analyzer. apply length_map.
Qed.

Lemma layout_over_InputShape L B :
  layout_over L B -> InputShape L = map IntImm (map snd B).
Proof.
  intros H. unfold InputShape.
  replace (map (fun iv => extent (dom iv)) (forward_var_ L))
    with (map (fun b => extent (snd b)) (map binding (forward_var_ L)))
    by (rewrite map_map; reflexivity).
  rewrite (lo_vars H). unfold box_analyzer. rewrite !map_map. reflexivity.
Qed.

Lemma binding_combine (ivs : list IterVar) :
  map binding ivs = combine (map var ivs) (map dom ivs).
Proof. induction ivs as [|iv ivs IH]; simpl; [reflexivity | now rewrite IH]. Qed.

Lemma box_analyzer_combine (xs : list Var) : forall (Ts : list Z),
  box_analyzer (combine xs Ts)
  = combine xs (map (fun T => mkRange (IntImm 0) (IntImm T)) Ts).
Proof.
  induction xs as [|x xs IH]; intros [|T Ts]; simpl; try reflexivity.
  now rewrite IH.
Qed.

Lemma inverse_vars_NoDup i s n : NoDup (inverse_vars i s n).
Proof.
  unfold inverse_vars. apply Injective_map_NoDup; [|apply seq_NoDup].
  intros a b Hab. inversion Hab. lia.
Qed.

Lemma inverse_vars_length i s n : List.length (inverse_vars i s n) = n.
Proof. unfold inverse_vars. now rewrite length_map, length_seq. Qed.

Lemma free_vars_outputs (ivs : list IterVar) :
  flat_map free_vars (map (fun iv => EVar (var iv)) ivs) = map var ivs.
Proof. induction ivs as [|iv ivs IH]; simpl; [reflexivity | now rewrite IH]. Qed.

(** ** [Forward] at a point *)

Lemma forward_vmap_point rho (ivs : list IterVar) (vars : list PrimExpr) :
  NoDup (map var ivs) -> List.length vars = List.length ivs ->
  map (subst_env rho (forward_vmap ivs vars)) (map var ivs) = map (eval rho) vars.
Proof.
  intros Hnd Hlen. unfold forward_vmap.
  rewrite (fold_left_vmap_set (fun p : IterVar * PrimExpr => (var (fst p), snd p))).
  rewrite app_nil_r, map_map.
  apply map_combine_ext; [assumption|]. intros iv v Hin.
  unfold subst_env. rewrite (@vmap_find_In _ (var iv) v); [reflexivity | |].
  - rewrite map_rev, map_map. apply NoDup_rev.
    replace (map (fun p : IterVar * PrimExpr => fst (var (fst p), snd p)) (combine ivs vars))
      with (map var (map fst (combine ivs vars))) by (rewrite map_map; reflexivity).
    now rewrite map_fst_combine.
  - apply in_rev. rewrite rev_involutive.
    apply in_map_iff. exists (iv, v). split; [reflexivity | assumption].
Qed.

Lemma Forward_eval L B rho vars :
  layout_over L B -> List.length vars = List.length B ->
  exists out env,
    Forward L vars = Ok out /\
    map env (map fst B) = map (eval rho) vars /\
    map (eval rho) out = map (eval env) (forward_index_ L).
Proof.
  intros H Hlen. destruct vars as [|v vars].
  - destruct B; [|discriminate]. exists (forward_index_ L), rho. repeat split.
  - exists (map (fun e => Substitute e (forward_vmap (forward_var_ L) (v :: vars)))
                (forward_index_ L)),
           (subst_env rho (forward_vmap (forward_var_ L) (v :: vars))).
    split; [|split].
    + unfold Forward. rewrite (layout_over_InputDim H), Hlen, Nat.eqb_refl. reflexivity.
    + rewrite <- (layout_over_keys H). apply forward_vmap_point.
      * rewrite (layout_over_keys H). apply (lo_good H).
      * rewrite Hlen, <- (layout_over_InputDim H). reflexivity.
    + rewrite map_map. apply map_ext. intros e. apply eval_Substitute.
Qed.

(** ** One inversion *)

(** The output expression [Inverse] builds for an input variable, before the
    constructor simplifies it. *)
Definition backward (inv : VMap) (iv : IterVar) : PrimExpr :=
  match vmap_find inv (var iv) with
  | Some e => e
  | None => IntImm 0
  end.

Lemma extents_values B index Ts env :
  Forall2 (extent_is B) index Ts -> in_box env B ->
  Forall2 (fun v T => 0 <= v < T) (map (eval env) index) Ts.
Proof.
  intros H He. induction H as [|e T index Ts (Hb & _) _ IH]; simpl; constructor.
  - now apply Hb.
  - assumption.
Qed.

Lemma extents_pos B index Ts :
  Forall2 (extent_is B) index Ts -> Forall (fun T => 0 < T) Ts.
Proof.
  induction 1 as [|e T index Ts He _ IH]; constructor; [|assumption].
  apply (extent_is_pos He).
Qed.

(** The inverse of an inverse: where the outputs [gs] over [B1] give the
    point of [B] back from its image under [fs], and every point of [B1] is
    such an image, each of [gs] has the extent of its variable of [B]. *)
Lemma inverse_extents B B1 (fs gs : list PrimExpr) :
  good_box B ->
  (forall env, in_box env B ->
     exists env1, in_box env1 B1 /\ map env1 (map fst B1) = map (eval env) fs) ->
  Forall2 (fun g b => forall env env1,
             in_box env B -> map env1 (map fst B1) = map (eval env) fs ->
             eval env1 g = env (fst b)) gs B ->
  (forall env1, in_box env1 B1 ->
     exists env, in_box env B /\ map (eval env) fs = map env1 (map fst B1)) ->
  Forall2 (extent_is B1) gs (map snd B).
Proof.
  intros Hgood Himg Hinv Honto. apply Forall2_map_right.
  apply (Forall2_In_impl (P := fun g b => forall env env1,
             in_box env B -> map env1 (map fst B1) = map (eval env) fs ->
             eval env1 g = env (fst b))); [|assumption].
  intros g [x n] _ Hb Hg. simpl in *. split; [|split].
  - intros env1 He1. destruct (Honto env1 He1) as (env & He & Hval).
    rewrite (Hg env env1 He (eq_sym Hval)). apply (@in_box_In env B x n He Hb).
  - assert (Hn : 0 < n).
    { destruct Hgood as [Hpos _]. rewrite Forall_forall in Hpos. apply (Hpos (x, n) Hb). }
    destruct (@box_point_at B x n 0 Hgood Hb) as (env & He & Hx); [lia|].
    destruct (Himg env He) as (env1 & He1 & Hval).
    exists env1. split; [assumption|]. now rewrite (Hg env env1 He Hval).
  - assert (Hn : 0 < n).
    { destruct Hgood as [Hpos _]. rewrite Forall_forall in Hpos. apply (Hpos (x, n) Hb). }
    destruct (@box_point_at B x n (n - 1) Hgood Hb) as (env & He & Hx); [lia|].
    destruct (Himg env He) as (env1 & He1 & Hval).
    exists env1. split; [assumption|]. now rewrite (Hg env env1 He Hval).
Qed.

Section InverseOnBoxes.
Variable E : Engine.
Context {HE : EngineLaws E} {HI : IterMapLaws E}.

Lemma int_set_of_extent B e T :
  good_box B -> closed_box B e -> extent_is B e T ->
  int_set E (box_analyzer B) e = mkIntSet (IntImm 0) (IntImm (T - 1)).
Proof.
  intros Hgood Hcl (Hb & (e0 & He0 & Hv0) & (e1 & He1 & Hv1)).
  assert (Hc : vars_in (map fst (box_analyzer B)) e) by (now rewrite box_analyzer_vars).
  destruct (int_set_tight (good_box_const Hgood) Hc)
    as (lo & hi & Hset & Hbound & (a0 & Ha0 & Hl) & (a1 & Ha1 & Hh)).
  pose proof (Hbound e0 (proj2 (models_box_analyzer e0 B) He0)).
  pose proof (Hbound e1 (proj2 (models_box_analyzer e1 B) He1)).
  apply models_box_analyzer in Ha0, Ha1.
  pose proof (Hb _ Ha0). pose proof (Hb _ Ha1).
  rewrite Hset. f_equal; f_equal; lia.
Qed.

Lemma bounds_of_extents B index Ts : forall q,
  good_box B -> Forall (closed_box B) index ->
  Forall2 (extent_is B) index Ts ->
  Forall2 (fun v T => 0 <= v < T) q Ts ->
  Forall2 (fun e v => exists lo hi,
             int_set E (box_analyzer B) e = mkIntSet (IntImm lo) (IntImm hi) /\
             lo <= v <= hi) index q.
Proof.
  intros q Hgood Hcl Hext. revert q.
  induction Hext as [|e T index Ts He _ IH]; intros q Hq;
    inversion Hq; subst; constructor; inversion Hcl; subst.
  - exists 0, (T - 1). split; [now apply int_set_of_extent | lia].
  - now apply IH.
Qed.

Lemma Layout_ctor_over ivs index B1 :
  map binding ivs = box_analyzer B1 ->
  Layout_ctor E ivs index = mkLayout ivs (map (Simplify E (box_analyzer B1)) index).
Proof.
  intros H. unfold Layout_ctor, LayoutNode_UpdateAnalyzer. simpl.
  rewrite bind_itervars_eq. simpl. now rewrite H.
Qed.

Lemma Inverse_run L s shape ivs s' :
  errors (DetectIterMap E (forward_index_ L) (map binding (forward_var_ L))) = [] ->
  LayoutNode_OutputShape E L = Ok shape ->
  make_inverse_iter_vars 0 shape s = Ok (ivs, s') ->
  LayoutNode_Inverse E L s =
  Ok (Layout_ctor E ivs
        (map (backward
                (InverseAffineIterMap E
                   (indices (DetectIterMap E (forward_index_ L)
                                           (map binding (forward_var_ L))))
                   (map (fun iv => EVar (var iv)) ivs)))
             (forward_var_ L)), s').
Proof.
  intros Hdet Hshape Hrun. unfold LayoutNode_Inverse.
  change (map (fun iv => (var iv, dom iv)) (forward_var_ L))
    with (map binding (forward_var_ L)).
  rewrite Hdet. unfold bind, lift, ret. rewrite Hshape, Hrun. reflexivity.
Qed.

(** [Inverse] on a layout over a box [B]: the inverse is a layout over the
    box [B1] of the new variables, with the extents of the outputs; at the
    image of a point of [B] its outputs give the point back, and every point
    of [B1] is such an image. *)
Lemma Inverse_over L B s shape :
  layout_over L B ->
  errors (DetectIterMap E (forward_index_ L) (map binding (forward_var_ L))) = [] ->
  LayoutNode_OutputShape E L = Ok shape ->
  exists Ts L1 B1,
    shape = map IntImm Ts /\
    B1 = combine (inverse_vars 0 s (OutputDim L)) Ts /\
    List.length B1 = OutputDim L /\
    map snd B1 = Ts /\
    LayoutNode_Inverse E L s = Ok (L1, (s + OutputDim L)%nat) /\
    layout_over L1 B1 /\
    (forall env, in_box env B ->
       exists env1, in_box env1 B1 /\
                    map env1 (map fst B1) = map (eval env) (forward_index_ L)) /\
    Forall2 (fun g b => forall env env1,
               in_box env B ->
               map env1 (map fst B1) = map (eval env) (forward_index_ L) ->
               eval env1 g = env (fst b))
            (forward_index_ L1) B /\
    (forall env1, in_box env1 B1 ->
       exists env, in_box env B /\
                   map (eval env) (forward_index_ L) = map env1 (map fst B1)).
Proof.
  intros H Hdet Hshape.
  pose proof Hshape as Hshape'. unfold LayoutNode_OutputShape in Hshape'.
  rewrite (layout_over_analyzer H) in Hshape'.
  destruct (OutputShape_loop_inv (E := E) (lo_good H) (lo_index H) Hshape')
    as (Ts & -> & Hext).
  pose proof (Forall2_length Hext) as HlenT. fold (OutputDim L) in HlenT.
  destruct (make_inverse_iter_vars_spec (map IntImm Ts) 0 s) as (ivs & Hrun & Hdom & Hvar).
  rewrite length_map, <- HlenT in Hrun, Hvar.
  set (vs := inverse_vars 0 s (OutputDim L)) in *.
  set (B1 := combine vs Ts).
  assert (HlenV : List.length Ts = List.length vs).
  { unfold vs. rewrite inverse_vars_length. symmetry. exact HlenT. }
  assert (Hkeys1 : map fst B1 = vs) by (apply map_fst_combine; exact HlenV).
  assert (Hext1 : map snd B1 = Ts) by (apply map_snd_combine; exact HlenV).
  assert (Hbind : map binding ivs = box_analyzer B1).
  { rewrite binding_combine, Hvar, Hdom, map_map. unfold B1.
    now rewrite box_analyzer_combine. }
  assert (Hgood1 : good_box B1).
  { split.
    - apply Forall_forall. intros [x T] Hin. simpl. apply in_combine_r in Hin.
      pose proof (extents_pos Hext) as Hpos. rewrite Forall_forall in Hpos.
      now apply Hpos.
    - rewrite Hkeys1. apply inverse_vars_NoDup. }
  set (iters := map binding (forward_var_ L)) in *.
  set (outputs := map (fun iv => EVar (var iv)) ivs).
  set (inv := InverseAffineIterMap E (indices (DetectIterMap E (forward_index_ L) iters))
                                   outputs).
  assert (Hmod : forall env, in_box env B -> models env iters).
  { intros env He. unfold iters. rewrite (lo_vars H). now apply models_box_analyzer. }
  assert (Himg : forall env, in_box env B ->
            exists env1, in_box env1 B1 /\
                         map env1 (map fst B1) = map (eval env) (forward_index_ L)).
  { intros env He.
    destruct (@point_exists vs (map (eval env) (forward_index_ L))) as (env1 & Hpt).
    - apply inverse_vars_NoDup.
    - rewrite length_map. unfold vs. now rewrite inverse_vars_length.
    - exists env1. rewrite Hkeys1. split; [|exact Hpt].
      apply in_box_values. rewrite Hkeys1, Hext1, Hpt. now apply (extents_values Hext). }
  exists Ts, (Layout_ctor E ivs (map (backward inv) (forward_var_ L))), B1.
  rewrite (@Layout_ctor_over ivs _ B1 Hbind).
  split; [reflexivity|]. split; [reflexivity|].
  split; [rewrite <- (length_map fst), Hkeys1; apply inverse_vars_length|].
  split; [exact Hext1|].
  split; [rewrite <- (@Layout_ctor_over ivs _ B1 Hbind);
          now apply (@Inverse_run L s (map IntImm Ts))|].
  split; [|split; [exact Himg|split]].
  - split; [exact Hbind | exact Hgood1 |]. simpl.
    apply Forall_map, Forall_map, Forall_forall. intros iv Hiv.
    apply (@closed_box_Simplify E HE). unfold backward.
    destruct (vmap_find inv (var iv)) as [e|] eqn:Hf; [|apply vars_in_const].
    unfold closed_box, vars_in. rewrite Hkeys1, <- Hvar, <- free_vars_outputs.
    eapply InverseAffineIterMap_vars. exact Hf.
  - simpl. rewrite map_map. apply Forall2_map_left.
    apply (Forall2_In_impl (P := fun iv b => binding iv = box_range b));
      [|apply Forall2_map_eq; apply (lo_vars H)].
    intros iv [x n] Hiv Hb Hbnd env env1 He Hpt. simpl.
    unfold binding, box_range in Hbnd. simpl in Hbnd. injection Hbnd as Hx Hd.
    assert (He1 : in_box env1 B1).
    { apply in_box_values. rewrite Hext1, Hpt. now apply (extents_values Hext). }
    rewrite (Simplify_box (E := E) _ He1). unfold backward.
    assert (Hout : map (eval env1) outputs = map (eval env) (forward_index_ L)).
    { unfold outputs. rewrite map_map. simpl. rewrite <- Hpt, Hkeys1, <- Hvar, map_map.
      reflexivity. }
    destruct (vmap_find inv (var iv)) as [e|] eqn:Hf.
    + rewrite <- Hx.
      apply (@InverseAffineIterMap_sound E HI (forward_index_ L) iters outputs
               (var iv) e env env1 Hdet Hf (Hmod env He) Hout).
    + assert (Hlen : List.length outputs = List.length (forward_index_ L)).
      { unfold outputs. rewrite length_map, <- (length_map var), Hvar.
        unfold vs. rewrite inverse_vars_length. reflexivity. }
      assert (Hin : In (var iv, dom iv) iters).
      { unfold iters. apply (in_map binding _ _ Hiv). }
      pose proof (@InverseAffineIterMap_lost E HI (forward_index_ L) iters outputs
                    (var iv) (dom iv) env Hdet Hlen Hin Hf (Hmod env He)) as Hl.
      rewrite Hd in Hl. simpl in Hl. simpl. congruence.
  - intros env1 He1. apply in_box_values in He1. rewrite Hext1 in He1.
    destruct (@DetectIterMap_onto E HI (forward_index_ L) iters
                (map env1 (map fst B1))) as (env & Hm & Hval).
    + unfold iters. rewrite (lo_vars H). apply good_box_const, (lo_good H).
    + unfold iters. rewrite (lo_vars H), box_analyzer_vars. apply (lo_index H).
    + exact Hdet.
    + unfold iters. rewrite (lo_vars H).
      apply (bounds_of_extents (lo_good H) (lo_index H) Hext He1).
    + exists env. split; [|exact Hval].
      apply models_box_analyzer. rewrite <- (lo_vars H). exact Hm.
Qed.

End InverseOnBoxes.


(** ** The round trip *)

(** What [Inverse] takes, for each variable of the box [B], from the inverse
    the engine computed for the map [index] over [B]: the expression of the
    variable over the variables of [B1], or the constant 0 for a variable
    the inverse leaves out. *)
Definition raw_inverse_index (E : Engine) (index : list PrimExpr) (B B1 : Box)
  : list PrimExpr :=
  let res := DetectIterMap E index (box_analyzer B) in
  let inv := InverseAffineIterMap E (indices res) (map (fun b => EVar (fst b)) B1) in
  map (fun b => match vmap_find inv (fst b) with
                | Some e => e
                | None => IntImm 0
                end) B.

(** The output expressions of the inverse layout: the constructor
    simplifies them under the domains of [B1]. *)
Definition inverse_index (E : Engine) (index : list PrimExpr) (B B1 : Box)
  : list PrimExpr :=
  map (Simplify E (box_analyzer B1)) (raw_inverse_index E index B B1).

(** The expressions [index] over the box [B], simplified under its domains
    and read at the arguments [zs] in place of its variables. *)
Definition simplified_at (E : Engine) (B : Box) (zs index : list PrimExpr)
  : list PrimExpr :=
  map (fun e => Substitute (Simplify E (box_analyzer B) e) (combine (map fst B) zs))
      index.

(** Modelled from the spec: what the round trip of section 8 and the
    equality of section 4.2 presume of the engine, whose code is outside
    these sources.  The detector decides whether a map is bijective affine:
    it accepts the inverse the engine computed for a map it accepted, once
    simplified over the domains of the outputs.  The equality of section 4.2
    compares simplified expressions structurally and is meant semantically:
    on the maps the detector accepts, simplification yields normal forms, so
    that two maps which take the same values, position by position, over
    domains of the same extents are simplified to the same expressions up to
    the names of their variables. *)
Class NormalFormLaws (E : Engine) : Prop := {
  DetectIterMap_inverse :
    forall (B B1 : Box) (index : list PrimExpr),
      good_box B -> good_box B1 -> Forall (closed_box B) index ->
      errors (DetectIterMap E index (box_analyzer B)) = [] ->
      Forall2 (extent_is B) index (map snd B1) ->
      errors (DetectIterMap E (inverse_index E index B B1) (box_analyzer B1)) = [];
  Simplify_normal :
    forall (B B' : Box) (index index' zs : list PrimExpr),
      good_box B -> good_box B' -> map snd B' = map snd B ->
      Forall (closed_box B) index -> Forall (closed_box B') index' ->
      errors (DetectIterMap E (map (Simplify E (box_analyzer B)) index)
                            (box_analyzer B)) = [] ->
      errors (DetectIterMap E (map (Simplify E (box_analyzer B')) index')
                            (box_analyzer B')) = [] ->
      (forall env env',
          in_box env B -> map env' (map fst B') = map env (map fst B) ->
          map (eval env') index' = map (eval env) index) ->
      List.length zs = List.length B ->
      simplified_at E B' zs index' = simplified_at E B zs index
}.

Lemma Substitute_nil e : Substitute e [] = e.
Proof. induction e; simpl; congruence. Qed.

(** A substitution is read through [vmap_find] only. *)
Lemma Substitute_ext e (m m' : VMap) :
  (forall x, vmap_find m x = vmap_find m' x) -> Substitute e m = Substitute e m'.
Proof. intros H. induction e; simpl; try congruence. now rewrite H. Qed.

Lemma vmap_find_rev (m : VMap) x :
  NoDup (map fst m) -> vmap_find (rev m) x = vmap_find m x.
Proof.
  intros Hnd. destruct (vmap_find m x) as [e|] eqn:Hf.
  - apply vmap_find_In.
    + rewrite map_rev. now apply NoDup_rev.
    + apply -> in_rev. now apply vmap_find_Some.
  - apply vmap_find_notin. rewrite map_rev, <- in_rev. intros Hin.
    apply in_map_iff in Hin. destruct Hin as ([y t] & Hy & Hin). simpl in Hy. subst y.
    rewrite (@vmap_find_In m x t Hnd Hin) in Hf. discriminate.
Qed.

(** The substitution of [Forward] binds each input variable to its
    argument. *)
Lemma forward_vmap_find (ivs : list IterVar) (vars : list PrimExpr) x :
  NoDup (map var ivs) -> List.length vars = List.length ivs ->
  vmap_find (forward_vmap ivs vars) x = vmap_find (combine (map var ivs) vars) x.
Proof.
  intros Hnd Hlen. unfold forward_vmap.
  rewrite (fold_left_vmap_set (fun p : IterVar * PrimExpr => (var (fst p), snd p))).
  rewrite app_nil_r.
  assert (Heq : map (fun p : IterVar * PrimExpr => (var (fst p), snd p)) (combine ivs vars)
                = combine (map var ivs) vars).
  { clear Hnd. revert vars Hlen.
    induction ivs as [|iv ivs IH]; intros [|v vars] Hlen; try discriminate;
      [reflexivity|].
    simpl. f_equal. apply IH. now injection Hlen. }
  rewrite Heq. apply vmap_find_rev.
  rewrite map_fst_combine; [assumption | now rewrite length_map].
Qed.

Section RoundTrip.
Variable E : Engine.
Context {HE : EngineLaws E} {HI : IterMapLaws E} {HN : NormalFormLaws E}.

(** The layout [Inverse] returns, with its output expressions as the
    constructor leaves them. *)
Lemma Inverse_form L B s shape :
  layout_over L B ->
  errors (DetectIterMap E (forward_index_ L) (map binding (forward_var_ L))) = [] ->
  LayoutNode_OutputShape E L = Ok shape ->
  exists Ts L1 B1,
    shape = map IntImm Ts /\
    B1 = combine (inverse_vars 0 s (OutputDim L)) Ts /\
    map snd B1 = Ts /\
    good_box B1 /\
    Forall2 (extent_is B) (forward_index_ L) Ts /\
    LayoutNode_Inverse E L s = Ok (L1, (s + OutputDim L)%nat) /\
    map binding (forward_var_ L1) = box_analyzer B1 /\
    forward_index_ L1 = inverse_index E (forward_index_ L) B B1 /\
    Forall (closed_box B1) (raw_inverse_index E (forward_index_ L) B B1).
Proof.
  intros H Hdet Hshape.
  pose proof Hshape as Hshape'. unfold LayoutNode_OutputShape in Hshape'.
  rewrite (layout_over_analyzer H) in Hshape'.
  destruct (OutputShape_loop_inv (E := E) (lo_good H) (lo_index H) Hshape')
    as (Ts & -> & Hext).
  pose proof (Forall2_length Hext) as HlenT. fold (OutputDim L) in HlenT.
  destruct (make_inverse_iter_vars_spec (map IntImm Ts) 0 s) as (ivs & Hrun & Hdom & Hvar).
  rewrite length_map, <- HlenT in Hrun, Hvar.
  set (vs := inverse_vars 0 s (OutputDim L)) in *.
  set (B1 := combine vs Ts).
  assert (HlenV : List.length Ts = List.length vs).
  { unfold vs. rewrite inverse_vars_length. symmetry. exact HlenT. }
  assert (Hkeys1 : map fst B1 = vs) by (apply map_fst_combine; exact HlenV).
  assert (Hext1 : map snd B1 = Ts) by (apply map_snd_combine; exact HlenV).
  assert (Hbind : map binding ivs = box_analyzer B1).
  { rewrite binding_combine, Hvar, Hdom, map_map. unfold B1.
    now rewrite box_analyzer_combine. }
  assert (Hgood1 : good_box B1).
  { split.
    - apply Forall_forall. intros [x T] Hin. simpl. apply in_combine_r in Hin.
      pose proof (extents_pos Hext) as Hpos. rewrite Forall_forall in Hpos.
      now apply Hpos.
    - rewrite Hkeys1. apply inverse_vars_NoDup. }
  assert (Houts : map (fun iv => EVar (var iv)) ivs = map (fun b => EVar (fst b)) B1).
  { rewrite <- (map_map var EVar), Hvar, <- Hkeys1, map_map. reflexivity. }
  assert (Hraw : map (backward
                        (InverseAffineIterMap E
                           (indices (DetectIterMap E (forward_index_ L)
                                                   (map binding (forward_var_ L))))
                           (map (fun iv => EVar (var iv)) ivs)))
                     (forward_var_ L)
                 = raw_inverse_index E (forward_index_ L) B B1).
  { unfold raw_inverse_index. rewrite Houts, (lo_vars H).
    rewrite <- (map_map fst (fun x => match vmap_find _ x with
                                      | Some e => e | None => IntImm 0 end) B).
    rewrite <- (layout_over_keys H), map_map. reflexivity. }
  exists Ts, (Layout_ctor E ivs (raw_inverse_index E (forward_index_ L) B B1)), B1.
  split; [reflexivity|]. split; [reflexivity|]. split; [exact Hext1|].
  split; [exact Hgood1|]. split; [exact Hext|].
  split; [rewrite <- Hraw; now apply (@Inverse_run E L s (map IntImm Ts))|].
  rewrite (@Layout_ctor_over E ivs _ B1 Hbind). cbn [forward_var_ forward_index_].
  split; [exact Hbind|]. split; [reflexivity|].
  unfold raw_inverse_index. apply Forall_map, Forall_forall. intros b _.
  destruct (vmap_find _ (fst b)) as [e|] eqn:Hf; [|apply vars_in_const].
  unfold closed_box, vars_in. intros x Hx.
  apply (InverseAffineIterMap_vars _ _ _ _ Hf) in Hx.
  apply in_flat_map in Hx. destruct Hx as (o & Ho & Hx).
  apply in_map_iff in Ho. destruct Ho as (b1 & <- & Hb1).
  simpl in Hx. destruct Hx as [<-|[]]. now apply in_map.
Qed.

(** [Inverse], with what is known of the layout it returns on the boxes and
    the expressions the layout is made of. *)
Lemma Inverse_both L B s shape :
  layout_over L B ->
  errors (DetectIterMap E (forward_index_ L) (map binding (forward_var_ L))) = [] ->
  LayoutNode_OutputShape E L = Ok shape ->
  exists L1 B1,
    shape = map IntImm (map snd B1) /\
    List.length B1 = OutputDim L /\
    LayoutNode_Inverse E L s = Ok (L1, (s + OutputDim L)%nat) /\
    layout_over L1 B1 /\
    Forall2 (extent_is B) (forward_index_ L) (map snd B1) /\
    forward_index_ L1 = inverse_index E (forward_index_ L) B B1 /\
    Forall (closed_box B1) (raw_inverse_index E (forward_index_ L) B B1) /\
    (forall env, in_box env B ->
       exists env1, in_box env1 B1 /\
                    map env1 (map fst B1) = map (eval env) (forward_index_ L)) /\
    Forall2 (fun g b => forall env env1,
               in_box env B ->
               map env1 (map fst B1) = map (eval env) (forward_index_ L) ->
               eval env1 g = env (fst b))
            (forward_index_ L1) B /\
    (forall env1, in_box env1 B1 ->
       exists env, in_box env B /\
                   map (eval env) (forward_index_ L) = map env1 (map fst B1)).
Proof.
  intros H Hdet Hshape.
  destruct (@Inverse_over E HE HI L B s shape H Hdet Hshape)
    as (Ts & L1 & B1 & HTs & HB1 & Hlen1 & Hext1 & Hrun & Hover1 & Himg & Hinv & Honto).
  destruct (Inverse_form s H Hdet Hshape)
    as (Ts' & L1' & B1' & HTs' & HB1' & Hext1' & _ & Hext & Hrun' & _ & Hidx & Hraw).
  rewrite HTs in HTs'. apply map_IntImm_inj in HTs'. subst Ts'.
  rewrite <- HB1 in HB1'. subst B1'.
  rewrite Hrun in Hrun'. injection Hrun' as <-.
  exists L1, B1. rewrite Hext1.
  repeat (split; [assumption|]). assumption.
Qed.

End RoundTrip.


(* ================================================================== *)
(** * A normalising reference engine

    A second executable engine, which meets the contract of the round
    trip as well.  Its simplifier reads an expression on every point of the
    constant domains bound in the analyzer: an expression that takes one
    value there becomes that constant, one that is a bound variable plus a
    constant on every point becomes that variable plus that constant, and
    any other is constant-folded.  Its detector accepts the maps whose
    outputs are such normal forms: constants, and distinct iterators with
    unit stride, shifted.  Bounds are inferred as in the first engine. *)

Module NormEngine.

(** Every point of the ranges, as the list of its coordinates. *)
Fixpoint cells (rs : list (Z * Z)) : list (list Z) :=
  match rs with
  | [] => [[]]
  | (lo, n) :: rs' =>
      flat_map (fun v => map (cons v) (cells rs')) (RefEngine.points lo n)
  end.

(** The environment in which the variables [xs] have the coordinates [p]. *)
Definition at_point (xs : list Var) (p : list Z) : Env :=
  subst_env (fun _ => 0) (combine xs (map IntImm p)).

(** The value of [e] at every point. *)
Definition graph (xs : list Var) (rs : list (Z * Z)) (e : PrimExpr)
  : list (list Z * Z) :=
  map (fun p => (p, eval (at_point xs p) e)) (cells rs).

(** The normal forms: a constant, or the variable at a position plus a
    constant. *)
Inductive Shape : Type :=
| Const (c : Z)
| Shift (i : nat) (c : Z).

Definition is_const (g : list (list Z * Z)) : option Z :=
  match g with
  | [] => None
  | (_, c) :: _ => if forallb (fun pv => Z.eqb (snd pv) c) g then Some c else None
  end.

Definition is_shift (i : nat) (g : list (list Z * Z)) : option Z :=
  match g with
  | [] => None
  | (p, v) :: _ =>
      let c := v - nth i p 0 in
      if forallb (fun pv => Z.eqb (snd pv) (nth i (fst pv) 0 + c)) g
      then Some c else None
  end.

Fixpoint first_shift (positions : list nat) (g : list (list Z * Z)) : option Shape :=
  match positions with
  | [] => None
  | i :: rest =>
      match is_shift i g with
      | Some c => Some (Shift i c)
      | None => first_shift rest g
      end
  end.

Definition classify (n : nat) (g : list (list Z * Z)) : option Shape :=
  match is_const g with
  | Some c => Some (Const c)
  | None => first_shift (seq 0 n) g
  end.

Definition normal_form (zs : list PrimExpr) (sh : Shape) : PrimExpr :=
  match sh with
  | Const c => IntImm c
  | Shift i c =>
      let z := nth i zs (IntImm 0) in
      if Z.eqb c 0 then z else Add z (IntImm c)
  end.

(** Every variable of [e] is one of [xs]. *)
Definition closedb (xs : list Var) (e : PrimExpr) : bool :=
  forallb (fun x => RefEngine.mem_var x xs) (free_vars e).

Definition normalize (A : Analyzer) (e : PrimExpr) : PrimExpr :=
  match RefEngine.const_box A with
  | Some box =>
      let xs := map fst box in
      let rs := map snd box in
      if closedb xs e then
        match classify (List.length xs) (graph xs rs e) with
        | Some sh => normal_form (map EVar xs) sh
        | None => RefEngine.fold_constants e
        end
      else RefEngine.fold_constants e
  | None => RefEngine.fold_constants e
  end.

(** An output of a detected map reads [source + offset], or the constant
    [offset] when it has no source. *)
Record Term : Type := mkTerm { term_source : option Var; term_offset : Z }.

Definition as_term (e : PrimExpr) : option Term :=
  match e with
  | IntImm c => Some (mkTerm None c)
  | EVar x => Some (mkTerm (Some x) 0)
  | Add (EVar x) (IntImm c) => Some (mkTerm (Some x) c)
  | _ => None
  end.

Fixpoint as_terms (index : list PrimExpr) : option (list Term) :=
  match index with
  | [] => Some []
  | e :: rest =>
      match as_term e, as_terms rest with
      | Some t, Some ts => Some (t :: ts)
      | _, _ => None
      end
  end.

Definition source_list (t : Term) : list Var :=
  match term_source t with Some x => [x] | None => [] end.

Definition sources (ts : list Term) : list Var := flat_map source_list ts.

(** A bijection uses no iterator twice and every iterator of more than one
    value. *)
Definition detect_terms (index : list PrimExpr) (input_iters : list (Var * Range))
  : IterMapResult Term :=
  match as_terms index with
  | Some ts =>
      let xs := sources ts in
      if (RefEngine.distinct xs
          && forallb (fun x => RefEngine.mem_var x (map fst input_iters)) xs
          && forallb (fun b => RefEngine.mem_var (fst b) xs || is_one (extent (snd b)))
                     input_iters)%bool
      then mkIterMapResult ts []
      else mkIterMapResult [] ["the map is not a bijection of its iterators"%string]
  | None => mkIterMapResult [] ["an index is not a shifted iterator"%string]
  end.

Definition inverse_entry (p : Term * PrimExpr) : list (Var * PrimExpr) :=
  match term_source (fst p) with
  | Some x => [(x, op_sub (snd p) (IntImm (term_offset (fst p))))]
  | None => []
  end.

Definition invert_terms (ts : list Term) (outputs : list PrimExpr) : VMap :=
  flat_map inverse_entry (combine ts outputs).

Definition norm_engine : Engine :=
  mkEngine normalize RefEngine.int_set detect_terms invert_terms
           RefEngine.infer_fragment_index.

End NormEngine.

Module NormEngineFacts.
Import NormEngine.

(** ** Points *)

Lemma In_cells rs : forall p,
  In p (cells rs) <-> Forall2 (fun v r => fst r <= v < fst r + snd r) p rs.
Proof.
  induction rs as [|[lo n] rs IH]; intros p; cbn [cells].
  - split.
    + intros [<-|[]]. constructor.
    + intros H. inversion H. now left.
  - rewrite in_flat_map. split.
    + intros (v & Hv & Hin). apply in_map_iff in Hin. destruct Hin as (q & <- & Hq).
      apply RefEngineFacts.In_points in Hv. constructor; [exact Hv | now apply IH].
    + intros H. inversion H as [|v r q rs' Hv Hq]; subst. exists v. split.
      * now apply RefEngineFacts.In_points.
      * apply in_map. now apply IH.
Qed.

Lemma cells_nonempty rs : Forall (fun r => 0 < snd r) rs -> cells rs <> [].
Proof.
  induction rs as [|[lo n] rs IH]; cbn [cells]; intros H; [discriminate|].
  inversion H as [|? ? Hn Hrest]; subst. cbn [snd] in Hn.
  specialize (IH Hrest). destruct (cells rs) as [|q qs]; [congruence|].
  unfold RefEngine.points. destruct (Z.to_nat n) eqn:Hk; [lia|]. discriminate.
Qed.

Lemma at_point_values xs env x :
  In x xs -> at_point xs (map env xs) x = env x.
Proof.
  unfold at_point, subst_env. induction xs as [|y xs IH]; [contradiction|].
  intros Hin. cbn [map combine vmap_find].
  destruct (Var_eqb_spec x y) as [->|Hne]; [reflexivity|].
  apply IH. destruct Hin as [Heq|Hin]; [congruence | exact Hin].
Qed.

Lemma at_point_coordinates xs p :
  NoDup xs -> List.length p = List.length xs -> map (at_point xs p) xs = p.
Proof.
  intros Hnd Hlen. unfold at_point.
  rewrite subst_env_combine; [|assumption | now rewrite length_map].
  rewrite map_map. cbn [eval]. apply map_id.
Qed.

(** The point [p] with its coordinate [i] set to [v]. *)
Fixpoint set_nth (i : nat) (v : Z) (p : list Z) {struct p} : list Z :=
  match p with
  | [] => []
  | a :: p' =>
      match i with
      | O => v :: p'
      | S i' => a :: set_nth i' v p'
      end
  end.

Lemma nth_set_nth i v : forall p, (i < List.length p)%nat -> nth i (set_nth i v p) 0 = v.
Proof.
  induction i as [|i IH]; intros [|a p] Hlt; cbn [List.length] in Hlt; try lia.
  - reflexivity.
  - cbn [set_nth nth]. apply IH. lia.
Qed.

Lemma cells_set_nth rs : forall i p q,
  In p (cells rs) -> In q (cells rs) -> In (set_nth i (nth i q 0) p) (cells rs).
Proof.
  intros i p q Hp Hq. apply In_cells in Hp, Hq. apply In_cells.
  revert i q Hq. induction Hp as [|a r p rs Ha Hp IH]; intros i q Hq.
  - constructor.
  - inversion Hq as [|b ? q' ? Hb Hq']; subst. destruct i as [|i]; cbn [set_nth nth].
    + constructor; assumption.
    + constructor; [assumption | now apply IH].
Qed.

Lemma at_point_set_nth d xs : forall i v p y,
  y <> nth i xs d -> at_point xs (set_nth i v p) y = at_point xs p y.
Proof.
  unfold at_point, subst_env.
  induction xs as [|x xs IH]; intros i v p y Hy; [reflexivity|].
  destruct p as [|a p]; [reflexivity|].
  destruct i as [|i]; cbn [set_nth map combine vmap_find nth] in *.
  - now rewrite (Var_eqb_neq Hy).
  - destruct (Var_eqb_spec y x); [reflexivity|]. now apply IH.
Qed.

(** ** The graph of an expression *)

Lemma graph_In xs rs e p :
  In p (cells rs) -> In (p, eval (at_point xs p) e) (graph xs rs e).
Proof. intros H. unfold graph. now apply (in_map (fun p => (p, eval (at_point xs p) e))). Qed.

Lemma In_graph xs rs e p v :
  In (p, v) (graph xs rs e) -> In p (cells rs) /\ v = eval (at_point xs p) e.
Proof.
  unfold graph. intros H. apply in_map_iff in H. destruct H as (q & Heq & Hq).
  inversion Heq; subst. now split.
Qed.

Lemma is_const_spec g c :
  is_const g = Some c -> forall pv, In pv g -> snd pv = c.
Proof.
  unfold is_const. destruct g as [|[p0 c0] g]; [discriminate|].
  destruct (forallb _ _) eqn:Hall; [|discriminate]. intros Heq. inversion Heq; subst.
  intros pv Hin. rewrite forallb_forall in Hall. now apply Z.eqb_eq, Hall.
Qed.

Lemma is_const_intro g c :
  g <> [] -> (forall pv, In pv g -> snd pv = c) -> is_const g = Some c.
Proof.
  intros Hne Hall. unfold is_const. destruct g as [|[p0 c0] g]; [congruence|].
  assert (c0 = c) by (apply (Hall (p0, c0)); now left). subst c0.
  replace (forallb _ _) with true; [reflexivity|]. symmetry.
  apply forallb_forall. intros pv Hin. apply Z.eqb_eq. now apply Hall.
Qed.

Lemma is_shift_spec i g c :
  is_shift i g = Some c -> forall pv, In pv g -> snd pv = nth i (fst pv) 0 + c.
Proof.
  unfold is_shift. destruct g as [|[p0 v0] g]; [discriminate|]. cbv zeta.
  destruct (forallb _ _) eqn:Hall; [|discriminate]. intros Heq. inversion Heq; subst.
  intros pv Hin. rewrite forallb_forall in Hall. now apply Z.eqb_eq, Hall.
Qed.

Lemma is_shift_intro i g c :
  g <> [] -> (forall pv, In pv g -> snd pv = nth i (fst pv) 0 + c) ->
  is_shift i g = Some c.
Proof.
  intros Hne Hall. unfold is_shift. destruct g as [|[p0 v0] g]; [congruence|]. cbv zeta.
  assert (Hc : v0 - nth i p0 0 = c).
  { pose proof (Hall (p0, v0) (or_introl eq_refl)) as H0. cbn [fst snd] in H0. lia. }
  rewrite Hc. replace (forallb _ _) with true; [reflexivity|]. symmetry.
  apply forallb_forall. intros pv Hin. apply Z.eqb_eq. now apply Hall.
Qed.

Lemma first_shift_spec g : forall positions sh,
  first_shift positions g = Some sh ->
  exists i c, sh = Shift i c /\ In i positions /\ is_shift i g = Some c.
Proof.
  induction positions as [|i rest IH]; cbn [first_shift]; intros sh H; [discriminate|].
  destruct (is_shift i g) as [c|] eqn:Hs.
  - inversion H; subst. exists i, c. repeat split; [now left | assumption].
  - destruct (IH sh H) as (j & c & -> & Hin & Hj). exists j, c.
    repeat split; [now right | assumption].
Qed.

Lemma first_shift_some g i c : forall positions,
  In i positions -> is_shift i g = Some c -> first_shift positions g <> None.
Proof.
  induction positions as [|j rest IH]; cbn [first_shift]; intros Hin Hs; [contradiction|].
  destruct (is_shift j g) as [c'|] eqn:Hj; [discriminate|].
  destruct Hin as [->|Hin]; [congruence | now apply IH].
Qed.

Lemma classify_spec n g sh :
  classify n g = Some sh ->
  match sh with
  | Const c => is_const g = Some c
  | Shift i c => is_const g = None /\ (i < n)%nat /\ is_shift i g = Some c
  end.
Proof.
  unfold classify. destruct (is_const g) as [c|] eqn:Hc.
  - intros H. inversion H; subst. reflexivity.
  - intros H. destruct (first_shift_spec _ _ H) as (i & c & -> & Hin & Hs).
    apply in_seq in Hin. repeat split; [lia | assumption].
Qed.

(** A graph that is not constant has two points of different values. *)
Lemma not_const_differ g :
  g <> [] -> is_const g = None ->
  exists pv pv', In pv g /\ In pv' g /\ snd pv <> snd pv'.
Proof.
  intros Hne Hc. unfold is_const in Hc. destruct g as [|[p0 c0] g]; [congruence|].
  destruct (forallb _ _) eqn:Hall; [discriminate|].
  assert (Hex : exists pv, In pv ((p0, c0) :: g) /\ snd pv <> c0).
  { clear Hc Hne. revert Hall. generalize ((p0, c0) :: g). intros l.
    induction l as [|a l IH]; cbn [forallb]; intros H; [discriminate|].
    destruct (Z.eqb_spec (snd a) c0) as [Heq|Hneq].
    - cbn [andb] in H. destruct (IH H) as (pv & Hin & Hpv).
      exists pv. split; [now right | assumption].
    - exists a. split; [now left | assumption]. }
  destruct Hex as (pv & Hin & Hpv).
  exists pv, (p0, c0). repeat split; [assumption | now left | assumption].
Qed.

(** ** The simplifier *)

Lemma closedb_spec xs e : closedb xs e = true -> vars_in xs e.
Proof.
  unfold closedb. rewrite forallb_forall. intros H x Hx.
  now apply RefEngineFacts.mem_var_In, H.
Qed.

Lemma closedb_intro xs e : vars_in xs e -> closedb xs e = true.
Proof.
  unfold closedb. rewrite forallb_forall. intros H x Hx.
  now apply RefEngineFacts.mem_var_In, H.
Qed.

Lemma models_point A box env :
  RefEngine.const_box A = Some box -> models env A ->
  In (map env (map fst box)) (cells (map snd box)).
Proof.
  intros Hbox Hm. destruct (RefEngineFacts.const_box_spec A Hbox) as (_ & _ & Hiff).
  apply Hiff in Hm. apply In_cells. clear Hbox Hiff.
  induction Hm as [|[x [lo n]] box Hx _ IH]; cbn [map fst snd] in *; constructor;
    [exact Hx | exact IH].
Qed.

Lemma positive_ranges A box :
  RefEngine.const_box A = Some box -> Forall (fun r => 0 < snd r) (map snd box).
Proof.
  intros Hbox. destruct (RefEngineFacts.const_box_spec A Hbox) as (_ & Hpos & _).
  apply Forall_map. exact Hpos.
Qed.

Lemma eval_at_point xs env e :
  vars_in xs e -> eval (at_point xs (map env xs)) e = eval env e.
Proof.
  intros Hcl. apply eval_agree. intros x Hx. apply at_point_values. now apply Hcl.
Qed.

Lemma nth_EVar (xs : list Var) i d :
  (i < List.length xs)%nat -> nth i (map EVar xs) (IntImm 0) = EVar (nth i xs d).
Proof.
  intros Hlt. rewrite (nth_indep _ (IntImm 0) (EVar d)) by (now rewrite length_map).
  apply map_nth.
Qed.

Lemma nth_values (xs : list Var) (env : Env) i d :
  (i < List.length xs)%nat -> nth i (map env xs) 0 = env (nth i xs d).
Proof.
  intros Hlt. rewrite (nth_indep _ 0 (env d)) by (now rewrite length_map).
  apply map_nth.
Qed.

Definition no_var : Var := mkVar "_" 0.

Lemma eval_normal_form xs env sh :
  match sh with Const _ => True | Shift i _ => (i < List.length xs)%nat end ->
  eval env (normal_form (map EVar xs) sh)
  = match sh with
    | Const c => c
    | Shift i c => env (nth i xs no_var) + c
    end.
Proof.
  destruct sh as [c|i c]; cbn [normal_form]; intros Hi; [reflexivity|].
  rewrite (nth_EVar xs no_var Hi).
  destruct (Z.eqb_spec c 0) as [->|Hc]; cbn [eval]; lia.
Qed.

Lemma normalize_sound A env e : models env A -> eval env (normalize A e) = eval env e.
Proof.
  intros Hm. unfold normalize.
  destruct (RefEngine.const_box A) as [box|] eqn:Hbox;
    [|apply RefEngineFacts.eval_fold_constants].
  cbv zeta. destruct (closedb (map fst box) e) eqn:Hcl;
    [|apply RefEngineFacts.eval_fold_constants].
  apply closedb_spec in Hcl.
  destruct (classify _ _) as [sh|] eqn:Hsh;
    [|apply RefEngineFacts.eval_fold_constants].
  pose proof (@graph_In (map fst box) _ e _ (models_point Hbox Hm)) as Hin.
  rewrite (eval_at_point env Hcl) in Hin.
  apply classify_spec in Hsh. destruct sh as [c|i c].
  - cbn [normal_form eval]. symmetry. apply (@is_const_spec _ _ Hsh _ Hin).
  - destruct Hsh as (_ & Hi & Hs). rewrite eval_normal_form by exact Hi.
    pose proof (@is_shift_spec _ _ _ Hs _ Hin) as Hv. cbn [fst snd] in Hv.
    rewrite (nth_values (map fst box) env no_var Hi) in Hv. lia.
Qed.

Lemma normalize_const A c : normalize A (IntImm c) = IntImm c.
Proof.
  unfold normalize. destruct (RefEngine.const_box A) as [box|] eqn:Hbox; [|reflexivity].
  cbv zeta. cbn [closedb free_vars forallb]. unfold classify.
  rewrite (@is_const_intro _ c); [reflexivity | |].
  - unfold graph. intros H. apply map_eq_nil in H.
    now apply (cells_nonempty (@positive_ranges _ _ Hbox)).
  - intros pv Hin. destruct pv as [p v]. apply In_graph in Hin. now destruct Hin.
Qed.

(** The variable of a normal form occurs in the expression. *)
Lemma shift_occurs xs rs e i c :
  (i < List.length xs)%nat ->
  is_const (graph xs rs e) = None -> is_shift i (graph xs rs e) = Some c ->
  In (nth i xs no_var) (free_vars e).
Proof.
  intros Hi Hc Hs.
  destruct (in_dec Var_eq_dec (nth i xs no_var) (free_vars e)) as [Hin|Hout];
    [exact Hin | exfalso].
  assert (Hne : graph xs rs e <> []).
  { intros H. rewrite H in Hs. discriminate. }
  destruct (@not_const_differ _ Hne Hc) as ([p v] & [q w] & Hp & Hq & Hvw).
  cbn [snd] in Hvw.
  pose proof (@is_shift_spec _ _ _ Hs _ Hp) as Hv. pose proof (@is_shift_spec _ _ _ Hs _ Hq) as Hw.
  cbn [fst snd] in Hv, Hw.
  apply In_graph in Hp, Hq. destruct Hp as (Hp & Hpv), Hq as (Hq & Hqw).
  pose proof (@cells_set_nth _ i _ _ Hp Hq) as Hr.
  pose proof (@is_shift_spec _ _ _ Hs _ (@graph_In xs _ e _ Hr)) as Hrv. cbn [fst snd] in Hrv.
  assert (Hlen : List.length p = List.length rs).
  { apply In_cells in Hp. apply (Forall2_length Hp). }
  assert (Hlenq : List.length q = List.length rs).
  { apply In_cells in Hq. apply (Forall2_length Hq). }
  assert (Hsame : eval (at_point xs (set_nth i (nth i q 0) p)) e = eval (at_point xs p) e).
  { apply eval_agree. intros y Hy. apply (at_point_set_nth no_var).
    intros ->. contradiction. }
  destruct (Nat.lt_ge_cases i (List.length p)) as [Hlt|Hge].
  - rewrite nth_set_nth in Hrv by exact Hlt. lia.
  - rewrite (nth_overflow p) in Hv by exact Hge.
    rewrite (nth_overflow q) in Hw by lia. lia.
Qed.

Lemma normalize_vars A e : incl (free_vars (normalize A e)) (free_vars e).
Proof.
  unfold normalize.
  destruct (RefEngine.const_box A) as [box|] eqn:Hbox;
    [|apply RefEngineFacts.free_vars_fold_constants].
  cbv zeta. destruct (closedb (map fst box) e) eqn:Hcl;
    [|apply RefEngineFacts.free_vars_fold_constants].
  destruct (classify _ _) as [sh|] eqn:Hsh;
    [|apply RefEngineFacts.free_vars_fold_constants].
  apply classify_spec in Hsh. destruct sh as [c|i c].
  - intros x [].
  - destruct Hsh as (Hc & Hi & Hs). cbn [normal_form].
    rewrite (nth_EVar (map fst box) no_var Hi).
    pose proof (@shift_occurs _ _ _ _ _ Hi Hc Hs) as Hin.
    destruct (Z.eqb c 0); cbn [free_vars app]; intros x [<-|[]]; exact Hin.
Qed.

#[export] Instance norm_engine_laws : EngineLaws norm_engine.
Proof.
  constructor.
  - apply normalize_sound.
  - apply normalize_const.
  - apply normalize_vars.
  - apply RefEngineFacts.int_set_tight.
Qed.

(** ** The laws of the iteration maps *)

(** What a term reads. *)
Definition term_value (env : Env) (t : Term) : Z :=
  match term_source t with
  | Some x => env x + term_offset t
  | None => term_offset t
  end.

Lemma as_term_eval e t env : as_term e = Some t -> eval env e = term_value env t.
Proof.
  unfold term_value.
  destruct e as [c|x|a b|a b|a b|a b|a b]; cbn [as_term]; try discriminate.
  - intros H. inversion H; subst. reflexivity.
  - intros H. inversion H; subst. cbn [term_source term_offset eval]. lia.
  - destruct a; try discriminate. destruct b; try discriminate.
    intros H. inversion H; subst. reflexivity.
Qed.

Lemma as_terms_spec index : forall ts,
  as_terms index = Some ts ->
  Forall2 (fun e t => as_term e = Some t) index ts.
Proof.
  induction index as [|e index IH]; cbn [as_terms]; intros ts H.
  - inversion H. constructor.
  - destruct (as_term e) as [t|] eqn:He; try discriminate.
    destruct (as_terms index) as [ts'|]; try discriminate.
    inversion H; subst. constructor; [assumption | now apply IH].
Qed.

Lemma as_terms_intro index ts :
  Forall2 (fun e t => as_term e = Some t) index ts -> as_terms index = Some ts.
Proof.
  induction 1 as [|e t index ts He _ IH]; cbn [as_terms]; [reflexivity|].
  now rewrite He, IH.
Qed.

Lemma sources_In ts x :
  In x (sources ts) <-> exists t, In t ts /\ term_source t = Some x.
Proof.
  unfold sources. rewrite in_flat_map. split.
  - intros (t & Ht & Hx). exists t. split; [assumption|].
    unfold source_list in Hx. destruct (term_source t); [|contradiction].
    destruct Hx as [->|[]]. reflexivity.
  - intros (t & Ht & Hx). exists t. split; [assumption|].
    unfold source_list. rewrite Hx. now left.
Qed.

Lemma NoDup_distinct l : NoDup l -> RefEngine.distinct l = true.
Proof.
  induction 1 as [|x l Hx _ IH]; cbn [RefEngine.distinct]; [reflexivity|].
  rewrite IH, Bool.andb_true_r.
  destruct (RefEngine.mem_var x l) eqn:Hm; [|reflexivity].
  apply RefEngineFacts.mem_var_In in Hm. contradiction.
Qed.

(** What a successful detection has checked. *)
Lemma detected_spec index iters :
  errors (detect_terms index iters) = [] ->
  exists ts,
    indices (detect_terms index iters) = ts /\
    Forall2 (fun e t => as_term e = Some t) index ts /\
    NoDup (sources ts) /\
    incl (sources ts) (map fst iters) /\
    (forall x r, In (x, r) iters -> In x (sources ts) \/ extent r = IntImm 1).
Proof.
  unfold detect_terms.
  destruct (as_terms index) as [ts|] eqn:Hts; [|discriminate].
  destruct (RefEngine.distinct (sources ts)) eqn:Hd; cbn [andb]; [|discriminate].
  destruct (forallb (fun x => RefEngine.mem_var x (map fst iters)) (sources ts)) eqn:Hin;
    cbn [andb]; [|discriminate].
  destruct (forallb (fun b => RefEngine.mem_var (fst b) (sources ts)
                              || is_one (extent (snd b)))%bool iters) eqn:Hc;
    cbn [errors indices]; [|discriminate].
  intros _. exists ts. split; [reflexivity|].
  split; [now apply as_terms_spec|].
  split; [now apply RefEngineFacts.distinct_NoDup|]. split.
  - intros x Hx. rewrite forallb_forall in Hin.
    now apply RefEngineFacts.mem_var_In, Hin.
  - intros x r Hxr. rewrite forallb_forall in Hc. specialize (Hc (x, r) Hxr).
    cbn [fst snd] in Hc. apply Bool.orb_true_iff in Hc. destruct Hc as [Hc|Hc].
    + left. now apply RefEngineFacts.mem_var_In.
    + right. unfold is_one, is_const_int in Hc.
      destruct (extent r); try discriminate. apply Z.eqb_eq in Hc. now subst.
Qed.

Lemma detected_intro index iters ts :
  Forall2 (fun e t => as_term e = Some t) index ts ->
  NoDup (sources ts) ->
  incl (sources ts) (map fst iters) ->
  (forall x r, In (x, r) iters -> In x (sources ts) \/ extent r = IntImm 1) ->
  errors (detect_terms index iters) = [].
Proof.
  intros Hts Hnd Hin Hcov. unfold detect_terms.
  rewrite (as_terms_intro Hts), (NoDup_distinct Hnd). cbn [andb].
  replace (forallb _ (sources ts)) with true.
  2:{ symmetry. apply forallb_forall. intros x Hx.
      now apply RefEngineFacts.mem_var_In, Hin. }
  cbn [andb]. replace (forallb _ iters) with true; [reflexivity|].
  symmetry. apply forallb_forall. intros [x r] Hxr. cbn [fst snd].
  apply Bool.orb_true_iff. destruct (Hcov x r Hxr) as [Hx|Hone].
  - left. now apply RefEngineFacts.mem_var_In.
  - right. rewrite Hone. reflexivity.
Qed.

(** ** The inverse *)

Lemma inverse_sources ts : forall outputs,
  List.length outputs = List.length ts ->
  map fst (invert_terms ts outputs) = sources ts.
Proof.
  unfold invert_terms, sources.
  induction ts as [|t ts IH]; intros [|o outputs] Hlen; try discriminate; [reflexivity|].
  cbn [combine flat_map]. rewrite map_app, IH by (now injection Hlen). f_equal.
  unfold inverse_entry, source_list. cbn [fst snd]. now destruct (term_source t).
Qed.

Lemma vmap_find_keys (m : VMap) x :
  In x (map fst m) -> exists e, vmap_find m x = Some e.
Proof.
  induction m as [|[y t] m IH]; cbn [map fst vmap_find]; intros H; [contradiction|].
  destruct (Var_eqb_spec x y) as [->|Hne]; [eauto|].
  apply IH. destruct H as [Heq|H]; [congruence | exact H].
Qed.

Lemma inverse_find_spec ts outputs x e :
  vmap_find (invert_terms ts outputs) x = Some e ->
  exists t o,
    In (t, o) (combine ts outputs) /\ term_source t = Some x /\
    e = op_sub o (IntImm (term_offset t)).
Proof.
  intros H. apply vmap_find_Some in H. unfold invert_terms in H.
  apply in_flat_map in H. destruct H as ([t o] & Hin & Hx).
  unfold inverse_entry in Hx. cbn [fst snd] in Hx.
  destruct (term_source t) as [y|] eqn:Hsrc; [|contradiction].
  destruct Hx as [Heq|[]]. inversion Heq; subst. exists t, o. repeat split; assumption.
Qed.

Lemma inverse_recovers index env env' x e : forall ts outputs,
  Forall2 (fun a t => as_term a = Some t) index ts ->
  vmap_find (invert_terms ts outputs) x = Some e ->
  map (eval env') outputs = map (eval env) index ->
  eval env' e = env x.
Proof.
  unfold invert_terms.
  induction index as [|a index IH]; intros ts outputs Hts Hfind Hout;
    inversion Hts as [|? t ? ts' Ha Hrest]; subst; cbn [combine flat_map] in Hfind;
    [discriminate|].
  destruct outputs as [|o outputs]; [discriminate|].
  cbn [map] in Hout. injection Hout as Ho Hout. cbn [combine flat_map] in Hfind.
  unfold inverse_entry at 1 in Hfind. cbn [fst snd] in Hfind.
  destruct (term_source t) as [y|] eqn:Hsrc.
  - cbn [app vmap_find] in Hfind. destruct (Var_eqb_spec x y) as [->|Hne].
    + inversion Hfind; subst. rewrite eval_op_sub, Ho. cbn [eval].
      rewrite (as_term_eval _ env Ha). unfold term_value. rewrite Hsrc. lia.
    + now apply (IH ts' outputs).
  - cbn [app] in Hfind. now apply (IH ts' outputs).
Qed.

Lemma inverse_mentions x e ts outputs :
  vmap_find (invert_terms ts outputs) x = Some e ->
  incl (free_vars e) (flat_map free_vars outputs).
Proof.
  intros H. destruct (inverse_find_spec _ _ _ H) as (t & o & Hin & _ & ->).
  apply in_combine_r in Hin. intros y Hy.
  apply free_vars_op_sub in Hy. cbn [free_vars] in Hy. rewrite app_nil_r in Hy.
  apply in_flat_map. now exists o.
Qed.

(** ** Every point within the bounds is reached *)

(** The values the iterators must take for the outputs to be [q]. *)
Definition term_assignment (ts : list Term) (q : list Z) : list (Var * Z) :=
  flat_map (fun p => match term_source (fst p) with
                     | Some x => [(x, snd p - term_offset (fst p))]
                     | None => []
                     end) (combine ts q).

Lemma term_assignment_keys ts : forall q,
  List.length q = List.length ts -> map fst (term_assignment ts q) = sources ts.
Proof.
  unfold term_assignment, sources.
  induction ts as [|t ts IH]; intros [|v q] Hlen; try discriminate; [reflexivity|].
  cbn [combine flat_map]. rewrite map_app, IH by (now injection Hlen). f_equal.
  unfold source_list. cbn [fst snd]. now destruct (term_source t).
Qed.

Lemma term_assignment_fits iters box index : forall ts q,
  const_analyzer iters -> RefEngine.const_box iters = Some box ->
  Forall (vars_in (map fst iters)) index ->
  Forall2 (fun a t => as_term a = Some t) index ts ->
  Forall2 (fun a v => exists lo hi,
             RefEngine.int_set iters a = mkIntSet (IntImm lo) (IntImm hi) /\
             lo <= v <= hi) index q ->
  forall x w, In (x, w) (term_assignment ts q) ->
    forall lo n, In (x, (lo, n)) box -> lo <= w < lo + n.
Proof.
  intros ts q Hconst Hbox.
  destruct (RefEngineFacts.const_box_spec iters Hbox) as (_ & _ & Hm).
  revert ts q. unfold term_assignment.
  induction index as [|a index IH]; intros ts q Hcl Hts Hq x w Hin lo n Hb;
    inversion Hts as [|? t ? ts' Ha Hrest]; subst; cbn [combine flat_map] in Hin;
    [contradiction|].
  inversion Hq as [|? v ? q' (l & h & Hset & Hv) Hq']; subst.
  cbn [combine flat_map] in Hin. inversion Hcl as [|? ? Hca Hcl']; subst.
  apply in_app_or in Hin.
  destruct Hin as [Hin|Hin]; [|now apply (IH ts' q' Hcl' Hrest Hq' x w Hin)].
  cbn [fst snd] in Hin. destruct (term_source t) as [y|] eqn:Hsrc; [|contradiction].
  destruct Hin as [Heq|[]]. inversion Heq; subst.
  destruct (RefEngineFacts.int_set_tight Hconst Hca)
    as (l' & h' & Hset' & _ & (env0 & Hm0 & Hv0) & (env1 & Hm1 & Hv1)).
  rewrite Hset in Hset'. injection Hset' as Hl Hh.
  rewrite (as_term_eval _ env0 Ha) in Hv0. rewrite (as_term_eval _ env1 Ha) in Hv1.
  unfold term_value in Hv0, Hv1. rewrite Hsrc in Hv0, Hv1.
  apply Hm in Hm0, Hm1. unfold RefEngineFacts.models_box in Hm0, Hm1.
  rewrite Forall_forall in Hm0, Hm1.
  specialize (Hm0 _ Hb). specialize (Hm1 _ Hb). cbn [fst snd] in Hm0, Hm1. lia.
Qed.

Lemma eval_term_assigned iters env index : forall ts q,
  const_analyzer iters ->
  Forall (vars_in (map fst iters)) index ->
  Forall2 (fun a t => as_term a = Some t) index ts ->
  Forall2 (fun a v => exists lo hi,
             RefEngine.int_set iters a = mkIntSet (IntImm lo) (IntImm hi) /\
             lo <= v <= hi) index q ->
  (forall x w, In (x, w) (term_assignment ts q) -> env x = w) ->
  map (eval env) index = q.
Proof.
  intros ts q Hconst. revert ts q. unfold term_assignment.
  induction index as [|a index IH]; intros ts q Hcl Hts Hq Hval;
    inversion Hts as [|? t ? ts' Ha Hrest]; subst;
    inversion Hq as [|? v ? q' (l & h & Hset & Hv) Hq']; subst; [reflexivity|].
  inversion Hcl as [|? ? Hca Hcl']; subst.
  cbn [combine flat_map] in Hval. cbn [map]. f_equal.
  - rewrite (as_term_eval _ env Ha). unfold term_value.
    cbn [fst snd] in Hval. destruct (term_source t) as [y|] eqn:Hsrc.
    + rewrite (Hval y (v - term_offset t)); [lia|]. apply in_or_app. left. now left.
    + destruct (RefEngineFacts.int_set_tight Hconst Hca)
        as (l' & h' & Hset' & _ & (env0 & _ & Hv0) & (env1 & _ & Hv1)).
      rewrite Hset in Hset'. injection Hset' as Hl Hh.
      rewrite (as_term_eval _ env0 Ha) in Hv0. rewrite (as_term_eval _ env1 Ha) in Hv1.
      unfold term_value in Hv0, Hv1. rewrite Hsrc in Hv0, Hv1. lia.
  - apply (IH ts' q' Hcl' Hrest Hq'). intros x w Hin. apply Hval.
    apply in_or_app. now right.
Qed.

Lemma detected_onto index iters q :
  const_analyzer iters -> Forall (vars_in (map fst iters)) index ->
  errors (detect_terms index iters) = [] ->
  Forall2 (fun e v => exists lo hi,
             RefEngine.int_set iters e = mkIntSet (IntImm lo) (IntImm hi) /\
             lo <= v <= hi)
          index q ->
  exists env, models env iters /\ map (eval env) index = q.
Proof.
  intros Hconst Hcl Hdet Hq.
  destruct (detected_spec _ _ Hdet) as (ts & _ & Hts & Hnd & _).
  pose proof Hconst as [Hc Hkeys].
  destruct (RefEngineFacts.const_box_of_const iters Hc) as [box Hbox].
  destruct (RefEngineFacts.const_box_spec iters Hbox) as (Hv & Hp & Hm).
  pose proof (RefEngineFacts.enum_nonempty Hp) as Hne.
  destruct (RefEngine.enum box) as [|env0 envs] eqn:Henum; [congruence|].
  assert (Hm0 : RefEngineFacts.models_box env0 box).
  { apply RefEngineFacts.enum_models; [now rewrite Hv | rewrite Henum; now left]. }
  assert (Hlen : List.length q = List.length ts).
  { rewrite <- (Forall2_length Hts). symmetry. apply (Forall2_length Hq). }
  destruct (@RefEngineFacts.assign_models box (term_assignment ts q) env0) as (env & Hme & Hval).
  - now rewrite term_assignment_keys.
  - assumption.
  - apply (term_assignment_fits Hconst Hbox Hcl Hts Hq).
  - exists env. split; [now apply Hm|].
    eapply eval_term_assigned; eassumption.
Qed.

#[export] Instance norm_iter_map_laws : IterMapLaws norm_engine.
Proof.
  constructor.
  - apply detected_onto.
  - intros index iters outputs x e env env' Hdet Hfind Hm Hout.
    destruct (detected_spec _ _ Hdet) as (ts & Hidx & Hts & _).
    simpl in Hfind. rewrite Hidx in Hfind.
    eapply inverse_recovers; eassumption.
  - intros index iters outputs x r env Hdet Hlen Hin Hfind Hm.
    destruct (detected_spec _ _ Hdet) as (ts & Hidx & Hts & _ & _ & Hcov).
    simpl in Hfind. rewrite Hidx in Hfind.
    assert (Hx : ~ In x (sources ts)).
    { intros Hx. rewrite <- (@inverse_sources ts outputs) in Hx
        by (rewrite Hlen; apply (Forall2_length Hts)).
      destruct (vmap_find_keys _ _ Hx) as [e He]. congruence. }
    destruct (Hcov x r Hin) as [Hs|Hone]; [contradiction|].
    pose proof (@RefEngineFacts.models_In _ _ _ _ Hm Hin) as Hr. unfold in_range in Hr.
    rewrite Hone in Hr. cbn [eval] in Hr. lia.
  - intros index iters outputs x e Hfind. simpl in Hfind.
    eapply inverse_mentions; eassumption.
Qed.

(** ** Normal forms *)

(** The ranges of a zero-based box. *)
Definition box_ranges (B : Box) : list (Z * Z) := map (fun n => (0, n)) (map snd B).

Lemma const_box_box B :
  good_box B ->
  RefEngine.const_box (box_analyzer B) = Some (combine (map fst B) (box_ranges B)).
Proof.
  intros [Hpos _]. unfold box_ranges.
  induction B as [|[x n] B IH]; cbn [box_analyzer map RefEngine.const_box]; [reflexivity|].
  inversion Hpos as [|? ? Hn Hrest]; subst. cbn [snd] in Hn.
  cbn [box_range fst snd min extent].
  fold (box_analyzer B). rewrite (IH Hrest).
  destruct (Z.ltb_spec 0 n); [reflexivity | lia].
Qed.

Lemma box_ranges_length B : List.length (box_ranges B) = List.length (map fst B).
Proof. unfold box_ranges. now rewrite !length_map. Qed.

(** [normalize] over a box, unfolded. *)
Lemma normalize_box_eq B e :
  good_box B -> closed_box B e ->
  normalize (box_analyzer B) e =
  match classify (List.length B) (graph (map fst B) (box_ranges B) e) with
  | Some sh => normal_form (map EVar (map fst B)) sh
  | None => RefEngine.fold_constants e
  end.
Proof.
  intros Hgood Hcl. unfold normalize. rewrite (const_box_box Hgood). cbv zeta.
  rewrite map_fst_combine by apply box_ranges_length.
  rewrite map_snd_combine by apply box_ranges_length.
  rewrite (closedb_intro Hcl), length_map. reflexivity.
Qed.

Lemma box_ranges_values B p :
  Forall2 (fun v r => fst r <= v < fst r + snd r) p (box_ranges B) <->
  Forall2 (fun v n => 0 <= v < n) p (map snd B).
Proof.
  unfold box_ranges. generalize (map snd B). intros l. revert p.
  induction l as [|n l IH]; intros p; cbn [map]; split; intros H; inversion H; subst;
    constructor; cbn [fst snd] in *; try lia; now apply IH.
Qed.

Lemma cell_in_box B p :
  good_box B -> In p (cells (box_ranges B)) -> in_box (at_point (map fst B) p) B.
Proof.
  intros [_ Hnd] Hp. apply In_cells in Hp.
  assert (Hlen : List.length p = List.length (map fst B)).
  { rewrite (Forall2_length Hp). apply box_ranges_length. }
  apply in_box_values. rewrite (@at_point_coordinates _ _ Hnd Hlen).
  now apply box_ranges_values.
Qed.

Lemma graph_nonempty B e : good_box B -> graph (map fst B) (box_ranges B) e <> [].
Proof.
  intros [Hpos _] H. unfold graph in H. apply map_eq_nil in H.
  revert H. apply cells_nonempty. unfold box_ranges. apply Forall_map, Forall_map.
  exact Hpos.
Qed.

Lemma at_point_nth xs p i :
  NoDup xs -> List.length p = List.length xs -> (i < List.length xs)%nat ->
  at_point xs p (nth i xs no_var) = nth i p 0.
Proof.
  intros Hnd Hlen Hi.
  rewrite <- (@at_point_coordinates _ _ Hnd Hlen) at 2.
  symmetry. apply nth_values. exact Hi.
Qed.

Lemma as_term_source_free e t x :
  as_term e = Some t -> term_source t = Some x -> In x (free_vars e).
Proof.
  destruct e as [c|y|a b|a b|a b|a b|a b]; cbn [as_term]; try discriminate.
  - intros H. inversion H; subst. discriminate.
  - intros H Hs. inversion H; subst. cbn in Hs. inversion Hs. now left.
  - destruct a; try discriminate. destruct b; try discriminate.
    intros H Hs. inversion H; subst. cbn in Hs. inversion Hs. now left.
Qed.

(** An expression that reads a variable of the box plus a constant at
    every point is classified. *)
Lemma classify_shifted B e v c :
  good_box B -> In v (map fst B) ->
  (forall env, in_box env B -> eval env e = env v + c) ->
  classify (List.length B) (graph (map fst B) (box_ranges B) e) <> None.
Proof.
  intros Hgood Hv Hval. unfold classify.
  destruct (is_const _) as [k|]; [discriminate|].
  destruct (In_nth _ _ no_var Hv) as (i & Hi & Hnth).
  apply (@first_shift_some _ i c).
  - apply in_seq. rewrite length_map in Hi. lia.
  - apply is_shift_intro; [now apply graph_nonempty|].
    intros [p w] Hin. apply In_graph in Hin. destruct Hin as (Hp & ->). cbn [fst snd].
    rewrite (Hval _ (@cell_in_box _ _ Hgood Hp)), <- Hnth.
    rewrite at_point_nth; [reflexivity | apply Hgood | | exact Hi].
    apply In_cells in Hp. rewrite (Forall2_length Hp). apply box_ranges_length.
Qed.

Lemma classify_constant B e c :
  good_box B -> (forall env, in_box env B -> eval env e = c) ->
  classify (List.length B) (graph (map fst B) (box_ranges B) e) = Some (Const c).
Proof.
  intros Hgood Hval. unfold classify. rewrite (@is_const_intro _ c); [reflexivity | |].
  - now apply graph_nonempty.
  - intros [p w] Hin. apply In_graph in Hin. destruct Hin as (Hp & ->). cbn [snd].
    apply Hval. now apply cell_in_box.
Qed.

(** A simplified expression the detector reads is a normal form. *)
Lemma detected_classified B e t :
  good_box B -> closed_box B e ->
  as_term (normalize (box_analyzer B) e) = Some t ->
  classify (List.length B) (graph (map fst B) (box_ranges B) e) <> None.
Proof.
  intros Hgood Hcl Ht Hnone.
  rewrite (normalize_box_eq Hgood Hcl), Hnone in Ht.
  assert (Hval : forall env, eval env e = term_value env t).
  { intros env. rewrite <- (RefEngineFacts.eval_fold_constants env e).
    now apply as_term_eval. }
  unfold term_value in Hval. destruct (term_source t) as [x|] eqn:Hsrc.
  - apply (@classify_shifted B e x (term_offset t) Hgood); [|auto|exact Hnone].
    apply Hcl. apply RefEngineFacts.free_vars_fold_constants.
    eapply as_term_source_free; eassumption.
  - rewrite (@classify_constant B e (term_offset t) Hgood) in Hnone; [discriminate|auto].
Qed.

Lemma vmap_find_combine_nth (xs : list Var) : forall (zs : list PrimExpr) i,
  NoDup xs -> List.length zs = List.length xs -> (i < List.length xs)%nat ->
  vmap_find (combine xs zs) (nth i xs no_var) = Some (nth i zs (IntImm 0)).
Proof.
  induction xs as [|x xs IH]; intros [|z zs] i Hnd Hlen Hi;
    cbn [List.length] in *; try lia; try discriminate.
  inversion Hnd as [|? ? Hx Hnd']; subst.
  destruct i as [|i]; cbn [combine vmap_find nth].
  - now rewrite Var_eqb_refl.
  - rewrite Var_eqb_neq.
    + apply IH; [assumption | lia | lia].
    + intros Heq. apply Hx. rewrite <- Heq. apply nth_In. lia.
Qed.

(** A normal form at the arguments [zs]. *)
Lemma Substitute_normal_form (xs : list Var) (zs : list PrimExpr) sh :
  NoDup xs -> List.length zs = List.length xs ->
  match sh with Const _ => True | Shift i _ => (i < List.length xs)%nat end ->
  Substitute (normal_form (map EVar xs) sh) (combine xs zs) = normal_form zs sh.
Proof.
  intros Hnd Hlen Hi. destruct sh as [c|i c]; cbn [normal_form]; [reflexivity|].
  rewrite (nth_EVar xs no_var Hi).
  destruct (Z.eqb c 0); cbn [Substitute];
    now rewrite (vmap_find_combine_nth zs Hnd Hlen Hi).
Qed.

Lemma graph_renamed B B' a b :
  good_box B -> good_box B' -> map snd B' = map snd B ->
  (forall env env',
      in_box env B -> map env' (map fst B') = map env (map fst B) ->
      eval env' b = eval env a) ->
  graph (map fst B') (box_ranges B') b = graph (map fst B) (box_ranges B) a.
Proof.
  intros Hgood Hgood' Hext Hval. unfold graph, box_ranges. rewrite Hext.
  apply map_ext_in. intros p Hp. f_equal.
  fold (box_ranges B) in Hp.
  assert (Hlen : List.length p = List.length (map fst B)).
  { apply In_cells in Hp. rewrite (Forall2_length Hp). apply box_ranges_length. }
  apply Hval; [now apply cell_in_box|].
  rewrite (@at_point_coordinates _ _ (proj2 Hgood) Hlen).
  apply at_point_coordinates; [apply Hgood'|].
  rewrite Hlen, !length_map, <- (length_map snd B'), Hext. now rewrite length_map.
Qed.

Lemma normal_component B B' a b t zs :
  good_box B -> good_box B' -> map snd B' = map snd B ->
  closed_box B a -> closed_box B' b ->
  as_term (normalize (box_analyzer B) a) = Some t ->
  (forall env env',
      in_box env B -> map env' (map fst B') = map env (map fst B) ->
      eval env' b = eval env a) ->
  List.length zs = List.length B ->
  Substitute (normalize (box_analyzer B') b) (combine (map fst B') zs)
  = Substitute (normalize (box_analyzer B) a) (combine (map fst B) zs).
Proof.
  intros Hgood Hgood' Hext Hca Hcb Ht Hval Hlen.
  assert (HlenB : List.length B' = List.length B).
  { rewrite <- (length_map snd B'), Hext. apply length_map. }
  pose proof (detected_classified Hgood Hca Ht) as Hsome.
  rewrite (normalize_box_eq Hgood Hca), (normalize_box_eq Hgood' Hcb).
  rewrite (graph_renamed a b Hgood Hgood' Hext Hval), HlenB.
  destruct (classify _ _) as [sh|] eqn:Hsh; [|congruence].
  assert (Hi : match sh with
               | Const _ => True
               | Shift i _ => (i < List.length B)%nat
               end).
  { apply classify_spec in Hsh. destruct sh; [exact I | tauto]. }
  rewrite !Substitute_normal_form; try reflexivity.
  - apply Hgood.
  - now rewrite length_map.
  - destruct sh; [exact I | now rewrite length_map].
  - apply Hgood'.
  - now rewrite length_map, HlenB.
  - destruct sh; [exact I | now rewrite length_map, HlenB].
Qed.

Lemma box_origin B : good_box B -> in_box (fun _ => 0) B.
Proof.
  intros [Hpos _]. unfold in_box. eapply Forall_impl; [|exact Hpos].
  intros b Hb. cbv beta in *. lia.
Qed.

Lemma renamed_point (B B' : Box) (env : Env) :
  good_box B' -> map snd B' = map snd B ->
  exists env', map env' (map fst B') = map env (map fst B).
Proof.
  intros [_ Hnd] Hext. apply point_exists; [exact Hnd|].
  rewrite !length_map, <- (length_map snd B), <- Hext. now rewrite length_map.
Qed.

Lemma normal_list (B B' : Box) (zs : list PrimExpr) :
  good_box B -> good_box B' -> map snd B' = map snd B ->
  List.length zs = List.length B ->
  forall index index',
    Forall (closed_box B) index -> Forall (closed_box B') index' ->
    Forall (fun a => exists t, as_term (normalize (box_analyzer B) a) = Some t) index ->
    (forall env env',
        in_box env B -> map env' (map fst B') = map env (map fst B) ->
        map (eval env') index' = map (eval env) index) ->
    map (fun e => Substitute (normalize (box_analyzer B') e) (combine (map fst B') zs))
        index'
    = map (fun e => Substitute (normalize (box_analyzer B) e) (combine (map fst B) zs))
          index.
Proof.
  intros Hgood Hgood' Hext Hlen.
  destruct (@renamed_point B B' (fun _ => 0) Hgood' Hext) as (env0 & Henv0).
  induction index as [|a index IH]; intros [|b index'] Hcl Hcl' Hts Hval.
  - reflexivity.
  - specialize (Hval _ env0 (box_origin Hgood) Henv0). discriminate Hval.
  - specialize (Hval _ env0 (box_origin Hgood) Henv0). discriminate Hval.
  - inversion Hcl as [|? ? Hca Hcl1]; subst. inversion Hcl' as [|? ? Hcb Hcl1']; subst.
    inversion Hts as [|? ? (t & Ht) Hts1]; subst. cbn [map]. f_equal.
    + apply (@normal_component B B' a b t zs); try assumption.
      intros env env' He Hpos. specialize (Hval env env' He Hpos).
      cbn [map] in Hval. now injection Hval.
    + apply IH; try assumption.
      intros env env' He Hpos. specialize (Hval env env' He Hpos).
      cbn [map] in Hval. now injection Hval.
Qed.

Lemma detected_terms index iters :
  errors (detect_terms index iters) = [] ->
  Forall (fun e => exists t, as_term e = Some t) index.
Proof.
  intros Hdet. destruct (detected_spec _ _ Hdet) as (ts & _ & Hts & _).
  clear Hdet. induction Hts; constructor; eauto.
Qed.
(** ** The inverse of a detected map is detected *)

Lemma in_box_update B env v n z :
  good_box B -> in_box env B -> In (v, n) B -> 0 <= z < n ->
  in_box (update env v z) B.
Proof.
  intros [_ Hnd] He Hin Hz. unfold in_box in *. rewrite Forall_forall in *.
  intros [y m] Hy. cbn [fst snd]. destruct (Var_eq_dec y v) as [->|Hne].
  - rewrite update_same. now rewrite (@box_extent_unique B v m n Hnd Hy Hin).
  - rewrite update_other by assumption. apply (He (y, m) Hy).
Qed.

Definition shape_term (xs : list Var) (sh : Shape) : Term :=
  match sh with
  | Const c => mkTerm None c
  | Shift i c => mkTerm (Some (nth i xs no_var)) c
  end.

Lemma as_term_normal_form xs sh :
  match sh with Const _ => True | Shift i _ => (i < List.length xs)%nat end ->
  as_term (normal_form (map EVar xs) sh) = Some (shape_term xs sh).
Proof.
  destruct sh as [c|i c]; cbn [normal_form shape_term]; intros Hi; [reflexivity|].
  rewrite (nth_EVar xs no_var Hi).
  destruct (Z.eqb_spec c 0) as [->|Hc]; reflexivity.
Qed.

(** The simplified form of an expression that reads the variable [v] of the
    box plus a constant: the detector reads it, as [v] shifted, or as a
    constant when [v] takes one value. *)
Lemma normalize_shifted B e v c :
  good_box B -> closed_box B e -> In v (map fst B) ->
  (forall env, in_box env B -> eval env e = env v + c) ->
  exists t,
    as_term (normalize (box_analyzer B) e) = Some t /\
    (forall w, term_source t = Some w -> w = v) /\
    (term_source t = None -> In (v, 1) B).
Proof.
  intros Hgood Hcl Hv Hval.
  pose proof (@classify_shifted B e v c Hgood Hv Hval) as Hsome.
  assert (Hsound : forall env, in_box env B ->
            eval env (normalize (box_analyzer B) e) = env v + c).
  { intros env He. rewrite <- (Hval env He). apply normalize_sound.
    now apply models_box_analyzer. }
  rewrite (normalize_box_eq Hgood Hcl) in *.
  destruct (classify _ _) as [sh|] eqn:Hsh; [|congruence].
  pose proof (classify_spec _ _ Hsh) as Hspec.
  assert (Hi : match sh with
               | Const _ => True
               | Shift i _ => (i < List.length (map fst B))%nat
               end).
  { destruct sh; [exact I|]. rewrite length_map. tauto. }
  rewrite (as_term_normal_form _ _ Hi). eexists. split; [reflexivity|].
  apply in_map_iff in Hv. destruct Hv as ([v' n] & Hfst & Hin). cbn [fst] in Hfst.
  subst v'.
  assert (Hn : 0 < n).
  { destruct Hgood as [Hpos _]. rewrite Forall_forall in Hpos. apply (Hpos (v, n) Hin). }
  destruct sh as [k|i k]; cbn [shape_term term_source].
  - split; [discriminate|]. intros _.
    destruct (Z.eq_dec n 1) as [->|Hn1]; [exact Hin | exfalso].
    destruct (@box_point_at B v n 0 Hgood Hin) as (env0 & He0 & Hx0); [lia|].
    destruct (@box_point_at B v n 1 Hgood Hin) as (env1 & He1 & Hx1); [lia|].
    pose proof (Hsound env0 He0) as H0. pose proof (Hsound env1 He1) as H1.
    cbn [normal_form eval] in H0, H1. lia.
  - split; [|discriminate]. intros w Hw. inversion Hw; subst w. clear Hw.
    destruct Hspec as (Hc & _ & _).
    destruct (Var_eq_dec (nth i (map fst B) no_var) v) as [Heq|Hne];
      [exact Heq | exfalso].
    destruct (@not_const_differ _ (graph_nonempty e Hgood) Hc)
      as ([p a] & [q b] & Hp & Hq & Hab).
    cbn [snd] in Hab. apply In_graph in Hp, Hq.
    destruct Hp as (Hp & ->), Hq as (Hq & ->).
    pose proof (@cell_in_box _ _ Hgood Hp) as Hep.
    pose proof (@cell_in_box _ _ Hgood Hq) as Heq.
    set (ep := at_point (map fst B) p) in *. set (eq := at_point (map fst B) q) in *.
    rewrite (Hval ep Hep), (Hval eq Heq) in Hab.
    pose proof (@in_box_In eq B v n Heq Hin) as Hrange.
    pose proof (@in_box_update B ep v n (eq v) Hgood Hep Hin Hrange) as He3.
    pose proof (Hsound _ He3) as H3. pose proof (Hsound _ Hep) as H1.
    rewrite (@eval_normal_form (map fst B) _ (Shift i k) Hi) in H3.
    rewrite (@eval_normal_form (map fst B) _ (Shift i k) Hi) in H1.
    rewrite update_same in H3. rewrite update_other in H3 by exact Hne. lia.
Qed.

(** ** Lists read side by side *)

Lemma combine_map_r {A C D} (f : C -> D) (l : list A) : forall (l' : list C) a d,
  In (a, d) (combine l (map f l')) -> exists c, d = f c /\ In (a, c) (combine l l').
Proof.
  induction l as [|x l IH]; intros [|c l'] a d H; cbn [map combine] in *;
    try contradiction.
  destruct H as [Heq|H].
  - inversion Heq; subst. exists c. split; [reflexivity | now left].
  - destruct (IH l' a d H) as (c' & -> & Hin). exists c'. split; [reflexivity | now right].
Qed.

Lemma combine_map_fst {A C D} (f : C -> D) (l : list A) : forall (l' : list C) a c,
  In (a, c) (combine l l') -> In (a, f c) (combine l (map f l')).
Proof.
  induction l as [|x l IH]; intros [|c' l'] a c H; cbn [map combine] in *;
    try contradiction.
  destruct H as [Heq|H]; [inversion Heq; subst; now left | right; now apply IH].
Qed.

Lemma combine_key_unique {A C} (l : list A) : forall (l' : list C) a a' c,
  NoDup l' -> In (a, c) (combine l l') -> In (a', c) (combine l l') -> a = a'.
Proof.
  induction l as [|x l IH]; intros [|c' l'] a a' c Hnd H H'; cbn [combine] in *;
    try contradiction.
  inversion Hnd as [|? ? Hc Hnd']; subst.
  destruct H as [Heq|H], H' as [Heq'|H'].
  - congruence.
  - inversion Heq; subst. exfalso. apply Hc. now apply in_combine_r in H'.
  - inversion Heq'; subst. exfalso. apply Hc. now apply in_combine_r in H.
  - now apply (IH l' a a' c).
Qed.

Lemma combine_source_unique ts : forall (ks : list Var) t t' v v' x,
  NoDup (sources ts) ->
  In (t, v) (combine ts ks) -> In (t', v') (combine ts ks) ->
  term_source t = Some x -> term_source t' = Some x -> v = v'.
Proof.
  induction ts as [|a ts IH]; intros [|k ks] t t' v v' x Hnd H H' Hs Hs';
    cbn [combine] in *; try contradiction.
  unfold sources in Hnd. cbn [flat_map] in Hnd. fold (sources ts) in Hnd.
  assert (Htail : forall u w, In (u, w) (combine ts ks) -> term_source u = Some x ->
                              term_source a = Some x -> False).
  { intros u w Hu Hux Hax. unfold source_list in Hnd. rewrite Hax in Hnd.
    cbn [app] in Hnd. inversion Hnd as [|? ? Hx _]; subst. apply Hx.
    apply sources_In. exists u. split; [now apply in_combine_l in Hu | exact Hux]. }
  destruct H as [Heq|H], H' as [Heq'|H'].
  - congruence.
  - inversion Heq; subst. exfalso. now apply (Htail t' v' H' Hs').
  - inversion Heq'; subst. exfalso. now apply (Htail t v H Hs).
  - apply (IH ks t t' v v' x); try assumption.
    apply NoDup_app_remove_l in Hnd. exact Hnd.
Qed.

Lemma Forall2_In_right {A C} (R : A -> C -> Prop) (l : list A) (l' : list C) c :
  Forall2 R l l' -> In c l' -> exists a, In (a, c) (combine l l') /\ R a c.
Proof.
  induction 1 as [|a c' l l' Hac _ IH]; intros Hin; [contradiction|].
  destruct Hin as [->|Hin].
  - exists a. split; [now left | assumption].
  - destruct (IH Hin) as (a' & Hin' & Hr). exists a'. split; [now right | assumption].
Qed.

Lemma zip_terms (B : Box) index : forall ts (B1 : Box),
  Forall2 (fun e t => as_term e = Some t) index ts ->
  Forall2 (extent_is B) index (map snd B1) ->
  Forall2 (fun t b1 => exists e, as_term e = Some t /\ extent_is B e (snd b1)) ts B1.
Proof.
  induction index as [|e index IH]; intros ts B1 Hts Hext;
    inversion Hts; subst; destruct B1 as [|b1 B1]; inversion Hext; subst;
    constructor.
  - eauto.
  - now apply IH.
Qed.

Lemma NoDup_flat_map {A C} (f : A -> list C) (l : list A) :
  NoDup l -> (forall a, In a l -> NoDup (f a)) ->
  (forall a a' w, In a l -> In a' l -> In w (f a) -> In w (f a') -> a = a') ->
  NoDup (flat_map f l).
Proof.
  induction 1 as [|a l Ha Hnd IH]; intros Hf Hinj; cbn [flat_map]; [constructor|].
  apply NoDup_app.
  - apply Hf. now left.
  - apply IH.
    + intros a' Ha'. apply Hf. now right.
    + intros a1 a2 w H1 H2. apply Hinj; now right.
  - intros w Hw Hw'. apply in_flat_map in Hw'. destruct Hw' as (a' & Ha' & Hw').
    assert (a = a') by (apply (Hinj a a' w); [now left | now right | assumption..]).
    subst a'. contradiction.
Qed.

Lemma box_key_unique (B : Box) b b' :
  NoDup (map fst B) -> In b B -> In b' B -> fst b = fst b' -> b = b'.
Proof.
  intros Hnd Hb Hb' Heq. destruct b as [x n], b' as [x' n']. cbn [fst] in Heq. subst x'.
  f_equal. now apply (@box_extent_unique B x n n' Hnd).
Qed.

(** The term the detector reads in an expression. *)
Definition the_term (e : PrimExpr) : Term :=
  match as_term e with Some t => t | None => mkTerm None 0 end.

Lemma the_terms (l : list PrimExpr) :
  Forall (fun e => exists t, as_term e = Some t) l ->
  Forall2 (fun e t => as_term e = Some t) l (map the_term l).
Proof.
  induction 1 as [|e l (t & Ht) _ IH]; cbn [map]; constructor; [|exact IH].
  unfold the_term. now rewrite Ht.
Qed.

Lemma detect_inverse (B B1 : Box) (index : list PrimExpr) :
  good_box B -> good_box B1 -> Forall (closed_box B) index ->
  errors (detect_terms index (box_analyzer B)) = [] ->
  Forall2 (extent_is B) index (map snd B1) ->
  errors (detect_terms (inverse_index norm_engine index B B1) (box_analyzer B1)) = [].
Proof.
  intros Hgood Hgood1 Hcl Hdet Hext.
  destruct (detected_spec _ _ Hdet) as (ts & Hidx & Hts & Hnd & Hincl & Hcov).
  set (keys1 := map fst B1).
  set (inv := invert_terms ts (map EVar keys1)).
  set (g := fun b : Var * Z =>
              normalize (box_analyzer B1)
                match vmap_find inv (fst b) with
                | Some e => e
                | None => IntImm 0
                end).
  assert (Hform : inverse_index norm_engine index B B1 = map g B).
  { unfold inverse_index, raw_inverse_index. simpl. rewrite Hidx, map_map.
    unfold g, inv, keys1. now rewrite map_map. }
  rewrite Hform. clear Hform Hidx.
  assert (HlenT : List.length ts = List.length keys1).
  { unfold keys1. rewrite <- (Forall2_length Hts), (Forall2_length Hext).
    now rewrite !length_map. }
  pose proof (@zip_terms B index ts B1 Hts Hext) as Hzip.
  (* what the inverse holds for a variable of the box *)
  assert (Hfind : forall x e, vmap_find inv x = Some e ->
            exists t v, In (t, v) (combine ts keys1) /\ term_source t = Some x /\
                        e = op_sub (EVar v) (IntImm (term_offset t))).
  { intros x e He. destruct (inverse_find_spec _ _ _ He) as (t & o & Hin & Hs & ->).
    apply combine_map_r in Hin. destruct Hin as (v & -> & Hin). eauto. }
  (* each output of the inverse is read by the detector *)
  assert (HA : forall b, In b B ->
            exists t', as_term (g b) = Some t' /\
              forall w, term_source t' = Some w ->
                exists t, In (t, w) (combine ts keys1) /\ term_source t = Some (fst b)).
  { intros b Hb. unfold g. destruct (vmap_find inv (fst b)) as [e|] eqn:He.
    - destruct (Hfind _ _ He) as (t & v & Hin & Hs & ->).
      destruct (@normalize_shifted B1 (op_sub (EVar v) (IntImm (term_offset t))) v
                  (- term_offset t) Hgood1) as (t' & Ht' & Hsrc & _).
      + intros y Hy. apply free_vars_op_sub in Hy. cbn [free_vars app] in Hy.
        destruct Hy as [<-|[]]. now apply in_combine_r in Hin.
      + now apply in_combine_r in Hin.
      + intros env _. rewrite eval_op_sub. cbn [eval]. lia.
      + exists t'. split; [exact Ht'|]. intros w Hw. apply Hsrc in Hw. subst w. eauto.
    - rewrite normalize_const. exists (mkTerm None 0). split; [reflexivity|].
      cbn [term_source]. discriminate. }
  apply (@detected_intro (map g B) (box_analyzer B1) (map the_term (map g B))).
  - apply the_terms. apply Forall_map. apply Forall_forall. intros b Hb.
    destruct (HA b Hb) as (t' & Ht' & _). eauto.
  - unfold sources. rewrite map_map, flat_map_concat_map, map_map, <- flat_map_concat_map.
    apply NoDup_flat_map.
    + apply (NoDup_map_inv fst). apply Hgood.
    + intros b Hb. unfold source_list. destruct (term_source _); repeat constructor.
      intros [].
    + intros b b' w Hb Hb' Hw Hw'.
      destruct (HA b Hb) as (t1 & Ht1 & Hs1). destruct (HA b' Hb') as (t2 & Ht2 & Hs2).
      unfold the_term in Hw, Hw'. rewrite Ht1 in Hw. rewrite Ht2 in Hw'.
      unfold source_list in Hw, Hw'.
      destruct (term_source t1) as [w1|] eqn:Hw1; [|contradiction].
      destruct (term_source t2) as [w2|] eqn:Hw2; [|contradiction].
      destruct Hw as [->|[]]. destruct Hw' as [->|[]].
      destruct (Hs1 w eq_refl) as (u1 & Hu1 & Hsrc1).
      destruct (Hs2 w eq_refl) as (u2 & Hu2 & Hsrc2).
      assert (u1 = u2) by (apply (@combine_key_unique _ _ ts keys1 u1 u2 w);
                           [apply Hgood1 | assumption..]).
      subst u2. apply (@box_key_unique B b b'); [apply Hgood | assumption..|congruence].
  - intros w Hw. rewrite box_analyzer_vars. fold keys1.
    apply sources_In in Hw. destruct Hw as (t' & Hin & Hs).
    apply in_map_iff in Hin. destruct Hin as (e & <- & Hin).
    apply in_map_iff in Hin. destruct Hin as (b & <- & Hb).
    destruct (HA b Hb) as (t1 & Ht1 & Hs1). unfold the_term in Hs. rewrite Ht1 in Hs.
    destruct (Hs1 w Hs) as (u & Hu & _). now apply in_combine_r in Hu.
  - intros v r Hvr. unfold box_analyzer in Hvr. apply in_map_iff in Hvr.
    destruct Hvr as ([v' n1] & Heq & Hin1). unfold box_range in Heq. cbn [fst snd] in Heq.
    injection Heq as Hv Hr. subst v' r. cbn [extent].
    destruct (Z.eq_dec n1 1) as [->|Hn1]; [now right | left].
    destruct (@Forall2_In_right _ _ _ _ _ _ Hzip Hin1) as (t & Hin & (e & He & Hex)).
    cbn [snd] in Hex.
    (* the output of extent above one reads a variable of the box *)
    assert (Hsrc : exists x, term_source t = Some x).
    { destruct (term_source t) as [x|] eqn:Hs; [eauto | exfalso].
      destruct Hex as (_ & (e0 & _ & H0) & (e1 & _ & H1)).
      rewrite (as_term_eval _ e0 He) in H0. rewrite (as_term_eval _ e1 He) in H1.
      unfold term_value in H0, H1. rewrite Hs in H0, H1. lia. }
    destruct Hsrc as (x & Hs).
    assert (Hx : In x (sources ts)).
    { apply sources_In. exists t. split; [now apply in_combine_l in Hin | exact Hs]. }
    pose proof (Hincl x Hx) as Hxb. rewrite box_analyzer_vars in Hxb.
    apply in_map_iff in Hxb. destruct Hxb as (b & Hfst & Hb).
    assert (Hkey : In (t, v) (combine ts keys1)).
    { unfold keys1. now apply (combine_map_fst fst) in Hin. }
    destruct (@vmap_find_keys inv x) as (e' & He').
    { unfold inv. rewrite inverse_sources; [exact Hx | now rewrite length_map]. }
    destruct (Hfind _ _ He') as (t2 & v2 & Hin2 & Hs2 & ->).
    assert (v = v2) by (apply (@combine_source_unique ts keys1 t t2 v v2 x); assumption).
    subst v2.
    destruct (@normalize_shifted B1 (op_sub (EVar v) (IntImm (term_offset t2))) v
                (- term_offset t2) Hgood1) as (t' & Ht' & Hsrc' & Hnone).
    + intros y Hy. apply free_vars_op_sub in Hy. cbn [free_vars app] in Hy.
      destruct Hy as [<-|[]]. now apply in_combine_r in Hkey.
    + now apply in_combine_r in Hkey.
    + intros env _. rewrite eval_op_sub. cbn [eval]. lia.
    + apply sources_In. exists t'. split.
      * apply in_map_iff. exists (g b). split.
        -- unfold the_term, g. rewrite Hfst, He'. now rewrite Ht'.
        -- now apply in_map.
      * destruct (term_source t') as [w|] eqn:Hw.
        -- f_equal. now apply Hsrc'.
        -- exfalso. apply Hn1.
           apply (@box_extent_unique B1 v n1 1); [apply Hgood1 | exact Hin1 | auto].
Qed.

#[export] Instance normal_form_laws : NormalFormLaws norm_engine.
Proof.
  constructor.
  - apply detect_inverse.
  - intros B B' index index' zs Hgood Hgood' Hext Hcl Hcl' Hdet _ Hval Hlen.
    unfold simplified_at. apply normal_list; try assumption.
    apply detected_terms in Hdet. rewrite Forall_forall in *.
    intros a Ha. apply Hdet. now apply in_map.
Qed.

End NormEngineFacts.

(** ** The round trip on the transposition *)

Lemma transpose_layout_over :
  layout_over transpose_layout [(mkVar "i" 0, 4); (mkVar "j" 1, 8)].
Proof.
  split.
  - reflexivity.
  - split; [repeat constructor; lia|].
    simpl. repeat constructor; simpl; intuition discriminate.
  - simpl. constructor; [|constructor; [|constructor]];
      intros x [<-|[]]; simpl; auto.
Qed.

(** The transposition as the constructor builds it with the normalising
    engine. *)
Definition transposition : LayoutNode :=
  Layout_ctor NormEngine.norm_engine
    (forward_var_ transpose_layout) (forward_index_ transpose_layout).


(** A layout over [[0, 4)] whose output ranges over [[2, 6)], and a layout
    over the domain [[2, 6)] mapped onto [[0, 4)], both as the constructor
    builds them with the normalising engine. *)
Definition shifted_output_layout : LayoutNode :=
  Layout_ctor NormEngine.norm_engine
    [mkIterVar (mkRange (IntImm 0) (IntImm 4)) (mkVar "i" 0) kDataPar]
    [Add (EVar (mkVar "i" 0)) (IntImm 2)].

Definition offset_domain_layout : LayoutNode :=
  Layout_ctor NormEngine.norm_engine
    [mkIterVar (mkRange (IntImm 2) (IntImm 4)) (mkVar "i" 0) kDataPar]
    [Sub (EVar (mkVar "i" 0)) (IntImm 2)].


(** The normalising engine simplifies under the bound domains: the
    constructor reduces [i mod 4] over [[0, 4)] to [i]. *)
Lemma Layout_ctor_reduces_wrapped_index :
  Layout_ctor NormEngine.norm_engine
    [mkIterVar (mkRange (IntImm 0) (IntImm 4)) (mkVar "i" 0) kDataPar]
    [FloorMod (EVar (mkVar "i" 0)) (IntImm 4)]
  = mkLayout [mkIterVar (mkRange (IntImm 0) (IntImm 4)) (mkVar "i" 0) kDataPar]
             [EVar (mkVar "i" 0)].
Proof. vm_compute. reflexivity. Qed.

(* ================================================================== *)
(** * The shared-memory layouts are injective *)

(** No two points of the input domain have the same outputs. *)
Definition layout_injective (L : LayoutNode) : Prop :=
  forall env1 env2,
    models env1 (LayoutNode_UpdateAnalyzer L []) ->
    models env2 (LayoutNode_UpdateAnalyzer L []) ->
    map (eval env1) (forward_index_ L) = map (eval env2) (forward_index_ L) ->
    map env1 (map var (forward_var_ L)) = map env2 (map var (forward_var_ L)).

(** The value of [xor4x4] and of [xor8x8]. *)
Definition xor4 (a b : Z) : Z :=
  2 * ((a / 2 + b / 2) mod 2) + (a mod 2 + b mod 2) mod 2.

Definition xor8 (a b : Z) : Z :=
  2 * (2 * ((a / 2 / 2 + b / 2 / 2) mod 2) + (a / 2 mod 2 + b / 2 mod 2) mod 2)
  + (a mod 2 + b mod 2) mod 2.

Lemma xor4_range a b : 0 <= a < 4 -> 0 <= b < 4 -> 0 <= xor4 a b < 4.
Proof.
  intros Ha Hb. change 4 with (Z.of_nat 4) in Ha, Hb.
  enum_range Ha; enum_range Hb; vm_compute; split; congruence.
Qed.

Lemma xor4_cancel a a' b :
  0 <= a < 4 -> 0 <= a' < 4 -> 0 <= b < 4 -> xor4 a b = xor4 a' b -> a = a'.
Proof.
  intros Ha Ha' Hb. change 4 with (Z.of_nat 4) in Ha, Ha', Hb.
  enum_range Ha; enum_range Ha'; enum_range Hb; vm_compute; congruence.
Qed.

Lemma xor4_cancel_r a b b' :
  0 <= a < 4 -> 0 <= b < 4 -> 0 <= b' < 4 -> xor4 a b = xor4 a b' -> b = b'.
Proof.
  intros Ha Hb Hb'. change 4 with (Z.of_nat 4) in Ha, Hb, Hb'.
  enum_range Ha; enum_range Hb; enum_range Hb'; vm_compute; congruence.
Qed.

Lemma xor8_range a b : 0 <= a < 8 -> 0 <= b < 8 -> 0 <= xor8 a b < 8.
Proof.
  intros Ha Hb. change 8 with (Z.of_nat 8) in Ha, Hb.
  enum_range Ha; enum_range Hb; vm_compute; split; congruence.
Qed.

Lemma xor8_cancel a a' b :
  0 <= a < 8 -> 0 <= a' < 8 -> 0 <= b < 8 -> xor8 a b = xor8 a' b -> a = a'.
Proof.
  intros Ha Ha' Hb. change 8 with (Z.of_nat 8) in Ha, Ha', Hb.
  enum_range Ha; enum_range Ha'; enum_range Hb; vm_compute; congruence.
Qed.

(** A number is determined by its digit and the rest. *)
Lemma digits_unique k a b a' b' :
  0 <= a < k -> 0 <= a' < k -> a + b * k = a' + b' * k -> a = a' /\ b = b'.
Proof.
  intros Ha Ha' H.
  assert (b = b') by (destruct (Z.lt_trichotomy b b') as [Hlt|[Heq|Hgt]]; nia).
  subst. lia.
Qed.

Lemma div_mod_unique k x y : k <> 0 -> x / k = y / k -> x mod k = y mod k -> x = y.
Proof.
  intros Hk Hd Hm. rewrite (Z.div_mod x k Hk), (Z.div_mod y k Hk). congruence.
Qed.

Section LayoutFactoryFacts.
Variable E : Engine.
Context {HE : EngineLaws E}.

(** On its domain a layout built by the constructor has the values of the
    expressions it was given. *)
Lemma Layout_ctor_eval fv index env :
  models env (LayoutNode_UpdateAnalyzer (Layout_ctor E fv index) []) ->
  map (eval env) (forward_index_ (Layout_ctor E fv index)) = map (eval env) index.
Proof.
  intros Hm. unfold Layout_ctor in *. simpl in *. rewrite map_map.
  apply map_ext. intros e. now apply Simplify_sound.
Qed.

(** The domain the two-variable layouts range over. *)
Lemma models_two_vars env fv index (x y : Var) (n m : Z) :
  fv = [mkIterVar (Range_ctor (IntImm 0) (IntImm n)) x kDataPar;
        mkIterVar (Range_ctor (IntImm 0) (IntImm m)) y kDataPar] ->
  models env (LayoutNode_UpdateAnalyzer (Layout_ctor E fv index) []) ->
  0 <= env x < n /\ 0 <= env y < m.
Proof.
  intros -> Hm. unfold Layout_ctor, LayoutNode_UpdateAnalyzer in Hm. simpl in Hm.
  inversion Hm as [|? ? Hx Hm']; subst. inversion Hm' as [|? ? Hy _]; subst.
  unfold in_range in Hx, Hy. simpl in Hx, Hy. lia.
Qed.

Ltac eval_index H :=
  rewrite !Layout_ctor_eval in H by assumption;
  cbn [map eval] in H;
  repeat rewrite ?eval_op_add, ?eval_op_mul, ?eval_xor4x4, ?eval_xor8x8 in H;
  cbn [eval] in H.

Ltac mod_bounds :=
  repeat match goal with
         | |- context [?a mod ?k] =>
             lazymatch goal with
             | _ : 0 <= a mod k < k |- _ => fail
             | _ => pose proof (Z.mod_pos_bound a k ltac:(lia))
             end
         | H : context [?a mod ?k] |- _ =>
             lazymatch goal with
             | _ : 0 <= a mod k < k |- _ => fail
             | _ => pose proof (Z.mod_pos_bound a k ltac:(lia))
             end
         end.

Lemma half_bank_decode vs i1 j1 i2 j2 :
  0 < vs ->
  j1 / vs / 4 = j2 / vs / 4 ->
  i1 / 8 = i2 / 8 ->
  j1 mod vs + (xor4 ((j1 / vs) mod 4) (i1 mod 8 / 2) + i1 mod 8 * 4) * vs
  = j2 mod vs + (xor4 ((j2 / vs) mod 4) (i2 mod 8 / 2) + i2 mod 8 * 4) * vs ->
  i1 = i2 /\ j1 = j2.
Proof.
  intros Hvs Htc Hts Hidx.
  pose proof (Z.mod_pos_bound j1 vs ltac:(lia)).
  pose proof (Z.mod_pos_bound j2 vs ltac:(lia)).
  apply digits_unique in Hidx; [|assumption|assumption]. destruct Hidx as [Hvec Hrow].
  pose proof (Z.mod_pos_bound i1 8 ltac:(lia)) as Hs1.
  pose proof (Z.mod_pos_bound i2 8 ltac:(lia)) as Hs2.
  pose proof (Z.mod_pos_bound (j1 / vs) 4 ltac:(lia)) as Hc1.
  pose proof (Z.mod_pos_bound (j2 / vs) 4 ltac:(lia)) as Hc2.
  assert (Hh1 : 0 <= i1 mod 8 / 2 < 4)
    by (split; [apply Z.div_pos; lia | apply Z.div_lt_upper_bound; lia]).
  assert (Hh2 : 0 <= i2 mod 8 / 2 < 4)
    by (split; [apply Z.div_pos; lia | apply Z.div_lt_upper_bound; lia]).
  apply digits_unique in Hrow; [|now apply xor4_range|now apply xor4_range].
  destruct Hrow as [Hx Hrow]. rewrite Hrow in Hx.
  apply xor4_cancel in Hx; try assumption.
  assert (Hi : i1 = i2) by (apply (div_mod_unique (k := 8)); [lia | assumption | assumption]).
  assert (Hjv : j1 / vs = j2 / vs)
    by (apply (div_mod_unique (k := 4)); [lia | assumption | assumption]).
  split; [assumption|].
  apply (div_mod_unique (k := vs)); [lia | assumption | assumption].
Qed.

Lemma full_bank_decode vs i1 j1 i2 j2 :
  0 < vs ->
  j1 / vs / 8 = j2 / vs / 8 ->
  i1 / 8 = i2 / 8 ->
  j1 mod vs + (xor8 ((j1 / vs) mod 8) (i1 mod 8) + i1 mod 8 * 8) * vs
  = j2 mod vs + (xor8 ((j2 / vs) mod 8) (i2 mod 8) + i2 mod 8 * 8) * vs ->
  i1 = i2 /\ j1 = j2.
Proof.
  intros Hvs Htc Hts Hidx.
  pose proof (Z.mod_pos_bound j1 vs ltac:(lia)).
  pose proof (Z.mod_pos_bound j2 vs ltac:(lia)).
  apply digits_unique in Hidx; [|assumption|assumption]. destruct Hidx as [Hvec Hrow].
  pose proof (Z.mod_pos_bound i1 8 ltac:(lia)) as Hs1.
  pose proof (Z.mod_pos_bound i2 8 ltac:(lia)) as Hs2.
  pose proof (Z.mod_pos_bound (j1 / vs) 8 ltac:(lia)) as Hc1.
  pose proof (Z.mod_pos_bound (j2 / vs) 8 ltac:(lia)) as Hc2.
  apply digits_unique in Hrow; [|now apply xor8_range|now apply xor8_range].
  destruct Hrow as [Hx Hrow]. rewrite Hrow in Hx.
  apply xor8_cancel in Hx; try assumption.
  assert (Hi : i1 = i2) by (apply (div_mod_unique (k := 8)); [lia | assumption | assumption]).
  assert (Hjv : j1 / vs = j2 / vs)
    by (apply (div_mod_unique (k := 8)); [lia | assumption | assumption]).
  split; [assumption|].
  apply (div_mod_unique (k := vs)); [lia | assumption | assumption].
Qed.

Lemma f64_kinner_decode i1 j1 i2 j2 :
  j1 / 16 = j2 / 16 ->
  i1 / 4 = i2 / 4 ->
  j1 mod 16 / 4 * 4 + xor4 (j1 mod 16 mod 4) (i1 mod 4) + i1 mod 4 * 16
  = j2 mod 16 / 4 * 4 + xor4 (j2 mod 16 mod 4) (i2 mod 4) + i2 mod 4 * 16 ->
  i1 = i2 /\ j1 = j2.
Proof.
  intros Htc Hts Hidx.
  pose proof (Z.mod_pos_bound i1 4 ltac:(lia)) as Hs1.
  pose proof (Z.mod_pos_bound i2 4 ltac:(lia)) as Hs2.
  pose proof (Z.mod_pos_bound j1 16 ltac:(lia)) as Hc1.
  pose proof (Z.mod_pos_bound j2 16 ltac:(lia)) as Hc2.
  pose proof (Z.mod_pos_bound (j1 mod 16) 4 ltac:(lia)) as Hl1.
  pose proof (Z.mod_pos_bound (j2 mod 16) 4 ltac:(lia)) as Hl2.
  pose proof (xor4_range Hl1 Hs1) as Hx1. pose proof (xor4_range Hl2 Hs2) as Hx2.
  assert (Hd1 : 0 <= j1 mod 16 / 4 < 4)
    by (split; [apply Z.div_pos; lia | apply Z.div_lt_upper_bound; lia]).
  assert (Hd2 : 0 <= j2 mod 16 / 4 < 4)
    by (split; [apply Z.div_pos; lia | apply Z.div_lt_upper_bound; lia]).
  apply digits_unique in Hidx; [|lia|lia]. destruct Hidx as [Hswz Hs].
  assert (Hswz' : xor4 (j1 mod 16 mod 4) (i1 mod 4) + j1 mod 16 / 4 * 4
                  = xor4 (j2 mod 16 mod 4) (i2 mod 4) + j2 mod 16 / 4 * 4) by lia.
  apply digits_unique in Hswz'; [|assumption|assumption]. destruct Hswz' as [Hx Hh].
  rewrite Hs in Hx. apply xor4_cancel in Hx; try assumption.
  assert (Hc : j1 mod 16 = j2 mod 16)
    by (apply (div_mod_unique (k := 4)); [lia | assumption | assumption]).
  split; [apply (div_mod_unique (k := 4)) | apply (div_mod_unique (k := 16))];
    solve [lia | assumption].
Qed.

Lemma f64_kouter_decode i1 j1 i2 j2 :
  j1 / 16 = j2 / 16 ->
  i1 / 4 = i2 / 4 ->
  j1 mod 16 mod 4 + xor4 (j1 mod 16 / 4) (i1 mod 4) * 4 + i1 mod 4 * 16
  = j2 mod 16 mod 4 + xor4 (j2 mod 16 / 4) (i2 mod 4) * 4 + i2 mod 4 * 16 ->
  i1 = i2 /\ j1 = j2.
Proof.
  intros Htc Hts Hidx.
  pose proof (Z.mod_pos_bound i1 4 ltac:(lia)) as Hs1.
  pose proof (Z.mod_pos_bound i2 4 ltac:(lia)) as Hs2.
  pose proof (Z.mod_pos_bound j1 16 ltac:(lia)) as Hc1.
  pose proof (Z.mod_pos_bound j2 16 ltac:(lia)) as Hc2.
  pose proof (Z.mod_pos_bound (j1 mod 16) 4 ltac:(lia)) as Hl1.
  pose proof (Z.mod_pos_bound (j2 mod 16) 4 ltac:(lia)) as Hl2.
  assert (Hd1 : 0 <= j1 mod 16 / 4 < 4)
    by (split; [apply Z.div_pos; lia | apply Z.div_lt_upper_bound; lia]).
  assert (Hd2 : 0 <= j2 mod 16 / 4 < 4)
    by (split; [apply Z.div_pos; lia | apply Z.div_lt_upper_bound; lia]).
  pose proof (xor4_range Hd1 Hs1) as Hx1. pose proof (xor4_range Hd2 Hs2) as Hx2.
  apply digits_unique in Hidx; [|lia|lia]. destruct Hidx as [Hswz Hs].
  apply digits_unique in Hswz; [|assumption|assumption]. destruct Hswz as [Hl Hx].
  rewrite Hs in Hx. apply xor4_cancel in Hx; try assumption.
  assert (Hc : j1 mod 16 = j2 mod 16)
    by (apply (div_mod_unique (k := 4)); [lia | assumption | assumption]).
  split; [apply (div_mod_unique (k := 4)) | apply (div_mod_unique (k := 16))];
    solve [lia | assumption].
Qed.

Lemma div_range a k n : 0 < k -> 0 <= a < k * n -> 0 <= a / k < n.
Proof.
  intros Hk Ha. split; [apply Z.div_pos; lia | apply Z.div_lt_upper_bound; lia].
Qed.

(** The offset within a row of the congruous layouts stays within the row. *)
Lemma congruous_row_bound cont j p :
  Z.rem cont 64 = 0 -> 0 <= j < cont -> 0 <= p < 8 ->
  0 <= j mod 8 + (p + j / 8 / 8 * 8) * 8 < cont.
Proof.
  intros Hc Hj Hp. apply Z.rem_divide in Hc; [|lia]. destruct Hc as [m ->].
  pose proof (Z.div_mod j 8 ltac:(lia)) as H1.
  pose proof (Z.div_mod (j / 8) 8 ltac:(lia)) as H2.
  pose proof (Z.mod_pos_bound j 8 ltac:(lia)).
  pose proof (Z.mod_pos_bound (j / 8) 8 ltac:(lia)).
  generalize dependent (j mod 8). generalize dependent ((j / 8) mod 8).
  generalize dependent (j / 8 / 8). generalize dependent (j / 8).
  intros a b t Ha Ht r Hjr Hr. assert (b < m) by lia. lia.
Qed.

(** The common part of the two congruous layouts: [pst] and [pct] are the
    permuted positions within a tile. *)
Lemma congruous_decode cont i1 j1 i2 j2 pst1 pct1 pst2 pct2 :
  Z.rem cont 64 = 0 -> 0 <= j1 < cont -> 0 <= j2 < cont ->
  0 <= pst1 < 4 -> 0 <= pst2 < 4 -> 0 <= pct1 < 8 -> 0 <= pct2 < 8 ->
  (pst1 + i1 / 4 * 4) * cont + (j1 mod 8 + (pct1 + j1 / 8 / 8 * 8) * 8)
  = (pst2 + i2 / 4 * 4) * cont + (j2 mod 8 + (pct2 + j2 / 8 / 8 * 8) * 8) ->
  pst1 = pst2 /\ pct1 = pct2 /\ i1 / 4 = i2 / 4 /\ j1 mod 8 = j2 mod 8 /\
  j1 / 8 / 8 = j2 / 8 / 8.
Proof.
  intros Hc Hj1 Hj2 Hs1 Hs2 Hp1 Hp2 Heq.
  pose proof (congruous_row_bound Hc Hj1 Hp1) as Hb1.
  pose proof (congruous_row_bound Hc Hj2 Hp2) as Hb2.
  assert (Heq' : (j1 mod 8 + (pct1 + j1 / 8 / 8 * 8) * 8) + (pst1 + i1 / 4 * 4) * cont
                 = (j2 mod 8 + (pct2 + j2 / 8 / 8 * 8) * 8) + (pst2 + i2 / 4 * 4) * cont)
    by lia.
  apply digits_unique in Heq'; [|assumption|assumption]. destruct Heq' as [Hec Hes].
  apply digits_unique in Hes; [|assumption|assumption]. destruct Hes as [Hpst Hi].
  pose proof (Z.mod_pos_bound j1 8 ltac:(lia)).
  pose proof (Z.mod_pos_bound j2 8 ltac:(lia)).
  apply digits_unique in Hec; [|assumption|assumption]. destruct Hec as [Hj8 Hrest].
  apply digits_unique in Hrest; [|assumption|assumption]. destruct Hrest as [Hpct Hj64].
  auto.
Qed.

Lemma congruous_a_decode cont i1 j1 i2 j2 :
  Z.rem cont 64 = 0 -> 0 <= j1 < cont -> 0 <= j2 < cont ->
  ((j1 / 8) mod 8 / 2 + i1 / 4 * 4) * cont
  + (j1 mod 8 + ((j1 / 8) mod 8 mod 2 * 4 + xor4 (i1 mod 4) ((j1 / 8) mod 8 / 2)
                 + j1 / 8 / 8 * 8) * 8)
  = ((j2 / 8) mod 8 / 2 + i2 / 4 * 4) * cont
    + (j2 mod 8 + ((j2 / 8) mod 8 mod 2 * 4 + xor4 (i2 mod 4) ((j2 / 8) mod 8 / 2)
                   + j2 / 8 / 8 * 8) * 8) ->
  i1 = i2 /\ j1 = j2.
Proof.
  intros Hc Hj1 Hj2 Heq.
  pose proof (Z.mod_pos_bound i1 4 ltac:(lia)) as Hr1.
  pose proof (Z.mod_pos_bound i2 4 ltac:(lia)) as Hr2.
  pose proof (Z.mod_pos_bound (j1 / 8) 8 ltac:(lia)) as Ht1.
  pose proof (Z.mod_pos_bound (j2 / 8) 8 ltac:(lia)) as Ht2.
  pose proof (@div_range ((j1 / 8) mod 8) 2 4 ltac:(lia) ltac:(lia)) as Hp1.
  pose proof (@div_range ((j2 / 8) mod 8) 2 4 ltac:(lia) ltac:(lia)) as Hp2.
  pose proof (Z.mod_pos_bound ((j1 / 8) mod 8) 2 ltac:(lia)) as Hl1.
  pose proof (Z.mod_pos_bound ((j2 / 8) mod 8) 2 ltac:(lia)) as Hl2.
  pose proof (xor4_range Hr1 Hp1) as Hx1. pose proof (xor4_range Hr2 Hp2) as Hx2.
  apply congruous_decode in Heq; try assumption; try lia.
  destruct Heq as (Hpst & Hpct & Hi4 & Hj8 & Hj64).
  assert (Hpct' : xor4 (i1 mod 4) ((j1 / 8) mod 8 / 2) + (j1 / 8) mod 8 mod 2 * 4
                  = xor4 (i2 mod 4) ((j2 / 8) mod 8 / 2) + (j2 / 8) mod 8 mod 2 * 4)
    by lia.
  apply digits_unique in Hpct'; [|assumption|assumption]. destruct Hpct' as [Hx Hl].
  rewrite Hpst in Hx. apply xor4_cancel in Hx; try assumption.
  assert (Ht : (j1 / 8) mod 8 = (j2 / 8) mod 8)
    by (apply (div_mod_unique (k := 2)); solve [lia | assumption]).
  assert (Hj : j1 / 8 = j2 / 8)
    by (apply (div_mod_unique (k := 8)); solve [lia | assumption]).
  split; [apply (div_mod_unique (k := 4)) | apply (div_mod_unique (k := 8))];
    solve [lia | assumption].
Qed.

Lemma congruous_b_decode cont i1 j1 i2 j2 :
  Z.rem cont 64 = 0 -> 0 <= j1 < cont -> 0 <= j2 < cont ->
  ((j1 / 8) mod 8 mod 4 + i1 / 4 * 4) * cont
  + (j1 mod 8 + ((j1 / 8) mod 8 / 4 * 4 + xor4 (i1 mod 4) ((j1 / 8) mod 8 mod 4)
                 + j1 / 8 / 8 * 8) * 8)
  = ((j2 / 8) mod 8 mod 4 + i2 / 4 * 4) * cont
    + (j2 mod 8 + ((j2 / 8) mod 8 / 4 * 4 + xor4 (i2 mod 4) ((j2 / 8) mod 8 mod 4)
                   + j2 / 8 / 8 * 8) * 8) ->
  i1 = i2 /\ j1 = j2.
Proof.
  intros Hc Hj1 Hj2 Heq.
  pose proof (Z.mod_pos_bound i1 4 ltac:(lia)) as Hr1.
  pose proof (Z.mod_pos_bound i2 4 ltac:(lia)) as Hr2.
  pose proof (Z.mod_pos_bound (j1 / 8) 8 ltac:(lia)) as Ht1.
  pose proof (Z.mod_pos_bound (j2 / 8) 8 ltac:(lia)) as Ht2.
  pose proof (@div_range ((j1 / 8) mod 8) 4 2 ltac:(lia) ltac:(lia)) as Hp1.
  pose proof (@div_range ((j2 / 8) mod 8) 4 2 ltac:(lia) ltac:(lia)) as Hp2.
  pose proof (Z.mod_pos_bound ((j1 / 8) mod 8) 4 ltac:(lia)) as Hl1.
  pose proof (Z.mod_pos_bound ((j2 / 8) mod 8) 4 ltac:(lia)) as Hl2.
  pose proof (xor4_range Hr1 Hl1) as Hx1. pose proof (xor4_range Hr2 Hl2) as Hx2.
  apply congruous_decode in Heq; try assumption; try lia.
  destruct Heq as (Hpst & Hpct & Hi4 & Hj8 & Hj64).
  assert (Hpct' : xor4 (i1 mod 4) ((j1 / 8) mod 8 mod 4) + (j1 / 8) mod 8 / 4 * 4
                  = xor4 (i2 mod 4) ((j2 / 8) mod 8 mod 4) + (j2 / 8) mod 8 / 4 * 4)
    by lia.
  apply digits_unique in Hpct'; [|assumption|assumption]. destruct Hpct' as [Hx Hl].
  rewrite Hpst in Hx. apply xor4_cancel in Hx; try assumption.
  assert (Ht : (j1 / 8) mod 8 = (j2 / 8) mod 8)
    by (apply (div_mod_unique (k := 4)); solve [lia | assumption]).
  assert (Hj : j1 / 8 = j2 / 8)
    by (apply (div_mod_unique (k := 8)); solve [lia | assumption]).
  split; [apply (div_mod_unique (k := 4)) | apply (div_mod_unique (k := 8))];
    solve [lia | assumption].
Qed.

(** The bits of an index that the crosswise layout permutes. *)
Lemma low_bits i :
  i = 16 * (i / 16) + 8 * (i mod 16 / 8) + 4 * (i mod 8 / 4) + i mod 4 /\
  0 <= i mod 16 / 8 < 2 /\ 0 <= i mod 8 / 4 < 2 /\ 0 <= i mod 4 < 4 /\
  i mod 32 / 16 = (i / 16) mod 2.
Proof. Z.to_euclidean_division_equations. lia. Qed.

Lemma parity_cancel a a' c :
  0 <= a < 2 -> 0 <= a' < 2 -> (a + c) mod 2 = (a' + c) mod 2 -> a = a'.
Proof. intros Ha Ha' H. Z.to_euclidean_division_equations. lia. Qed.

Lemma crosswise_decode stride i1 j1 i2 j2 :
  Z.rem stride 32 = 0 -> 0 <= i1 < stride -> 0 <= i2 < stride ->
  j1 mod 4
  + (i1 / 16 * 16 + i1 mod 4 * 4
     + (i1 mod 32 / 16 + i1 mod 16 / 8 + (j1 / 4) mod 8 / 4) mod 2 * 2
     + (i1 mod 8 / 4 + (j1 / 4) mod 8 mod 4 / 2) mod 2) * 4
  + j1 / 4 * stride * 4
  = j2 mod 4
    + (i2 / 16 * 16 + i2 mod 4 * 4
       + (i2 mod 32 / 16 + i2 mod 16 / 8 + (j2 / 4) mod 8 / 4) mod 2 * 2
       + (i2 mod 8 / 4 + (j2 / 4) mod 8 mod 4 / 2) mod 2) * 4
    + j2 / 4 * stride * 4 ->
  i1 = i2 /\ j1 = j2.
Proof.
  intros Hs Hi1 Hi2 Heq.
  apply Z.rem_divide in Hs; [|lia]. destruct Hs as [m Hm].
  destruct (low_bits i1) as (Hd1 & Hb31 & Hb21 & Hl1 & Hh1).
  destruct (low_bits i2) as (Hd2 & Hb32 & Hb22 & Hl2 & Hh2).
  rewrite Hh1, Hh2 in Heq.
  set (v1 := (j1 / 4) mod 8) in *. set (v2 := (j2 / 4) mod 8) in *.
  pose proof (Z.mod_pos_bound (i1 / 16 mod 2 + i1 mod 16 / 8 + v1 / 4) 2 ltac:(lia)) as Hx1.
  pose proof (Z.mod_pos_bound (i2 / 16 mod 2 + i2 mod 16 / 8 + v2 / 4) 2 ltac:(lia)) as Hx2.
  pose proof (Z.mod_pos_bound (i1 mod 8 / 4 + v1 mod 4 / 2) 2 ltac:(lia)) as Hy1.
  pose proof (Z.mod_pos_bound (i2 mod 8 / 4 + v2 mod 4 / 2) 2 ltac:(lia)) as Hy2.
  set (x1 := (i1 / 16 mod 2 + i1 mod 16 / 8 + v1 / 4) mod 2) in *.
  set (x2 := (i2 / 16 mod 2 + i2 mod 16 / 8 + v2 / 4) mod 2) in *.
  set (y1 := (i1 mod 8 / 4 + v1 mod 4 / 2) mod 2) in *.
  set (y2 := (i2 mod 8 / 4 + v2 mod 4 / 2) mod 2) in *.
  assert (Hh1' : 0 <= i1 / 16 < 2 * m) by (apply div_range; lia).
  assert (Hh2' : 0 <= i2 / 16 < 2 * m) by (apply div_range; lia).
  pose proof (Z.mod_pos_bound j1 4 ltac:(lia)). pose proof (Z.mod_pos_bound j2 4 ltac:(lia)).
  assert (Heq' : j1 mod 4
                 + ((y1 + x1 * 2 + i1 mod 4 * 4 + i1 / 16 * 16) + j1 / 4 * stride) * 4
                 = j2 mod 4
                   + ((y2 + x2 * 2 + i2 mod 4 * 4 + i2 / 16 * 16) + j2 / 4 * stride) * 4)
    by lia.
  apply digits_unique in Heq'; [|assumption|assumption]. destruct Heq' as [Hj4 Heq'].
  apply digits_unique in Heq'; [|lia|lia]. destruct Heq' as [Hp Hjq].
  assert (Hj : j1 = j2) by (apply (div_mod_unique (k := 4)); solve [lia | assumption]).
  split; [|assumption].
  assert (Hv : v1 = v2) by (unfold v1, v2; now rewrite Hjq).
  assert (Hp' : y1 + (x1 + (i1 mod 4 + i1 / 16 * 4) * 2) * 2
                = y2 + (x2 + (i2 mod 4 + i2 / 16 * 4) * 2) * 2) by lia.
  apply digits_unique in Hp'; [|assumption|assumption]. destruct Hp' as [Hy Hp'].
  apply digits_unique in Hp'; [|assumption|assumption]. destruct Hp' as [Hx Hp'].
  apply digits_unique in Hp'; [|assumption|assumption]. destruct Hp' as [Hl Hh].
  unfold y1, y2 in Hy. rewrite Hv in Hy. apply parity_cancel in Hy; try assumption.
  unfold x1, x2 in Hx. rewrite Hv, Hh in Hx.
  replace (i2 / 16 mod 2 + i1 mod 16 / 8 + v2 / 4)
    with (i1 mod 16 / 8 + (i2 / 16 mod 2 + v2 / 4)) in Hx by lia.
  replace (i2 / 16 mod 2 + i2 mod 16 / 8 + v2 / 4)
    with (i2 mod 16 / 8 + (i2 / 16 mod 2 + v2 / 4)) in Hx by lia.
  apply parity_cancel in Hx; try assumption.
  lia.
Qed.

Ltac run_factory :=
  cbv beta iota zeta delta [makeGemmABLayoutHalfBank makeGemmABLayoutFullBank
                              makeGemmABLayoutF64_Kinner makeGemmABLayoutF64_Kouter
                              makeGemmABLayoutPadded MakeGemmVoltaABLayoutCrosswise
                              MakeGemmVoltaALayoutCongruous
                              MakeGemmVoltaBLayoutCongruous make_itervar divides_check
                              int_div int_rem bind ret lift new_Var ICHECK].

Ltac conclude_two_vars Heq decode :=
  simpl; revert Heq;
  match goal with
  | |- _ -> [?e1 ?x; ?e1 ?y] = [?e2 ?x; ?e2 ?y] =>
      generalize (e1 x) (e1 y) (e2 x) (e2 y)
  end;
  let i1 := fresh "i" in let j1 := fresh "j" in
  let i2 := fresh "i" in let j2 := fresh "j" in
  intros i1 j1 i2 j2 Heq; injection Heq as Htc Hts Hidx;
  destruct (decode i1 j1 i2 j2) as [-> ->]; auto.

Lemma makeGemmABLayoutHalfBank_spec stride continuous element_size s :
  0 < element_size <= 128 ->
  Z.rem stride 8 = 0 ->
  Z.rem continuous (Z.quot 128 element_size * 4) = 0 ->
  exists L,
    makeGemmABLayoutHalfBank E stride continuous element_size s = Ok (L, S (S s)) /\
    InputShape L = [IntImm stride; IntImm continuous] /\
    OutputDim L = 3%nat /\
    layout_injective L.
Proof.
  intros Hes Hs Hc.
  assert (Hq : 1 <= Z.quot 128 element_size <= 128).
  { split; [apply Z.quot_le_lower_bound; lia|].
    apply Z.quot_le_upper_bound; lia. }
  run_factory.
  destruct (Z.eqb_spec element_size 0) as [|_]; [lia|].
  rewrite !(@to_int32_small (Z.quot 128 element_size)) by lia.
  set (vs := Z.quot 128 element_size) in *.
  rewrite !(@to_int32_small (vs * 4)) by lia.
  destruct (Z.eqb_spec (vs * 4) 0) as [|_]; [lia|].
  rewrite Hs, Hc. cbv beta iota. change (8 =? 0) with false. cbv beta iota.
  change (0 =? 0) with true. cbv beta iota. cbn [var].
  eexists. split; [reflexivity|]. split; [reflexivity|]. split; [reflexivity|].
  intros env1 env2 Hm1 Hm2 Heq. eval_index Heq.
  fold (xor4 ((env1 (mkVar "j" (S s)) / vs) mod 4) (env1 (mkVar "i" s) mod 8 / 2)) in Heq.
  fold (xor4 ((env2 (mkVar "j" (S s)) / vs) mod 4) (env2 (mkVar "i" s) mod 8 / 2)) in Heq.
  conclude_two_vars Heq (@half_bank_decode vs); lia.
Qed.

Lemma makeGemmABLayoutFullBank_spec stride continuous element_size s :
  0 < element_size <= 128 ->
  Z.rem stride 8 = 0 ->
  Z.rem continuous (Z.quot 128 element_size * 8) = 0 ->
  exists L,
    makeGemmABLayoutFullBank E stride continuous element_size s = Ok (L, S (S s)) /\
    InputShape L = [IntImm stride; IntImm continuous] /\
    OutputDim L = 3%nat /\
    layout_injective L.
Proof.
  intros Hes Hs Hc.
  assert (Hq : 1 <= Z.quot 128 element_size <= 128).
  { split; [apply Z.quot_le_lower_bound; lia|].
    apply Z.quot_le_upper_bound; lia. }
  run_factory.
  destruct (Z.eqb_spec element_size 0) as [|_]; [lia|].
  rewrite !(@to_int32_small (Z.quot 128 element_size)) by lia.
  set (vs := Z.quot 128 element_size) in *.
  rewrite !(@to_int32_small (vs * 8)) by lia.
  destruct (Z.eqb_spec (vs * 8) 0) as [|_]; [lia|].
  rewrite Hs, Hc. cbv beta iota. change (8 =? 0) with false. cbv beta iota.
  change (0 =? 0) with true. cbv beta iota. cbn [var].
  eexists. split; [reflexivity|]. split; [reflexivity|]. split; [reflexivity|].
  intros env1 env2 Hm1 Hm2 Heq. eval_index Heq.
  fold (xor8 ((env1 (mkVar "j" (S s)) / vs) mod 8) (env1 (mkVar "i" s) mod 8)) in Heq.
  fold (xor8 ((env2 (mkVar "j" (S s)) / vs) mod 8) (env2 (mkVar "i" s) mod 8)) in Heq.
  conclude_two_vars Heq (@full_bank_decode vs); lia.
Qed.

Lemma makeGemmABLayoutF64_Kinner_spec stride continuous s :
  exists L,
    makeGemmABLayoutF64_Kinner E stride continuous s = Ok (L, S (S s)) /\
    InputShape L = [IntImm stride; IntImm continuous] /\
    OutputDim L = 3%nat /\
    layout_injective L.
Proof.
  run_factory. cbn [var].
  eexists. split; [reflexivity|]. split; [reflexivity|]. split; [reflexivity|].
  intros env1 env2 Hm1 Hm2 Heq. eval_index Heq.
  fold (xor4 (env1 (mkVar "j" (S s)) mod 16 mod 4) (env1 (mkVar "i" s) mod 4)) in Heq.
  fold (xor4 (env2 (mkVar "j" (S s)) mod 16 mod 4) (env2 (mkVar "i" s) mod 4)) in Heq.
  conclude_two_vars Heq f64_kinner_decode.
Qed.

Lemma makeGemmABLayoutF64_Kouter_spec stride continuous s :
  exists L,
    makeGemmABLayoutF64_Kouter E stride continuous s = Ok (L, S (S s)) /\
    InputShape L = [IntImm stride; IntImm continuous] /\
    OutputDim L = 3%nat /\
    layout_injective L.
Proof.
  run_factory. cbn [var].
  eexists. split; [reflexivity|]. split; [reflexivity|]. split; [reflexivity|].
  intros env1 env2 Hm1 Hm2 Heq. eval_index Heq.
  fold (xor4 (env1 (mkVar "j" (S s)) mod 16 / 4) (env1 (mkVar "i" s) mod 4)) in Heq.
  fold (xor4 (env2 (mkVar "j" (S s)) mod 16 / 4) (env2 (mkVar "i" s) mod 4)) in Heq.
  conclude_two_vars Heq f64_kouter_decode.
Qed.

(** The row length of [makeGemmABLayoutPadded]. *)
Definition padded_row (continuous element_size : Z) : Z :=
  if Z.rem (to_int32 (element_size * continuous)) 256 =? 0
  then continuous + Z.quot 128 element_size
  else continuous.

Lemma makeGemmABLayoutPadded_spec stride continuous element_size s :
  0 < element_size ->
  -2147483648 <= continuous -> continuous + 128 < 2147483648 ->
  exists L,
    makeGemmABLayoutPadded E stride continuous element_size s = Ok (L, S (S s)) /\
    InputShape L = [IntImm stride; IntImm continuous] /\
    (forall env,
        models env (LayoutNode_UpdateAnalyzer L []) ->
        map (eval env) (forward_index_ L)
        = [env (mkVar "i" s) * padded_row continuous element_size
           + env (mkVar "j" (S s))]) /\
    layout_injective L.
Proof.
  intros Hes Hlo Hhi.
  assert (Hq : 0 <= Z.quot 128 element_size <= 128).
  { split; [apply Z.quot_pos; lia|]. apply Z.quot_le_upper_bound; lia. }
  assert (Hval : forall padded env fv,
            fv = [mkIterVar (Range_ctor (IntImm 0) (IntImm stride)) (mkVar "i" s) kDataPar;
                  mkIterVar (Range_ctor (IntImm 0) (IntImm continuous)) (mkVar "j" (S s))
                            kDataPar] ->
            let L := Layout_ctor E fv
                       [op_add (op_mul (EVar (mkVar "i" s)) (IntImm padded))
                               (EVar (mkVar "j" (S s)))] in
            models env (LayoutNode_UpdateAnalyzer L []) ->
            map (eval env) (forward_index_ L)
            = [env (mkVar "i" s) * padded + env (mkVar "j" (S s))]).
  { intros padded env fv Hfv L Hm. unfold L in *. rewrite Layout_ctor_eval by assumption.
    cbn [map]. rewrite eval_op_add, eval_op_mul. reflexivity. }
  assert (Hinj : forall padded fv,
            continuous <= padded ->
            fv = [mkIterVar (Range_ctor (IntImm 0) (IntImm stride)) (mkVar "i" s) kDataPar;
                  mkIterVar (Range_ctor (IntImm 0) (IntImm continuous)) (mkVar "j" (S s))
                            kDataPar] ->
            layout_injective
              (Layout_ctor E fv
                 [op_add (op_mul (EVar (mkVar "i" s)) (IntImm padded))
                         (EVar (mkVar "j" (S s)))])).
  { intros padded fv Hp Hfv env1 env2 Hm1 Hm2 Heq.
    rewrite (Hval padded env1 fv Hfv Hm1), (Hval padded env2 fv Hfv Hm2) in Heq.
    destruct (@models_two_vars env1 fv _ _ _ _ _ Hfv Hm1) as [_ Hj1].
    destruct (@models_two_vars env2 fv _ _ _ _ _ Hfv Hm2) as [_ Hj2].
    subst fv. simpl. injection Heq as Heq.
    assert (Heq' : env1 (mkVar "j" (S s)) + env1 (mkVar "i" s) * padded
                   = env2 (mkVar "j" (S s)) + env2 (mkVar "i" s) * padded) by lia.
    apply digits_unique in Heq'; [|lia|lia]. destruct Heq' as [-> ->]. reflexivity. }
  run_factory. unfold padded_row.
  change (256 =? 0) with false. cbv beta iota.
  destruct (Z.eqb_spec (Z.rem (to_int32 (element_size * continuous)) 256) 0) as [Hr|Hr].
  - destruct (Z.eqb_spec element_size 0) as [|_]; [lia|].
    rewrite !(@to_int32_small (Z.quot 128 element_size)) by lia.
    rewrite !(@to_int32_small (continuous + Z.quot 128 element_size)) by lia.
    cbn [var]. eexists. split; [reflexivity|]. split; [reflexivity|]. split.
    + intros env Hm. now apply Hval.
    + apply Hinj; [lia | reflexivity].
  - cbn [var]. eexists. split; [reflexivity|]. split; [reflexivity|]. split.
    + intros env Hm. now apply Hval.
    + apply Hinj; [lia | reflexivity].
Qed.

(** X5: for an element size in (0, 128], a stride that is a multiple of 8
    and a row length that leaves room for the padding in an [int],
    [makeGemmABLayout] always returns a layout of the [stride] x
    [continuous] tile, whichever factory it selects (the two for 64-bit
    elements, the full or the half bank swizzle, or the padded layout when
    the row length fits none), and no two elements of the tile have the same
    outputs. *)
Theorem makeGemmABLayout_injective stride continuous element_size kfactor s :
  0 < element_size <= 128 ->
  Z.rem stride 8 = 0 ->
  -2147483648 <= continuous -> continuous + 128 < 2147483648 ->
  exists L,
    makeGemmABLayout E stride continuous element_size kfactor s = Ok (L, S (S s)) /\
    InputShape L = [IntImm stride; IntImm continuous] /\
    layout_injective L.
Proof.
  intros Hes Hs Hlo Hhi.
  assert (Hpad : exists L,
             makeGemmABLayoutPadded E stride continuous element_size s = Ok (L, S (S s)) /\
             InputShape L = [IntImm stride; IntImm continuous] /\
             layout_injective L).
  { destruct (@makeGemmABLayoutPadded_spec stride continuous element_size s)
      as (L & Hrun & Hshape & _ & Hinj); try lia.
    exists L. auto. }
  assert (Hq : 1 <= Z.quot 128 element_size <= 128).
  { split; [apply Z.quot_le_lower_bound; lia|].
    apply Z.quot_le_upper_bound; lia. }
  unfold makeGemmABLayout.
  destruct (Z.eqb_spec element_size 64) as [H64|H64].
  - destruct (Z.eqb kfactor 1 && Z.eqb (Z.rem continuous 16) 0)%bool.
    + destruct (makeGemmABLayoutF64_Kouter_spec stride continuous s)
        as (L & Hrun & Hshape & _ & Hinj). exists L. auto.
    + destruct (Z.eqb kfactor 2 && Z.eqb (Z.rem continuous 16) 0)%bool; [|exact Hpad].
      destruct (makeGemmABLayoutF64_Kinner_spec stride continuous s)
        as (L & Hrun & Hshape & _ & Hinj). exists L. auto.
  - cbv beta iota zeta delta [bind lift int_div int_rem].
    destruct (Z.eqb_spec element_size 0) as [|_]; [lia|].
    rewrite !(@to_int32_small (Z.quot 128 element_size)) by lia.
    rewrite !(@to_int32_small (Z.quot 128 element_size * 8)) by lia.
    rewrite !(@to_int32_small (Z.quot 128 element_size * 4)) by lia.
    destruct (Z.eqb kfactor 1 && Z.eqb element_size 8)%bool; [exact Hpad|].
    destruct (Z.eqb_spec (Z.quot 128 element_size * 8) 0) as [|_]; [lia|].
    destruct (Z.eqb_spec (Z.rem continuous (Z.quot 128 element_size * 8)) 0) as [H8|H8].
    + destruct (@makeGemmABLayoutFullBank_spec stride continuous element_size s Hes Hs H8)
        as (L & Hrun & Hshape & _ & Hinj). exists L. auto.
    + destruct (Z.eqb_spec (Z.quot 128 element_size * 4) 0) as [|_]; [lia|].
      destruct (Z.eqb_spec (Z.rem continuous (Z.quot 128 element_size * 4)) 0)
        as [H4|H4]; [|exact Hpad].
      destruct (@makeGemmABLayoutHalfBank_spec stride continuous element_size s Hes Hs H4)
        as (L & Hrun & Hshape & _ & Hinj). exists L. auto.
Qed.

Ltac conclude_in_domain Heq Hm1 Hm2 decode :=
  match type of Hm1 with
  | models ?e1 (LayoutNode_UpdateAnalyzer (Layout_ctor _ ?fv _) _) =>
      destruct (@models_two_vars e1 fv _ _ _ _ _ eq_refl Hm1) as [? ?]
  end;
  match type of Hm2 with
  | models ?e2 (LayoutNode_UpdateAnalyzer (Layout_ctor _ ?fv _) _) =>
      destruct (@models_two_vars e2 fv _ _ _ _ _ eq_refl Hm2) as [? ?]
  end;
  simpl; injection Heq as Heq; apply decode in Heq; try assumption;
  destruct Heq as [-> ->]; reflexivity.

Lemma MakeGemmVoltaABLayoutCrosswise_spec stride continuous s :
  Z.rem stride 32 = 0 -> Z.rem continuous 32 = 0 ->
  exists L,
    MakeGemmVoltaABLayoutCrosswise E stride continuous s = Ok (L, S (S s)) /\
    InputShape L = [IntImm stride; IntImm continuous] /\
    OutputDim L = 1%nat /\
    layout_injective L.
Proof.
  intros Hs Hc. run_factory. rewrite Hs, Hc. cbn [Z.eqb andb]. cbv beta iota. cbn [var].
  eexists. split; [reflexivity|]. split; [reflexivity|]. split; [reflexivity|].
  intros env1 env2 Hm1 Hm2 Heq. eval_index Heq. rewrite !eval_xor2x2 in Heq.
  cbn [eval] in Heq.
  conclude_in_domain Heq Hm1 Hm2 (@crosswise_decode stride).
Qed.

Lemma MakeGemmVoltaALayoutCongruous_spec stride continuous s :
  Z.rem stride 4 = 0 -> Z.rem continuous 64 = 0 ->
  exists L,
    MakeGemmVoltaALayoutCongruous E stride continuous s = Ok (L, S (S s)) /\
    InputShape L = [IntImm stride; IntImm continuous] /\
    OutputDim L = 1%nat /\
    layout_injective L.
Proof.
  intros Hs Hc. run_factory. rewrite Hs, Hc. cbn [Z.eqb andb]. cbv beta iota. cbn [var].
  eexists. split; [reflexivity|]. split; [reflexivity|]. split; [reflexivity|].
  intros env1 env2 Hm1 Hm2 Heq. eval_index Heq.
  fold (xor4 (env1 (mkVar "i" s) mod 4) ((env1 (mkVar "j" (S s)) / 8) mod 8 / 2)) in Heq.
  fold (xor4 (env2 (mkVar "i" s) mod 4) ((env2 (mkVar "j" (S s)) / 8) mod 8 / 2)) in Heq.
  conclude_in_domain Heq Hm1 Hm2 (@congruous_a_decode continuous).
Qed.

Lemma MakeGemmVoltaBLayoutCongruous_spec stride continuous s :
  Z.rem stride 4 = 0 -> Z.rem continuous 64 = 0 ->
  exists L,
    MakeGemmVoltaBLayoutCongruous E stride continuous s = Ok (L, S (S s)) /\
    InputShape L = [IntImm stride; IntImm continuous] /\
    OutputDim L = 1%nat /\
    layout_injective L.
Proof.
  intros Hs Hc. run_factory. rewrite Hs, Hc. cbn [Z.eqb andb]. cbv beta iota. cbn [var].
  eexists. split; [reflexivity|]. split; [reflexivity|]. split; [reflexivity|].
  intros env1 env2 Hm1 Hm2 Heq. eval_index Heq.
  fold (xor4 (env1 (mkVar "i" s) mod 4) ((env1 (mkVar "j" (S s)) / 8) mod 8 mod 4)) in Heq.
  fold (xor4 (env2 (mkVar "i" s) mod 4) ((env2 (mkVar "j" (S s)) / 8) mod 8 mod 4)) in Heq.
  conclude_in_domain Heq Hm1 Hm2 (@congruous_b_decode continuous).
Qed.

(** X8: [makeGemmVoltaABLayout] returns an injective layout of the
    [stride] x [continuous] tile whenever the factory it selects passes its
    checks: for [kfactor = 2] the crosswise layout, which needs both sizes
    to be multiples of 32; otherwise, for a row length that is a multiple of
    64, the congruous layout of the operand, which needs a stride that is a
    multiple of 4; otherwise the padded layout for 16-bit elements. *)
Theorem makeGemmVoltaABLayout_injective stride continuous is_a kfactor s :
  (kfactor = 2 -> Z.rem stride 32 = 0 /\ Z.rem continuous 32 = 0) ->
  (kfactor <> 2 -> Z.rem continuous 64 = 0 -> Z.rem stride 4 = 0) ->
  -2147483648 <= continuous -> continuous + 128 < 2147483648 ->
  exists L,
    makeGemmVoltaABLayout E stride continuous is_a kfactor s = Ok (L, S (S s)) /\
    InputShape L = [IntImm stride; IntImm continuous] /\
    layout_injective L.
Proof.
  intros Hk Hs Hlo Hhi.
  unfold makeGemmVoltaABLayout.
  destruct (Z.eqb_spec kfactor 2) as [H2|H2].
  - destruct (Hk H2) as [Hs32 Hc32].
    destruct (@MakeGemmVoltaABLayoutCrosswise_spec stride continuous s Hs32 Hc32)
      as (L & Hrun & Hshape & _ & Hinj). exists L. auto.
  - destruct (Z.eqb_spec (Z.rem continuous 64) 0) as [H64|H64].
    + pose proof (Hs H2 H64) as Hs4. destruct is_a; cbn [andb negb].
      * destruct (@MakeGemmVoltaALayoutCongruous_spec stride continuous s Hs4 H64)
          as (L & Hrun & Hshape & _ & Hinj). exists L. auto.
      * destruct (@MakeGemmVoltaBLayoutCongruous_spec stride continuous s Hs4 H64)
          as (L & Hrun & Hshape & _ & Hinj). exists L. auto.
    + rewrite !Bool.andb_false_r.
      destruct (@makeGemmABLayoutPadded_spec stride continuous 16 s)
        as (L & Hrun & Hshape & _ & Hinj); try lia.
      exists L. auto.
Qed.

End LayoutFactoryFacts.

(** ** The dispatchers at an instance *)

Lemma makeGemmABLayout_injective_witness :
  exists L,
    makeGemmABLayout RefEngine.engine 8 64 16 1 0%nat = Ok (L, 2%nat) /\
    InputShape L = [IntImm 8; IntImm 64] /\
    layout_injective L.
Proof.
  apply (@makeGemmABLayout_injective RefEngine.engine RefEngineFacts.engine_laws
           8 64 16 1 0%nat); [lia | reflexivity | lia | lia].
Defined.

Lemma makeGemmVoltaABLayout_injective_witness :
  exists L,
    makeGemmVoltaABLayout RefEngine.engine 32 64 true 1 0%nat = Ok (L, 2%nat) /\
    InputShape L = [IntImm 32; IntImm 64] /\
    layout_injective L.
Proof.
  apply (@makeGemmVoltaABLayout_injective RefEngine.engine RefEngineFacts.engine_laws
           32 64 true 1 0%nat); [lia | reflexivity | lia | lia].
Defined.


(** ** The factories, one by one *)

(** X1: for an element size in (0, 128], a stride that is a multiple of 8
    and a row length that is a multiple of four vectors,
    [makeGemmABLayoutHalfBank] returns a layout of the [stride] x
    [continuous] tile with three outputs, and no two elements of the tile
    have the same outputs: the 2-bit swizzle moves elements without making
    them collide.  When one of the two checks does not hold, the factory
    fails. *)
Theorem makeGemmABLayoutHalfBank_injective (E : Engine) (HE : EngineLaws E)
        (stride continuous element_size : Z) (s : nat) :
  0 < element_size <= 128 ->
  (Z.rem stride 8 = 0 ->
   Z.rem continuous (Z.quot 128 element_size * 4) = 0 ->
   exists L,
     makeGemmABLayoutHalfBank E stride continuous element_size s = Ok (L, S (S s)) /\
     InputShape L = [IntImm stride; IntImm continuous] /\
     OutputDim L = 3%nat /\
     layout_injective L) /\
  (Z.rem stride 8 <> 0 \/ Z.rem continuous (Z.quot 128 element_size * 4) <> 0 ->
   exists msg,
     makeGemmABLayoutHalfBank E stride continuous element_size s = CheckFail msg).
Proof.
  intros Hes. split; [intros Hs Hc; now apply makeGemmABLayoutHalfBank_spec|].
  intros Hor.
  assert (Hq : 1 <= Z.quot 128 element_size <= 128).
  { split; [apply Z.quot_le_lower_bound; lia|].
    apply Z.quot_le_upper_bound; lia. }
  cbv beta iota zeta delta [makeGemmABLayoutHalfBank make_itervar divides_check
                              int_div int_rem bind ret lift new_Var ICHECK fail].
  destruct (Z.eqb_spec element_size 0) as [|_]; [lia|].
  rewrite !(@to_int32_small (Z.quot 128 element_size)) by lia.
  set (vs := Z.quot 128 element_size) in *.
  rewrite !(@to_int32_small (vs * 4)) by lia.
  destruct (Z.eqb_spec (vs * 4) 0) as [|_]; [lia|].
  change (8 =? 0) with false. cbv beta iota.
  destruct (Z.eqb_spec (Z.rem stride 8) 0) as [H8|H8]; cbv beta iota; [|eauto].
  destruct (Z.eqb_spec (Z.rem continuous (vs * 4)) 0) as [H4|H4]; cbv beta iota;
    [|eauto].
  tauto.
Qed.

Lemma makeGemmABLayoutHalfBank_injective_witness :
  exists L,
    makeGemmABLayoutHalfBank RefEngine.engine 8 32 16 0%nat = Ok (L, 2%nat) /\
    InputShape L = [IntImm 8; IntImm 32] /\
    OutputDim L = 3%nat /\
    layout_injective L.
Proof.
  apply (proj1 (@makeGemmABLayoutHalfBank_injective RefEngine.engine
                  RefEngineFacts.engine_laws 8 32 16 0%nat ltac:(lia)));
    reflexivity.
Defined.

(** X2: for an element size in (0, 128], a stride that is a multiple of 8
    and a row length that is a multiple of eight vectors,
    [makeGemmABLayoutFullBank] returns a layout of the [stride] x
    [continuous] tile with three outputs, and no two elements of the tile
    have the same outputs: the 3-bit swizzle is a permutation.  When one of
    the two checks does not hold, the factory fails. *)
Theorem makeGemmABLayoutFullBank_injective (E : Engine) (HE : EngineLaws E)
        (stride continuous element_size : Z) (s : nat) :
  0 < element_size <= 128 ->
  (Z.rem stride 8 = 0 ->
   Z.rem continuous (Z.quot 128 element_size * 8) = 0 ->
   exists L,
     makeGemmABLayoutFullBank E stride continuous element_size s = Ok (L, S (S s)) /\
     InputShape L = [IntImm stride; IntImm continuous] /\
     OutputDim L = 3%nat /\
     layout_injective L) /\
  (Z.rem stride 8 <> 0 \/ Z.rem continuous (Z.quot 128 element_size * 8) <> 0 ->
   exists msg,
     makeGemmABLayoutFullBank E stride continuous element_size s = CheckFail msg).
Proof.
  intros Hes. split; [intros Hs Hc; now apply makeGemmABLayoutFullBank_spec|].
  intros Hor.
  assert (Hq : 1 <= Z.quot 128 element_size <= 128).
  { split; [apply Z.quot_le_lower_bound; lia|].
    apply Z.quot_le_upper_bound; lia. }
  cbv beta iota zeta delta [makeGemmABLayoutFullBank make_itervar divides_check
                              int_div int_rem bind ret lift new_Var ICHECK fail].
  destruct (Z.eqb_spec element_size 0) as [|_]; [lia|].
  rewrite !(@to_int32_small (Z.quot 128 element_size)) by lia.
  set (vs := Z.quot 128 element_size) in *.
  rewrite !(@to_int32_small (vs * 8)) by lia.
  destruct (Z.eqb_spec (vs * 8) 0) as [|_]; [lia|].
  change (8 =? 0) with false. cbv beta iota.
  destruct (Z.eqb_spec (Z.rem stride 8) 0) as [H8|H8]; cbv beta iota; [|eauto].
  destruct (Z.eqb_spec (Z.rem continuous (vs * 8)) 0) as [H4|H4]; cbv beta iota;
    [|eauto].
  tauto.
Qed.

Lemma makeGemmABLayoutFullBank_injective_witness :
  exists L,
    makeGemmABLayoutFullBank RefEngine.engine 8 64 16 0%nat = Ok (L, 2%nat) /\
    InputShape L = [IntImm 8; IntImm 64] /\
    OutputDim L = 3%nat /\
    layout_injective L.
Proof.
  apply (proj1 (@makeGemmABLayoutFullBank_injective RefEngine.engine
                  RefEngineFacts.engine_laws 8 64 16 0%nat ltac:(lia)));
    reflexivity.
Defined.

(** X3: [makeGemmABLayoutF64_Kinner] and [makeGemmABLayoutF64_Kouter] check
    nothing: each always returns a layout of the [stride] x [continuous]
    tile with three outputs, and no two elements of the tile have the same
    outputs. *)
Theorem makeGemmABLayoutF64_injective (E : Engine) (HE : EngineLaws E)
        (stride continuous : Z) (s : nat) :
  (exists L,
     makeGemmABLayoutF64_Kinner E stride continuous s = Ok (L, S (S s)) /\
     InputShape L = [IntImm stride; IntImm continuous] /\
     OutputDim L = 3%nat /\
     layout_injective L) /\
  (exists L,
     makeGemmABLayoutF64_Kouter E stride continuous s = Ok (L, S (S s)) /\
     InputShape L = [IntImm stride; IntImm continuous] /\
     OutputDim L = 3%nat /\
     layout_injective L).
Proof.
  split.
  - apply makeGemmABLayoutF64_Kinner_spec; assumption.
  - apply makeGemmABLayoutF64_Kouter_spec; assumption.
Qed.

Lemma makeGemmABLayoutF64_injective_witness :
  (exists L,
     makeGemmABLayoutF64_Kinner RefEngine.engine 4 16 0%nat = Ok (L, 2%nat) /\
     InputShape L = [IntImm 4; IntImm 16] /\
     OutputDim L = 3%nat /\
     layout_injective L) /\
  (exists L,
     makeGemmABLayoutF64_Kouter RefEngine.engine 4 16 0%nat = Ok (L, 2%nat) /\
     InputShape L = [IntImm 4; IntImm 16] /\
     OutputDim L = 3%nat /\
     layout_injective L).
Proof.
  exact (@makeGemmABLayoutF64_injective RefEngine.engine
           RefEngineFacts.engine_laws 4 16 0%nat).
Defined.

(** X4: for a positive element size and a row length that leaves room for
    the padding in an [int], [makeGemmABLayoutPadded] returns a layout with
    the single output [i * padded + j], where [padded] is the row length,
    plus one 128-bit vector of elements when the row is a multiple of 256
    bits; the padded rows do not overlap, so no two elements of the tile
    have the same offset. *)
Theorem makeGemmABLayoutPadded_injective (E : Engine) (HE : EngineLaws E)
        (stride continuous element_size : Z) (s : nat) :
  0 < element_size ->
  -2147483648 <= continuous -> continuous + 128 < 2147483648 ->
  exists L,
    makeGemmABLayoutPadded E stride continuous element_size s = Ok (L, S (S s)) /\
    InputShape L = [IntImm stride; IntImm continuous] /\
    (forall env,
        models env (LayoutNode_UpdateAnalyzer L []) ->
        map (eval env) (forward_index_ L)
        = [env (mkVar "i" s) * padded_row continuous element_size
           + env (mkVar "j" (S s))]) /\
    layout_injective L.
Proof. apply makeGemmABLayoutPadded_spec; assumption. Qed.

Lemma makeGemmABLayoutPadded_injective_witness :
  exists L,
    makeGemmABLayoutPadded RefEngine.engine 8 32 16 0%nat = Ok (L, 2%nat) /\
    InputShape L = [IntImm 8; IntImm 32] /\
    (forall env,
        models env (LayoutNode_UpdateAnalyzer L []) ->
        map (eval env) (forward_index_ L)
        = [env (mkVar "i" 0) * padded_row 32 16 + env (mkVar "j" 1)]) /\
    layout_injective L.
Proof.
  apply (@makeGemmABLayoutPadded_injective RefEngine.engine RefEngineFacts.engine_laws
           8 32 16 0%nat); lia.
Defined.

(** X6: for a stride and a row length that are multiples of 32,
    [MakeGemmVoltaABLayoutCrosswise] returns a layout of the tile with one
    output, the offset, and no two elements of the tile have the same
    offset.  When one of them is no multiple of 32, the factory fails. *)
Theorem MakeGemmVoltaABLayoutCrosswise_injective (E : Engine) (HE : EngineLaws E)
        (stride continuous : Z) (s : nat) :
  (Z.rem stride 32 = 0 -> Z.rem continuous 32 = 0 ->
   exists L,
     MakeGemmVoltaABLayoutCrosswise E stride continuous s = Ok (L, S (S s)) /\
     InputShape L = [IntImm stride; IntImm continuous] /\
     OutputDim L = 1%nat /\
     layout_injective L) /\
  (Z.rem stride 32 <> 0 \/ Z.rem continuous 32 <> 0 ->
   exists msg, MakeGemmVoltaABLayoutCrosswise E stride continuous s = CheckFail msg).
Proof.
  split; [intros Hs Hc; now apply MakeGemmVoltaABLayoutCrosswise_spec|].
  intros Hor.
  cbv beta iota zeta delta [MakeGemmVoltaABLayoutCrosswise make_itervar bind ret new_Var ICHECK fail].
  destruct (Z.eqb_spec (Z.rem stride 32) 0) as [Hs|Hs]; cbn [andb]; [|eauto].
  destruct (Z.eqb_spec (Z.rem continuous 32) 0) as [Hc|Hc]; [|eauto].
  tauto.
Qed.

Lemma MakeGemmVoltaABLayoutCrosswise_injective_witness :
  exists L,
    MakeGemmVoltaABLayoutCrosswise RefEngine.engine 32 32 0%nat = Ok (L, 2%nat) /\
    InputShape L = [IntImm 32; IntImm 32] /\
    OutputDim L = 1%nat /\
    layout_injective L.
Proof.
  apply (proj1 (@MakeGemmVoltaABLayoutCrosswise_injective RefEngine.engine
                  RefEngineFacts.engine_laws 32 32 0%nat)); reflexivity.
Defined.

(** X7: for a stride that is a multiple of 4 and a row length that is a
    multiple of 64, [MakeGemmVoltaALayoutCongruous] and
    [MakeGemmVoltaBLayoutCongruous] each return a layout of the tile with
    one output, the offset, and no two elements of the tile have the same
    offset.  When one of the two checks does not hold, both factories
    fail. *)
Theorem MakeGemmVoltaLayoutCongruous_injective (E : Engine) (HE : EngineLaws E)
        (stride continuous : Z) (s : nat) :
  (Z.rem stride 4 = 0 -> Z.rem continuous 64 = 0 ->
   (exists L,
      MakeGemmVoltaALayoutCongruous E stride continuous s = Ok (L, S (S s)) /\
      InputShape L = [IntImm stride; IntImm continuous] /\
      OutputDim L = 1%nat /\
      layout_injective L) /\
   (exists L,
      MakeGemmVoltaBLayoutCongruous E stride continuous s = Ok (L, S (S s)) /\
      InputShape L = [IntImm stride; IntImm continuous] /\
      OutputDim L = 1%nat /\
      layout_injective L)) /\
  (Z.rem stride 4 <> 0 \/ Z.rem continuous 64 <> 0 ->
   (exists msg, MakeGemmVoltaALayoutCongruous E stride continuous s = CheckFail msg) /\
   (exists msg, MakeGemmVoltaBLayoutCongruous E stride continuous s = CheckFail msg)).
Proof.
  split.
  - intros Hs Hc. split.
    + now apply MakeGemmVoltaALayoutCongruous_spec.
    + now apply MakeGemmVoltaBLayoutCongruous_spec.
  - intros Hor.
    cbv beta iota zeta delta [MakeGemmVoltaALayoutCongruous MakeGemmVoltaBLayoutCongruous
                                make_itervar bind ret new_Var ICHECK fail].
    destruct (Z.eqb_spec (Z.rem stride 4) 0) as [Hs|Hs]; cbn [andb]; [|eauto].
    destruct (Z.eqb_spec (Z.rem continuous 64) 0) as [Hc|Hc]; [|eauto].
    tauto.
Qed.

Lemma MakeGemmVoltaLayoutCongruous_injective_witness :
  (exists L,
     MakeGemmVoltaALayoutCongruous RefEngine.engine 4 64 0%nat = Ok (L, 2%nat) /\
     InputShape L = [IntImm 4; IntImm 64] /\
     OutputDim L = 1%nat /\
     layout_injective L) /\
  (exists L,
     MakeGemmVoltaBLayoutCongruous RefEngine.engine 4 64 0%nat = Ok (L, 2%nat) /\
     InputShape L = [IntImm 4; IntImm 64] /\
     OutputDim L = 1%nat /\
     layout_injective L).
Proof.
  apply (proj1 (@MakeGemmVoltaLayoutCongruous_injective RefEngine.engine
                  RefEngineFacts.engine_laws 4 64 0%nat)); reflexivity.
Defined.

(* ================================================================== *)
(** * The flattened index of a layout *)

(** The offset the loop of [GetFlattenedIndice] accumulates, read from the
    last dimension to the first. *)
Fixpoint low_first (point extents : list Z) : Z :=
  match point, extents with
  | x :: point', s :: extents' => x + s * low_first point' extents'
  | _, _ => 0
  end.

Lemma flatten_loop_eval env index shape result_ stride :
  eval env (flatten_loop index shape result_ stride) =
  eval env result_ +
  eval env stride * low_first (map (eval env) index) (map (eval env) shape).
Proof.
  revert shape result_ stride.
  induction index as [|e index IH]; intros [|s shape] result_ stride;
    cbn [flatten_loop map low_first]; try ring.
  rewrite IH, eval_op_add, !eval_op_mul. ring.
Qed.

Lemma product_app a b : product (a ++ b) = product a * product b.
Proof. induction a as [|y a IHa]; cbn [app product]; [ring | rewrite IHa; ring]. Qed.

Lemma low_first_snoc point extents x s :
  List.length point = List.length extents ->
  low_first (point ++ [x]) (extents ++ [s]) =
  low_first point extents + product extents * x.
Proof.
  revert extents. induction point as [|y point IH]; intros [|t extents] Hlen;
    try discriminate; cbn [app low_first product].
  - ring.
  - rewrite IH by (simpl in Hlen; lia). ring.
Qed.

Lemma low_first_rev point extents :
  List.length point = List.length extents ->
  low_first (rev point) (rev extents) = row_major point extents.
Proof.
  revert extents. induction point as [|y point IH]; intros [|t extents] Hlen;
    try discriminate; [reflexivity|].
  cbn [rev row_major].
  rewrite low_first_snoc by (rewrite !length_rev; simpl in Hlen; lia).
  rewrite IH by (simpl in Hlen; lia). rewrite product_rev. ring.
Qed.

Lemma row_major_range point extents :
  Forall2 (fun x n => 0 <= x < n) point extents ->
  0 <= row_major point extents < product extents.
Proof.
  induction 1 as [|x n point extents Hx _ IH]; cbn [row_major product]; [lia|].
  nia.
Qed.

(** Two points of a box with the same row-major offset are the same point. *)
Lemma row_major_injective extents point1 point2 :
  Forall2 (fun x n => 0 <= x < n) point1 extents ->
  Forall2 (fun x n => 0 <= x < n) point2 extents ->
  row_major point1 extents = row_major point2 extents -> point1 = point2.
Proof.
  intros H1. revert point2.
  induction H1 as [|x n point1 extents Hx H1 IH]; intros point2 H2 Heq.
  - inversion H2. reflexivity.
  - inversion H2 as [|y ? point2' ? Hy H2']; subst. cbn [row_major] in Heq.
    pose proof (row_major_range H1) as R1. pose proof (row_major_range H2') as R2.
    assert (x = y /\ row_major point1 extents = row_major point2' extents) as [-> Hr].
    { destruct (Z.lt_trichotomy x y) as [Hlt|[->|Hlt]]; [nia | lia | nia]. }
    f_equal. now apply IH.
Qed.

Section FlattenedFacts.
Variable E : Engine.
Context {HE : EngineLaws E}.

Lemma GetFlattenedIndice_spec (L : LayoutNode) :
  match LayoutNode_OutputShape E L with
  | Ok shape =>
      exists flat,
        GetFlattenedIndice E L = Ok flat /\
        forall env, models env (LayoutNode_UpdateAnalyzer L []) ->
          eval env flat =
          row_major (map (eval env) (forward_index_ L)) (map (eval env) shape)
  | CheckFail msg => GetFlattenedIndice E L = CheckFail msg
  end.
Proof.
  unfold GetFlattenedIndice.
  destruct (LayoutNode_OutputShape E L) as [shape|msg] eqn:Hshape; cbn [rbind];
    [|reflexivity].
  eexists. split; [reflexivity|]. intros env Henv.
  rewrite (Simplify_sound _ Henv), flatten_loop_eval. cbn [eval].
  rewrite !map_rev, low_first_rev.
  - ring.
  - rewrite !length_map. symmetry.
    eapply OutputShape_loop_length; exact Hshape.
Qed.

(** X9: [GetFlattenedIndice] returns exactly when [OutputShape] does, and
    fails with the same check otherwise.  At every point of the input
    domain, the expression it returns has the value of the row-major
    offset of the outputs in the output shape: the last output has unit
    stride, every other the product of the extents after it. *)
Theorem GetFlattenedIndice_row_major (L : LayoutNode) :
  match LayoutNode_OutputShape E L with
  | Ok shape =>
      exists flat,
        GetFlattenedIndice E L = Ok flat /\
        forall env, models env (LayoutNode_UpdateAnalyzer L []) ->
          eval env flat =
          row_major (map (eval env) (forward_index_ L)) (map (eval env) shape)
  | CheckFail msg => GetFlattenedIndice E L = CheckFail msg
  end.
Proof. apply GetFlattenedIndice_spec. Qed.

(** X10: for a layout over a box of constant extents whose [OutputShape]
    is defined, the shape consists of constants [Ts], the flattened index
    lies in [0, product Ts) at every point of the box, and two points with
    the same flattened index have the same outputs. *)
Theorem GetFlattenedIndice_in_range (L : LayoutNode) (B : Box) (shape : list PrimExpr) :
  layout_over L B -> LayoutNode_OutputShape E L = Ok shape ->
  exists flat Ts,
    GetFlattenedIndice E L = Ok flat /\
    shape = map IntImm Ts /\
    (forall env, in_box env B -> 0 <= eval env flat < product Ts) /\
    (forall env1 env2, in_box env1 B -> in_box env2 B ->
       eval env1 flat = eval env2 flat ->
       map (eval env1) (forward_index_ L) = map (eval env2) (forward_index_ L)).
Proof.
  intros Hover Hshape.
  assert (Hinv : exists Ts, shape = map IntImm Ts /\
                            Forall2 (extent_is B) (forward_index_ L) Ts).
  { unfold LayoutNode_OutputShape in Hshape. rewrite (layout_over_analyzer Hover) in Hshape.
    eapply OutputShape_loop_inv; try eassumption; apply Hover. }
  destruct Hinv as (Ts & -> & Hext).
  pose proof (GetFlattenedIndice_spec L) as Hflat. rewrite Hshape in Hflat.
  destruct Hflat as (flat & Hrun & Hval). exists flat, Ts.
  split; [exact Hrun|]. split; [reflexivity|].
  assert (Hin : forall env, in_box env B ->
            eval env flat = row_major (map (eval env) (forward_index_ L)) Ts).
  { intros env Henv.
    rewrite Hval by (rewrite (layout_over_analyzer Hover);
                     now apply models_box_analyzer).
    f_equal. rewrite map_map. cbn [eval]. apply map_id. }
  split.
  - intros env Henv. rewrite (Hin env Henv). apply row_major_range.
    now apply (extents_values Hext).
  - intros env1 env2 H1 H2 Heq. rewrite (Hin env1 H1), (Hin env2 H2) in Heq.
    eapply row_major_injective; try eassumption; now apply (extents_values Hext).
Qed.

End FlattenedFacts.

Lemma transpose_layout_shape :
  LayoutNode_OutputShape RefEngine.engine transpose_layout = Ok [IntImm 8; IntImm 4].
Proof. vm_compute. reflexivity. Qed.

Lemma GetFlattenedIndice_row_major_witness :
  exists flat,
    GetFlattenedIndice RefEngine.engine transpose_layout = Ok flat /\
    forall env, models env (LayoutNode_UpdateAnalyzer transpose_layout []) ->
      eval env flat =
      row_major (map (eval env) (forward_index_ transpose_layout))
                (map (eval env) [IntImm 8; IntImm 4]).
Proof.
  pose proof (@GetFlattenedIndice_row_major RefEngine.engine RefEngineFacts.engine_laws
                transpose_layout) as H.
  rewrite transpose_layout_shape in H. exact H.
Defined.

Lemma GetFlattenedIndice_in_range_witness :
  exists flat Ts,
    GetFlattenedIndice RefEngine.engine transpose_layout = Ok flat /\
    [IntImm 8; IntImm 4] = map IntImm Ts /\
    (forall env, in_box env [(mkVar "i" 0, 4); (mkVar "j" 1, 8)] ->
                 0 <= eval env flat < product Ts) /\
    (forall env1 env2,
       in_box env1 [(mkVar "i" 0, 4); (mkVar "j" 1, 8)] ->
       in_box env2 [(mkVar "i" 0, 4); (mkVar "j" 1, 8)] ->
       eval env1 flat = eval env2 flat ->
       map (eval env1) (forward_index_ transpose_layout) =
       map (eval env2) (forward_index_ transpose_layout)).
Proof.
  exact (@GetFlattenedIndice_in_range RefEngine.engine RefEngineFacts.engine_laws
           transpose_layout [(mkVar "i" 0, 4); (mkVar "j" 1, 8)] [IntImm 8; IntImm 4]
           transpose_layout_over transpose_layout_shape).
Defined.

(* ================================================================== *)
(** * The vector size of a layout *)

(** A split whose [scale] and [lower_factor] are integer constants. *)
Definition const_split (split : IterSplitExpr) : Prop :=
  exists a b, scale split = IntImm a /\ lower_factor split = IntImm b.

Lemma can_vector_load_total last_var vector_size args :
  vector_size <> 0 -> Forall const_split args ->
  exists ok, can_vector_load last_var vector_size args = Ok ok.
Proof.
  intros Hv. induction 1 as [|split args (a & b & Ha & Hb) _ [ok IH]];
    cbn [can_vector_load].
  - now exists true.
  - rewrite Ha, Hb. cbn [as_int rbind]. unfold int_rem.
    destruct (Z.eqb_spec vector_size 0); [contradiction|]. cbn [rbind].
    rewrite IH.
    destruct (same_as (split_source split) last_var && (to_int32 b <? vector_size));
      [destruct (negb (to_int32 b =? to_int32 a)) |
       destruct (negb (Z.rem (to_int32 a) vector_size =? 0))]; eauto.
Qed.

Lemma pow2_pos (k : nat) : 0 < 2 ^ Z.of_nat k.
Proof. apply Z.pow_pos_nonneg; lia. Qed.

Lemma pow2_succ (k : nat) : 2 ^ Z.of_nat (S k) = 2 ^ Z.of_nat k * 2.
Proof. rewrite Nat2Z.inj_succ, Z.pow_succ_r by lia. ring. Qed.

Lemma pow2_le_30 (k : nat) : (k <= 30)%nat -> 2 ^ Z.of_nat k <= 1073741824.
Proof.
  intros H. change 1073741824 with (2 ^ Z.of_nat 30).
  apply Z.pow_le_mono_r; lia.
Qed.

(** The outer loop from the size [2 ^ k] on. *)
Lemma VectorSize_loop_spec last_dim last_var args :
  Z.rem last_dim 1073741824 <> 0 -> Forall const_split args ->
  forall (n k turns : nat),
    (k + n = 30)%nat -> (n < turns)%nat ->
    exists m : nat,
      (k <= m <= 30)%nat /\
      VectorSize_loop turns last_dim last_var args (2 ^ Z.of_nat k) =
        Ok (2 ^ Z.of_nat m) /\
      (forall j : nat, (k <= j < m)%nat ->
         Z.rem last_dim (2 ^ Z.of_nat j) = 0 /\
         can_vector_load last_var (2 ^ Z.of_nat j) args = Ok true) /\
      (Z.rem last_dim (2 ^ Z.of_nat m) <> 0 \/
       can_vector_load last_var (2 ^ Z.of_nat m) args = Ok false).
Proof.
  intros Hd Hargs. induction n as [|n IH]; intros k turns Hk Hturns;
    (destruct turns as [|turns]; [lia|]); cbn [VectorSize_loop]; unfold int_rem;
    pose proof (pow2_pos k) as Hpos;
    (destruct (Z.eqb_spec (2 ^ Z.of_nat k) 0); [lia|]); cbn [rbind].
  - assert (k = 30%nat) by lia. subst k. exists 30%nat.
    change (2 ^ Z.of_nat 30) with 1073741824 in *.
    destruct (Z.eqb_spec (Z.rem last_dim 1073741824) 0); [contradiction|].
    repeat split; lia.
  - destruct (Z.eqb_spec (Z.rem last_dim (2 ^ Z.of_nat k)) 0) as [Hr|Hr].
    + destruct (@can_vector_load_total last_var (2 ^ Z.of_nat k) args) as [ok Hok];
        [lia | exact Hargs |].
      rewrite Hok. cbn [rbind]. destruct ok; cbn [negb].
      * rewrite <- pow2_succ.
        rewrite (@to_int32_small (2 ^ Z.of_nat (S k)))
          by (pose proof (pow2_pos (S k)); pose proof (@pow2_le_30 (S k)); lia).
        destruct (IH (S k) turns) as (m & Hm & Hrun & Hbelow & Hat); [lia | lia |].
        exists m. repeat split; try lia; try assumption.
        -- destruct (Nat.eq_dec j k) as [->|]; [assumption | apply Hbelow; lia].
        -- destruct (Nat.eq_dec j k) as [->|]; [assumption | apply Hbelow; lia].
      * exists k. repeat split; try lia. now right.
    + exists k. repeat split; lia.
Qed.

(** The bound of 32 turns is never what stops the loop: after 31 doublings
    the [int] is zero, and the remainder by zero comes first. *)
Fixpoint doubled (turns : nat) (vector_size : Z) : Z :=
  match turns with
  | O => vector_size
  | S turns' => doubled turns' (to_int32 (vector_size * 2))
  end.

Lemma can_vector_load_messages last_var vector_size args msg :
  can_vector_load last_var vector_size args = CheckFail msg ->
  msg = "as<IntImm>().value()"%string \/ msg = "integer division by zero"%string.
Proof.
  induction args as [|split args IH]; cbn [can_vector_load]; [discriminate|].
  destruct (scale split) as [a| | | | | |]; cbn [as_int rbind];
    try (intros [= <-]; now left).
  destruct (lower_factor split) as [b| | | | | |]; cbn [as_int rbind];
    try (intros [= <-]; now left).
  destruct (same_as (split_source split) last_var && (to_int32 b <? vector_size)).
  - destruct (negb (to_int32 b =? to_int32 a)); [discriminate | exact IH].
  - unfold int_rem. destruct (vector_size =? 0); cbn [rbind].
    + intros [= <-]. now right.
    + destruct (negb (Z.rem (to_int32 a) vector_size =? 0)); [discriminate | exact IH].
Qed.

Lemma VectorSize_loop_turns last_dim last_var args :
  forall (turns j : nat) (vector_size : Z),
    (j < turns)%nat -> doubled j vector_size = 0 ->
    VectorSize_loop turns last_dim last_var args vector_size
    <> CheckFail "VectorSize: more than 32 turns".
Proof.
  induction turns as [|turns IH]; intros j v Hj Hzero; [lia|].
  cbn [VectorSize_loop]. unfold int_rem.
  destruct (Z.eqb_spec v 0) as [->|Hv]; cbn [rbind]; [discriminate|].
  destruct (Z.rem last_dim v =? 0); [|discriminate].
  destruct (can_vector_load last_var v args) as [ok|msg] eqn:Hok; cbn [rbind].
  - destruct ok; cbn [negb]; [|discriminate].
    destruct j as [|j]; [cbn [doubled] in Hzero; contradiction|].
    apply (IH j); [lia | exact Hzero].
  - destruct (can_vector_load_messages _ _ _ Hok) as [-> | ->]; discriminate.
Qed.

Lemma VectorSize_turns_suffice last_dim last_var args :
  VectorSize_loop 32 last_dim last_var args 2
  <> CheckFail "VectorSize: more than 32 turns".
Proof. apply (@VectorSize_loop_turns last_dim last_var args 32 31 2); [lia | reflexivity]. Qed.

Lemma back_app {A} (l : list A) (x : A) : back (l ++ [x]) = Ok x.
Proof. unfold back. now rewrite rev_app_distr. Qed.

Lemma back_Ok {A} (l : list A) (x : A) : back l = Ok x -> exists l', l = l' ++ [x].
Proof.
  unfold back. destruct (rev l) as [|y r] eqn:Hrev; [discriminate|].
  intros [= ->]. exists (rev r). rewrite <- (rev_involutive l), Hrev. reflexivity.
Qed.

Section VectorSizeFacts.
Variable E : Engine.
Variable NormalizeToIterSum : PrimExpr -> list IterVar -> list IterSplitExpr.

(** X11: let the last extent [d] of the output shape be a constant that is
    no multiple of 2^30, and let the splits of the normalised last output
    have constant scales and lower factors.  Then [VectorSize] returns a
    power of two [2^k], [k < 30], that divides [d]; every size [2^j] from 2
    up to the result passed the test of the splits, and the next size
    [2^(k+1)] either does not divide [d] or is refused by a split. *)
Theorem VectorSize_power_of_two (L : LayoutNode) (shape : list PrimExpr) (d : Z)
        (last_index : PrimExpr) (last_iv : IterVar) :
  LayoutNode_OutputShape E L = Ok shape ->
  back shape = Ok (IntImm d) ->
  back (forward_index_ L) = Ok last_index ->
  back (forward_var_ L) = Ok last_iv ->
  Z.rem d 1073741824 <> 0 ->
  Forall const_split (NormalizeToIterSum last_index (forward_var_ L)) ->
  let args := NormalizeToIterSum last_index (forward_var_ L) in
  exists k : nat,
    (k < 30)%nat /\
    VectorSize E NormalizeToIterSum L = Ok (2 ^ Z.of_nat k) /\
    Z.rem d (2 ^ Z.of_nat k) = 0 /\
    (forall j : nat, (1 <= j <= k)%nat ->
       can_vector_load (var last_iv) (2 ^ Z.of_nat j) args = Ok true) /\
    (Z.rem d (2 ^ Z.of_nat (S k)) <> 0 \/
     can_vector_load (var last_iv) (2 ^ Z.of_nat (S k)) args = Ok false).
Proof.
  intros Hshape Hd Hindex Hvar Hrem Hargs args.
  destruct (@VectorSize_loop_spec d (var last_iv) args Hrem Hargs 29%nat 1%nat 32%nat)
    as (m & Hm & Hrun & Hbelow & Hat); [lia | lia |].
  destruct m as [|k]; [lia|]. exists k.
  split; [lia|]. split; [|split; [|split]].
  - unfold VectorSize. rewrite Hshape. cbn [rbind]. rewrite Hd. cbn [rbind].
    rewrite Hindex, Hvar. cbn [rbind]. fold args.
    change 2 with (2 ^ Z.of_nat 1) at 1. rewrite Hrun. cbn [rbind].
    unfold int_div. change (2 =? 0) with false. cbv iota.
    rewrite pow2_succ, Z.quot_mul by lia.
    rewrite (@to_int32_small (2 ^ Z.of_nat k))
      by (pose proof (pow2_pos k); pose proof (@pow2_le_30 k); lia).
    reflexivity.
  - destruct k as [|k]; [apply Z.rem_1_r|]. apply Hbelow. lia.
  - intros j Hj. apply Hbelow. lia.
  - exact Hat.
Qed.

End VectorSizeFacts.

(** The transposition stores the variable [i] last, with unit stride, while
    its last input variable is [j]: no vector of two elements can be
    loaded. *)
Definition transpose_splits (e : PrimExpr) (ivs : list IterVar) : list IterSplitExpr :=
  [mkIterSplit (EVar (mkVar "i" 0)) (IntImm 1) (IntImm 4) (IntImm 1)].

Lemma VectorSize_power_of_two_witness :
  exists k : nat,
    (k < 30)%nat /\
    VectorSize RefEngine.engine transpose_splits transpose_layout = Ok (2 ^ Z.of_nat k) /\
    Z.rem 4 (2 ^ Z.of_nat k) = 0 /\
    (forall j : nat, (1 <= j <= k)%nat ->
       can_vector_load (mkVar "j" 1) (2 ^ Z.of_nat j)
         (transpose_splits (EVar (mkVar "i" 0)) (forward_var_ transpose_layout))
       = Ok true) /\
    (Z.rem 4 (2 ^ Z.of_nat (S k)) <> 0 \/
     can_vector_load (mkVar "j" 1) (2 ^ Z.of_nat (S k))
       (transpose_splits (EVar (mkVar "i" 0)) (forward_var_ transpose_layout))
     = Ok false).
Proof.
  apply (@VectorSize_power_of_two RefEngine.engine transpose_splits transpose_layout
           [IntImm 8; IntImm 4] 4 (EVar (mkVar "i" 0))
           (mkIterVar (mkRange (IntImm 0) (IntImm 8)) (mkVar "j" 1) kDataPar)
           transpose_layout_shape eq_refl eq_refl eq_refl).
  - vm_compute. discriminate.
  - repeat constructor. exists 1, 1. split; reflexivity.
Defined.

(* ================================================================== *)
(** * [Forward] and [ForwardThread] at a point *)

Lemma forward_vmap_keys (ivs : list IterVar) : forall (vars : list PrimExpr),
  List.length vars = List.length ivs ->
  map fst (forward_vmap ivs vars) = rev (map var ivs).
Proof.
  intros vars Hlen. unfold forward_vmap.
  rewrite (fold_left_vmap_set (fun p : IterVar * PrimExpr => (var (fst p), snd p))).
  rewrite app_nil_r, map_rev, map_map.
  replace (map (fun p : IterVar * PrimExpr => fst (var (fst p), snd p)) (combine ivs vars))
    with (map var (map fst (combine ivs vars))) by (rewrite map_map; reflexivity).
  now rewrite map_fst_combine.
Qed.

Lemma forward_vmap_outside rho (ivs : list IterVar) (vars : list PrimExpr) x :
  List.length vars = List.length ivs -> ~ In x (map var ivs) ->
  subst_env rho (forward_vmap ivs vars) x = rho x.
Proof.
  intros Hlen Hx. unfold subst_env. rewrite vmap_find_notin; [reflexivity|].
  rewrite forward_vmap_keys by assumption. now rewrite <- in_rev.
Qed.

(** X12: [Forward] on the empty array returns the output expressions
    themselves; on a non-empty array of another length than the input
    dimension it fails; and on an array with one expression per input
    variable (the variables being distinct) it returns one expression per
    output, whose values in any environment are the values of the outputs
    at the point where each input variable has the value of its argument,
    all at once, every other variable keeping its value. *)
Theorem Forward_at_point (L : LayoutNode) (vars : list PrimExpr) :
  NoDup (map var (forward_var_ L)) ->
  Forward L [] = Ok (forward_index_ L) /\
  (vars <> [] -> List.length vars <> InputDim L ->
   exists msg, Forward L vars = CheckFail msg) /\
  (vars <> [] -> List.length vars = InputDim L ->
   exists out,
     Forward L vars = Ok out /\
     List.length out = OutputDim L /\
     forall rho, exists env,
       map env (map var (forward_var_ L)) = map (eval rho) vars /\
       (forall x, ~ In x (map var (forward_var_ L)) -> env x = rho x) /\
       map (eval rho) out = map (eval env) (forward_index_ L)).
Proof.
  intros Hnd. split; [reflexivity|]. split.
  - intros Hne Hlen. destruct vars as [|v vars]; [congruence|].
    unfold Forward. apply Nat.eqb_neq in Hlen. rewrite Hlen. eauto.
  - intros Hne Hlen. destruct vars as [|v vars]; [congruence|].
    eexists. split; [|split].
    + unfold Forward. rewrite Hlen, Nat.eqb_refl. reflexivity.
    + unfold OutputDim. now rewrite length_map.
    + intros rho.
      exists (subst_env rho (forward_vmap (forward_var_ L) (v :: vars))).
      split; [|split].
      * now apply forward_vmap_point.
      * intros x Hx. now apply forward_vmap_outside.
      * rewrite map_map. apply map_ext. intros e. apply eval_Substitute.
Qed.

Lemma Forward_at_point_witness :
  Forward transpose_layout [] = Ok (forward_index_ transpose_layout) /\
  ([IntImm 3; IntImm 5] <> [] ->
   List.length [IntImm 3; IntImm 5] <> InputDim transpose_layout ->
   exists msg, Forward transpose_layout [IntImm 3; IntImm 5] = CheckFail msg) /\
  ([IntImm 3; IntImm 5] <> [] ->
   List.length [IntImm 3; IntImm 5] = InputDim transpose_layout ->
   exists out,
     Forward transpose_layout [IntImm 3; IntImm 5] = Ok out /\
     List.length out = OutputDim transpose_layout /\
     forall rho, exists env,
       map env (map var (forward_var_ transpose_layout)) =
         map (eval rho) [IntImm 3; IntImm 5] /\
       (forall x, ~ In x (map var (forward_var_ transpose_layout)) -> env x = rho x) /\
       map (eval rho) out = map (eval env) (forward_index_ transpose_layout)).
Proof.
  apply (@Forward_at_point transpose_layout [IntImm 3; IntImm 5]).
  simpl. repeat constructor; simpl; intuition discriminate.
Defined.

(** X13: [ForwardThread] with one expression per input variable and an
    expression for the replication variable (all these variables being
    distinct) returns an expression whose value in any environment is the
    value of the thread expression at the point where every input variable
    and the replication variable have the values of their arguments.  With
    no arguments at all it returns the thread expression itself, and with a
    non-empty array of another length than the input dimension it fails. *)
Theorem ForwardThread_at_point (F : FragmentNode) (vars : list PrimExpr)
        (rep_var : PrimExpr) :
  NoDup (map var (forward_var_ F ++ [thread_replicate_ F])) ->
  ForwardThread F [] None = Ok (forward_thread_ F) /\
  (vars <> [] -> List.length vars <> InputDim F ->
   exists msg, ForwardThread F vars (Some rep_var) = CheckFail msg) /\
  (List.length vars = InputDim F ->
   exists thread,
     ForwardThread F vars (Some rep_var) = Ok thread /\
     forall rho, exists env,
       map env (map var (forward_var_ F)) = map (eval rho) vars /\
       env (var (thread_replicate_ F)) = eval rho rep_var /\
       (forall x, ~ In x (map var (forward_var_ F ++ [thread_replicate_ F])) ->
                  env x = rho x) /\
       eval rho thread = eval env (forward_thread_ F)).
Proof.
  intros Hnd. rewrite map_app in Hnd. cbn [map] in Hnd.
  assert (Hrep : ~ In (var (thread_replicate_ F)) (map var (forward_var_ F))).
  { intros Hin. apply NoDup_remove_2 in Hnd. apply Hnd.
    rewrite app_nil_r. exact Hin. }
  assert (Hvars : NoDup (map var (forward_var_ F))).
  { apply NoDup_remove_1 in Hnd. now rewrite app_nil_r in Hnd. }
  split; [|split].
  - unfold ForwardThread. cbn [rbind]. now rewrite Substitute_nil.
  - intros Hne Hlen. destruct vars as [|v vars]; [congruence|].
    unfold ForwardThread. apply Nat.eqb_neq in Hlen. rewrite Hlen. cbn [rbind]. eauto.
  - intros Hlen.
    set (vmap := forward_vmap (forward_var_ F) vars).
    assert (Hrun : ForwardThread F vars (Some rep_var) =
                   Ok (Substitute (forward_thread_ F)
                         (vmap_set vmap (var (thread_replicate_ F)) rep_var))).
    { unfold ForwardThread. destruct vars as [|v vars].
      - cbn [rbind]. unfold vmap, forward_vmap.
        destruct (forward_var_ F); reflexivity.
      - fold (InputDim F). rewrite Hlen, Nat.eqb_refl. reflexivity. }
    eexists. split; [exact Hrun|]. intros rho.
    exists (subst_env rho (vmap_set vmap (var (thread_replicate_ F)) rep_var)).
    assert (Hout : forall x, x <> var (thread_replicate_ F) ->
              subst_env rho (vmap_set vmap (var (thread_replicate_ F)) rep_var) x =
              subst_env rho vmap x).
    { intros x Hx. unfold subst_env, vmap_set. cbn [vmap_find].
      now rewrite (Var_eqb_neq Hx). }
    split; [|split; [|split]].
    + rewrite <- (@forward_vmap_point rho (forward_var_ F) vars Hvars Hlen).
      apply map_ext_in. intros x Hx. apply Hout. intros ->. contradiction.
    + unfold subst_env, vmap_set. cbn [vmap_find]. now rewrite Var_eqb_refl.
    + intros x Hx. rewrite map_app, in_app_iff in Hx. cbn [map In] in Hx.
      rewrite Hout by (intros ->; apply Hx; right; now left).
      apply forward_vmap_outside; [exact Hlen | tauto].
    + apply eval_Substitute.
Qed.

(** The transposition as a fragment: the thread is the row. *)
Definition transpose_fragment : FragmentNode :=
  mkFragment transpose_layout (EVar (mkVar "i" 0))
             (mkIterVar (mkRange (IntImm 0) (IntImm 1)) (mkVar "rep" 2) kDataPar).

Lemma ForwardThread_at_point_witness :
  exists thread,
    ForwardThread transpose_fragment [IntImm 3; IntImm 5] (Some (IntImm 0)) = Ok thread /\
    forall rho, exists env,
      map env (map var (forward_var_ transpose_fragment)) =
        map (eval rho) [IntImm 3; IntImm 5] /\
      env (var (thread_replicate_ transpose_fragment)) = eval rho (IntImm 0) /\
      (forall x,
         ~ In x (map var (forward_var_ transpose_fragment ++
                          [thread_replicate_ transpose_fragment])) ->
         env x = rho x) /\
      eval rho thread = eval env (forward_thread_ transpose_fragment).
Proof.
  refine (proj2 (proj2 (@ForwardThread_at_point transpose_fragment
                          [IntImm 3; IntImm 5] (IntImm 0) _)) eq_refl).
  simpl. repeat constructor; simpl; intuition discriminate.
Defined.

(* ================================================================== *)
(** * Fragments give every element a slot of its own *)

(** ** Mixed-radix numbers determine their digits *)

Lemma qfold_linear (qs : list (Z * Z)) : forall i s,
  fst (fold_left qstep qs (i, s)) = i + s * fst (fold_left qstep qs (0, 1)).
Proof.
  induction qs as [|[q c] qs IH]; intros i s; cbn [fold_left].
  - cbn [fst]. ring.
  - unfold qstep at 2 4. cbn [fst snd].
    rewrite (IH (i + s * q) (s * c)), (IH (0 + 1 * q) (1 * c)). ring.
Qed.

Lemma qfold_injective (qs1 : list (Z * Z)) : forall qs2,
  map snd qs1 = map snd qs2 ->
  Forall (fun qc => 0 <= fst qc <= snd qc - 1) qs1 ->
  Forall (fun qc => 0 <= fst qc <= snd qc - 1) qs2 ->
  fst (fold_left qstep qs1 (0, 1)) = fst (fold_left qstep qs2 (0, 1)) ->
  qs1 = qs2.
Proof.
  induction qs1 as [|[q1 c1] qs1 IH]; intros [|[q2 c2] qs2] Hr H1 H2 Heq;
    try discriminate; [reflexivity|].
  cbn [map snd] in Hr. injection Hr as Hc Hr. subst c2.
  inversion H1 as [|? ? Hq1 H1']; subst. inversion H2 as [|? ? Hq2 H2']; subst.
  cbn [fst snd] in Hq1, Hq2. cbn [fold_left] in Heq. unfold qstep at 2 4 in Heq.
  cbn [fst snd] in Heq. rewrite (qfold_linear qs1), (qfold_linear qs2) in Heq.
  assert (Hd : q1 + fst (fold_left qstep qs1 (0, 1)) * c1
               = q2 + fst (fold_left qstep qs2 (0, 1)) * c1) by lia.
  apply digits_unique in Hd; [|lia|lia]. destruct Hd as [-> Hrest].
  f_equal. now apply IH.
Qed.

Lemma quotients_eq env1 env2 (B : Box) : forall cs,
  List.length cs = List.length B ->
  quotients env1 B cs = quotients env2 B cs ->
  forall x n, In (x, n) B -> env1 x / n = env2 x / n.
Proof.
  unfold quotients. induction B as [|[y m] B IH]; intros [|c cs] Hlen Heq x n Hin;
    try discriminate; [contradiction|].
  cbn [combine map fst snd] in Heq. injection Heq as Hq Hrest.
  destruct Hin as [Hin|Hin].
  - inversion Hin; subst. exact Hq.
  - apply (IH cs); [simpl in Hlen; lia | exact Hrest | exact Hin].
Qed.

Section RepeatDistinct.
Variables (B X : Box) (cs : list Z) (fv : list IterVar).
Hypothesis Hgood : good_box (B ++ X).
Hypothesis Hlen : List.length cs = List.length B.
Hypothesis Hcs : Forall (fun c => 0 < c) cs.
Hypothesis Hfv : map binding fv = box_analyzer B.

(** Two points of the repeated box with the same repeat index are in the
    same repetition of the old box. *)
Lemma ridx_injective env1 env2 lower :
  in_box env1 (rep_box B cs ++ X) -> in_box env2 (rep_box B cs ++ X) ->
  eval env1 (repeats_index_of fv (map IntImm cs) lower) =
  eval env2 (repeats_index_of fv (map IntImm cs) lower) ->
  forall x n, In (x, n) B -> env1 x / n = env2 x / n.
Proof.
  intros H1 H2 Heq.
  rewrite !(@eval_repeats_index _ fv B cs lower Hfv Hlen) in Heq.
  assert (Hq1 : Forall (fun qc => 0 <= fst qc <= snd qc - 1) (quotients env1 B cs))
    by (eapply rep_quotients_bounds; eassumption).
  assert (Hq2 : Forall (fun qc => 0 <= fst qc <= snd qc - 1) (quotients env2 B cs))
    by (eapply rep_quotients_bounds; eassumption).
  assert (Hr1 : map snd (quotients env1 B cs) = cs) by (now apply quotients_radices).
  assert (Hr2 : map snd (quotients env2 B cs) = cs) by (now apply quotients_radices).
  apply quotients_eq with (cs := cs); [exact Hlen|].
  destruct lower.
  - apply qfold_injective in Heq.
    + rewrite <- (rev_involutive (quotients env1 B cs)), Heq. apply rev_involutive.
    + now rewrite !map_rev, Hr1, Hr2.
    + now apply Forall_rev.
    + now apply Forall_rev.
  - apply qfold_injective in Heq; [exact Heq | congruence | assumption | assumption].
Qed.

(** A point of the repeated box is determined by its place in the old box
    and by its repetition. *)
Lemma rep_point_unique env1 env2 :
  (forall x, In x (map fst (B ++ X)) -> mod_env B env1 x = mod_env B env2 x) ->
  (forall x n, In (x, n) B -> env1 x / n = env2 x / n) ->
  forall x, In x (map fst (B ++ X)) -> env1 x = env2 x.
Proof.
  intros Hmod Hdiv x Hx. specialize (Hmod x Hx).
  rewrite map_app, in_app_iff in Hx. destruct Hx as [Hx|Hx].
  - apply in_map_iff in Hx. destruct Hx as ([y n] & <- & Hin). cbn [fst] in *.
    pose proof (@NoDup_B B X Hgood) as Hnd.
    rewrite !(@mod_env_in B _ y n Hnd Hin) in Hmod.
    specialize (Hdiv y n Hin).
    destruct (good_box_app_l _ _ Hgood) as [Hpos _]. rewrite Forall_forall in Hpos.
    specialize (Hpos (y, n) Hin). cbn [snd] in Hpos.
    rewrite (Z.div_mod (env1 y) n), (Z.div_mod (env2 y) n) by lia. congruence.
  - apply in_map_iff in Hx. destruct Hx as ([y m] & <- & Hin). cbn [fst] in *.
    rewrite !mod_env_out in Hmod by (eapply X_not_in_B; eassumption).
    exact Hmod.
Qed.

End RepeatDistinct.

(** ** Slots *)

Lemma Ok_fst_inj {A} (a b : A) (s s' : nat) : Ok (a, s) = Ok (b, s') -> a = b.
Proof. congruence. Qed.

(** No two points of the box of the input variables and the replication
    variable have the same thread and the same index: every element, in
    every replica, has a slot of its own. *)
Definition slots_distinct (F : FragmentNode) (B : Box) (r : Var) (R : Z) : Prop :=
  forall env1 env2,
    in_box env1 (B ++ [(r, R)]) -> in_box env2 (B ++ [(r, R)]) ->
    eval env1 (forward_thread_ F) = eval env2 (forward_thread_ F) ->
    map (eval env1) (forward_index_ F) = map (eval env2) (forward_index_ F) ->
    forall x, In x (map fst (B ++ [(r, R)])) -> env1 x = env2 x.

(** A fragment over the box [B] with the replication variable [r] of extent
    [R], a single index of extent [L], a thread of extent [T], and a slot
    for every element. *)
Record tile_over (F : FragmentNode) (B : Box) (r : Var) (R L T : Z) : Prop := {
  tile_frag : frag_over F B r R;
  tile_index : exists index0,
      forward_index_ F = [index0] /\ extent_is (B ++ [(r, R)]) index0 L;
  tile_thread : extent_is (B ++ [(r, R)]) (forward_thread_ F) T;
  tile_slots : slots_distinct F B r R
}.

(** The same property, read on the domains the fragment binds. *)
Definition fragment_injective (F : FragmentNode) : Prop :=
  forall env1 env2,
    models env1 (FragmentNode_UpdateAnalyzer F []) ->
    models env2 (FragmentNode_UpdateAnalyzer F []) ->
    eval env1 (forward_thread_ F) = eval env2 (forward_thread_ F) ->
    map (eval env1) (forward_index_ F) = map (eval env2) (forward_index_ F) ->
    map env1 (map var (forward_var_ F ++ [thread_replicate_ F])) =
    map env2 (map var (forward_var_ F ++ [thread_replicate_ F])).

Lemma frag_over_keys F B r R :
  thread_over F B r R ->
  map var (forward_var_ F ++ [thread_replicate_ F]) = map fst (B ++ [(r, R)]).
Proof.
  intros H. rewrite !map_app. cbn [map fst]. rewrite (thread_over_rep_var H). f_equal.
  replace (map var (forward_var_ F)) with (map fst (map binding (forward_var_ F)))
    by (rewrite map_map; reflexivity).
  rewrite (to_vars H). unfold box_analyzer. rewrite map_map. reflexivity.
Qed.

Section TileFacts.
Variable E : Engine.
Context {HE : EngineLaws E}.

(** What a user of the fragment reads off a tile. *)
Lemma tile_over_summary F B r R L T :
  tile_over F B r R L T ->
  InputShape F = map (fun b => IntImm (snd b)) B /\
  ReplicateExtent F = IntImm R /\
  ThreadExtent E F = Ok (IntImm T) /\
  FragmentNode_OutputShape E F = Ok [IntImm L] /\
  fragment_injective F.
Proof.
  intros H. pose proof (fo_thread (tile_frag H)) as Hto.
  destruct (tile_index H) as (index0 & Hidx & HL).
  split; [exact (thread_over_InputShape Hto)|].
  split; [exact (thread_over_ReplicateExtent Hto)|].
  split; [exact (ThreadExtent_extent (E := E) Hto (tile_thread H))|].
  split.
  - apply (FragmentNode_OutputShape_extents (E := E) (Ls := [L]) (tile_frag H)).
    rewrite Hidx. constructor; [exact HL | constructor].
  - intros env1 env2 H1 H2 Ht Hi.
    rewrite (thread_over_analyzer Hto) in H1, H2.
    apply models_box_analyzer in H1. apply models_box_analyzer in H2.
    rewrite (frag_over_keys Hto). apply map_ext_in. intros x Hx.
    exact (tile_slots H H1 H2 Ht Hi x Hx).
Qed.

Section RepeatTiles.
Variables (F : FragmentNode) (B : Box) (r : Var) (R L T : Z) (cs : list Z).
Hypothesis Hlen : List.length cs = List.length B.
Hypothesis Hcs : Forall (fun c => 0 < c) cs.
Hypothesis Htile : tile_over F B r R L T.

Let B' := rep_box B cs.
Let A' := box_analyzer (B' ++ [(r, R)]).
Let vmap := repeat_vmap (forward_var_ F).

Lemma Repeat_on_data_run lower s index0 :
  forward_index_ F = [index0] ->
  FragmentNode_Repeat E F (map IntImm cs) false lower s =
  Ok (mkFragment
        (mkLayout (repeat_forward_var (forward_var_ F) (map IntImm cs))
           [Simplify E A'
              (op_add (Substitute index0 vmap)
                 (op_mul (IntImm L)
                    (repeats_index_of (forward_var_ F) (map IntImm cs) lower)))])
        (Simplify E A' (Substitute (forward_thread_ F) vmap))
        (thread_replicate_ F), s).
Proof.
  intros Hidx. pose proof (tile_frag Htile) as H. pose proof (fo_thread H) as Ht.
  destruct (tile_index Htile) as (index1 & Hidx1 & Hext).
  rewrite Hidx in Hidx1. injection Hidx1 as <-.
  destruct (repeat_forward_var_box (forward_var_ F) B cs (to_vars Ht) Hlen) as [Hb _].
  assert (Hshape : FragmentNode_OutputShape E F = Ok [IntImm L]).
  { apply (FragmentNode_OutputShape_extents (E := E) (Ls := [L]) H).
    rewrite Hidx. constructor; [assumption | constructor]. }
  unfold FragmentNode_Repeat.
  rewrite (@Repeat_length_check F B r R cs Hlen Ht), Hidx.
  unfold bind at 1. unfold lift at 1. rewrite Hshape. cbn [nth].
  rewrite (@Fragment_ctor_over E _ _ _ _ _ _ _ s Hb (to_rep Ht)). cbv zeta.
  reflexivity.
Qed.

Lemma Repeat_on_thread_run lower s index0 :
  forward_index_ F = [index0] ->
  FragmentNode_Repeat E F (map IntImm cs) true lower s =
  Ok (mkFragment
        (mkLayout (repeat_forward_var (forward_var_ F) (map IntImm cs))
           [Simplify E A' (Substitute index0 vmap)])
        (Simplify E A'
           (op_add (Substitute (forward_thread_ F) vmap)
              (op_mul (IntImm T)
                 (repeats_index_of (forward_var_ F) (map IntImm cs) lower))))
        (thread_replicate_ F), s).
Proof.
  intros Hidx. pose proof (tile_frag Htile) as H. pose proof (fo_thread H) as Ht.
  destruct (repeat_forward_var_box (forward_var_ F) B cs (to_vars Ht) Hlen) as [Hb _].
  unfold FragmentNode_Repeat.
  rewrite (@Repeat_length_check F B r R cs Hlen Ht).
  unfold bind at 1. unfold lift at 1.
  rewrite (ThreadExtent_extent (E := E) Ht (tile_thread Htile)).
  rewrite (@Fragment_ctor_over E _ _ _ _ _ _ _ s Hb (to_rep Ht)). cbv zeta.
  rewrite Hidx. reflexivity.
Qed.

(** [Repeat] on the data keeps the slots apart: the new index tells the
    repetition and the old index, the thread is the old thread. *)
Lemma Repeat_on_data_tile lower s :
  exists F',
    FragmentNode_Repeat E F (map IntImm cs) false lower s = Ok (F', s) /\
    tile_over F' B' r R (L * product cs) T.
Proof.
  pose proof (tile_frag Htile) as Hfo. pose proof (fo_thread Hfo) as Hto.
  pose proof (to_good Hto) as Hgood.
  destruct (tile_index Htile) as (index0 & Hidx & HL).
  destruct (@Repeat_on_data_spec E HE F B r R cs Hlen Hcs lower s index0 L Hfo Hidx HL)
    as (F' & index' & Hrun & Hfo' & Hidx' & HL' & HT').
  exists F'. split; [exact Hrun|].
  constructor; [exact Hfo' | exists index'; split; assumption
               | exact (HT' T (tile_thread Htile)) |].
  rewrite (Repeat_on_data_run lower s Hidx) in Hrun. apply Ok_fst_inj in Hrun.
  subst F'.
  intros env1 env2 H1 H2 Ht Hi x Hx.
  cbn [forward_thread_ forward_index_ Fragment_base map] in Ht, Hi.
  apply (f_equal (hd 0)) in Hi. cbn [hd] in Hi. unfold A', B' in Ht, Hi.
  rewrite !(@Simplify_box E HE) in Ht, Hi by assumption.
  rewrite !eval_op_add, !eval_op_mul in Hi. cbn [eval] in Hi. unfold vmap in Ht, Hi.
  rewrite !(@eval_Substitute_repeat B (forward_var_ F) (to_vars Hto)) in Ht, Hi.
  assert (M1 : in_box (mod_env B env1) (B ++ [(r, R)]))
    by (eapply mod_env_in_box; eassumption).
  assert (M2 : in_box (mod_env B env2) (B ++ [(r, R)]))
    by (eapply mod_env_in_box; eassumption).
  destruct HL as (Hb & _).
  pose proof (Hb _ M1) as Hb1. pose proof (Hb _ M2) as Hb2.
  assert (Hd : eval (mod_env B env1) index0
               + eval env1 (repeats_index_of (forward_var_ F) (map IntImm cs) lower) * L
               = eval (mod_env B env2) index0
               + eval env2 (repeats_index_of (forward_var_ F) (map IntImm cs) lower) * L)
    by lia.
  apply digits_unique in Hd; [|assumption|assumption]. destruct Hd as [Hi0 Hridx].
  fold B' in Hx. unfold B' in Hx.
  rewrite (@rep_box_keys B [(r, R)] cs Hlen) in Hx.
  eapply rep_point_unique; try eassumption.
  - apply (tile_slots Htile M1 M2 Ht).
    rewrite Hidx. cbn [map]. now rewrite Hi0.
  - eapply ridx_injective; try eassumption. exact (to_vars Hto).
Qed.

(** [Repeat] on the thread keeps the slots apart: the new thread tells the
    repetition and the old thread, the index is the old index. *)
Lemma Repeat_on_thread_tile lower s :
  exists F',
    FragmentNode_Repeat E F (map IntImm cs) true lower s = Ok (F', s) /\
    tile_over F' B' r R L (T * product cs).
Proof.
  pose proof (tile_frag Htile) as Hfo. pose proof (fo_thread Hfo) as Hto.
  pose proof (to_good Hto) as Hgood.
  destruct (tile_index Htile) as (index0 & Hidx & HL).
  destruct (@Repeat_on_thread_single E HE F B r R cs lower s index0 L T Hlen Hcs Hfo
              Hidx HL (tile_thread Htile))
    as (F' & index' & Hrun & Hfo' & Hidx' & HL' & HT').
  exists F'. split; [exact Hrun|].
  constructor; [exact Hfo' | exists index'; split; assumption | exact HT' |].
  rewrite (Repeat_on_thread_run lower s Hidx) in Hrun. apply Ok_fst_inj in Hrun.
  subst F'.
  intros env1 env2 H1 H2 Ht Hi x Hx.
  cbn [forward_thread_ forward_index_ Fragment_base map] in Ht, Hi.
  apply (f_equal (hd 0)) in Hi. cbn [hd] in Hi. unfold A', B' in Ht, Hi.
  rewrite !(@Simplify_box E HE) in Ht, Hi by assumption.
  rewrite !eval_op_add, !eval_op_mul in Ht. cbn [eval] in Ht. unfold vmap in Ht, Hi.
  rewrite !(@eval_Substitute_repeat B (forward_var_ F) (to_vars Hto)) in Ht, Hi.
  assert (M1 : in_box (mod_env B env1) (B ++ [(r, R)]))
    by (eapply mod_env_in_box; eassumption).
  assert (M2 : in_box (mod_env B env2) (B ++ [(r, R)]))
    by (eapply mod_env_in_box; eassumption).
  destruct (tile_thread Htile) as (Hb & _).
  pose proof (Hb _ M1) as Hb1. pose proof (Hb _ M2) as Hb2.
  assert (Hd : eval (mod_env B env1) (forward_thread_ F)
               + eval env1 (repeats_index_of (forward_var_ F) (map IntImm cs) lower) * T
               = eval (mod_env B env2) (forward_thread_ F)
               + eval env2 (repeats_index_of (forward_var_ F) (map IntImm cs) lower) * T)
    by lia.
  apply digits_unique in Hd; [|assumption|assumption]. destruct Hd as [Ht0 Hridx].
  fold B' in Hx. unfold B' in Hx.
  rewrite (@rep_box_keys B [(r, R)] cs Hlen) in Hx.
  eapply rep_point_unique; try eassumption.
  - apply (tile_slots Htile M1 M2 Ht0).
    rewrite Hidx. cbn [map]. now rewrite Hi.
  - eapply ridx_injective; try eassumption. exact (to_vars Hto).
Qed.

End RepeatTiles.

Section ReplicateTiles.
Variables (F : FragmentNode) (B : Box) (r : Var) (R L T : Z) (s : nat).
Hypothesis Htile : tile_over F B r R L T.
Hypothesis Hfresh : Forall (fun x => (var_id x < s)%nat) (map fst B).

Let r' := mkVar "rep" s.
Let t := FloorMod (EVar r') (IntImm R).

Lemma Replicate_run n index0 :
  forward_index_ F = [index0] -> 1 <= n ->
  let A := box_analyzer (B ++ [(r', R * n)]) in
  FragmentNode_Replicate E F n s =
  Ok (mkFragment
        (mkLayout (forward_var_ F) [Simplify E A index0])
        (Simplify E A
           (op_add (Substitute (forward_thread_ F) (vmap_set [] r t))
              (op_mul (IntImm T) (FloorDiv (EVar r') (IntImm R)))))
        (mkIterVar (mkRange (IntImm 0) (IntImm (R * n))) r' kDataPar), S s).
Proof.
  intros Hidx Hn A. pose proof (fo_thread (tile_frag Htile)) as Hto.
  set (thread := op_add (Substitute (forward_thread_ F) (vmap_set [] r t))
                        (op_mul (IntImm T) (FloorDiv (EVar r') (IntImm R)))).
  assert (Hrun : FragmentNode_Replicate E F n s =
                 Fragment_ctor E (forward_var_ F) [index0] thread
                   (Some (mkIterVar (mkRange (IntImm 0) (IntImm (R * n))) r' kDataPar))
                   (S s)).
  { unfold FragmentNode_Replicate.
    rewrite (thread_over_ReplicateExtent Hto), (thread_over_rep_var Hto), Hidx.
    destruct (Z.leb_spec 1 n); [|lia].
    unfold bind, make_itervar, new_Var, ret, lift.
    rewrite (ThreadExtent_extent (E := E) Hto (tile_thread Htile)). reflexivity. }
  rewrite Hrun.
  rewrite (@Fragment_ctor_over E (forward_var_ F) [index0] thread
             (mkIterVar (mkRange (IntImm 0) (IntImm (R * n))) r' kDataPar)
             B r' (R * n) (S s) (to_vars Hto) eq_refl).
  reflexivity.
Qed.

(** [Replicate] keeps the slots apart: the new thread tells the replica and
    the old thread. *)
Lemma Replicate_tile n :
  1 <= n ->
  exists G,
    FragmentNode_Replicate E F n s = Ok (G, S s) /\
    tile_over G B r' (R * n) L (T * n).
Proof.
  intros Hn. pose proof (tile_frag Htile) as Hfo. pose proof (fo_thread Hfo) as Hto.
  destruct (tile_index Htile) as (index0 & Hidx & HL).
  destruct (@Replicate_spec E HE F B r R s Hfo Hfresh n index0 L T Hidx HL
              (tile_thread Htile) Hn)
    as (G & index' & Hrun & Hfo' & Hidx' & HL' & HT').
  exists G. split; [exact Hrun|].
  constructor; [exact Hfo' | exists index'; split; assumption | exact HT' |].
  rewrite (Replicate_run Hidx Hn) in Hrun. apply Ok_fst_inj in Hrun. subst G.
  pose proof (@old_R_pos F B r R Hfo) as HR.
  pose proof (@old_rep_fresh F B r R Hfo) as Hr.
  pose proof (@new_rep_fresh B s Hfresh) as Hr'. fold r' in Hr'.
  pose proof (fo_index Hfo) as Hfi. rewrite Hidx in Hfi.
  inversion Hfi as [|? ? Hci _]; subst. clear Hfi.
  assert (Hread : forall env,
            in_box env (B ++ [(r', R * n)]) ->
            in_box (subst_env env (vmap_set [] r t)) (B ++ [(r, R)]) /\
            eval (subst_env env (vmap_set [] r t)) index0 = eval env index0 /\
            subst_env env (vmap_set [] r t) r = env r' mod R /\
            (forall x, In x (map fst B) ->
                       subst_env env (vmap_set [] r t) x = env x)).
  { intros env He. apply in_box_app in He. destruct He as [HB Hrep].
    apply in_box_single in Hrep.
    assert (Hout : forall x, In x (map fst B) ->
                     subst_env env (vmap_set [] r t) x = env x).
    { intros x Hx. rewrite subst_env_single.
      rewrite Var_eqb_neq; [reflexivity|]. intros ->. contradiction. }
    split; [|split; [|split]].
    - apply subst_single_in_box; try assumption. unfold t. cbn [eval].
      apply Z.mod_pos_bound. lia.
    - apply eval_agree. intros x Hx. apply Hout. now apply Hci.
    - rewrite subst_env_single, Var_eqb_refl. reflexivity.
    - exact Hout. }
  intros env1 env2 H1 H2 Ht Hi x Hx.
  cbn [forward_thread_ forward_index_ Fragment_base map] in Ht, Hi.
  apply (f_equal (hd 0)) in Hi. cbn [hd] in Hi.
  rewrite !(@Simplify_box E HE) in Ht, Hi by assumption.
  rewrite !eval_op_add, !eval_op_mul, !eval_Substitute in Ht. cbn [eval] in Ht.
  destruct (Hread env1 H1) as (M1 & I1 & Q1 & O1).
  destruct (Hread env2 H2) as (M2 & I2 & Q2 & O2).
  destruct (tile_thread Htile) as (Hb & _).
  pose proof (Hb _ M1) as Hb1. pose proof (Hb _ M2) as Hb2.
  assert (Hd : eval (subst_env env1 (vmap_set [] r t)) (forward_thread_ F)
               + env1 r' / R * T
               = eval (subst_env env2 (vmap_set [] r t)) (forward_thread_ F)
               + env2 r' / R * T) by lia.
  apply digits_unique in Hd; [|assumption|assumption]. destruct Hd as [Ht0 Hq].
  assert (Hsame : forall y, In y (map fst (B ++ [(r, R)])) ->
            subst_env env1 (vmap_set [] r t) y = subst_env env2 (vmap_set [] r t) y).
  { apply (tile_slots Htile M1 M2 Ht0). rewrite Hidx. cbn [map]. congruence. }
  rewrite map_app, in_app_iff in Hx. cbn [map fst In] in Hx.
  destruct Hx as [Hx|[<-|[]]].
  - rewrite <- (O1 x Hx), <- (O2 x Hx). apply Hsame.
    rewrite map_app, in_app_iff. now left.
  - assert (Hm : env1 r' mod R = env2 r' mod R).
    { rewrite <- Q1, <- Q2. apply Hsame. rewrite map_app, in_app_iff. right. now left. }
    rewrite (Z.div_mod (env1 r') R), (Z.div_mod (env2 r') R) by lia. congruence.
Qed.

End ReplicateTiles.
End TileFacts.

(** ** The atoms *)

(** A cell map sends a point [(i, j, k)] of an atom (row, column, replica)
    to its thread and its index.  The atoms are small: their properties are
    checked cell by cell. *)
Definition zrange (n : nat) : list Z := map Z.of_nat (seq 0 n).

Definition cell_ok (f : Z -> Z -> Z -> Z * Z) (dec : Z -> Z -> Z * Z * Z)
           (T L : Z) (i j k : Z) : bool :=
  let '(t, x) := f i j k in
  let '(i', j', k') := dec t x in
  (0 <=? t) && (t <? T) && (0 <=? x) && (x <? L)
  && (i' =? i) && (j' =? j) && (k' =? k).

Definition cells_ok (f : Z -> Z -> Z -> Z * Z) (dec : Z -> Z -> Z * Z * Z)
           (m n R : nat) (T L : Z) : bool :=
  forallb (fun i => forallb (fun j => forallb (cell_ok f dec T L i j) (zrange R))
                            (zrange n))
          (zrange m).

Lemma zrange_In n z : 0 <= z < Z.of_nat n -> In z (zrange n).
Proof.
  intros H. unfold zrange. apply in_map_iff. exists (Z.to_nat z).
  split; [lia|]. apply in_seq. lia.
Qed.

Lemma cells_ok_spec f dec m n R T L :
  cells_ok f dec m n R T L = true ->
  forall i j k,
    0 <= i < Z.of_nat m -> 0 <= j < Z.of_nat n -> 0 <= k < Z.of_nat R ->
    (0 <= fst (f i j k) < T /\ 0 <= snd (f i j k) < L) /\
    dec (fst (f i j k)) (snd (f i j k)) = (i, j, k).
Proof.
  unfold cells_ok. intros H i j k Hi Hj Hk.
  rewrite forallb_forall in H. specialize (H i (zrange_In _ Hi)).
  rewrite forallb_forall in H. specialize (H j (zrange_In _ Hj)).
  rewrite forallb_forall in H. specialize (H k (zrange_In _ Hk)).
  unfold cell_ok in H. destruct (f i j k) as [t x]. cbn [fst snd].
  destruct (dec t x) as [[i' j'] k'].
  repeat (apply andb_prop in H; destruct H as [H ?]).
  repeat match goal with
         | H : (_ <=? _) = true |- _ => apply Z.leb_le in H
         | H : (_ <? _) = true |- _ => apply Z.ltb_lt in H
         | H : (_ =? _) = true |- _ => apply Z.eqb_eq in H
         end.
  subst. repeat split; assumption.
Qed.

(** A point of the atom box with given coordinates. *)
Definition atom_env (s : nat) (i j k : Z) : Env :=
  fun x => if Var_eqb x (atom_i s) then i
           else if Var_eqb x (atom_j s) then j
           else if Var_eqb x (atom_rep s) then k else 0.

Lemma atom_env_i s i j k : atom_env s i j k (atom_i s) = i.
Proof. unfold atom_env. now rewrite Var_eqb_refl. Qed.

Lemma atom_env_j s i j k : atom_env s i j k (atom_j s) = j.
Proof.
  unfold atom_env. rewrite Var_eqb_refl.
  rewrite Var_eqb_neq; [reflexivity | discriminate].
Qed.

Lemma atom_env_rep s i j k : atom_env s i j k (atom_rep s) = k.
Proof.
  unfold atom_env. rewrite Var_eqb_refl.
  rewrite !Var_eqb_neq; [reflexivity | discriminate..].
Qed.

Section AtomTiles.
Variable E : Engine.
Context {HE : EngineLaws E}.

(** The fragment the constructor makes of an atom whose expressions compute
    a cell map that passes the check. *)
Lemma atom_tile (s s' : nat) (m n R : nat) (index thread : PrimExpr)
      (f : Z -> Z -> Z -> Z * Z) (dec : Z -> Z -> Z * Z * Z) (T L : Z) :
  (0 < m)%nat -> (0 < n)%nat -> (0 < R)%nat ->
  closed_box (atom_box s (Z.of_nat m) (Z.of_nat n)) index ->
  closed_box (atom_box s (Z.of_nat m) (Z.of_nat n) ++ [(atom_rep s, Z.of_nat R)]) thread ->
  (forall env, eval env thread = fst (f (env (atom_i s)) (env (atom_j s)) (env (atom_rep s)))) ->
  (forall env, eval env index = snd (f (env (atom_i s)) (env (atom_j s)) (env (atom_rep s)))) ->
  cells_ok f dec m n R T L = true ->
  f 0 0 0 = (0, 0) ->
  f (Z.of_nat m - 1) (Z.of_nat n - 1) (Z.of_nat R - 1) = (T - 1, L - 1) ->
  let i := mkIterVar (mkRange (IntImm 0) (IntImm (Z.of_nat m))) (atom_i s) kDataPar in
  let j := mkIterVar (mkRange (IntImm 0) (IntImm (Z.of_nat n))) (atom_j s) kDataPar in
  let rep := mkIterVar (mkRange (IntImm 0) (IntImm (Z.of_nat R))) (atom_rep s) kDataPar in
  exists F,
    Fragment_ctor E [i; j] [index] thread (Some rep) s' = Ok (F, s') /\
    tile_over F (atom_box s (Z.of_nat m) (Z.of_nat n)) (atom_rep s) (Z.of_nat R) L T.
Proof.
  intros Hm Hn HR Hci Hct Hthread Hindex Hok Hlow Htop i j rep.
  set (B := atom_box s (Z.of_nat m) (Z.of_nat n)) in *.
  set (X := [(atom_rep s, Z.of_nat R)]) in *.
  rewrite (@Fragment_ctor_over E [i; j] [index] thread rep B (atom_rep s) (Z.of_nat R)
             s' eq_refl eq_refl).
  cbv zeta. cbn [map]. eexists. split; [reflexivity|].
  assert (Hgood : good_box (B ++ X)) by (apply good_atom_box; lia).
  pose proof (cells_ok_spec _ _ _ _ _ _ _ Hok) as Hcells.
  assert (Hpt : forall env, in_box env (B ++ X) ->
            0 <= env (atom_i s) < Z.of_nat m /\ 0 <= env (atom_j s) < Z.of_nat n /\
            0 <= env (atom_rep s) < Z.of_nat R) by (intros env He; now apply in_box_atom).
  assert (Hat : forall a b c, 0 <= a < Z.of_nat m -> 0 <= b < Z.of_nat n ->
                  0 <= c < Z.of_nat R -> in_box (atom_env s a b c) (B ++ X)).
  { intros a b c Ha Hb Hc. apply in_box_atom.
    now rewrite atom_env_i, atom_env_j, atom_env_rep. }
  assert (HL : extent_is (B ++ X) index L).
  { split; [|split].
    - intros env He. destruct (Hpt env He) as (Hi & Hj & Hk). rewrite Hindex.
      apply (Hcells _ _ _ Hi Hj Hk).
    - exists (atom_env s 0 0 0). split; [apply Hat; lia|].
      now rewrite Hindex, atom_env_i, atom_env_j, atom_env_rep, Hlow.
    - exists (atom_env s (Z.of_nat m - 1) (Z.of_nat n - 1) (Z.of_nat R - 1)).
      split; [apply Hat; lia|].
      now rewrite Hindex, atom_env_i, atom_env_j, atom_env_rep, Htop. }
  assert (HT : extent_is (B ++ X) thread T).
  { split; [|split].
    - intros env He. destruct (Hpt env He) as (Hi & Hj & Hk). rewrite Hthread.
      apply (Hcells _ _ _ Hi Hj Hk).
    - exists (atom_env s 0 0 0). split; [apply Hat; lia|].
      now rewrite Hthread, atom_env_i, atom_env_j, atom_env_rep, Hlow.
    - exists (atom_env s (Z.of_nat m - 1) (Z.of_nat n - 1) (Z.of_nat R - 1)).
      split; [apply Hat; lia|].
      now rewrite Hthread, atom_env_i, atom_env_j, atom_env_rep, Htop. }
  constructor.
  - constructor; [constructor|]; cbn [forward_var_ forward_index_ forward_thread_
                                      thread_replicate_ Fragment_base].
    + reflexivity.
    + reflexivity.
    + exact Hgood.
    + now apply (@closed_box_Simplify E HE).
    + constructor; [|constructor]. now apply (@closed_box_Simplify E HE).
  - eexists. split; [reflexivity|]. now apply (@extent_is_Simplify E HE).
  - cbn [forward_thread_]. now apply (@extent_is_Simplify E HE).
  - intros env1 env2 H1 H2 Ht Hi x Hx.
    cbn [forward_thread_ forward_index_ Fragment_base map] in Ht, Hi.
    apply (f_equal (hd 0)) in Hi. cbn [hd] in Hi.
    rewrite !(@Simplify_box E HE) in Ht, Hi by assumption.
    rewrite !Hthread in Ht. rewrite !Hindex in Hi.
    destruct (Hpt env1 H1) as (Hi1 & Hj1 & Hk1).
    destruct (Hpt env2 H2) as (Hi2 & Hj2 & Hk2).
    destruct (Hcells _ _ _ Hi1 Hj1 Hk1) as [_ D1].
    destruct (Hcells _ _ _ Hi2 Hj2 Hk2) as [_ D2].
    rewrite Ht, Hi, D2 in D1. injection D1 as Ei Ej Ek.
    unfold B, atom_box in Hx. cbn [map fst app In] in Hx.
    destruct Hx as [<-|[<-|[<-|[]]]]; congruence.
Qed.

End AtomTiles.

(** The cell maps of the atoms, and how a slot is decoded. *)
Definition cell8x8 (i j k : Z) : Z * Z := (j / 2 + 4 * i, j mod 2).
Definition cell8x8_inv (t x : Z) : Z * Z * Z := (t / 4, 2 * (t mod 4) + x, 0).

Definition cell8x8T (i j k : Z) : Z * Z := (i / 2 + 4 * j, i mod 2).
Definition cell8x8T_inv (t x : Z) : Z * Z * Z := (2 * (t mod 4) + x, t / 4, 0).

Definition cell32x32_16 (i j k : Z) : Z * Z :=
  (i mod 4 + i mod 16 / 8 * 4 + j mod 16 / 8 * 8 + i / 16 * 16,
   j mod 4 + j / 16 * 4 + i mod 8 / 4 * 8 + j mod 8 / 4 * 16).
Definition cell32x32_16_inv (t x : Z) : Z * Z * Z :=
  (t mod 4 + 4 * (x / 8 mod 2) + 8 * (t / 4 mod 2) + 16 * (t / 16),
   x mod 4 + 4 * (x / 16) + 8 * (t / 8 mod 2) + 16 * (x / 4 mod 2), 0).

Definition cell32x32_32 (i j k : Z) : Z * Z :=
  (i mod 2 + 2 * (j mod 4 / 2) + i mod 16 / 8 * 4 + j mod 16 / 8 * 8 + i / 16 * 16,
   j mod 2 + 2 * (i mod 4 / 2) + j / 16 * 4 + i mod 8 / 4 * 8 + j mod 8 / 4 * 16).
Definition cell32x32_32_inv (t x : Z) : Z * Z * Z :=
  (t mod 2 + 2 * (x / 2 mod 2) + 4 * (x / 8 mod 2) + 8 * (t / 4 mod 2) + 16 * (t / 16),
   x mod 2 + 2 * (t / 2 mod 2) + 4 * (x / 16) + 8 * (t / 8 mod 2) + 16 * (x / 4 mod 2),
   0).

Definition cellVoltaA (i j k : Z) : Z * Z :=
  (i mod 16 / 8 * 4 + 16 * (i / 16) + i mod 4 + 8 * k, j + i mod 8 / 4 * 4).
Definition cellVoltaA_inv (t x : Z) : Z * Z * Z :=
  (t mod 4 + 4 * (x / 4) + 8 * (t / 4 mod 2) + 16 * (t / 16), x mod 4, t / 8 mod 2).

Ltac closed_atom :=
  let x := fresh "x" in let Hx := fresh "Hx" in
  intros x Hx; simpl in Hx; simpl;
  repeat (destruct Hx as [<-|Hx]; [auto 6|]); contradiction.

Ltac eval_atom :=
  let env := fresh "env" in
  intros env; repeat rewrite ?eval_op_add, ?eval_op_mul; reflexivity.

Section Atoms.
Variable E : Engine.
Context {HE : EngineLaws E}.

Lemma makeGemmFragment8x8_tile (s : nat) :
  exists F,
    makeGemmFragment8x8 E s = Ok (F, S (S (S s))) /\
    tile_over F (atom_box s 8 8) (atom_rep s) 1 2 32.
Proof.
  apply (@atom_tile E HE s (S (S (S s))) 8 8 1
           (FloorMod (EVar (atom_j s)) (IntImm 2))
           (op_add (FloorDiv (EVar (atom_j s)) (IntImm 2))
                   (op_mul (IntImm 4) (EVar (atom_i s))))
           cell8x8 cell8x8_inv 32 2); try lia; try closed_atom; try eval_atom;
    vm_compute; reflexivity.
Qed.

Lemma makeGemmFragment8x8Transposed_tile (s : nat) :
  exists F,
    makeGemmFragment8x8Transposed E s = Ok (F, S (S (S s))) /\
    tile_over F (atom_box s 8 8) (atom_rep s) 1 2 32.
Proof.
  apply (@atom_tile E HE s (S (S (S s))) 8 8 1
           (FloorMod (EVar (atom_i s)) (IntImm 2))
           (op_add (FloorDiv (EVar (atom_i s)) (IntImm 2))
                   (op_mul (IntImm 4) (EVar (atom_j s))))
           cell8x8T cell8x8T_inv 32 2); try lia; try closed_atom; try eval_atom;
    vm_compute; reflexivity.
Qed.

End Atoms.

Definition idx32x32_16 (s : nat) : PrimExpr :=
  op_add (op_add (op_add (FloorMod (EVar (atom_j s)) (IntImm 4))
                         (op_mul (FloorDiv (EVar (atom_j s)) (IntImm 16)) (IntImm 4)))
                 (op_mul (FloorDiv (FloorMod (EVar (atom_i s)) (IntImm 8)) (IntImm 4))
                         (IntImm 8)))
         (op_mul (FloorDiv (FloorMod (EVar (atom_j s)) (IntImm 8)) (IntImm 4)) (IntImm 16)).

Definition thd32x32_16 (s : nat) : PrimExpr :=
  op_add (op_add (op_add (FloorMod (EVar (atom_i s)) (IntImm 4))
                         (op_mul (FloorDiv (FloorMod (EVar (atom_i s)) (IntImm 16)) (IntImm 8))
                                 (IntImm 4)))
                 (op_mul (FloorDiv (FloorMod (EVar (atom_j s)) (IntImm 16)) (IntImm 8))
                         (IntImm 8)))
         (op_mul (FloorDiv (EVar (atom_i s)) (IntImm 16)) (IntImm 16)).

Definition idx32x32_32 (s : nat) : PrimExpr :=
  op_add (op_add (op_add (op_add (FloorMod (EVar (atom_j s)) (IntImm 2))
                                 (op_mul (IntImm 2)
                                         (FloorDiv (FloorMod (EVar (atom_i s)) (IntImm 4))
                                                   (IntImm 2))))
                         (op_mul (FloorDiv (EVar (atom_j s)) (IntImm 16)) (IntImm 4)))
                 (op_mul (FloorDiv (FloorMod (EVar (atom_i s)) (IntImm 8)) (IntImm 4))
                         (IntImm 8)))
         (op_mul (FloorDiv (FloorMod (EVar (atom_j s)) (IntImm 8)) (IntImm 4)) (IntImm 16)).

Definition thd32x32_32 (s : nat) : PrimExpr :=
  op_add (op_add (op_add (op_add (FloorMod (EVar (atom_i s)) (IntImm 2))
                                 (op_mul (IntImm 2)
                                         (FloorDiv (FloorMod (EVar (atom_j s)) (IntImm 4))
                                                   (IntImm 2))))
                         (op_mul (FloorDiv (FloorMod (EVar (atom_i s)) (IntImm 16)) (IntImm 8))
                                 (IntImm 4)))
                 (op_mul (FloorDiv (FloorMod (EVar (atom_j s)) (IntImm 16)) (IntImm 8))
                         (IntImm 8)))
         (op_mul (FloorDiv (EVar (atom_i s)) (IntImm 16)) (IntImm 16)).

Definition idxVoltaA (s : nat) : PrimExpr :=
  op_add (EVar (atom_j s))
         (op_mul (FloorDiv (FloorMod (EVar (atom_i s)) (IntImm 8)) (IntImm 4)) (IntImm 4)).

Definition thdVoltaA (s : nat) : PrimExpr :=
  op_add (op_add (op_add (op_mul (FloorDiv (FloorMod (EVar (atom_i s)) (IntImm 16)) (IntImm 8))
                                 (IntImm 4))
                         (op_mul (IntImm 16) (FloorDiv (EVar (atom_i s)) (IntImm 16))))
                 (FloorMod (EVar (atom_i s)) (IntImm 4)))
         (op_mul (IntImm 8) (EVar (atom_rep s))).

Section Atoms32.
Variable E : Engine.
Context {HE : EngineLaws E}.

Lemma makeGemmFragment32x32_tile (element_size : Z) (s : nat) :
  element_size = 16 \/ element_size = 32 ->
  exists F,
    makeGemmFragment32x32 E element_size s = Ok (F, S (S (S s))) /\
    tile_over F (atom_box s 32 32) (atom_rep s) 1 32 32.
Proof.
  intros [->| ->].
  - apply (@atom_tile E HE s (S (S (S s))) 32 32 1 (idx32x32_16 s) (thd32x32_16 s)
             cell32x32_16 cell32x32_16_inv 32 32); try lia; try closed_atom;
      try (unfold idx32x32_16, thd32x32_16; eval_atom); vm_compute; reflexivity.
  - apply (@atom_tile E HE s (S (S (S s))) 32 32 1 (idx32x32_32 s) (thd32x32_32 s)
             cell32x32_32 cell32x32_32_inv 32 32); try lia; try closed_atom;
      try (unfold idx32x32_32, thd32x32_32; eval_atom); vm_compute; reflexivity.
Qed.

(** The 32x4 atom of [makeGemmVoltaFragmentA], on two replicas. *)
Lemma VoltaA_atom_tile (s : nat) :
  let i := mkIterVar (mkRange (IntImm 0) (IntImm 32)) (atom_i s) kDataPar in
  let j := mkIterVar (mkRange (IntImm 0) (IntImm 4)) (atom_j s) kDataPar in
  let rep := mkIterVar (mkRange (IntImm 0) (IntImm 2)) (atom_rep s) kDataPar in
  exists F,
    Fragment_ctor E [i; j] [idxVoltaA s] (thdVoltaA s) (Some rep) (S (S (S s)))
    = Ok (F, S (S (S s))) /\
    tile_over F (atom_box s 32 4) (atom_rep s) 2 8 32.
Proof.
  apply (@atom_tile E HE s (S (S (S s))) 32 4 2 (idxVoltaA s) (thdVoltaA s)
           cellVoltaA cellVoltaA_inv 32 8); try lia; try closed_atom;
    try (unfold idxVoltaA, thdVoltaA; eval_atom); vm_compute; reflexivity.
Qed.

End Atoms32.

(** ** The factories *)

Lemma divides_check_ok (a b : Z) (msg : string) (s : nat) :
  b <> 0 -> Z.rem a b = 0 -> divides_check a b msg s = Ok (tt, s).
Proof.
  intros Hb Hr. unfold divides_check, bind, lift, int_rem, ICHECK, ret.
  destruct (Z.eqb_spec b 0); [contradiction|]. now rewrite Hr.
Qed.

Lemma int_div_ok (a b : Z) (s : nat) :
  0 < b -> 0 <= a < 2147483648 -> lift (int_div a b) s = Ok (Z.quot a b, s).
Proof.
  intros Hb Ha. unfold lift, int_div.
  destruct (Z.eqb_spec b 0); [lia|].
  rewrite to_int32_small; [reflexivity|].
  assert (0 <= Z.quot a b <= a).
  { split; [apply Z.quot_pos; lia|]. apply Z.quot_le_upper_bound; nia. }
  lia.
Qed.

Lemma quot_exact (a b : Z) : 0 < b -> 0 < a -> Z.rem a b = 0 ->
  a = b * Z.quot a b /\ 1 <= Z.quot a b <= a.
Proof.
  intros Hb Ha Hr. pose proof (Z.quot_rem a b ltac:(lia)) as Hq. rewrite Hr in Hq.
  split; [lia|]. nia.
Qed.

Section FactoryTiles.
Variable E : Engine.
Context {HE : EngineLaws E}.

(** One [Repeat] on a tile of rows and columns. *)
Lemma Repeat_atom_tile F (s : nat) (m n : Z) r R L T (c1 c2 : Z)
      (repeat_on_thread lower : bool) (st : nat) :
  tile_over F (atom_box s m n) r R L T -> 0 < c1 -> 0 < c2 ->
  exists F',
    FragmentNode_Repeat E F [IntImm c1; IntImm c2] repeat_on_thread lower st
    = Ok (F', st) /\
    tile_over F' (atom_box s (m * c1) (n * c2)) r R
              (if repeat_on_thread then L else L * (c1 * c2))
              (if repeat_on_thread then T * (c1 * c2) else T).
Proof.
  intros Htile H1 H2.
  assert (Hcs : Forall (fun c => 0 < c) [c1; c2]) by (repeat constructor; assumption).
  assert (Hp : product [c1; c2] = c1 * c2) by (cbn [product]; ring).
  change [IntImm c1; IntImm c2] with (map IntImm [c1; c2]).
  change (atom_box s (m * c1) (n * c2)) with (rep_box (atom_box s m n) [c1; c2]).
  rewrite <- Hp. destruct repeat_on_thread.
  - exact (@Repeat_on_thread_tile E HE F (atom_box s m n) r R L T [c1; c2] eq_refl Hcs
             Htile lower st).
  - exact (@Repeat_on_data_tile E HE F (atom_box s m n) r R L T [c1; c2] eq_refl Hcs
             Htile lower st).
Qed.

(** [Replicate] on a tile of rows and columns, with a state beyond the
    variables of the atom. *)
Lemma Replicate_atom_tile F (s : nat) (m n : Z) r R L T (k : Z) (st : nat) :
  tile_over F (atom_box s m n) r R L T -> (S s < st)%nat -> 1 <= k ->
  exists G,
    FragmentNode_Replicate E F k st = Ok (G, S st) /\
    tile_over G (atom_box s m n) (mkVar "rep" st) (R * k) L (T * k).
Proof.
  intros Htile Hst Hk.
  apply (@Replicate_tile E HE F (atom_box s m n) r R L T st Htile); [|exact Hk].
  repeat constructor; simpl; lia.
Qed.

End FactoryTiles.

Lemma tile_over_eq F (s : nat) (m n m' n' : Z) r R R' L L' T T' :
  tile_over F (atom_box s m n) r R L T ->
  m = m' -> n = n' -> R = R' -> L = L' -> T = T' ->
  tile_over F (atom_box s m' n') r R' L' T'.
Proof. intros H -> -> -> -> ->. exact H. Qed.

Lemma rem_factor (a b c : Z) : 0 < b -> 0 < c -> Z.rem a (b * c) = 0 -> Z.rem a b = 0.
Proof.
  intros Hb Hc H. apply Z.rem_divide in H; [|lia]. destruct H as [k ->].
  apply Z.rem_divide; [lia|]. exists (k * c). ring.
Qed.

Ltac step H := unfold bind at 1; rewrite H; cbv beta iota.

Section GemmFragments.
Variable E : Engine.
Context {HE : EngineLaws E}.
Variable lower_dim_first_default : bool.

Lemma makeGemmFragmentC_F64_tile (block_m block_n warp_m warp_n : Z) (s : nat) :
  0 < warp_m -> 0 < warp_n ->
  0 < block_m < 2147483648 -> 0 < block_n < 2147483648 ->
  Z.rem block_m warp_m = 0 -> Z.rem block_n warp_n = 0 ->
  Z.rem warp_m 16 = 0 -> Z.rem warp_n 16 = 0 ->
  exists F,
    makeGemmFragmentC_F64 E block_m block_n warp_m warp_n s = Ok (F, S (S (S s))) /\
    tile_over F (atom_box s block_m block_n) (atom_rep s) 1
              (2 * (Z.quot warp_m 8 * Z.quot warp_n 8))
              (32 * (Z.quot block_m warp_m * Z.quot block_n warp_n)).
Proof.
  intros Hwm Hwn Hbm Hbn Hm Hn Hm16 Hn16.
  destruct (quot_exact Hwm (proj1 Hbm) Hm) as [Em Rm].
  destruct (quot_exact Hwn (proj1 Hbn) Hn) as [En Rn].
  assert (Hm8 : Z.rem warp_m 8 = 0) by (apply (@rem_factor warp_m 8 2); [lia | lia | exact Hm16]).
  assert (Hn8 : Z.rem warp_n 8 = 0) by (apply (@rem_factor warp_n 8 2); [lia | lia | exact Hn16]).
  destruct (@quot_exact warp_m 8 ltac:(lia) Hwm Hm8) as [Em8 Rm8].
  destruct (@quot_exact warp_n 8 ltac:(lia) Hwn Hn8) as [En8 Rn8].
  unfold makeGemmFragmentC_F64.
  step (@divides_check_ok block_m warp_m "ICHECK(block_m % warp_m == 0)" s
          ltac:(lia) Hm).
  step (@divides_check_ok block_n warp_n "ICHECK(block_n % warp_n == 0)" s
          ltac:(lia) Hn).
  step (@divides_check_ok warp_m 16 "ICHECK(warp_m % 16 == 0)" s ltac:(lia) Hm16).
  step (@divides_check_ok warp_n 16 "ICHECK(warp_n % 16 == 0)" s ltac:(lia) Hn16).
  destruct (makeGemmFragment8x8_tile (E := E) s) as (F0 & Hrun0 & T0). step Hrun0.
  step (@int_div_ok block_m warp_m (S (S (S s))) Hwm ltac:(lia)).
  step (@int_div_ok block_n warp_n (S (S (S s))) Hwn ltac:(lia)).
  destruct (@Repeat_atom_tile E HE F0 s 8 8 (atom_rep s) 1 2 32
              (Z.quot block_m warp_m) (Z.quot block_n warp_n) true false (S (S (S s)))
              T0 ltac:(lia) ltac:(lia)) as (F1 & Hrun1 & T1).
  step Hrun1.
  step (@int_div_ok warp_m 8 (S (S (S s))) ltac:(lia) ltac:(lia)).
  step (@int_div_ok warp_n 8 (S (S (S s))) ltac:(lia) ltac:(lia)).
  destruct (@Repeat_atom_tile E HE F1 s _ _ (atom_rep s) 1 _ _
              (Z.quot warp_m 8) (Z.quot warp_n 8) false false (S (S (S s)))
              T1 ltac:(lia) ltac:(lia)) as (F2 & Hrun2 & T2).
  rewrite Hrun2. exists F2. split; [reflexivity|].
  eapply tile_over_eq; [exact T2 | | | | |]; try reflexivity; nia.
Qed.

Lemma makeGemmFragmentC_tile (block_m block_n warp_m warp_n element_size : Z) (s : nat) :
  element_size <> 64 ->
  0 < warp_m -> 0 < warp_n ->
  0 < block_m < 2147483648 -> 0 < block_n < 2147483648 ->
  Z.rem block_m warp_m = 0 -> Z.rem block_n warp_n = 0 ->
  Z.rem warp_m 16 = 0 -> Z.rem warp_n 16 = 0 ->
  exists F,
    makeGemmFragmentC E lower_dim_first_default block_m block_n warp_m warp_n
                      element_size s = Ok (F, S (S (S s))) /\
    tile_over F (atom_box s block_m block_n) (atom_rep s) 1
              (4 * (Z.quot warp_m 16 * Z.quot warp_n 8))
              (32 * (Z.quot block_m warp_m * Z.quot block_n warp_n)).
Proof.
  intros Hes Hwm Hwn Hbm Hbn Hm Hn Hm16 Hn16.
  destruct (quot_exact Hwm (proj1 Hbm) Hm) as [Em Rm].
  destruct (quot_exact Hwn (proj1 Hbn) Hn) as [En Rn].
  assert (Hn8 : Z.rem warp_n 8 = 0) by (apply (@rem_factor warp_n 8 2); [lia | lia | exact Hn16]).
  destruct (@quot_exact warp_m 16 ltac:(lia) Hwm Hm16) as [Em16 Rm16].
  destruct (@quot_exact warp_n 8 ltac:(lia) Hwn Hn8) as [En8 Rn8].
  unfold makeGemmFragmentC.
  destruct (Z.eqb_spec element_size 64) as [|_]; [contradiction|].
  step (@divides_check_ok block_m warp_m "ICHECK(block_m % warp_m == 0)" s
          ltac:(lia) Hm).
  step (@divides_check_ok block_n warp_n "ICHECK(block_n % warp_n == 0)" s
          ltac:(lia) Hn).
  step (@divides_check_ok warp_m 16 "ICHECK(warp_m % 16 == 0)" s ltac:(lia) Hm16).
  step (@divides_check_ok warp_n 16 "ICHECK(warp_n % 16 == 0)" s ltac:(lia) Hn16).
  destruct (makeGemmFragment8x8_tile (E := E) s) as (F0 & Hrun0 & T0). step Hrun0.
  destruct (@Repeat_atom_tile E HE F0 s 8 8 (atom_rep s) 1 2 32 2 1 false
              lower_dim_first_default (S (S (S s))) T0 ltac:(lia) ltac:(lia))
    as (F1 & Hrun1 & T1).
  step Hrun1.
  step (@int_div_ok block_m warp_m (S (S (S s))) Hwm ltac:(lia)).
  step (@int_div_ok block_n warp_n (S (S (S s))) Hwn ltac:(lia)).
  destruct (@Repeat_atom_tile E HE F1 s _ _ (atom_rep s) 1 _ _
              (Z.quot block_m warp_m) (Z.quot block_n warp_n) true false (S (S (S s)))
              T1 ltac:(lia) ltac:(lia)) as (F2 & Hrun2 & T2).
  step Hrun2.
  step (@int_div_ok warp_m 16 (S (S (S s))) ltac:(lia) ltac:(lia)).
  step (@int_div_ok warp_n 8 (S (S (S s))) ltac:(lia) ltac:(lia)).
  destruct (@Repeat_atom_tile E HE F2 s _ _ (atom_rep s) 1 _ _
              (Z.quot warp_m 16) (Z.quot warp_n 8) false false (S (S (S s)))
              T2 ltac:(lia) ltac:(lia)) as (F3 & Hrun3 & T3).
  rewrite Hrun3. exists F3. split; [reflexivity|].
  eapply tile_over_eq; [exact T3 | | | | |]; try reflexivity; nia.
Qed.

Lemma makeGemmFragmentA_tile (block_m block_n block_k warp_m warp_n : Z) (s : nat) :
  0 < warp_m -> 0 < warp_n ->
  0 < block_m < 2147483648 -> 0 < block_n < 2147483648 -> 0 < block_k < 2147483648 ->
  Z.rem block_m warp_m = 0 -> Z.rem block_n warp_n = 0 ->
  Z.rem warp_m 16 = 0 -> Z.rem block_k 16 = 0 ->
  exists F,
    makeGemmFragmentA E lower_dim_first_default block_m block_n block_k warp_m warp_n s
    = Ok (F, S (S (S (S s)))) /\
    tile_over F (atom_box s block_m block_k) (mkVar "rep" (S (S (S s))))
              (Z.quot block_n warp_n)
              (8 * (Z.quot warp_m 16 * Z.quot block_k 16))
              (32 * (Z.quot block_m warp_m * Z.quot block_n warp_n)).
Proof.
  intros Hwm Hwn Hbm Hbn Hbk Hm Hn Hm16 Hk16.
  destruct (quot_exact Hwm (proj1 Hbm) Hm) as [Em Rm].
  destruct (quot_exact Hwn (proj1 Hbn) Hn) as [En Rn].
  destruct (@quot_exact warp_m 16 ltac:(lia) Hwm Hm16) as [Em16 Rm16].
  destruct (@quot_exact block_k 16 ltac:(lia) (proj1 Hbk) Hk16) as [Ek16 Rk16].
  unfold makeGemmFragmentA.
  step (@divides_check_ok block_m warp_m "ICHECK(block_m % warp_m == 0)" s
          ltac:(lia) Hm).
  step (@divides_check_ok block_n warp_n "ICHECK(block_n % warp_n == 0)" s
          ltac:(lia) Hn).
  step (@divides_check_ok warp_m 16 "ICHECK(warp_m % 16 == 0)" s ltac:(lia) Hm16).
  step (@divides_check_ok block_k 16 "ICHECK(block_k % 16 == 0)" s ltac:(lia) Hk16).
  destruct (makeGemmFragment8x8_tile (E := E) s) as (F0 & Hrun0 & T0). step Hrun0.
  destruct (@Repeat_atom_tile E HE F0 s 8 8 (atom_rep s) 1 2 32 2 2 false false
              (S (S (S s))) T0 ltac:(lia) ltac:(lia)) as (F1 & Hrun1 & T1).
  step Hrun1.
  step (@int_div_ok block_m warp_m (S (S (S s))) Hwm ltac:(lia)).
  destruct (@Repeat_atom_tile E HE F1 s _ _ (atom_rep s) 1 _ _
              (Z.quot block_m warp_m) 1 true lower_dim_first_default (S (S (S s)))
              T1 ltac:(lia) ltac:(lia)) as (F2 & Hrun2 & T2).
  step Hrun2.
  step (@int_div_ok block_n warp_n (S (S (S s))) Hwn ltac:(lia)).
  destruct (@Replicate_atom_tile E HE F2 s _ _ (atom_rep s) 1 _ _
              (Z.quot block_n warp_n) (S (S (S s))) T2 ltac:(lia) ltac:(lia))
    as (F3 & Hrun3 & T3).
  step Hrun3.
  step (@int_div_ok warp_m 16 (S (S (S (S s)))) ltac:(lia) ltac:(lia)).
  step (@int_div_ok block_k 16 (S (S (S (S s)))) ltac:(lia) ltac:(lia)).
  destruct (@Repeat_atom_tile E HE F3 s _ _ _ _ _ _
              (Z.quot warp_m 16) (Z.quot block_k 16) false false (S (S (S (S s))))
              T3 ltac:(lia) ltac:(lia)) as (F4 & Hrun4 & T4).
  rewrite Hrun4. exists F4. split; [reflexivity|].
  eapply tile_over_eq; [exact T4 | | | | |]; try reflexivity; nia.
Qed.

Lemma makeGemmFragmentB_tile (block_m block_n block_k warp_m warp_n : Z) (s : nat) :
  0 < warp_m <= block_m -> block_m < 2147483648 ->
  0 < warp_n <= block_n -> block_n < 2147483648 ->
  0 < block_k < 2147483648 ->
  Z.rem warp_n 8 = 0 -> Z.rem block_k 16 = 0 ->
  exists F,
    makeGemmFragmentB E lower_dim_first_default block_m block_n block_k warp_m warp_n s
    = Ok (F, S (S (S (S s)))) /\
    tile_over F (atom_box s block_k (warp_n * Z.quot block_n warp_n))
              (mkVar "rep" (S (S (S s))))
              (Z.quot block_m warp_m)
              (4 * (Z.quot block_k 16 * Z.quot warp_n 8))
              (32 * (Z.quot block_m warp_m * Z.quot block_n warp_n)).
Proof.
  intros Hwm Hbm Hwn Hbn Hbk Hn8 Hk16.
  assert (Rm : 1 <= Z.quot block_m warp_m) by (apply Z.quot_le_lower_bound; lia).
  assert (Rn : 1 <= Z.quot block_n warp_n) by (apply Z.quot_le_lower_bound; lia).
  destruct (@quot_exact warp_n 8 ltac:(lia) ltac:(lia) Hn8) as [En8 Rn8].
  destruct (@quot_exact block_k 16 ltac:(lia) (proj1 Hbk) Hk16) as [Ek16 Rk16].
  unfold makeGemmFragmentB.
  step (@divides_check_ok warp_n 8 "ICHECK(warp_n % 8 == 0)" s ltac:(lia) Hn8).
  step (@divides_check_ok block_k 16 "ICHECK(block_k % 16 == 0)" s ltac:(lia) Hk16).
  destruct (makeGemmFragment8x8Transposed_tile (E := E) s) as (F0 & Hrun0 & T0).
  step Hrun0.
  destruct (@Repeat_atom_tile E HE F0 s 8 8 (atom_rep s) 1 2 32 2 1 false false
              (S (S (S s))) T0 ltac:(lia) ltac:(lia)) as (F1 & Hrun1 & T1).
  step Hrun1.
  step (@int_div_ok block_m warp_m (S (S (S s))) ltac:(lia) ltac:(lia)).
  destruct (@Replicate_atom_tile E HE F1 s _ _ (atom_rep s) 1 _ _
              (Z.quot block_m warp_m) (S (S (S s))) T1 ltac:(lia) ltac:(lia))
    as (F2 & Hrun2 & T2).
  step Hrun2.
  step (@int_div_ok block_n warp_n (S (S (S (S s)))) ltac:(lia) ltac:(lia)).
  destruct (@Repeat_atom_tile E HE F2 s _ _ _ _ _ _
              1 (Z.quot block_n warp_n) true lower_dim_first_default (S (S (S (S s))))
              T2 ltac:(lia) ltac:(lia)) as (F3 & Hrun3 & T3).
  step Hrun3.
  step (@int_div_ok block_k 16 (S (S (S (S s)))) ltac:(lia) ltac:(lia)).
  step (@int_div_ok warp_n 8 (S (S (S (S s)))) ltac:(lia) ltac:(lia)).
  destruct (@Repeat_atom_tile E HE F3 s _ _ _ _ _ _
              (Z.quot block_k 16) (Z.quot warp_n 8) false true (S (S (S (S s))))
              T3 ltac:(lia) ltac:(lia)) as (F4 & Hrun4 & T4).
  rewrite Hrun4. exists F4. split; [reflexivity|].
  eapply tile_over_eq; [exact T4 | | | | |]; try reflexivity; nia.
Qed.

Lemma makeGemmVoltaFragmentC_tile
      (block_m block_n warp_m warp_n element_size : Z) (s : nat) :
  element_size = 16 \/ element_size = 32 ->
  0 < warp_m -> 0 < warp_n ->
  0 < block_m < 2147483648 -> 0 < block_n < 2147483648 ->
  Z.rem block_m warp_m = 0 -> Z.rem block_n warp_n = 0 ->
  Z.rem warp_m 32 = 0 -> Z.rem warp_n 32 = 0 ->
  exists F,
    makeGemmVoltaFragmentC E lower_dim_first_default block_m block_n warp_m warp_n
                           element_size s = Ok (F, S (S (S s))) /\
    tile_over F (atom_box s block_m block_n) (atom_rep s) 1
              (32 * (Z.quot warp_m 32 * Z.quot warp_n 32))
              (32 * (Z.quot block_m warp_m * Z.quot block_n warp_n)).
Proof.
  intros Hes Hwm Hwn Hbm Hbn Hm Hn Hm32 Hn32.
  destruct (quot_exact Hwm (proj1 Hbm) Hm) as [Em Rm].
  destruct (quot_exact Hwn (proj1 Hbn) Hn) as [En Rn].
  destruct (@quot_exact warp_m 32 ltac:(lia) Hwm Hm32) as [Em32 Rm32].
  destruct (@quot_exact warp_n 32 ltac:(lia) Hwn Hn32) as [En32 Rn32].
  unfold makeGemmVoltaFragmentC.
  step (@divides_check_ok block_m warp_m "ICHECK(block_m % warp_m == 0)" s
          ltac:(lia) Hm).
  step (@divides_check_ok block_n warp_n "ICHECK(block_n % warp_n == 0)" s
          ltac:(lia) Hn).
  step (@divides_check_ok warp_m 32 "ICHECK(warp_m % 32 == 0)" s ltac:(lia) Hm32).
  step (@divides_check_ok warp_n 32 "ICHECK(warp_n % 32 == 0)" s ltac:(lia) Hn32).
  destruct (makeGemmFragment32x32_tile (E := E) s Hes) as (F0 & Hrun0 & T0). step Hrun0.
  step (@int_div_ok warp_m 32 (S (S (S s))) ltac:(lia) ltac:(lia)).
  step (@int_div_ok warp_n 32 (S (S (S s))) ltac:(lia) ltac:(lia)).
  destruct (@Repeat_atom_tile E HE F0 s 32 32 (atom_rep s) 1 32 32
              (Z.quot warp_m 32) (Z.quot warp_n 32) false false (S (S (S s)))
              T0 ltac:(lia) ltac:(lia)) as (F1 & Hrun1 & T1).
  step Hrun1.
  step (@int_div_ok block_m warp_m (S (S (S s))) Hwm ltac:(lia)).
  step (@int_div_ok block_n warp_n (S (S (S s))) Hwn ltac:(lia)).
  destruct (@Repeat_atom_tile E HE F1 s _ _ (atom_rep s) 1 _ _
              (Z.quot block_m warp_m) (Z.quot block_n warp_n) true
              lower_dim_first_default (S (S (S s)))
              T1 ltac:(lia) ltac:(lia)) as (F2 & Hrun2 & T2).
  rewrite Hrun2. exists F2. split; [reflexivity|].
  eapply tile_over_eq; [exact T2 | | | | |]; try reflexivity; nia.
Qed.

Lemma bind_make_itervar {A} (name : string) (d : PrimExpr) (k : IterVar -> M A) (s : nat) :
  bind (make_itervar name d) k s =
  k (mkIterVar (Range_ctor (IntImm 0) d) (mkVar name s) kDataPar) (S s).
Proof. reflexivity. Qed.

Lemma makeGemmVoltaFragmentA_tile (block_m block_n block_k warp_m warp_n : Z) (s : nat) :
  0 < warp_m -> 0 < warp_n ->
  0 < block_m < 2147483648 -> 0 < block_n < 2147483648 -> 0 < block_k < 2147483648 ->
  Z.rem block_m warp_m = 0 -> Z.rem block_n warp_n = 0 ->
  Z.rem warp_m 32 = 0 -> Z.rem block_k 4 = 0 ->
  exists F,
    makeGemmVoltaFragmentA E lower_dim_first_default block_m block_n block_k
                           warp_m warp_n s = Ok (F, S (S (S (S s)))) /\
    tile_over F (atom_box s block_m block_k) (mkVar "rep" (S (S (S s))))
              (2 * Z.quot block_n warp_n)
              (8 * (Z.quot warp_m 32 * Z.quot block_k 4))
              (32 * (Z.quot block_n warp_n * Z.quot block_m warp_m)).
Proof.
  intros Hwm Hwn Hbm Hbn Hbk Hm Hn Hm32 Hk4.
  destruct (quot_exact Hwm (proj1 Hbm) Hm) as [Em Rm].
  destruct (quot_exact Hwn (proj1 Hbn) Hn) as [En Rn].
  destruct (@quot_exact warp_m 32 ltac:(lia) Hwm Hm32) as [Em32 Rm32].
  destruct (@quot_exact block_k 4 ltac:(lia) (proj1 Hbk) Hk4) as [Ek4 Rk4].
  unfold makeGemmVoltaFragmentA.
  step (@divides_check_ok block_m warp_m "ICHECK(block_m % warp_m == 0)" s
          ltac:(lia) Hm).
  step (@divides_check_ok block_n warp_n "ICHECK(block_n % warp_n == 0)" s
          ltac:(lia) Hn).
  step (@divides_check_ok warp_m 32 "ICHECK(warp_m % 32 == 0)" s ltac:(lia) Hm32).
  step (@divides_check_ok block_k 4 "ICHECK(block_k % 4 == 0)" s ltac:(lia) Hk4).
  rewrite !bind_make_itervar. cbv zeta. cbn [var].
  destruct (VoltaA_atom_tile (E := E) s) as (F0 & Hrun0 & T0). cbv zeta in Hrun0.
  change (mkVar "i" s) with (atom_i s). change (mkVar "j" (S s)) with (atom_j s).
  change (mkVar "rep" (S (S s))) with (atom_rep s).
  fold (idxVoltaA s). fold (thdVoltaA s).
  change (Range_ctor (IntImm 0) (IntImm 32)) with (mkRange (IntImm 0) (IntImm 32)).
  change (Range_ctor (IntImm 0) (IntImm 4)) with (mkRange (IntImm 0) (IntImm 4)).
  change (Range_ctor (IntImm 0) (IntImm 2)) with (mkRange (IntImm 0) (IntImm 2)).
  step Hrun0.
  step (@int_div_ok warp_m 32 (S (S (S s))) ltac:(lia) ltac:(lia)).
  step (@int_div_ok block_k 4 (S (S (S s))) ltac:(lia) ltac:(lia)).
  destruct (@Repeat_atom_tile E HE F0 s 32 4 (atom_rep s) 2 8 32
              (Z.quot warp_m 32) (Z.quot block_k 4) false false (S (S (S s)))
              T0 ltac:(lia) ltac:(lia)) as (F1 & Hrun1 & T1).
  step Hrun1.
  step (@int_div_ok block_n warp_n (S (S (S s))) Hwn ltac:(lia)).
  destruct (@Replicate_atom_tile E HE F1 s _ _ (atom_rep s) 2 _ _
              (Z.quot block_n warp_n) (S (S (S s))) T1 ltac:(lia) ltac:(lia))
    as (F2 & Hrun2 & T2).
  step Hrun2.
  step (@int_div_ok block_m warp_m (S (S (S (S s)))) Hwm ltac:(lia)).
  destruct (@Repeat_atom_tile E HE F2 s _ _ _ _ _ _
              (Z.quot block_m warp_m) 1 true lower_dim_first_default (S (S (S (S s))))
              T2 ltac:(lia) ltac:(lia)) as (F3 & Hrun3 & T3).
  rewrite Hrun3. exists F3. split; [reflexivity|].
  eapply tile_over_eq; [exact T3 | | | | |]; try reflexivity; nia.
Qed.

End GemmFragments.

(* ================================================================== *)
(** * Slots under [Repeat] and [Replicate], and in the GEMM fragments *)

Section SlotTheorems.
Variable E : Engine.
Context {HE : EngineLaws E}.

Lemma tile_over_of F B r R index0 t shape :
  frag_over F B r R -> forward_index_ F = [index0] ->
  ThreadExtent E F = Ok t -> FragmentNode_OutputShape E F = Ok shape ->
  slots_distinct F B r R ->
  exists L T, tile_over F B r R L T.
Proof.
  intros Hfo Hidx Ht Hshape Hslots.
  destruct (ThreadExtent_inv (E := E) (fo_thread Hfo) Ht) as (T & _ & HT).
  destruct (FragmentNode_OutputShape_inv (E := E) Hfo Hshape) as (Ls & _ & HLs).
  rewrite Hidx in HLs. inversion HLs as [|? L ? Ls' HL _]; subst.
  exists L, T. constructor; try assumption. exists index0. split; assumption.
Qed.

(** X14: let [F] be a fragment over a zero-based box with positive constant
    extents, with one output, whose [ThreadExtent] and [OutputShape] are
    defined, and in which no two points of the box (replicas included) have
    the same thread and the same index.  Then [Repeat], on the thread or on
    the data, in either order of the dimensions, with positive constant
    counts, returns a fragment over the repeated box in which again no two
    points have the same thread and the same index. *)
Theorem Repeat_keeps_slots (F : FragmentNode) (B : Box) (r : Var) (R : Z)
        (cs : list Z) (repeat_on_thread lower_dim_first : bool) (s : nat)
        (index0 t : PrimExpr) (shape : list PrimExpr) :
  frag_over F B r R ->
  List.length cs = InputDim F ->
  Forall (fun c => 0 < c) cs ->
  forward_index_ F = [index0] ->
  ThreadExtent E F = Ok t ->
  FragmentNode_OutputShape E F = Ok shape ->
  slots_distinct F B r R ->
  exists F',
    FragmentNode_Repeat E F (map IntImm cs) repeat_on_thread lower_dim_first s
    = Ok (F', s) /\
    frag_over F' (rep_box B cs) r R /\
    slots_distinct F' (rep_box B cs) r R.
Proof.
  intros Hfo Hlen Hcs Hidx Ht Hshape Hslots.
  rewrite (thread_over_InputDim (fo_thread Hfo)) in Hlen.
  destruct (tile_over_of Hfo Hidx Ht Hshape Hslots) as (L & T & Htile).
  destruct repeat_on_thread.
  - destruct (@Repeat_on_thread_tile E HE F B r R L T cs Hlen Hcs Htile lower_dim_first s)
      as (F' & Hrun & Htile').
    exists F'. split; [exact Hrun|].
    split; [exact (tile_frag Htile') | exact (tile_slots Htile')].
  - destruct (@Repeat_on_data_tile E HE F B r R L T cs Hlen Hcs Htile lower_dim_first s)
      as (F' & Hrun & Htile').
    exists F'. split; [exact Hrun|].
    split; [exact (tile_frag Htile') | exact (tile_slots Htile')].
Qed.

(** X15: under the same conditions, and in a state beyond the variables of
    the box, [Replicate(n)] for [n >= 1] returns a fragment over the same
    box with a new replication variable of [n] times the extent, in which
    no two points, replicas included, have the same thread and the same
    index. *)
Theorem Replicate_keeps_slots (F : FragmentNode) (B : Box) (r : Var) (R n : Z)
        (s : nat) (index0 t : PrimExpr) (shape : list PrimExpr) :
  frag_over F B r R ->
  Forall (fun x => (var_id x < s)%nat) (map fst B) ->
  forward_index_ F = [index0] ->
  ThreadExtent E F = Ok t ->
  FragmentNode_OutputShape E F = Ok shape ->
  slots_distinct F B r R ->
  1 <= n ->
  exists G,
    FragmentNode_Replicate E F n s = Ok (G, S s) /\
    frag_over G B (mkVar "rep" s) (R * n) /\
    ReplicateExtent G = IntImm (R * n) /\
    slots_distinct G B (mkVar "rep" s) (R * n).
Proof.
  intros Hfo Hfresh Hidx Ht Hshape Hslots Hn.
  destruct (tile_over_of Hfo Hidx Ht Hshape Hslots) as (L & T & Htile).
  destruct (@Replicate_tile E HE F B r R L T s Htile Hfresh n Hn) as (G & Hrun & Htile').
  exists G. split; [exact Hrun|]. split; [exact (tile_frag Htile')|].
  split; [exact (thread_over_ReplicateExtent (fo_thread (tile_frag Htile')))|].
  exact (tile_slots Htile').
Qed.

(** What the theorems on the factories say of the fragment [F] they return:
    its input shape, its replication extent [R], its thread extent [T], its
    single output extent [L], that no two elements (in any replica) share a
    thread and an index, and that there are as many slots as elements. *)
Definition partitions (F : FragmentNode) (rows cols R L T : Z) : Prop :=
  InputShape F = [IntImm rows; IntImm cols] /\
  ReplicateExtent F = IntImm R /\
  ThreadExtent E F = Ok (IntImm T) /\
  FragmentNode_OutputShape E F = Ok [IntImm L] /\
  fragment_injective F /\
  T * L = rows * cols * R.

Lemma tile_partitions F (s : nat) rows cols r R L T :
  tile_over F (atom_box s rows cols) r R L T -> T * L = rows * cols * R ->
  partitions F rows cols R L T.
Proof.
  intros Htile Hcount.
  destruct (tile_over_summary (E := E) Htile) as (H1 & H2 & H3 & H4 & H5).
  repeat split; assumption.
Qed.

End SlotTheorems.

Ltac count_slots :=
  repeat match goal with
         | H : ?a = ?b * Z.quot ?a ?b |- _ =>
             let q := fresh "q" in
             remember (Z.quot a b) as q eqn:Hq; clear Hq
         end;
  subst; ring.

Section FactoryTheorems.
Variable E : Engine.
Context {HE : EngineLaws E}.
Variable lower_dim_first_default : bool.

(** X16: both 8x8 atoms, [makeGemmFragment8x8] and
    [makeGemmFragment8x8Transposed], spread the 64 elements of the tile over
    32 threads with 2 elements each, and no two elements share a thread and
    an index. *)
Theorem makeGemmFragment8x8_partitions (s : nat) :
  (exists F, makeGemmFragment8x8 E s = Ok (F, S (S (S s))) /\
             partitions E F 8 8 1 2 32) /\
  (exists F, makeGemmFragment8x8Transposed E s = Ok (F, S (S (S s))) /\
             partitions E F 8 8 1 2 32).
Proof.
  split.
  - destruct (makeGemmFragment8x8_tile (E := E) s) as (F & Hrun & Htile).
    exists F. split; [exact Hrun|]. now apply (tile_partitions Htile).
  - destruct (makeGemmFragment8x8Transposed_tile (E := E) s) as (F & Hrun & Htile).
    exists F. split; [exact Hrun|]. now apply (tile_partitions Htile).
Qed.

(** X17: for an element size of 16 or 32 bits, [makeGemmFragment32x32]
    spreads the 1024 elements of the tile over 32 threads with 32 elements
    each, and no two elements share a thread and an index; for any other
    element size it fails its check. *)
Theorem makeGemmFragment32x32_partitions (element_size : Z) (s : nat) :
  (element_size = 16 \/ element_size = 32 ->
   exists F, makeGemmFragment32x32 E element_size s = Ok (F, S (S (S s))) /\
             partitions E F 32 32 1 32 32) /\
  (element_size <> 16 -> element_size <> 32 ->
   makeGemmFragment32x32 E element_size s
   = CheckFail "ICHECK(element_size == 16 || element_size == 32)").
Proof.
  split.
  - intros Hes.
    destruct (makeGemmFragment32x32_tile (E := E) s Hes) as (F & Hrun & Htile).
    exists F. split; [exact Hrun|]. now apply (tile_partitions Htile).
  - intros H16 H32. unfold makeGemmFragment32x32.
    rewrite !bind_make_itervar. unfold bind, ICHECK, fail.
    destruct (Z.eqb_spec element_size 16); [contradiction|].
    destruct (Z.eqb_spec element_size 32); [contradiction|]. reflexivity.
Qed.

(** X18: for positive sizes below 2^31 that pass the four checks,
    [makeGemmFragmentC_F64] returns a fragment of the [block_m] x [block_n]
    tile on [32 * (block_m / warp_m) * (block_n / warp_n)] threads with
    [2 * (warp_m / 8) * (warp_n / 8)] elements each, without replication;
    no two elements share a thread and an index, and there are as many
    slots as elements. *)
Theorem makeGemmFragmentC_F64_partitions (block_m block_n warp_m warp_n : Z) (s : nat) :
  0 < warp_m -> 0 < warp_n ->
  0 < block_m < 2147483648 -> 0 < block_n < 2147483648 ->
  Z.rem block_m warp_m = 0 -> Z.rem block_n warp_n = 0 ->
  Z.rem warp_m 16 = 0 -> Z.rem warp_n 16 = 0 ->
  exists F,
    makeGemmFragmentC_F64 E block_m block_n warp_m warp_n s = Ok (F, S (S (S s))) /\
    partitions E F block_m block_n 1
               (2 * (Z.quot warp_m 8 * Z.quot warp_n 8))
               (32 * (Z.quot block_m warp_m * Z.quot block_n warp_n)).
Proof.
  intros Hwm Hwn Hbm Hbn Hm Hn Hm16 Hn16.
  destruct (makeGemmFragmentC_F64_tile (E := E) s Hwm Hwn Hbm Hbn Hm Hn Hm16 Hn16)
    as (F & Hrun & Htile).
  exists F. split; [exact Hrun|]. apply (tile_partitions Htile).
  destruct (quot_exact Hwm (proj1 Hbm) Hm) as [Em _].
  destruct (quot_exact Hwn (proj1 Hbn) Hn) as [En _].
  assert (Hm8 : Z.rem warp_m 8 = 0)
    by (apply (@rem_factor warp_m 8 2); [lia | lia | exact Hm16]).
  assert (Hn8 : Z.rem warp_n 8 = 0)
    by (apply (@rem_factor warp_n 8 2); [lia | lia | exact Hn16]).
  destruct (@quot_exact warp_m 8 ltac:(lia) Hwm Hm8) as [Em8 _].
  destruct (@quot_exact warp_n 8 ltac:(lia) Hwn Hn8) as [En8 _].
  clear Hm Hn Hm16 Hn16 Hm8 Hn8 Hrun Htile. count_slots.
Qed.

(** X19: for an element size other than 64 and positive sizes below 2^31
    that pass the four checks, [makeGemmFragmentC] returns a fragment of the
    [block_m] x [block_n] tile on [32 * (block_m / warp_m) * (block_n /
    warp_n)] threads with [4 * (warp_m / 16) * (warp_n / 8)] elements each,
    without replication, whichever value the default of [lower_dim_first]
    has; no two elements share a thread and an index, and there are as many
    slots as elements. *)
Theorem makeGemmFragmentC_partitions
        (block_m block_n warp_m warp_n element_size : Z) (s : nat) :
  element_size <> 64 ->
  0 < warp_m -> 0 < warp_n ->
  0 < block_m < 2147483648 -> 0 < block_n < 2147483648 ->
  Z.rem block_m warp_m = 0 -> Z.rem block_n warp_n = 0 ->
  Z.rem warp_m 16 = 0 -> Z.rem warp_n 16 = 0 ->
  exists F,
    makeGemmFragmentC E lower_dim_first_default block_m block_n warp_m warp_n
                      element_size s = Ok (F, S (S (S s))) /\
    partitions E F block_m block_n 1
               (4 * (Z.quot warp_m 16 * Z.quot warp_n 8))
               (32 * (Z.quot block_m warp_m * Z.quot block_n warp_n)).
Proof.
  intros Hes Hwm Hwn Hbm Hbn Hm Hn Hm16 Hn16.
  destruct (makeGemmFragmentC_tile (E := E) lower_dim_first_default s Hes Hwm Hwn Hbm Hbn
              Hm Hn Hm16 Hn16) as (F & Hrun & Htile).
  exists F. split; [exact Hrun|]. apply (tile_partitions Htile).
  destruct (quot_exact Hwm (proj1 Hbm) Hm) as [Em _].
  destruct (quot_exact Hwn (proj1 Hbn) Hn) as [En _].
  assert (Hn8 : Z.rem warp_n 8 = 0)
    by (apply (@rem_factor warp_n 8 2); [lia | lia | exact Hn16]).
  destruct (@quot_exact warp_m 16 ltac:(lia) Hwm Hm16) as [Em16 _].
  destruct (@quot_exact warp_n 8 ltac:(lia) Hwn Hn8) as [En8 _].
  clear Hm Hn Hm16 Hn16 Hn8 Hrun Htile. count_slots.
Qed.

(** X20: for positive sizes below 2^31 that pass the four checks,
    [makeGemmFragmentA] returns a fragment of the [block_m] x [block_k]
    tile, replicated [block_n / warp_n] times, on [32 * (block_m / warp_m)
    * (block_n / warp_n)] threads with [8 * (warp_m / 16) * (block_k / 16)]
    elements each; no two elements, in any replica, share a thread and an
    index, and there are as many slots as elements and replicas. *)
Theorem makeGemmFragmentA_partitions
        (block_m block_n block_k warp_m warp_n : Z) (s : nat) :
  0 < warp_m -> 0 < warp_n ->
  0 < block_m < 2147483648 -> 0 < block_n < 2147483648 -> 0 < block_k < 2147483648 ->
  Z.rem block_m warp_m = 0 -> Z.rem block_n warp_n = 0 ->
  Z.rem warp_m 16 = 0 -> Z.rem block_k 16 = 0 ->
  exists F,
    makeGemmFragmentA E lower_dim_first_default block_m block_n block_k warp_m warp_n s
    = Ok (F, S (S (S (S s)))) /\
    partitions E F block_m block_k (Z.quot block_n warp_n)
               (8 * (Z.quot warp_m 16 * Z.quot block_k 16))
               (32 * (Z.quot block_m warp_m * Z.quot block_n warp_n)).
Proof.
  intros Hwm Hwn Hbm Hbn Hbk Hm Hn Hm16 Hk16.
  destruct (makeGemmFragmentA_tile (E := E) lower_dim_first_default s Hwm Hwn Hbm Hbn Hbk
              Hm Hn Hm16 Hk16) as (F & Hrun & Htile).
  exists F. split; [exact Hrun|]. apply (tile_partitions Htile).
  destruct (quot_exact Hwm (proj1 Hbm) Hm) as [Em _].
  destruct (@quot_exact warp_m 16 ltac:(lia) Hwm Hm16) as [Em16 _].
  destruct (@quot_exact block_k 16 ltac:(lia) (proj1 Hbk) Hk16) as [Ek16 _].
  clear Hm Hn Hm16 Hk16 Hrun Htile. count_slots.
Qed.

(** X21: [makeGemmFragmentB] checks [warp_n] and [block_k] only.  For
    positive sizes below 2^31 with [warp_m <= block_m] and [warp_n <=
    block_n] it returns a fragment whose input shape is [block_k] x [warp_n
    * (block_n / warp_n)], the columns being rounded down to whole warps,
    replicated [block_m / warp_m] times, on [32 * (block_m / warp_m) *
    (block_n / warp_n)] threads with [4 * (block_k / 16) * (warp_n / 8)]
    elements each; no two elements, in any replica, share a thread and an
    index, and there are as many slots as elements and replicas. *)
Theorem makeGemmFragmentB_partitions
        (block_m block_n block_k warp_m warp_n : Z) (s : nat) :
  0 < warp_m <= block_m -> block_m < 2147483648 ->
  0 < warp_n <= block_n -> block_n < 2147483648 ->
  0 < block_k < 2147483648 ->
  Z.rem warp_n 8 = 0 -> Z.rem block_k 16 = 0 ->
  exists F,
    makeGemmFragmentB E lower_dim_first_default block_m block_n block_k warp_m warp_n s
    = Ok (F, S (S (S (S s)))) /\
    partitions E F block_k (warp_n * Z.quot block_n warp_n) (Z.quot block_m warp_m)
               (4 * (Z.quot block_k 16 * Z.quot warp_n 8))
               (32 * (Z.quot block_m warp_m * Z.quot block_n warp_n)).
Proof.
  intros Hwm Hbm Hwn Hbn Hbk Hn8 Hk16.
  destruct (makeGemmFragmentB_tile (E := E) lower_dim_first_default s Hwm Hbm Hwn Hbn Hbk
              Hn8 Hk16) as (F & Hrun & Htile).
  exists F. split; [exact Hrun|]. apply (tile_partitions Htile).
  destruct (@quot_exact warp_n 8 ltac:(lia) ltac:(lia) Hn8) as [En8 _].
  destruct (@quot_exact block_k 16 ltac:(lia) (proj1 Hbk) Hk16) as [Ek16 _].
  clear Hn8 Hk16 Hrun Htile.
  remember (Z.quot block_m warp_m) as qm eqn:Hqm. clear Hqm.
  remember (Z.quot block_n warp_n) as qn eqn:Hqn. clear Hqn.
  count_slots.
Qed.

(** X22: for an element size of 16 or 32 bits and positive sizes below 2^31
    that pass the four checks, [makeGemmVoltaFragmentC] returns a fragment
    of the [block_m] x [block_n] tile on [32 * (block_m / warp_m) *
    (block_n / warp_n)] threads with [32 * (warp_m / 32) * (warp_n / 32)]
    elements each, without replication; no two elements share a thread and
    an index, and there are as many slots as elements. *)
Theorem makeGemmVoltaFragmentC_partitions
        (block_m block_n warp_m warp_n element_size : Z) (s : nat) :
  element_size = 16 \/ element_size = 32 ->
  0 < warp_m -> 0 < warp_n ->
  0 < block_m < 2147483648 -> 0 < block_n < 2147483648 ->
  Z.rem block_m warp_m = 0 -> Z.rem block_n warp_n = 0 ->
  Z.rem warp_m 32 = 0 -> Z.rem warp_n 32 = 0 ->
  exists F,
    makeGemmVoltaFragmentC E lower_dim_first_default block_m block_n warp_m warp_n
                           element_size s = Ok (F, S (S (S s))) /\
    partitions E F block_m block_n 1
               (32 * (Z.quot warp_m 32 * Z.quot warp_n 32))
               (32 * (Z.quot block_m warp_m * Z.quot block_n warp_n)).
Proof.
  intros Hes Hwm Hwn Hbm Hbn Hm Hn Hm32 Hn32.
  destruct (makeGemmVoltaFragmentC_tile (E := E) lower_dim_first_default s Hes Hwm Hwn
              Hbm Hbn Hm Hn Hm32 Hn32) as (F & Hrun & Htile).
  exists F. split; [exact Hrun|]. apply (tile_partitions Htile).
  destruct (quot_exact Hwm (proj1 Hbm) Hm) as [Em _].
  destruct (quot_exact Hwn (proj1 Hbn) Hn) as [En _].
  destruct (@quot_exact warp_m 32 ltac:(lia) Hwm Hm32) as [Em32 _].
  destruct (@quot_exact warp_n 32 ltac:(lia) Hwn Hn32) as [En32 _].
  clear Hes Hm Hn Hm32 Hn32 Hrun Htile. count_slots.
Qed.

(** X23: for positive sizes below 2^31 that pass the four checks,
    [makeGemmVoltaFragmentA] returns a fragment of the [block_m] x
    [block_k] tile, replicated [2 * (block_n / warp_n)] times, on [32 *
    (block_n / warp_n) * (block_m / warp_m)] threads with [8 * (warp_m /
    32) * (block_k / 4)] elements each; no two elements, in any replica,
    share a thread and an index, and there are as many slots as elements
    and replicas. *)
Theorem makeGemmVoltaFragmentA_partitions
        (block_m block_n block_k warp_m warp_n : Z) (s : nat) :
  0 < warp_m -> 0 < warp_n ->
  0 < block_m < 2147483648 -> 0 < block_n < 2147483648 -> 0 < block_k < 2147483648 ->
  Z.rem block_m warp_m = 0 -> Z.rem block_n warp_n = 0 ->
  Z.rem warp_m 32 = 0 -> Z.rem block_k 4 = 0 ->
  exists F,
    makeGemmVoltaFragmentA E lower_dim_first_default block_m block_n block_k
                           warp_m warp_n s = Ok (F, S (S (S (S s)))) /\
    partitions E F block_m block_k (2 * Z.quot block_n warp_n)
               (8 * (Z.quot warp_m 32 * Z.quot block_k 4))
               (32 * (Z.quot block_n warp_n * Z.quot block_m warp_m)).
Proof.
  intros Hwm Hwn Hbm Hbn Hbk Hm Hn Hm32 Hk4.
  destruct (makeGemmVoltaFragmentA_tile (E := E) lower_dim_first_default s Hwm Hwn Hbm
              Hbn Hbk Hm Hn Hm32 Hk4) as (F & Hrun & Htile).
  exists F. split; [exact Hrun|]. apply (tile_partitions Htile).
  destruct (quot_exact Hwm (proj1 Hbm) Hm) as [Em _].
  destruct (@quot_exact warp_m 32 ltac:(lia) Hwm Hm32) as [Em32 _].
  destruct (@quot_exact block_k 4 ltac:(lia) (proj1 Hbk) Hk4) as [Ek4 _].
  clear Hm Hn Hm32 Hk4 Hrun Htile.
  remember (Z.quot block_n warp_n) as qn eqn:Hqn. clear Hqn.
  count_slots.
Qed.

End FactoryTheorems.

(** ** The theorems at instances, with the reference engine *)

Lemma Repeat_keeps_slots_witness :
  exists F F',
    makeGemmFragment8x8 RefEngine.engine 0%nat = Ok (F, 3%nat) /\
    FragmentNode_Repeat RefEngine.engine F (map IntImm [2; 2]) false true 3%nat
    = Ok (F', 3%nat) /\
    frag_over F' (rep_box (atom_box 0 8 8) [2; 2]) (atom_rep 0) 1 /\
    slots_distinct F' (rep_box (atom_box 0 8 8) [2; 2]) (atom_rep 0) 1.
Proof.
  destruct (@makeGemmFragment8x8_tile RefEngine.engine RefEngineFacts.engine_laws 0%nat)
    as (F & Hrun & Htile).
  destruct (tile_index Htile) as (index0 & Hidx & _).
  destruct (@tile_over_summary RefEngine.engine RefEngineFacts.engine_laws _ _ _ _ _ _
              Htile) as (_ & _ & Ht & Hshape & _).
  destruct (@Repeat_keeps_slots RefEngine.engine RefEngineFacts.engine_laws F
              (atom_box 0 8 8) (atom_rep 0) 1 [2; 2] false true 3%nat index0
              (IntImm 32) [IntImm 2] (tile_frag Htile))
    as (F' & Hrun' & Hfo' & Hslots'); try assumption.
  - now rewrite (thread_over_InputDim (fo_thread (tile_frag Htile))).
  - repeat constructor; lia.
  - exact (tile_slots Htile).
  - exists F, F'. auto.
Defined.

Lemma Replicate_keeps_slots_witness :
  exists F G,
    makeGemmFragment8x8 RefEngine.engine 0%nat = Ok (F, 3%nat) /\
    FragmentNode_Replicate RefEngine.engine F 3 3%nat = Ok (G, 4%nat) /\
    frag_over G (atom_box 0 8 8) (mkVar "rep" 3) (1 * 3) /\
    ReplicateExtent G = IntImm (1 * 3) /\
    slots_distinct G (atom_box 0 8 8) (mkVar "rep" 3) (1 * 3).
Proof.
  destruct (@makeGemmFragment8x8_tile RefEngine.engine RefEngineFacts.engine_laws 0%nat)
    as (F & Hrun & Htile).
  destruct (tile_index Htile) as (index0 & Hidx & _).
  destruct (@tile_over_summary RefEngine.engine RefEngineFacts.engine_laws _ _ _ _ _ _
              Htile) as (_ & _ & Ht & Hshape & _).
  destruct (@Replicate_keeps_slots RefEngine.engine RefEngineFacts.engine_laws F
              (atom_box 0 8 8) (atom_rep 0) 1 3 3%nat index0
              (IntImm 32) [IntImm 2] (tile_frag Htile))
    as (G & Hrun' & Hfo' & Hrep' & Hslots'); try assumption.
  - repeat constructor; simpl; lia.
  - exact (tile_slots Htile).
  - lia.
  - exists F, G. auto.
Defined.

Lemma makeGemmFragment8x8_partitions_witness :
  (exists F, makeGemmFragment8x8 RefEngine.engine 0%nat = Ok (F, 3%nat) /\
             partitions RefEngine.engine F 8 8 1 2 32) /\
  (exists F, makeGemmFragment8x8Transposed RefEngine.engine 0%nat = Ok (F, 3%nat) /\
             partitions RefEngine.engine F 8 8 1 2 32).
Proof.
  exact (@makeGemmFragment8x8_partitions RefEngine.engine RefEngineFacts.engine_laws
           0%nat).
Defined.

Lemma makeGemmFragment32x32_partitions_witness :
  exists F, makeGemmFragment32x32 RefEngine.engine 16 0%nat = Ok (F, 3%nat) /\
            partitions RefEngine.engine F 32 32 1 32 32.
Proof.
  exact (proj1 (@makeGemmFragment32x32_partitions RefEngine.engine
                  RefEngineFacts.engine_laws 16 0%nat) (or_introl eq_refl)).
Defined.

Lemma makeGemmFragmentC_F64_partitions_witness :
  exists F,
    makeGemmFragmentC_F64 RefEngine.engine 64 64 32 32 0%nat = Ok (F, 3%nat) /\
    partitions RefEngine.engine F 64 64 1 32 128.
Proof.
  apply (@makeGemmFragmentC_F64_partitions RefEngine.engine RefEngineFacts.engine_laws
           64 64 32 32 0%nat); first [lia | reflexivity].
Defined.

Lemma makeGemmFragmentC_partitions_witness :
  exists F,
    makeGemmFragmentC RefEngine.engine true 64 64 32 32 16 0%nat = Ok (F, 3%nat) /\
    partitions RefEngine.engine F 64 64 1 32 128.
Proof.
  apply (@makeGemmFragmentC_partitions RefEngine.engine RefEngineFacts.engine_laws
           true 64 64 32 32 16 0%nat); first [lia | reflexivity].
Defined.

Lemma makeGemmFragmentA_partitions_witness :
  exists F,
    makeGemmFragmentA RefEngine.engine true 64 64 32 32 32 0%nat = Ok (F, 4%nat) /\
    partitions RefEngine.engine F 64 32 2 32 128.
Proof.
  apply (@makeGemmFragmentA_partitions RefEngine.engine RefEngineFacts.engine_laws
           true 64 64 32 32 32 0%nat); first [lia | reflexivity].
Defined.

Lemma makeGemmFragmentB_partitions_witness :
  exists F,
    makeGemmFragmentB RefEngine.engine true 64 64 32 32 32 0%nat = Ok (F, 4%nat) /\
    partitions RefEngine.engine F 32 64 2 32 128.
Proof.
  apply (@makeGemmFragmentB_partitions RefEngine.engine RefEngineFacts.engine_laws
           true 64 64 32 32 32 0%nat); first [lia | reflexivity].
Defined.

Lemma makeGemmVoltaFragmentC_partitions_witness :
  exists F,
    makeGemmVoltaFragmentC RefEngine.engine true 64 64 32 32 16 0%nat = Ok (F, 3%nat) /\
    partitions RefEngine.engine F 64 64 1 32 128.
Proof.
  apply (@makeGemmVoltaFragmentC_partitions RefEngine.engine RefEngineFacts.engine_laws
           true 64 64 32 32 16 0%nat); first [lia | reflexivity | now left].
Defined.

Lemma makeGemmVoltaFragmentA_partitions_witness :
  exists F,
    makeGemmVoltaFragmentA RefEngine.engine true 64 64 8 32 32 0%nat = Ok (F, 4%nat) /\
    partitions RefEngine.engine F 64 8 4 16 128.
Proof.
  apply (@makeGemmVoltaFragmentA_partitions RefEngine.engine RefEngineFacts.engine_laws
           true 64 64 8 32 32 0%nat); first [lia | reflexivity].
Defined.

(* ================================================================== *)
(** * The default partition of a loop nest *)

Lemma row_major_zero (xs : list Z) : forall exts,
  Forall (fun x => x = 0) xs -> row_major xs exts = 0.
Proof.
  induction xs as [|x xs IH]; intros [|e exts] H; cbn [row_major]; try reflexivity.
  inversion H; subst. rewrite IH by assumption. lia.
Qed.

Lemma row_major_top (exts : list Z) :
  row_major (map (fun e => e - 1) exts) exts = product exts - 1.
Proof.
  induction exts as [|e exts IH]; cbn [map row_major product]; [reflexivity|].
  rewrite IH. ring.
Qed.

Lemma Partition_loop_closed (K : list Var) (ivs : list IterVar) :
  forall size fl size' fl',
    Partition_loop ivs size fl = Ok (size', fl') ->
    vars_in K fl -> incl (map var ivs) K -> vars_in K fl'.
Proof.
  induction ivs as [|iv ivs IH]; intros size fl size' fl' Hrun Hfl Hk;
    cbn [Partition_loop] in Hrun.
  - inversion Hrun; subst. assumption.
  - destruct (as_const_int (extent (dom iv))) as [ext|]; [|discriminate].
    eapply IH; [exact Hrun | |].
    + apply vars_in_op_add; [apply vars_in_op_mul; [assumption | apply vars_in_const]|].
      intros x [<-|[]]. apply Hk. now left.
    + intros x Hx. apply Hk. now right.
Qed.

Section PartitionTiles.
Variable E : Engine.
Context {HE : EngineLaws E}.

Lemma Partition_tile (op : ForNode) (n : Z) (s : nat) (B : Box) :
  map binding (collected op) = box_analyzer B ->
  good_box (B ++ [(mkVar "unused" s, 1)]) ->
  Forall (fun b => snd b < 2147483648) B ->
  0 < n -> product (map snd B) mod n = 0 ->
  exists F,
    Partition E op n s = Ok (F, S s) /\
    tile_over F B (mkVar "unused" s) 1 (product (map snd B) / n) n.
Proof.
  intros Hvars Hgood Hsmall Hn Hdiv.
  set (u := mkVar "unused" s) in *. set (X := [(u, 1)]) in *.
  set (exts := map snd B) in *.
  destruct (@good_box_snoc_inv _ _ _ Hgood) as (HgoodB & _ & Hu).
  assert (Hkeys : map var (collected op) = map fst B).
  { replace (map var (collected op)) with (map fst (map binding (collected op)))
      by (rewrite map_map; reflexivity).
    rewrite Hvars. apply box_analyzer_vars. }
  assert (Hext : map (fun iv => extent (dom iv)) (collected op) = map IntImm exts).
  { replace (map (fun iv => extent (dom iv)) (collected op))
      with (map (fun b => extent (snd b)) (map binding (collected op)))
      by (rewrite map_map; reflexivity).
    rewrite Hvars. unfold box_analyzer, exts. rewrite !map_map. reflexivity. }
  assert (Hpos : Forall (fun e => 0 < e) exts).
  { unfold exts. apply Forall_map. exact (proj1 HgoodB). }
  assert (Hrange : Forall (fun e => 0 <= e < 2147483648) exts).
  { unfold exts. apply Forall_map. destruct HgoodB as [Hp _].
    rewrite Forall_forall in *. intros b Hb.
    specialize (Hp b Hb). specialize (Hsmall b Hb). lia. }
  destruct (Partition_loop_spec (fun _ => 0) (collected op) 1 (IntImm 0) Hext Hrange)
    as (size' & fl & Hloop & _).
  assert (Hfl : forall env, eval env fl = row_major (map env (map fst B)) exts).
  { intros env.
    destruct (Partition_loop_spec env (collected op) 1 (IntImm 0) Hext Hrange)
      as (size2 & fl2 & Hloop2 & Hval).
    rewrite Hloop in Hloop2. inversion Hloop2; subst. rewrite Hval.
    rewrite <- Hkeys, map_map. simpl. lia. }
  assert (Hclosed : closed_box B fl).
  { unfold closed_box. eapply Partition_loop_closed; [exact Hloop | |].
    - intros x [].
    - rewrite Hkeys. apply incl_refl. }
  set (unused := mkIterVar (mkRange (IntImm 0) (IntImm 1)) u kDataPar).
  assert (Hrun : Partition E op n s =
                 Fragment_ctor E (collected op) [FloorDiv fl (IntImm n)]
                               (FloorMod fl (IntImm n)) (Some unused) (S s)).
  { unfold Partition. fold (collected op). unfold bind at 1. unfold lift at 1.
    rewrite Hloop. unfold int_rem. destruct (Z.eqb_spec n 0); [lia|].
    unfold Fragment_ctor, make_itervar. monad_simpl.
    destruct (negb (Z.rem size' n =? 0)); reflexivity. }
  rewrite Hrun.
  rewrite (@Fragment_ctor_over E (collected op) [FloorDiv fl (IntImm n)]
             (FloorMod fl (IntImm n)) unused B u 1 (S s) Hvars eq_refl).
  cbv zeta. cbn [map]. eexists. split; [reflexivity|].
  assert (Hsize : product exts = n * (product exts / n)).
  { apply Z.div_exact; [lia | exact Hdiv]. }
  assert (Hsize_pos : 0 < product exts) by (now apply product_pos).
  assert (Hin : forall env, in_box env (B ++ X) ->
            0 <= eval env fl < product exts /\ env u = 0).
  { intros env He. apply in_box_app in He. destruct He as [HB HX].
    apply in_box_single in HX. split; [|lia].
    rewrite Hfl. apply row_major_range. now apply in_box_values. }
  assert (Hlow : in_box (fun _ => 0) (B ++ X) /\ eval (fun _ => 0) fl = 0).
  { split.
    - destruct Hgood as [Hp _]. unfold in_box. eapply Forall_impl; [|exact Hp].
      intros b Hb. cbv beta in *. lia.
    - rewrite Hfl. apply row_major_zero. rewrite map_map. apply Forall_map.
      apply Forall_forall. reflexivity. }
  assert (Htop : exists env, in_box env (B ++ X) /\ eval env fl = product exts - 1).
  { destruct (@point_exists (map fst (B ++ X)) (map (fun b => snd b - 1) (B ++ X)))
      as [env Henv]; [exact (proj2 Hgood) | now rewrite !length_map|].
    exists env. split.
    - apply in_box_values. rewrite Henv. destruct Hgood as [Hp _].
      clear - Hp. induction Hp as [|b l Hb _ IH]; cbn [map]; constructor;
        [lia | exact IH].
    - rewrite Hfl, <- row_major_top. f_equal.
      unfold X in Henv. rewrite !map_app in Henv. cbn [map] in Henv.
      apply app_inj_tail in Henv. destruct Henv as [Henv _].
      rewrite Henv. unfold exts. now rewrite map_map. }
  destruct Hlow as [Hlow0 Hlow1]. destruct Htop as (envT & HtopB & HtopV).
  assert (HL : extent_is (B ++ X) (FloorDiv fl (IntImm n)) (product exts / n)).
  { split; [|split].
    - intros env He. destruct (Hin env He) as [Hb _]. cbn [eval]. split.
      + apply Z.div_pos; lia.
      + apply Z.div_lt_upper_bound; lia.
    - exists (fun _ => 0). split; [exact Hlow0|]. cbn [eval]. rewrite Hlow1.
      apply Z.div_0_l. lia.
    - exists envT. split; [exact HtopB|]. cbn [eval]. rewrite HtopV.
      rewrite Hsize at 1.
      replace (n * (product exts / n) - 1) with ((n - 1) + (product exts / n - 1) * n)
        by ring.
      rewrite Z.div_add by lia. rewrite Z.div_small by lia. lia. }
  assert (HT : extent_is (B ++ X) (FloorMod fl (IntImm n)) n).
  { split; [|split].
    - intros env He. cbn [eval]. apply Z.mod_pos_bound. lia.
    - exists (fun _ => 0). split; [exact Hlow0|]. cbn [eval]. rewrite Hlow1.
      apply Z.mod_0_l. lia.
    - exists envT. split; [exact HtopB|]. cbn [eval]. rewrite HtopV.
      rewrite Hsize at 1.
      replace (n * (product exts / n) - 1) with ((n - 1) + (product exts / n - 1) * n)
        by ring.
      rewrite Z_mod_plus_full. apply Z.mod_small. lia. }
  assert (Hcm : closed_box (B ++ X) (FloorMod fl (IntImm n))).
  { intros x Hx. cbn [free_vars] in Hx. rewrite app_nil_r in Hx.
    rewrite map_app. apply in_or_app. left. now apply Hclosed. }
  assert (Hcd : closed_box B (FloorDiv fl (IntImm n))).
  { intros x Hx. cbn [free_vars] in Hx. rewrite app_nil_r in Hx. now apply Hclosed. }
  constructor.
  - constructor; [constructor|]; cbn [forward_var_ forward_index_ forward_thread_
                                      thread_replicate_ Fragment_base].
    + exact Hvars.
    + reflexivity.
    + exact Hgood.
    + now apply (@closed_box_Simplify E HE).
    + constructor; [|constructor]. now apply (@closed_box_Simplify E HE).
  - eexists. split; [reflexivity|]. now apply (@extent_is_Simplify E HE).
  - cbn [forward_thread_]. now apply (@extent_is_Simplify E HE).
  - intros env1 env2 H1 H2 Ht Hi x Hx.
    cbn [forward_thread_ forward_index_ Fragment_base map] in Ht, Hi.
    apply (f_equal (hd 0)) in Hi. cbn [hd] in Hi.
    rewrite !(@Simplify_box E HE) in Ht, Hi by assumption. cbn [eval] in Ht, Hi.
    destruct (Hin env1 H1) as [Hb1 Hu1]. destruct (Hin env2 H2) as [Hb2 Hu2].
    assert (Heq : eval env1 fl = eval env2 fl).
    { rewrite (Z.div_mod (eval env1 fl) n), (Z.div_mod (eval env2 fl) n) by lia.
      congruence. }
    rewrite !Hfl in Heq.
    apply in_box_app in H1, H2. destruct H1 as [H1 _]. destruct H2 as [H2 _].
    apply in_box_values in H1, H2.
    pose proof (row_major_injective H1 H2 Heq) as Hp.
    rewrite map_app, in_app_iff in Hx. cbn [map fst In] in Hx.
    destruct Hx as [Hx|[<-|[]]]; [|congruence].
    revert Hx. apply map_ext_in_iff. exact Hp.
Qed.

(** The fragment of [Partition] keeps the iterations apart whatever the
    thread count: the quotient and the remainder of the flattened index tell
    the flattened index, and this tells the iteration. *)
Lemma Partition_injective (op : ForNode) (n : Z) (s : nat) (B : Box) :
  map binding (collected op) = box_analyzer B ->
  Forall (fun b => 0 < snd b < 2147483648) B ->
  n <> 0 ->
  exists F, Partition E op n s = Ok (F, S s) /\ fragment_injective F.
Proof.
  intros Hvars Hsmall Hn.
  set (exts := map snd B).
  assert (Hkeys : map var (collected op) = map fst B).
  { replace (map var (collected op)) with (map fst (map binding (collected op)))
      by (rewrite map_map; reflexivity).
    rewrite Hvars. apply box_analyzer_vars. }
  assert (Hext : map (fun iv => extent (dom iv)) (collected op) = map IntImm exts).
  { replace (map (fun iv => extent (dom iv)) (collected op))
      with (map (fun b => extent (snd b)) (map binding (collected op)))
      by (rewrite map_map; reflexivity).
    rewrite Hvars. unfold box_analyzer, exts. rewrite !map_map. reflexivity. }
  assert (Hrange : Forall (fun e => 0 <= e < 2147483648) exts).
  { unfold exts. apply Forall_map. eapply Forall_impl; [|exact Hsmall].
    intros b Hb. cbv beta in *. lia. }
  destruct (Partition_returns E op s Hext Hrange Hn) as (fl & unused & Hfl & -> & Hrun).
  eexists. split; [exact Hrun|].
  intros env1 env2 H1 H2 Ht Hi.
  cbn [forward_thread_ forward_index_ forward_var_ thread_replicate_ Fragment_base map]
    in *.
  apply (f_equal (hd 0)) in Hi. cbn [hd] in Hi.
  rewrite !Simplify_sound in Ht, Hi by assumption. cbn [eval] in Ht, Hi.
  assert (Heq : eval env1 fl = eval env2 fl).
  { rewrite (Z.div_mod (eval env1 fl) n), (Z.div_mod (eval env2 fl) n) by lia.
    congruence. }
  rewrite !Hfl in Heq.
  rewrite FragmentNode_UpdateAnalyzer_eq in H1, H2.
  cbn [forward_var_ thread_replicate_ Fragment_base] in H1, H2.
  apply Forall_app in H1, H2. destruct H1 as [H1 U1]. destruct H2 as [H2 U2].
  rewrite Hvars in H1, H2.
  apply models_box_analyzer, in_box_values in H1.
  apply models_box_analyzer, in_box_values in H2.
  rewrite <- Hkeys, map_map in H1, H2.
  pose proof (row_major_injective H1 H2 Heq) as Hp.
  rewrite map_app, !map_app. cbn [map var]. f_equal.
  - rewrite !map_map. exact Hp.
  - inversion U1 as [|? ? Hu1 _]; subst. inversion U2 as [|? ? Hu2 _]; subst.
    unfold in_range in Hu1, Hu2. cbn in Hu1, Hu2. f_equal. lia.
Qed.

End PartitionTiles.

(** X24: let the loops [Partition] collects be zero-based with positive
    constant extents below 2^31 over distinct variables.  For every nonzero
    thread count [Partition] returns a fragment in which no two iterations
    have the same thread and the same index, also when the number of
    iterations is no multiple of the thread count.  When the thread count is
    positive and divides the number of iterations, the [ThreadExtent] of the
    fragment is the thread count and its [OutputShape] is the number of
    iterations per thread. *)
Theorem Partition_keeps_iterations_apart (E : Engine) (HE : EngineLaws E)
        (op : ForNode) (n : Z) (s : nat) (B : Box) :
  map binding (collected op) = box_analyzer B ->
  good_box (B ++ [(mkVar "unused" s, 1)]) ->
  Forall (fun b => snd b < 2147483648) B ->
  n <> 0 ->
  exists F,
    Partition E op n s = Ok (F, S s) /\
    fragment_injective F /\
    (0 < n -> product (map snd B) mod n = 0 ->
     ThreadExtent E F = Ok (IntImm n) /\
     FragmentNode_OutputShape E F = Ok [IntImm (product (map snd B) / n)]).
Proof.
  intros Hvars Hgood Hsmall Hn.
  assert (Hboth : Forall (fun b => 0 < snd b < 2147483648) B).
  { destruct (good_box_app_l _ _ Hgood) as [Hpos _]. rewrite Forall_forall in *.
    intros b Hb. specialize (Hpos b Hb). specialize (Hsmall b Hb). lia. }
  destruct (@Partition_injective E HE op n s B Hvars Hboth Hn) as (F & Hrun & Hinj).
  exists F. split; [exact Hrun|]. split; [exact Hinj|].
  intros Hpos Hdiv.
  destruct (@Partition_tile E HE op n s B Hvars Hgood Hsmall Hpos Hdiv)
    as (F' & Hrun' & Htile).
  rewrite Hrun in Hrun'. apply Ok_fst_inj in Hrun'. subst F'.
  destruct (tile_over_summary (E := E) Htile) as (_ & _ & HT & HL & _).
  split; assumption.
Qed.

Lemma Partition_keeps_iterations_apart_witness :
  exists F,
    Partition RefEngine.engine loop256 64 1%nat = Ok (F, 2%nat) /\
    fragment_injective F /\
    (0 < 64 -> product (map snd [(var_i, 256)]) mod 64 = 0 ->
     ThreadExtent RefEngine.engine F = Ok (IntImm 64) /\
     FragmentNode_OutputShape RefEngine.engine F
     = Ok [IntImm (product (map snd [(var_i, 256)]) / 64)]).
Proof.
  apply (@Partition_keeps_iterations_apart RefEngine.engine RefEngineFacts.engine_laws
           loop256 64 1%nat [(var_i, 256)]).
  - reflexivity.
  - split; [repeat constructor; simpl; lia|].
    simpl. repeat constructor; simpl; intuition discriminate.
  - repeat constructor; simpl; lia.
  - lia.
Defined.

(* ================================================================== *)
(** * The loop variables and the indices of [Copy] *)

(** The ranges that get a loop variable. *)
Definition nonunit (ranges : list Range) : list Range :=
  filter (fun r => negb (is_one (extent r))) ranges.

(** An index stays within its range. *)
Definition within (env : Env) (e : PrimExpr) (r : Range) : Prop :=
  eval env (min r) <= eval env e < eval env (min r) + eval env (extent r).

(** From position [idx] on, the variables range over the extents of the
    ranges that are not of extent one, in order. *)
Definition aligned (ivs : list IterVar) (idx : nat) (ranges : list Range) : Prop :=
  Forall2 (fun iv r => dom iv = mkRange (IntImm 0) (extent r))
          (firstn (List.length (nonunit ranges)) (skipn idx ivs)) (nonunit ranges).

Lemma MakeIterVars_loop_spec (ranges : list Range) : forall idx s,
  exists ivs,
    MakeIterVars_loop ranges idx s = Ok (ivs, (s + List.length (nonunit ranges))%nat) /\
    Forall2 (fun iv r => dom iv = mkRange (IntImm 0) (extent r)) ivs (nonunit ranges).
Proof.
  induction ranges as [|r ranges IH]; intros idx s; cbn [MakeIterVars_loop nonunit filter].
  - exists []. split; [unfold ret; now rewrite Nat.add_0_r | constructor].
  - fold (nonunit ranges). destruct (is_one (extent r)); cbn [negb].
    + apply IH.
    + destruct (IH (S idx) (S s)) as (ivs & Hrun & Hdom).
      unfold bind, new_Var, ret. rewrite Hrun. eexists. split.
      * cbn [List.length]. now rewrite Nat.add_succ_r.
      * constructor; [reflexivity | exact Hdom].
Qed.

Lemma skipn_nth_error {A} (l : list A) : forall idx,
  skipn idx l = match nth_error l idx with
                | Some a => a :: skipn (S idx) l
                | None => []
                end.
Proof.
  induction l as [|a l IH]; intros [|idx]; cbn [skipn nth_error]; try reflexivity.
  rewrite IH. destruct (nth_error l idx); reflexivity.
Qed.

Lemma MakeIndices_loop_fits (ivs : list IterVar) (ranges : list Range) : forall idx,
  (idx + List.length (nonunit ranges) <= List.length ivs)%nat ->
  exists idxs,
    MakeIndices_loop ivs ranges idx
    = Ok (idxs, (idx + List.length (nonunit ranges))%nat) /\
    List.length idxs = List.length ranges /\
    (aligned ivs idx ranges ->
     forall env, Forall (fun iv => in_range env (var iv) (dom iv)) ivs ->
                 Forall2 (within env) idxs ranges).
Proof.
  induction ranges as [|r ranges IH]; intros idx Hfit;
    cbn [MakeIndices_loop nonunit filter] in *.
  - exists []. split; [now rewrite Nat.add_0_r|]. split; [reflexivity|]. constructor.
  - fold (nonunit ranges) in *. unfold aligned. cbn [nonunit filter].
    fold (nonunit ranges).
    destruct (is_one (extent r)) eqn:Hone; cbn [negb] in *.
    + destruct (IH idx Hfit) as (idxs & Hrun & Hlen & Hin).
      rewrite Hrun. cbn [rbind fst snd]. eexists. split; [reflexivity|].
      split; [cbn [List.length]; now rewrite Hlen|].
      intros Hal env Henv. constructor; [|now apply Hin].
      unfold within. unfold is_one, is_const_int in Hone.
      destruct (extent r) as [v| | | | | |]; try discriminate.
      apply Z.eqb_eq in Hone. subst v. cbn [eval]. lia.
    + cbn [List.length] in Hfit.
      destruct (nth_error ivs idx) as [iv|] eqn:Hnth.
      2:{ apply nth_error_None in Hnth. lia. }
      destruct (IH (S idx) ltac:(lia)) as (idxs & Hrun & Hlen & Hin).
      rewrite Hrun. cbn [rbind fst snd]. eexists. split.
      * cbn [List.length]. rewrite Nat.add_succ_r. reflexivity.
      * split; [cbn [List.length]; now rewrite Hlen|].
        intros Hal env Henv. cbn [List.length] in Hal.
        rewrite (skipn_nth_error ivs idx), Hnth in Hal. cbn [firstn] in Hal.
        inversion Hal as [|? ? ? ? Hdom Hrest]; subst.
        constructor; [|apply Hin; assumption].
        unfold within. rewrite eval_op_add. cbn [eval].
        rewrite Forall_forall in Henv.
        pose proof (Henv iv (nth_error_In _ _ Hnth)) as Hr.
        unfold in_range in Hr. rewrite Hdom in Hr. cbn [min extent eval] in Hr. lia.
Qed.

Lemma MakeIndices_loop_short (ivs : list IterVar) (ranges : list Range) : forall idx,
  (idx <= List.length ivs < idx + List.length (nonunit ranges))%nat ->
  exists msg, MakeIndices_loop ivs ranges idx = CheckFail msg.
Proof.
  induction ranges as [|r ranges IH]; intros idx Hshort;
    cbn [MakeIndices_loop nonunit filter List.length] in *.
  - lia.
  - fold (nonunit ranges) in *. destruct (is_one (extent r)); cbn [negb] in *.
    + destruct (IH idx Hshort) as [msg ->]. cbn [rbind]. eauto.
    + cbn [List.length] in Hshort.
      destruct (nth_error ivs idx) as [iv|] eqn:Hnth; [|eauto].
      assert (idx < List.length ivs)%nat by (apply nth_error_Some; congruence).
      destruct (IH (S idx) ltac:(lia)) as [msg ->]. cbn [rbind]. eauto.
Qed.

Lemma models_itervars env (ivs : list IterVar) :
  models env (bind_itervars [] ivs) ->
  Forall (fun iv => in_range env (var iv) (dom iv)) ivs.
Proof.
  rewrite bind_itervars_eq. cbn [app]. unfold models. rewrite Forall_map.
  intros H. eapply Forall_impl; [|exact H]. intros iv Hiv. exact Hiv.
Qed.

Lemma aligned_whole (ivs : list IterVar) (ranges : list Range) :
  Forall2 (fun iv r => dom iv = mkRange (IntImm 0) (extent r)) ivs (nonunit ranges) ->
  aligned ivs 0 ranges.
Proof.
  intros H. unfold aligned. cbn [skipn].
  rewrite <- (Forall2_length H), firstn_all. exact H.
Qed.

(** X25: [MakeIterVars] makes one loop variable for every source range
    whose extent is not the constant one, in order, and the domain of each
    is [[0, extent)] for the extent of its range.  [MakeIndices] for the
    source then always returns, with one index per source range; whenever
    the loop variables are within their domains, every index is within its
    range: at least the minimum, and less than the minimum plus the
    extent. *)
Theorem MakeIndices_src_within (c : Copy) (s : nat) :
  exists ivs idxs,
    MakeIterVars c s = Ok (ivs, (s + List.length (nonunit (src_range c)))%nat) /\
    List.length ivs = List.length (nonunit (src_range c)) /\
    Forall2 (fun iv r => dom iv = mkRange (IntImm 0) (extent r))
            ivs (nonunit (src_range c)) /\
    MakeIndices c ivs 0 = Ok idxs /\
    List.length idxs = List.length (src_range c) /\
    forall env, models env (bind_itervars [] ivs) ->
                Forall2 (within env) idxs (src_range c).
Proof.
  destruct (MakeIterVars_loop_spec (src_range c) 0 s) as (ivs & Hrun & Hdom).
  pose proof (Forall2_length Hdom) as Hlen.
  destruct (@MakeIndices_loop_fits ivs (src_range c) 0 ltac:(simpl; lia))
    as (idxs & Hidx & Hn & Hin).
  exists ivs, idxs. split; [exact Hrun|]. split; [exact Hlen|].
  split; [exact Hdom|]. split; [|split].
  - unfold MakeIndices. cbn [Z.eqb]. rewrite Hidx. cbn [rbind fst snd].
    rewrite Nat.add_0_l, <- Hlen, Nat.eqb_refl. reflexivity.
  - exact Hn.
  - intros env Henv. apply Hin; [now apply aligned_whole | now apply models_itervars].
Qed.

(** X26: [MakeIndices] for the destination, given the loop variables of
    the source, fails when the destination has another number of ranges of
    extent other than one than the source.  When the numbers agree it
    returns one index per destination range, and when moreover these
    extents are those of the source, in order, every index is within its
    range whenever the loop variables are within their domains. *)
Theorem MakeIndices_dst_within (c : Copy) (s : nat) :
  exists ivs,
    MakeIterVars c s = Ok (ivs, (s + List.length (nonunit (src_range c)))%nat) /\
    (List.length (nonunit (dst_range c)) <> List.length (nonunit (src_range c)) ->
     exists msg, MakeIndices c ivs 1 = CheckFail msg) /\
    (List.length (nonunit (dst_range c)) = List.length (nonunit (src_range c)) ->
     exists idxs,
       MakeIndices c ivs 1 = Ok idxs /\
       List.length idxs = List.length (dst_range c) /\
       (map extent (nonunit (dst_range c)) = map extent (nonunit (src_range c)) ->
        forall env, models env (bind_itervars [] ivs) ->
                    Forall2 (within env) idxs (dst_range c))).
Proof.
  destruct (MakeIterVars_loop_spec (src_range c) 0 s) as (ivs & Hrun & Hdom).
  pose proof (Forall2_length Hdom) as Hlen.
  exists ivs. split; [exact Hrun|]. split.
  - intros Hne. unfold MakeIndices. cbn [Z.eqb].
    destruct (Nat.lt_ge_cases (List.length ivs) (List.length (nonunit (dst_range c))))
      as [Hlt|Hge].
    + destruct (@MakeIndices_loop_short ivs (dst_range c) 0 ltac:(simpl; lia))
        as [msg ->]. cbn [rbind]. eauto.
    + destruct (@MakeIndices_loop_fits ivs (dst_range c) 0 ltac:(simpl; lia))
        as (idxs & Hidx & _). rewrite Hidx. cbn [rbind fst snd].
      rewrite Nat.add_0_l.
      destruct (Nat.eqb_spec (List.length (nonunit (dst_range c))) (List.length ivs));
        [lia | eauto].
  - intros Heq.
    destruct (@MakeIndices_loop_fits ivs (dst_range c) 0 ltac:(simpl; lia))
      as (idxs & Hidx & Hn & Hin).
    exists idxs. split; [|split].
    + unfold MakeIndices. cbn [Z.eqb]. rewrite Hidx. cbn [rbind fst snd].
      rewrite Nat.add_0_l, Heq, <- Hlen, Nat.eqb_refl. reflexivity.
    + exact Hn.
    + intros Hext env Henv. apply Hin; [|now apply models_itervars].
      apply aligned_whole.
      clear - Hdom Hext. revert Hext Hdom.
      generalize (nonunit (dst_range c)) (nonunit (src_range c)). intros d.
      revert ivs. induction d as [|rd d IH]; intros ivs [|rs sr] Hext Hdom;
        try discriminate; inversion Hdom; subst; constructor.
      * cbn [map] in Hext. injection Hext as He _. congruence.
      * cbn [map] in Hext. injection Hext as _ Hrest. now apply IH with (l := sr).
Qed.

(* ================================================================== *)
(** * Packing two halves *)

Lemma lor_disjoint (hi lo : Z) :
  0 <= hi -> 0 <= lo < 65536 -> Z.lor (Z.shiftl hi 16) lo = hi * 65536 + lo.
Proof.
  intros Hhi Hlo.
  rewrite Z.shiftl_mul_pow2 by lia. change (2 ^ 16) with 65536.
  rewrite <- Z.lxor_lor, <- Z.add_nocarry_lxor; try reflexivity.
  - apply Z.bits_inj'. intros k Hk. rewrite Z.land_spec, Z.bits_0.
    destruct (Z.lt_ge_cases k 16) as [Hlt|Hge].
    + replace (hi * 65536) with (hi * 2 ^ 16) by reflexivity.
      rewrite Z.mul_pow2_bits_low by lia. reflexivity.
    + rewrite (Z.bits_above_log2 lo k); [apply Bool.andb_false_r | lia |].
      destruct (Z.eq_dec lo 0) as [->|Hnz]; [simpl; lia|].
      apply Z.log2_lt_pow2; [lia|].
      apply Z.lt_le_trans with (2 ^ 16); [simpl; lia|].
      apply Z.pow_le_mono_r; lia.
  - apply Z.bits_inj'. intros k Hk. rewrite Z.land_spec, Z.bits_0.
    destruct (Z.lt_ge_cases k 16) as [Hlt|Hge].
    + replace (hi * 65536) with (hi * 2 ^ 16) by reflexivity.
      rewrite Z.mul_pow2_bits_low by lia. reflexivity.
    + rewrite (Z.bits_above_log2 lo k); [apply Bool.andb_false_r | lia |].
      destruct (Z.eq_dec lo 0) as [->|Hnz]; [simpl; lia|].
      apply Z.log2_lt_pow2; [lia|].
      apply Z.lt_le_trans with (2 ^ 16); [simpl; lia|].
      apply Z.pow_le_mono_r; lia.
Qed.

(** X27: [__pack_half2] puts the 16 bits of [x] in the low half and the 16
    bits of [y] in the high half of a 32-bit word: both halves are read back
    from the result, and distinct pairs give distinct words. *)
Theorem pack_half2_round_trip (x y : Z) :
  0 <= x < 65536 -> 0 <= y < 65536 ->
  0 <= __pack_half2 x y < 4294967296 /\
  __pack_half2 x y mod 65536 = x /\
  __pack_half2 x y / 65536 = y /\
  forall x' y', 0 <= x' < 65536 -> 0 <= y' < 65536 ->
                __pack_half2 x' y' = __pack_half2 x y -> x' = x /\ y' = y.
Proof.
  assert (Hval : forall a b, 0 <= a < 65536 -> 0 <= b < 65536 ->
            __pack_half2 a b = b * 65536 + a).
  { intros a b Ha Hb. unfold __pack_half2.
    assert (Hs : Z.shiftl b 16 = b * 65536)
      by (rewrite Z.shiftl_mul_pow2 by lia; reflexivity).
    rewrite (Z.mod_small a), (Z.mod_small b) by lia.
    rewrite (Z.mod_small (Z.shiftl b 16)) by (rewrite Hs; lia).
    apply lor_disjoint; lia. }
  intros Hx Hy. rewrite (Hval x y Hx Hy). split; [lia|]. split; [|split].
  - rewrite Z.add_comm, Z_mod_plus_full. apply Z.mod_small. lia.
  - rewrite Z.add_comm, Z.div_add by lia. rewrite Z.div_small by lia. lia.
  - intros x' y' Hx' Hy' Heq. rewrite (Hval x' y' Hx' Hy') in Heq. lia.
Qed.

Lemma pack_half2_round_trip_witness :
  0 <= __pack_half2 15360 49152 < 4294967296 /\
  __pack_half2 15360 49152 mod 65536 = 15360 /\
  __pack_half2 15360 49152 / 65536 = 49152 /\
  forall x' y', 0 <= x' < 65536 -> 0 <= y' < 65536 ->
                __pack_half2 x' y' = __pack_half2 15360 49152 ->
                x' = 15360 /\ y' = 49152.
Proof. apply pack_half2_round_trip; lia. Defined.

(* ================================================================== *)
(** * [Inverse] inverts [Forward] *)

(** X28: for every engine that meets the contract and every layout over a
    zero-based box of constant extents whose forward map is detected
    bijective-affine and whose output shape is defined, [Inverse] returns a
    layout with as many inputs as the layout has outputs and with the output
    shape as its input shape; given the outputs of the layout at a point of
    the input domain, its [Forward] returns expressions with the values of
    that point. *)
Theorem Inverse_inverts_Forward :
  forall (E : Engine) (HE : EngineLaws E) (HI : IterMapLaws E)
         (L : LayoutNode) (B : Box) (s : nat) (shape : list PrimExpr),
    layout_over L B ->
    errors (DetectIterMap E (forward_index_ L) (map binding (forward_var_ L))) = [] ->
    LayoutNode_OutputShape E L = Ok shape ->
    exists L1,
      LayoutNode_Inverse E L s = Ok (L1, (s + OutputDim L)%nat) /\
      InputDim L1 = OutputDim L /\
      InputShape L1 = shape /\
      forall (vars : list PrimExpr) (rho : Env),
        Forall2 (fun v b => 0 <= eval rho v < snd b) vars B ->
        exists out back,
          Forward L vars = Ok out /\
          Forward L1 out = Ok back /\
          map (eval rho) back = map (eval rho) vars.
Proof.
  intros E HE HI L B s shape H Hdet Hshape.
  destruct (@Inverse_over E HE HI L B s shape H Hdet Hshape)
    as (Ts & L1 & B1 & -> & _ & Hlen1 & Hext1 & Hrun & Hover1 & _ & Hinv & _).
  exists L1. split; [exact Hrun|]. split; [|split].
  - now rewrite (layout_over_InputDim Hover1).
  - now rewrite (layout_over_InputShape Hover1), Hext1.
  - intros vars rho Hvals.
    pose proof (Forall2_length Hvals) as Hlv.
    destruct (@Forward_eval L B rho vars H Hlv) as (out & envp & Hf & Hp & Hout).
    assert (Hlo : List.length out = List.length B1).
    { rewrite Hlen1. unfold OutputDim.
      rewrite <- (length_map (eval rho) out), Hout. apply length_map. }
    destruct (@Forward_eval L1 B1 rho out Hover1 Hlo) as (back & envq & Hf1 & Hq & Hback).
    exists out, back. split; [exact Hf|]. split; [exact Hf1|].
    rewrite Hback, <- Hp.
    assert (Hep : in_box envp B).
    { apply in_box_values. rewrite Hp.
      apply Forall2_map_left, Forall2_map_right. exact Hvals. }
    rewrite (map_map fst envp). apply Forall2_eq_map.
    apply (Forall2_In_impl (P := fun g b => forall env env1,
             in_box env B ->
             map env1 (map fst B1) = map (eval env) (forward_index_ L) ->
             eval env1 g = env (fst b))); [|exact Hinv].
    intros g b _ _ Hgb. apply (Hgb envp envq Hep). now rewrite Hq, Hout.
Qed.

Lemma Inverse_inverts_Forward_witness :
  exists L1,
    LayoutNode_Inverse RefEngine.engine transpose_layout 2%nat = Ok (L1, 4%nat) /\
    InputDim L1 = OutputDim transpose_layout /\
    InputShape L1 = [IntImm 8; IntImm 4] /\
    forall (vars : list PrimExpr) (rho : Env),
      Forall2 (fun v b => 0 <= eval rho v < snd b) vars
              [(mkVar "i" 0, 4); (mkVar "j" 1, 8)] ->
      exists out back,
        Forward transpose_layout vars = Ok out /\
        Forward L1 out = Ok back /\
        map (eval rho) back = map (eval rho) vars.
Proof.
  exact (@Inverse_inverts_Forward RefEngine.engine RefEngineFacts.engine_laws
           RefEngineFacts.iter_map_laws transpose_layout
           [(mkVar "i" 0, 4); (mkVar "j" 1, 8)] 2%nat [IntImm 8; IntImm 4]
           transpose_layout_over eq_refl transpose_layout_shape).
Defined.

(* ================================================================== *)
(** * Comparing the thread maps of two fragments *)

Lemma StructuralEqual_eq (a : PrimExpr) : forall b,
  StructuralEqual a b = true <-> a = b.
Proof.
  induction a; intros [] ; cbn [StructuralEqual];
    try (split; [discriminate | intros H; discriminate H]).
  - rewrite Z.eqb_eq. split; congruence.
  - destruct (Var_eqb_spec v v0); split; congruence.
  - rewrite andb_true_iff, IHa1, IHa2. split; [intros [-> ->]; reflexivity | intros H; inversion H; auto].
  - rewrite andb_true_iff, IHa1, IHa2. split; [intros [-> ->]; reflexivity | intros H; inversion H; auto].
  - rewrite andb_true_iff, IHa1, IHa2. split; [intros [-> ->]; reflexivity | intros H; inversion H; auto].
  - rewrite andb_true_iff, IHa1, IHa2. split; [intros [-> ->]; reflexivity | intros H; inversion H; auto].
  - rewrite andb_true_iff, IHa1, IHa2. split; [intros [-> ->]; reflexivity | intros H; inversion H; auto].
Qed.

Lemma StructuralEqual_refl (a : PrimExpr) : StructuralEqual a a = true.
Proof. now apply StructuralEqual_eq. Qed.

(** The variables [push_back_vars] makes: one for each identity from [s]. *)
Definition pushed (s n : nat) : list Var := map (mkVar "v") (seq s n).

Lemma push_back_vars_run (n : nat) : forall s,
  push_back_vars n s = Ok (map EVar (pushed s n), (s + n)%nat).
Proof.
  induction n as [|n IH]; intros s; cbn [push_back_vars].
  - unfold ret, pushed. cbn. now rewrite Nat.add_0_r.
  - unfold bind at 1. unfold new_Var at 1. cbv beta iota.
    unfold bind at 1. rewrite IH. cbv beta iota. unfold ret, pushed.
    cbn [seq map]. now rewrite Nat.add_succ_r.
Qed.

Lemma pushed_NoDup (s n : nat) : NoDup (pushed s n).
Proof.
  apply Finite.Injective_map_NoDup; [intros x y Hxy; now inversion Hxy|].
  apply seq_NoDup.
Qed.

Lemma ForwardThread_run (F : FragmentNode) (vars : list PrimExpr) (rep_var : PrimExpr) :
  List.length vars = InputDim F ->
  ForwardThread F vars (Some rep_var) =
  Ok (Substitute (forward_thread_ F)
        (vmap_set (forward_vmap (forward_var_ F) vars) (var (thread_replicate_ F)) rep_var)).
Proof.
  intros Hlen. unfold ForwardThread. destruct vars as [|v vars].
  - cbn [rbind]. unfold forward_vmap. destruct (forward_var_ F); reflexivity.
  - fold (InputDim F). rewrite Hlen, Nat.eqb_refl. reflexivity.
Qed.

(** The environment a substitution of the input variables and the
    replication variable evaluates the thread expression in. *)
Lemma ForwardThread_env (F : FragmentNode) (vars : list PrimExpr) (rep_var : PrimExpr) rho :
  NoDup (map var (forward_var_ F ++ [thread_replicate_ F])) ->
  List.length vars = InputDim F ->
  let env := subst_env rho (vmap_set (forward_vmap (forward_var_ F) vars)
                              (var (thread_replicate_ F)) rep_var) in
  map env (map var (forward_var_ F)) = map (eval rho) vars /\
  env (var (thread_replicate_ F)) = eval rho rep_var.
Proof.
  intros Hnd Hlen env. rewrite map_app in Hnd. cbn [map] in Hnd.
  assert (Hrep : ~ In (var (thread_replicate_ F)) (map var (forward_var_ F))).
  { intros Hin. apply NoDup_remove_2 in Hnd. apply Hnd.
    rewrite app_nil_r. exact Hin. }
  assert (Hvars : NoDup (map var (forward_var_ F))).
  { apply NoDup_remove_1 in Hnd. now rewrite app_nil_r in Hnd. }
  split.
  - rewrite <- (@forward_vmap_point rho (forward_var_ F) vars Hvars Hlen).
    apply map_ext_in. intros x Hx. unfold env, subst_env, vmap_set. cbn [vmap_find].
    rewrite Var_eqb_neq; [reflexivity|]. intros ->. contradiction.
  - unfold env, subst_env, vmap_set. cbn [vmap_find]. now rewrite Var_eqb_refl.
Qed.

Lemma FragmentThreadEqual_run (a b : FragmentNode) (s : nat) :
  FragmentThreadEqual a b s =
  if negb (Nat.eqb (InputDim a) (InputDim b)) then Ok (false, s)
  else if negb (StructuralEqual (ReplicateExtent a) (ReplicateExtent b)) then Ok (false, s)
  else
    let vars := map EVar (pushed (S s) (InputDim a)) in
    let rep := EVar (mkVar "v" s) in
    let m := fun F : FragmentNode =>
      vmap_set (forward_vmap (forward_var_ F) vars) (var (thread_replicate_ F)) rep in
    Ok (StructuralEqual (Substitute (forward_thread_ a) (m a))
                        (Substitute (forward_thread_ b) (m b)),
        (S s + InputDim a)%nat).
Proof.
  unfold FragmentThreadEqual.
  destruct (Nat.eqb (InputDim a) (InputDim b)) eqn:Hdim; cbn [negb]; [|reflexivity].
  destruct (StructuralEqual (ReplicateExtent a) (ReplicateExtent b)); cbn [negb];
    [|reflexivity].
  apply Nat.eqb_eq in Hdim.
  unfold bind at 1. unfold new_Var at 1. cbv beta iota.
  unfold bind at 1. rewrite push_back_vars_run. cbv beta iota.
  assert (Hlen : List.length (map EVar (pushed (S s) (InputDim a))) = InputDim a).
  { unfold pushed. now rewrite !length_map, length_seq. }
  unfold bind at 1. rewrite (@ForwardThread_run a _ _ Hlen). unfold lift at 1. cbv beta iota.
  unfold bind at 1. rewrite (@ForwardThread_run b); [|now rewrite Hlen].
  unfold lift at 1. cbv beta iota zeta.
  destruct (StructuralEqual _ _); reflexivity.
Qed.

(** X29: [FragmentThreadEqual] never fails, and it accepts a fragment
    compared with itself.  When it accepts two fragments whose variables are
    distinct and whose thread expressions mention no other variable, the
    fragments have the same input dimension and the same replication extent,
    and the two thread expressions have the same value whenever the input
    variables of the two fragments have, position by position, the same
    values and the two replication variables have the same value. *)
Theorem FragmentThreadEqual_sound (a b : FragmentNode) (s : nat) :
  NoDup (map var (forward_var_ a ++ [thread_replicate_ a])) ->
  NoDup (map var (forward_var_ b ++ [thread_replicate_ b])) ->
  vars_in (map var (forward_var_ a ++ [thread_replicate_ a])) (forward_thread_ a) ->
  vars_in (map var (forward_var_ b ++ [thread_replicate_ b])) (forward_thread_ b) ->
  (exists r s', FragmentThreadEqual a b s = Ok (r, s')) /\
  (exists s', FragmentThreadEqual a a s = Ok (true, s')) /\
  (forall s', FragmentThreadEqual a b s = Ok (true, s') ->
     InputDim a = InputDim b /\
     ReplicateExtent a = ReplicateExtent b /\
     forall env1 env2,
       map env1 (map var (forward_var_ a)) = map env2 (map var (forward_var_ b)) ->
       env1 (var (thread_replicate_ a)) = env2 (var (thread_replicate_ b)) ->
       eval env1 (forward_thread_ a) = eval env2 (forward_thread_ b)).
Proof.
  intros Hnda Hndb Hca Hcb. split; [|split].
  - rewrite FragmentThreadEqual_run.
    destruct (negb _); [eauto|]. destruct (negb _); eauto.
  - rewrite FragmentThreadEqual_run.
    rewrite Nat.eqb_refl, StructuralEqual_refl. cbn [negb].
    cbv zeta. rewrite StructuralEqual_refl. eauto.
  - intros s'. rewrite FragmentThreadEqual_run.
    destruct (Nat.eqb (InputDim a) (InputDim b)) eqn:Hdim; cbn [negb]; [|discriminate].
    destruct (StructuralEqual (ReplicateExtent a) (ReplicateExtent b)) eqn:Hext;
      cbn [negb]; [|discriminate].
    apply Nat.eqb_eq in Hdim. apply StructuralEqual_eq in Hext.
    cbv zeta. intros Heq.
    assert (Hsub := Ok_fst_inj Heq). apply StructuralEqual_eq in Hsub. clear Heq.
    split; [exact Hdim|]. split; [exact Hext|].
    intros env1 env2 Hvars Hrep.
    set (ys := pushed (S s) (InputDim a)) in *.
    set (y := mkVar "v" s) in *.
    assert (Hlen : List.length (map EVar ys) = InputDim a).
    { unfold ys, pushed. now rewrite !length_map, length_seq. }
    (* an environment that gives the fresh variables the values of the point *)
    destruct (@point_exists (y :: ys)
                (env1 (var (thread_replicate_ a)) :: map env1 (map var (forward_var_ a))))
      as [rho Hrho].
    { exact (pushed_NoDup s (S (InputDim a))). }
    { cbn [List.length]. f_equal. rewrite !length_map.
      unfold ys, pushed. rewrite length_map, length_seq. reflexivity. }
    cbn [map] in Hrho. injection Hrho as Hy Hys.
    assert (Hev : map (eval rho) (map EVar ys) = map env1 (map var (forward_var_ a))).
    { rewrite map_map. exact Hys. }
    destruct (@ForwardThread_env a (map EVar ys) (EVar y) rho Hnda Hlen) as [Ha1 Ha2].
    destruct (@ForwardThread_env b (map EVar ys) (EVar y) rho Hndb) as [Hb1 Hb2];
      [now rewrite Hlen|].
    transitivity (eval rho (Substitute (forward_thread_ a)
                    (vmap_set (forward_vmap (forward_var_ a) (map EVar ys))
                       (var (thread_replicate_ a)) (EVar y)))).
    + rewrite eval_Substitute. apply eval_agree. intros x Hx.
      apply Hca in Hx. rewrite map_app, in_app_iff in Hx. cbn [map In] in Hx.
      destruct Hx as [Hx | [<- | []]].
      * rewrite Hev in Ha1. symmetry. eapply map_ext_in_iff; eassumption.
      * rewrite Ha2. cbn [eval]. symmetry. exact Hy.
    + rewrite Hsub. rewrite eval_Substitute. apply eval_agree. intros x Hx.
      apply Hcb in Hx. rewrite map_app, in_app_iff in Hx. cbn [map In] in Hx.
      destruct Hx as [Hx | [<- | []]].
      * rewrite Hev, Hvars in Hb1. eapply map_ext_in_iff; eassumption.
      * rewrite Hb2. cbn [eval]. rewrite Hy. exact Hrep.
Qed.

(** Two fragments with the same thread map under other variable names. *)
Definition renamed_fragment : FragmentNode :=
  mkFragment
    (mkLayout [mkIterVar (mkRange (IntImm 0) (IntImm 4)) (mkVar "p" 10) kDataPar;
               mkIterVar (mkRange (IntImm 0) (IntImm 8)) (mkVar "q" 11) kDataPar]
              [EVar (mkVar "p" 10); EVar (mkVar "q" 11)])
    (EVar (mkVar "p" 10))
    (mkIterVar (mkRange (IntImm 0) (IntImm 1)) (mkVar "r" 12) kDataPar).

Lemma FragmentThreadEqual_sound_witness :
  (exists r s', FragmentThreadEqual transpose_fragment renamed_fragment 20%nat = Ok (r, s')) /\
  (exists s', FragmentThreadEqual transpose_fragment transpose_fragment 20%nat = Ok (true, s')) /\
  (forall s', FragmentThreadEqual transpose_fragment renamed_fragment 20%nat = Ok (true, s') ->
     InputDim transpose_fragment = InputDim renamed_fragment /\
     ReplicateExtent transpose_fragment = ReplicateExtent renamed_fragment /\
     forall env1 env2,
       map env1 (map var (forward_var_ transpose_fragment)) =
       map env2 (map var (forward_var_ renamed_fragment)) ->
       env1 (var (thread_replicate_ transpose_fragment)) =
       env2 (var (thread_replicate_ renamed_fragment)) ->
       eval env1 (forward_thread_ transpose_fragment) =
       eval env2 (forward_thread_ renamed_fragment)).
Proof.
  apply (@FragmentThreadEqual_sound transpose_fragment renamed_fragment 20%nat).
  - simpl. repeat constructor; simpl; intuition discriminate.
  - simpl. repeat constructor; simpl; intuition discriminate.
  - intros x Hx. simpl in *. tauto.
  - intros x Hx. simpl in *. tauto.
Defined.

(* ================================================================== *)
(** * The inverse of a fragment *)

Section FragmentInverse.
Variable E : Engine.
Context {HE : EngineLaws E} {HI : IterMapLaws E}.

(** The layout [FragmentNode::Inverse] inverts: the index followed by the
    thread, over the input variables followed by the replication variable. *)
Lemma FragmentNode_Inverse_fwd F B r R :
  frag_over F B r R ->
  let fwd := Layout_ctor E (forward_var_ F ++ [thread_replicate_ F])
                           (forward_index_ F ++ [forward_thread_ F]) in
  layout_over fwd (B ++ [(r, R)]) /\
  OutputDim fwd = S (OutputDim F) /\
  forall env, in_box env (B ++ [(r, R)]) ->
    map (eval env) (forward_index_ fwd) =
    map (eval env) (forward_index_ F ++ [forward_thread_ F]).
Proof.
  intros Hfo fwd. pose proof (fo_thread Hfo) as Hto.
  assert (Hb : map binding (forward_var_ F ++ [thread_replicate_ F]) =
               box_analyzer (B ++ [(r, R)])).
  { rewrite map_app. cbn [map]. rewrite (to_vars Hto), (to_rep Hto).
    unfold box_analyzer. now rewrite map_app. }
  assert (Hfwd : fwd = mkLayout (forward_var_ F ++ [thread_replicate_ F])
                         (map (Simplify E (box_analyzer (B ++ [(r, R)])))
                              (forward_index_ F ++ [forward_thread_ F]))).
  { unfold fwd. now apply Layout_ctor_over. }
  split; [|split].
  - rewrite Hfwd. split; cbn [forward_var_ forward_index_].
    + exact Hb.
    + exact (to_good Hto).
    + rewrite Forall_map, Forall_app. split.
      * eapply Forall_impl; [|exact (fo_index Hfo)].
        intros e He x Hx. apply Simplify_vars in Hx. apply He in Hx.
        rewrite map_app. apply in_or_app. now left.
      * constructor; [|constructor].
        intros x Hx. apply Simplify_vars in Hx. exact (to_thread Hto x Hx).
  - rewrite Hfwd. unfold OutputDim. cbn [forward_index_].
    rewrite length_map, length_app. cbn [List.length]. apply Nat.add_1_r.
  - intros env Henv. rewrite Hfwd. cbn [forward_index_]. rewrite map_map.
    apply map_ext. intros e. apply Simplify_sound. now apply models_box_analyzer.
Qed.

End FragmentInverse.

(** X30: for an engine meeting the iteration-map contract and a fragment
    over a constant box, when the index followed by the thread is detected
    as a bijective affine map of the input variables and the replication
    variable and its output shape is defined, [FragmentNode::Inverse]
    returns a layout with one input more than the fragment has outputs and
    that shape as its input shape; its [Forward], given the index values
    and the thread of a point of the domain, returns expressions whose
    values are the input variables and the replication variable of that
    point. *)
Theorem FragmentNode_Inverse_recovers_point :
  forall (E : Engine) (HE : EngineLaws E) (HI : IterMapLaws E)
         (F : FragmentNode) (B : Box) (r : Var) (R : Z) (s : nat)
         (shape : list PrimExpr),
    frag_over F B r R ->
    errors (DetectIterMap E
              (forward_index_ (Layout_ctor E (forward_var_ F ++ [thread_replicate_ F])
                                 (forward_index_ F ++ [forward_thread_ F])))
              (map binding (forward_var_ F ++ [thread_replicate_ F]))) = [] ->
    LayoutNode_OutputShape E
      (Layout_ctor E (forward_var_ F ++ [thread_replicate_ F])
                     (forward_index_ F ++ [forward_thread_ F])) = Ok shape ->
    exists L1,
      FragmentNode_Inverse E F s = Ok (L1, (s + S (OutputDim F))%nat) /\
      InputDim L1 = S (OutputDim F) /\
      InputShape L1 = shape /\
      forall env, in_box env (B ++ [(r, R)]) ->
        exists back,
          Forward L1 (map (fun e => IntImm (eval env e))
                          (forward_index_ F ++ [forward_thread_ F])) = Ok back /\
          forall rho, map (eval rho) back = map env (map fst (B ++ [(r, R)])).
Proof.
  intros E HE HI F B r R s shape Hfo Hdet Hshape.
  destruct (@FragmentNode_Inverse_fwd E HE F B r R Hfo) as (Hover & Hdim & Hval).
  set (fwd := Layout_ctor E (forward_var_ F ++ [thread_replicate_ F])
                            (forward_index_ F ++ [forward_thread_ F])) in *.
  assert (Hdet' : errors (DetectIterMap E (forward_index_ fwd)
                            (map binding (forward_var_ fwd))) = []).
  { exact Hdet. }
  destruct (@Inverse_over E HE HI fwd (B ++ [(r, R)]) s shape Hover Hdet' Hshape)
    as (Ts & L1 & B1 & -> & _ & Hlen1 & Hext1 & Hrun & Hover1 & _ & Hinv & _).
  exists L1. split; [|split; [|split]].
  - unfold FragmentNode_Inverse. fold fwd. rewrite Hrun, Hdim. reflexivity.
  - now rewrite (layout_over_InputDim Hover1), Hlen1.
  - now rewrite (layout_over_InputShape Hover1), Hext1.
  - intros env Henv.
    set (out := map (fun e => IntImm (eval env e))
                    (forward_index_ F ++ [forward_thread_ F])).
    assert (Hlo : List.length out = List.length B1).
    { unfold out. rewrite Hlen1, Hdim, length_map, length_app. cbn [List.length].
      unfold OutputDim. apply Nat.add_1_r. }
    destruct (@Forward_eval L1 B1 (fun _ => 0) out Hover1 Hlo)
      as (back & envq & Hf1 & Hq & Hback).
    exists back. split; [exact Hf1|]. intros rho.
    assert (Hconst : forall rho', map (eval rho') out =
                                  map (eval env) (forward_index_ fwd)).
    { intros rho'. unfold out. rewrite map_map. cbn [eval]. symmetry. now apply Hval. }
    destruct (@Forward_eval L1 B1 rho out Hover1 Hlo)
      as (back' & envq' & Hf1' & Hq' & Hback').
    rewrite Hf1 in Hf1'. injection Hf1' as <-.
    rewrite Hback'. rewrite (map_map fst env). apply Forall2_eq_map.
    apply (Forall2_In_impl (P := fun g b => forall env env1,
             in_box env (B ++ [(r, R)]) ->
             map env1 (map fst B1) = map (eval env) (forward_index_ fwd) ->
             eval env1 g = env (fst b))); [|exact Hinv].
    intros g b _ _ Hgb. apply (Hgb env envq' Henv). now rewrite Hq', Hconst.
Qed.

(** A fragment of the [4 x 8] tile: the thread is the row, the index the
    column. *)
Definition row_fragment : FragmentNode :=
  mkFragment
    (mkLayout [mkIterVar (mkRange (IntImm 0) (IntImm 4)) (mkVar "i" 0) kDataPar;
               mkIterVar (mkRange (IntImm 0) (IntImm 8)) (mkVar "j" 1) kDataPar]
              [EVar (mkVar "j" 1)])
    (EVar (mkVar "i" 0))
    (mkIterVar (mkRange (IntImm 0) (IntImm 1)) (mkVar "rep" 2) kDataPar).

Lemma row_fragment_over :
  frag_over row_fragment [(mkVar "i" 0, 4); (mkVar "j" 1, 8)] (mkVar "rep" 2) 1.
Proof.
  split; [split|].
  - reflexivity.
  - reflexivity.
  - split; [repeat constructor; simpl; lia|].
    simpl. repeat constructor; simpl; intuition discriminate.
  - intros x Hx. simpl in *. tauto.
  - constructor; [|constructor]. intros x Hx. simpl in *. tauto.
Qed.

Lemma FragmentNode_Inverse_recovers_point_witness :
  exists L1,
    FragmentNode_Inverse RefEngine.engine row_fragment 3%nat = Ok (L1, 5%nat) /\
    InputDim L1 = 2%nat /\
    InputShape L1 = [IntImm 8; IntImm 4] /\
    forall env, in_box env [(mkVar "i" 0, 4); (mkVar "j" 1, 8); (mkVar "rep" 2, 1)] ->
      exists back,
        Forward L1 [IntImm (env (mkVar "j" 1)); IntImm (env (mkVar "i" 0))] = Ok back /\
        forall rho, map (eval rho) back =
                    [env (mkVar "i" 0); env (mkVar "j" 1); env (mkVar "rep" 2)].
Proof.
  exact (@FragmentNode_Inverse_recovers_point RefEngine.engine
           RefEngineFacts.engine_laws RefEngineFacts.iter_map_laws
           row_fragment [(mkVar "i" 0, 4); (mkVar "j" 1, 8)] (mkVar "rep" 2) 1 3%nat
           [IntImm 8; IntImm 4] row_fragment_over eq_refl eq_refl).
Defined.
